(** * manage-packages: a shallow embedding of the GHCR package-version manager

    The development follows the TypeScript sources of
    [scripts/manage-packages/src]:

    - the utilities ([DefaultValueMap], the process-wide [controller]),
    - the command-line parser ([validateRepo], [validateTags],
      [cleanAndValidatePositionals] and the three subcommand parsers),
    - the registry client ([printImageIndex], the shape of an image index),
    - the package manager ([unpackRepo], [getPackageVersionsByImageTag],
      [getDigestsFromManifestIndex], [forEachPackageVersion],
      [findOrphanOrTaggedPackageVersions], [logRegistryStats],
      [deletePackageVersions], [deletePackageVersion]),
    - the docker helpers ([trunc8]),
    - the entry point ([runCmd], [main]).

    JavaScript values are modelled as the code uses them: strings as
    [string], [number] ids as [Z], a value that may be [undefined] as an
    [option], a [Map] as an insertion-ordered association list with unique
    keys, a [Set] as a duplicate-free list in insertion order.  Effects
    (logging, console output, registry and ledger calls, the abort signal,
    the process exit code) are threaded explicitly through a process
    state that records a trace of events. *)

From Stdlib Require Import String Ascii List ZArith Bool Lia Permutation.
Import ListNotations.
Local Open Scope string_scope.
Local Open Scope list_scope.
Local Open Scope Z_scope.

Set Implicit Arguments.

(** ** Decidable equality, used for [Map] keys and [Set] members *)

Class EqDec (A : Type) := eq_dec : forall a b : A, {a = b} + {a <> b}.

#[export] Instance string_EqDec : EqDec string := string_dec.
#[export] Instance Z_EqDec : EqDec Z := Z.eq_dec.

#[export] Instance option_EqDec {A} `{EqDec A} : EqDec (option A).
Proof.
intros [a|] [b|]; try (right; discriminate); [|left; reflexivity].
destruct (eq_dec a b) as [->|n]; [left; reflexivity|right; congruence].
Defined.

(** ** JavaScript strings: [indexOf], [split], [substring] *)

Module JsString.

(** [s.indexOf(c)] for a one-character needle: the first index, or -1. *)
Fixpoint indexOf_from (c : ascii) (s : string) (i : Z) : Z :=
  match s with
  | EmptyString => -1
  | String a r => if Ascii.eqb a c then i else indexOf_from c r (i + 1)
  end.

Definition indexOf (c : ascii) (s : string) : Z := indexOf_from c s 0.

(** [s.split(c)] for a one-character separator: never empty. *)
Fixpoint split (c : ascii) (s : string) : list string :=
  match s with
  | EmptyString => [EmptyString]
  | String a r =>
      if Ascii.eqb a c then EmptyString :: split c r
      else match split c r with
           | [] => [String a EmptyString]
           | h :: t => String a h :: t
           end
  end.

(** [s.split(c, limit)] keeps the first [limit] pieces. *)
Definition split_limit (c : ascii) (limit : nat) (s : string) : list string :=
  firstn limit (split c s).

(** [s.substring(0, n)]: a negative [n] counts as 0, a large one is
    clamped to the length. *)
Definition substring0 (n : Z) (s : string) : string :=
  String.substring 0 (Z.to_nat n) s.

(** A JavaScript string is falsy exactly when it is empty. *)
Definition truthy (s : string) : bool :=
  match s with EmptyString => false | _ => true end.

End JsString.

(** ** JavaScript [Map]: insertion-ordered, unique keys *)

Module JsMap.
Section Map.
Context {K V : Type} `{EqDec K}.

Definition t := list (K * V).

Definition empty : t := [].

Fixpoint get (k : K) (m : t) : option V :=
  match m with
  | [] => None
  | (k', v) :: r => if eq_dec k k' then Some v else get k r
  end.

(** [set] overwrites in place, or appends a new entry at the end. *)
Fixpoint set (k : K) (v : V) (m : t) : t :=
  match m with
  | [] => [(k, v)]
  | (k', v') :: r =>
      if eq_dec k k' then (k, v) :: r else (k', v') :: set k v r
  end.

Definition has (k : K) (m : t) : bool :=
  match get k m with Some _ => true | None => false end.

Definition size (m : t) : nat := length m.

Definition keys (m : t) : list K := map fst m.
End Map.
Arguments t : clear implicits.
End JsMap.

(** ** JavaScript [Set] of strings *)

Module JsSet.
Section Set_.
Context {A : Type} `{EqDec A}.

Definition mem (x : A) (s : list A) : bool :=
  if in_dec eq_dec x s then true else false.

(** [add] keeps the position of an element already present. *)
Definition add (x : A) (s : list A) : list A :=
  if mem x s then s else s ++ [x].

(** [new Set(xs)]: the first occurrence of each element, in order. *)
Definition of_list (xs : list A) : list A :=
  fold_left (fun s x => add x s) xs [].

(** [a.intersection(b)]. *)
Definition intersection (a b : list A) : list A :=
  filter (fun x => mem x b) a.

Definition size (s : list A) : nat := length s.
End Set_.
End JsSet.

(** ** The utilities: [DefaultValueMap] *)

Section DefaultValueMap.
Context {K V : Type} `{EqDec K}.

(** The callback receives the key and the map and yields the default. *)
Variable defaultValueCallback : K -> JsMap.t K V -> V.

(** [get(key)]: the value returned and the map afterwards.  [V] is the
    type of the values, as declared; [undefined] is what [Map.get] answers
    for an absent key, the [None] of [JsMap.get]. *)
Definition DefaultValueMap_get (key : K) (m : JsMap.t K V)
  : V * JsMap.t K V :=
  match JsMap.get key m with
  | Some v => (v, m)
  | None =>
      let v := defaultValueCallback key m in
      (v, JsMap.set key v m)
  end.
End DefaultValueMap.

(** ** The repository argument: [validateRepo] and [unpackRepo] *)

Inductive CmdLineParserError : Type :=
| InvalidRepositoryArgument (repo : option string).

Definition slash : ascii := "/"%char.

(** [validateRepo(repo?)]: rejects a missing or empty argument and one
    whose first slash is missing or at index 0. *)
Definition validateRepo (repo : option string)
  : CmdLineParserError + string :=
  match repo with
  | None => inl (InvalidRepositoryArgument None)
  | Some r =>
      if negb (JsString.truthy r) || (JsString.indexOf slash r <? 1)
      then inl (InvalidRepositoryArgument repo)
      else inr r
  end.

(** [unpackRepo(repo)]: the destructuring [[account, repoName]] reads the
    first two elements of the split, each [undefined] when missing. *)
Definition unpackRepo (repo : string) : option string * option string :=
  let parts := JsString.split_limit slash 2 repo in
  (nth_error parts 0, nth_error parts 1).

(** ** The docker helpers: [trunc8] *)

Definition colon : ascii := ":"%char.

(** [s.substring(0, s.indexOf(":") + 9)]. *)
Definition trunc8 (s : string) : string :=
  JsString.substring0 (JsString.indexOf colon s + 9) s.

(** ** Data model *)

(** [Digest] and [Tag] are aliases of [string], as in the source. *)
Abbreviation Digest := string (only parsing).
Abbreviation Tag := string (only parsing).
Definition UNKNOWN_TAG : Tag := "Unknown".

(** A ledger record ([PackageVersion]): [id], [name] (the digest) and
    [metadata?.container?.tags || []]. *)
Record PackageVersion : Type := {
  pv_id : Z;
  pv_name : Digest;
  pv_tags : list Tag
}.

(** An entry of an image index (registry client).  Only [digest] is read by the
    engine; the HTTP body is not validated entry by entry, so the field may
    be [undefined] at run time. *)
Record ImageManifest : Type := { im_digest : option Digest }.

(** The outcome of [getImageIndex]: a [RegistryError] with its status code,
    or an image index with its [manifests]. *)
Inductive IndexResponse : Type :=
| IndexError (statusCode : Z)
| IndexOk (manifests : list ImageManifest).

(** [PkgInfo], the state of a digest in the graph. *)
Record PkgInfo : Type := {
  pi_id : option Z;
  isOrphan : bool;
  belongsToTagsToDelete : bool;
  indexDigest : string;
  tags : list Tag
}.

(** The keys of the digest map are digests; [undefined] can reach it
    through an index entry without a digest. *)
Definition PkgMap := JsMap.t (option Digest) PkgInfo.

(** ** Errors and observable events *)

Inductive Exn : Type :=
| RegistryError (tag : Tag) (statusCode : Z)
| EmptyManifestList (tag : Tag)
| FalsyName (id : Z)
| InconsistentOrphan (id : option Z) (shortDg : string)
                     (indexDg : string) (tgs : list Tag)
| InconsistentNoTag (count : nat)
| TypeErrorUndefined
| DeleteRequestError (id : Z).

Inductive Event : Type :=
| LogError (e : Exn)
| LogAbortReason (e : Exn)
| WarnMissingDigest (imageNameTag : Tag)
| DebugImageIndex (imageNameTag : Tag) (digests : list (option Digest))
| WarnOrphan (id : option Z) (shortDg : string) (willDelete : bool)
| WarnMissingImage (shortDg indexShortDg : string) (tgs : list Tag)
| InfoDeleting (id : Z) (shortDg : string) (byTags : bool)
| ApiDelete (id : Z)
| InfoDeletedCount (n : nat)
| StatVersions (n : nat)
| StatDistinctDigests (n : nat)
| StatTags (n : nat)
| StatToDelete (n : nat) (tgs : list Tag)
| StatOrphans (n : nat)
| ErrorMissingTagGroup (headTag : Tag)
| PrintGroup (tgs : list Tag) (pkgs : list PackageVersion)
| PrintSummary (pkgCount tagGroupCount : nat).

(** ** The process: abort signal, exit code, trace *)

Record Proc : Type := {
  reason : option Exn;
  exitCode : Z;
  trace : list Event
}.

Definition proc0 : Proc := {| reason := None; exitCode := 0; trace := [] |}.

Definition emit (ev : Event) (p : Proc) : Proc :=
  {| reason := reason p; exitCode := exitCode p; trace := trace p ++ [ev] |}.

(** [process.exitCode ||= 1]. *)
Definition exitCode_or_1 (p : Proc) : Proc :=
  {| reason := reason p;
     exitCode := if exitCode p =? 0 then 1 else exitCode p;
     trace := trace p |}.

Definition signal_aborted (p : Proc) : bool :=
  match reason p with Some _ => true | None => false end.

(** [controller.abort(err)]: a no-op once aborted; otherwise the reason is
    stored and the listener installed by [main] runs (every reason here is
    an [Error], so it sets the exit code and logs the reason). *)
Definition controller_abort (err : Exn) (p : Proc) : Proc :=
  match reason p with
  | Some _ => p
  | None =>
      emit (LogAbortReason err)
        (exitCode_or_1
           {| reason := Some err; exitCode := exitCode p; trace := trace p |})
  end.

(** [throwIfAborted()]: the stored reason is thrown. *)
Definition throwIfAborted (p : Proc) : option Exn := reason p.

(** ** The registry client: [printImageIndex] *)

Definition falsy_digest (d : option Digest) : bool :=
  match d with
  | None => true
  | Some s => negb (JsString.truthy s)
  end.

Definition printImageIndex (imageNameTag : Tag) (ms : list ImageManifest)
  (p : Proc) : Proc :=
  emit (DebugImageIndex imageNameTag (map im_digest ms))
    (fold_left
       (fun q m =>
          if falsy_digest (im_digest m)
          then emit (WarnMissingDigest imageNameTag) q else q)
       ms p).

(** ** [getDigestsFromManifestIndex] *)

Definition getDigestsFromManifestIndex (abort printIndex : bool) (tag : Tag)
  (resp : IndexResponse) (p : Proc)
  : (Exn + list (option Digest)) * Proc :=
  match resp with
  | IndexError st =>
      let err := RegistryError tag st in
      if abort
      then (inr [], controller_abort err (emit (LogError err) p))
      else (inl err, p)
  | IndexOk ms =>
      let p1 := if printIndex then printImageIndex tag ms p else p in
      let digests := map im_digest ms in
      match digests with
      | [] =>
          let err := EmptyManifestList tag in
          if abort
          then (inr [], controller_abort err (emit (LogError err) p1))
          else (inl err, p1)
      | _ :: _ => (inr digests, p1)
      end
  end.

(** ** How an awaited call ends *)

(** An awaited call returns a value, throws, or waits for a promise that
    never settles: then nothing after the call runs. *)
Inductive Outcome (A : Type) : Type :=
| Returns (a : A)
| Throws (e : Exn)
| NeverSettles.

Arguments Returns {A} a.
Arguments Throws {A} e.
Arguments NeverSettles {A}.

(** ** [forEachPackageVersion], the task limiter and the join

    The enumeration callback and the body of a task after its fetch run
    without suspension, so a run is a sequence of atomic steps: the next
    ledger record is handed to the callback, or a running task completes.
    A schedule chooses the order; what it leaves undone is completed in
    ledger order, then in the order in which the tasks started.  Any
    running task may complete at any step, so the schedules cover every
    order the event loop allows.

    The limiter is [pLimit(5)] of the library p-limit, which is no part of
    the repository; it is modelled from the documented behaviour of the
    library.  At most five tasks run, the others wait in submission order,
    and a waiting task starts when a running one completes; a submitted
    task starts in a microtask when fewer than five run, that is before
    the enumeration goes on.  [limit.clearQueue()], which both paths
    install as an abort listener, discards the waiting tasks; the promise
    of a discarded task never settles.  The running tasks are not
    cancelled (the requests do not take the signal): they complete, also
    after an abort and after the callback has thrown.  Once the signal is
    aborted the enumeration stops. *)

Inductive Choice : Type :=
| Enumerate
| Resolve (i : nat).

Definition remove_nth {A} (i : nat) (l : list A) : list A :=
  firstn i l ++ skipn (S i) l.

Definition opt_list {A} (o : option A) : list A :=
  match o with Some a => [a] | None => [] end.

(** [pLimit(5)]. *)
Definition concurrency : nat := 5%nat.

(** The limiter: the running tasks in the order they started, the waiting
    tasks in submission order, and whether a waiting task was discarded. *)
Record Limiter (Tk : Type) : Type := {
  lim_active : list Tk;
  lim_queue : list Tk;
  lim_dropped : bool
}.

Section Engine.
Variables St Tk : Type.
Variable aborted : St -> bool.
Variable cb : PackageVersion -> St -> option Exn * St * option Tk.
Variable resolve : Tk -> St -> St.

Definition lim0 : Limiter Tk :=
  {| lim_active := []; lim_queue := []; lim_dropped := false |}.

(** The head of the queue starts when fewer than [concurrency] tasks are
    running. *)
Definition resumeNext (l : Limiter Tk) : Limiter Tk :=
  match lim_queue l with
  | [] => l
  | t :: q =>
      if Nat.ltb (length (lim_active l)) concurrency
      then {| lim_active := lim_active l ++ [t]; lim_queue := q;
              lim_dropped := lim_dropped l |}
      else l
  end.

(** [limit(fn)]: the task joins the queue. *)
Definition submit (t : Tk) (l : Limiter Tk) : Limiter Tk :=
  resumeNext {| lim_active := lim_active l; lim_queue := lim_queue l ++ [t];
                lim_dropped := lim_dropped l |}.

(** [limit.clearQueue()]. *)
Definition clearQueue (l : Limiter Tk) : Limiter Tk :=
  {| lim_active := lim_active l; lim_queue := [];
     lim_dropped :=
       lim_dropped l || negb (Nat.eqb (length (lim_queue l)) 0) |}.

(** The abort listener of the path runs when the signal becomes aborted. *)
Definition on_abort (s s' : St) (l : Limiter Tk) : Limiter Tk :=
  if negb (aborted s) && aborted s' then clearQueue l else l.

(** The [i]-th running task completes: its body runs, it leaves the
    limiter, and the limiter starts the next waiting task. *)
Definition complete (i : nat) (l : Limiter Tk) (s : St) : Limiter Tk * St :=
  match nth_error (lim_active l) i with
  | None => (l, s)
  | Some t =>
      let s' := resolve t s in
      (resumeNext
         (on_abort s s'
            {| lim_active := remove_nth i (lim_active l);
               lim_queue := lim_queue l; lim_dropped := lim_dropped l |}),
       s')
  end.

(** The callback runs on the next record and may submit a task. *)
Definition enumerate (pkg : PackageVersion) (l : Limiter Tk) (s : St)
  : option Exn * Limiter Tk * St :=
  match cb pkg s with
  | (Some e, s', _) => (Some e, on_abort s s' l, s')
  | (None, s', ot) =>
      (None,
       match ot with
       | Some t => submit t (on_abort s s' l)
       | None => on_abort s s' l
       end,
       s')
  end.

(** The running tasks complete in the order they started; [fuel] bounds
    the number of completions (lemma [drain_tasks_done]). *)
Fixpoint drain_tasks (fuel : nat) (l : Limiter Tk) (s : St)
  : Limiter Tk * St :=
  match fuel with
  | O => (l, s)
  | S f =>
      match lim_active l with
      | [] => (l, s)
      | _ :: _ => let '(l', s') := complete 0 l s in drain_tasks f l' s'
      end
  end.

Fixpoint drain_ledger (todo : list PackageVersion) (l : Limiter Tk) (s : St)
  : option Exn * Limiter Tk * St :=
  match todo with
  | [] => (None, l, s)
  | pkg :: rest =>
      if aborted s then (None, l, s)
      else match enumerate pkg l s with
           | (Some e, l', s') => (Some e, l', s')
           | (None, l', s') => drain_ledger rest l' s'
           end
  end.

(** The end of a run: the rest of the enumeration unless the callback has
    thrown, then the running tasks.  The result is the error thrown by the
    callback, the state when every started task has completed, and
    whether a task was discarded. *)
Definition finish (thrown : option Exn) (todo : list PackageVersion)
  (l : Limiter Tk) (s : St) : option Exn * St * bool :=
  let '(r, l1, s1) :=
    match thrown with
    | Some e => (Some e, l, s)
    | None => drain_ledger todo l s
    end in
  let '(l2, s2) :=
    drain_tasks (length (lim_active l1) + length (lim_queue l1)) l1 s1 in
  (r, s2, lim_dropped l2).

Fixpoint run (sched : list Choice) (thrown : option Exn)
  (todo : list PackageVersion) (l : Limiter Tk) (s : St)
  : option Exn * St * bool :=
  match sched with
  | [] => finish thrown todo l s
  | Enumerate :: sc =>
      match thrown, todo with
      | None, pkg :: rest =>
          if aborted s then run sc None [] l s
          else match enumerate pkg l s with
               | (Some e, l', s') => run sc (Some e) [] l' s'
               | (None, l', s') => run sc None rest l' s'
               end
      | _, _ => run sc thrown [] l s
      end
  | Resolve i :: sc =>
      let '(l', s') := complete i l s in run sc thrown todo l' s'
  end.

End Engine.

(** The tasks the limiter holds, running or waiting. *)
Definition lim_pending {Tk} (l : Limiter Tk) : list Tk :=
  lim_active l ++ lim_queue l.

(** At most [concurrency] tasks run, and a task waits only when that many
    run. *)
Definition lim_wf {Tk} (l : Limiter Tk) : Prop :=
  (length (lim_active l) <= concurrency)%nat
  /\ (lim_queue l = [] \/ length (lim_active l) = concurrency).

(** The world a run talks to: the ledger's records in enumeration order,
    the registry's answer for a tag, the outcome of a deletion request for
    an id ([true] when it succeeds) and the interleaving of the run. *)
Record World : Type := {
  ledger : list PackageVersion;
  registry : Tag -> IndexResponse;
  deleteApi : Z -> bool;
  schedule : list Choice
}.

(** ** [getPackageVersionsByImageTag] (the list path) *)

Definition TagGroupMap := JsMap.t Tag (list Tag).
Definition TagToPkgsMap := JsMap.t Tag (list PackageVersion).

Record LState : Type := {
  pkgVersions : list PackageVersion;
  tagGroups : TagGroupMap;
  digestToHeadTag : JsMap.t (option Digest) Tag;
  lproc : Proc
}.

(** The closure of a scheduled fetch: [tags[0]] and [pkg.name]. *)
Record LTask : Type := { lt_headTag : Tag; lt_own : Digest }.

(** The tag grouper, lines 454-455:
    [const tagGroup = new Set(tags);
     tagGroup.forEach((tag) => tagGroups.set(tag, tagGroup));] *)
Definition setTagGroup (tgs : list Tag) (groups : TagGroupMap) : TagGroupMap :=
  let tagGroup := JsSet.of_list tgs in
  fold_left (fun m tag => JsMap.set tag tagGroup m) tagGroup groups.

Definition list_cb (pkg : PackageVersion) (s : LState)
  : option Exn * LState * option LTask :=
  let pvs := pkgVersions s ++ [pkg] in
  match pv_tags pkg with
  | [] =>
      (None,
       {| pkgVersions := pvs; tagGroups := tagGroups s;
          digestToHeadTag := digestToHeadTag s; lproc := lproc s |},
       None)
  | headTag :: _ =>
      (None,
       {| pkgVersions := pvs;
          tagGroups := setTagGroup (pv_tags pkg) (tagGroups s);
          digestToHeadTag := digestToHeadTag s; lproc := lproc s |},
       Some {| lt_headTag := headTag; lt_own := pv_name pkg |})
  end.

(** What a fetch with [abort: true] hands back to a task. *)
Definition fetched (r : Exn + list (option Digest)) : list (option Digest) :=
  match r with inr ds => ds | inl _ => [] end.

(** The digest list a list-path task writes to [digestToHeadTag]:
    [digests.push(pkg.name)]. *)
Definition list_task_digests (t : LTask) (resp : IndexResponse) (p : Proc)
  : list (option Digest) * Proc :=
  let '(r, p1) :=
    getDigestsFromManifestIndex true false (lt_headTag t) resp p in
  (fetched r ++ [Some (lt_own t)], p1).

Definition list_task (reg : Tag -> IndexResponse) (t : LTask) (s : LState)
  : LState :=
  let '(digests, p1) := list_task_digests t (reg (lt_headTag t)) (lproc s) in
  {| pkgVersions := pkgVersions s; tagGroups := tagGroups s;
     digestToHeadTag :=
       fold_left (fun m d => JsMap.set d (lt_headTag t) m) digests
         (digestToHeadTag s);
     lproc := p1 |}.

(** [Map.groupBy(items, f)]. *)
Definition groupBy {A} (f : A -> Tag) (items : list A) : JsMap.t Tag (list A) :=
  fold_left
    (fun m x =>
       match JsMap.get (f x) m with
       | Some l => JsMap.set (f x) (l ++ [x]) m
       | None => JsMap.set (f x) [x] m
       end)
    items JsMap.empty.

(** [digestToHeadTag.get(pkgV.name) || UNKNOWN_TAG]. *)
Definition headTagOf (m : JsMap.t (option Digest) Tag) (pkgV : PackageVersion)
  : Tag :=
  match JsMap.get (Some (pv_name pkgV)) m with
  | Some t => if JsString.truthy t then t else UNKNOWN_TAG
  | None => UNKNOWN_TAG
  end.

Definition lstate0 (p : Proc) : LState :=
  {| pkgVersions := [];
     tagGroups := [(UNKNOWN_TAG, [UNKNOWN_TAG])];
     digestToHeadTag := JsMap.empty;
     lproc := p |}.

(** The enumeration and the tasks of the list path: the error thrown by
    the callback and the state when every started task has completed. *)
Definition list_run (w : World) (p : Proc) : option Exn * LState :=
  fst (run (fun s => signal_aborted (lproc s)) list_cb
         (list_task (registry w)) (schedule w) None (ledger w) (lim0 LTask)
         (lstate0 p)).

(** Whether a waiting task of that run was discarded. *)
Definition list_dropped (w : World) (p : Proc) : bool :=
  snd (run (fun s => signal_aborted (lproc s)) list_cb
         (list_task (registry w)) (schedule w) None (ledger w) (lim0 LTask)
         (lstate0 p)).

(** [await forEachPackageVersion(...); await Promise.all(tasks);] and the
    grouping: the join settles when no task was discarded, and never when
    one was. *)
Definition getPackageVersionsByImageTag (w : World) (p : Proc)
  : Outcome (TagToPkgsMap * TagGroupMap) * Proc :=
  let '(r, s) := list_run w p in
  match r with
  | Some e => (Throws e, lproc s)
  | None =>
      if list_dropped w p then (NeverSettles, lproc s)
      else
        (Returns
           (groupBy (headTagOf (digestToHeadTag s)) (pkgVersions s),
            tagGroups s),
         lproc s)
  end.

(** ** [printPackageVersionsForImageTags] *)

Definition print_group (filterTags : list Tag) (groups : TagGroupMap)
  (acc : Proc * nat * nat) (entry : Tag * list PackageVersion)
  : Proc * nat * nat :=
  let '(p, pkgCount, tagGroupCount) := acc in
  let '(headTag, pkgs) := entry in
  match JsMap.get headTag groups with
  | None => (emit (ErrorMissingTagGroup headTag) p, pkgCount, tagGroupCount)
  | Some tagGroup =>
      if negb (Nat.eqb (JsSet.size filterTags) 0)
         && Nat.eqb (JsSet.size (JsSet.intersection filterTags tagGroup)) 0
      then acc
      else (emit (PrintGroup tagGroup pkgs) p,
            (pkgCount + length pkgs)%nat, S tagGroupCount)
  end.

Definition printPackageVersionsForImageTags (filterTags : list Tag)
  (w : World) (p : Proc) : Outcome unit * Proc :=
  match getPackageVersionsByImageTag w p with
  | (Throws e, p1) => (Throws e, p1)
  | (NeverSettles, p1) => (NeverSettles, p1)
  | (Returns (headTagToPkgVersions, groups), p1) =>
      let '(p2, pkgCount, tagGroupCount) :=
        fold_left (print_group filterTags groups) headTagToPkgVersions
          (p1, 0%nat, 0%nat) in
      (Returns tt, emit (PrintSummary pkgCount tagGroupCount) p2)
  end.

(** ** [findOrphanOrTaggedPackageVersions] (the delete/report path) *)

Record DState : Type := { graph : PkgMap; dproc : Proc }.

(** The closure of a scheduled fetch: [tags[0]], [pkgDigest] and
    [belongsToTagsToBeDeleted]. *)
Record DTask : Type := {
  dt_tag : Tag;
  dt_pkgDigest : Digest;
  dt_belongs : bool
}.

Definition defaultPkgInfo : PkgInfo :=
  {| pi_id := None; isOrphan := true; belongsToTagsToDelete := false;
     indexDigest := ""; tags := [] |}.

(** [digestToPkgMap.get], the [DefaultValueMap] of the delete path. *)
Definition pkgMap_get (d : option Digest) (m : PkgMap) : PkgInfo * PkgMap :=
  DefaultValueMap_get (fun _ _ => defaultPkgInfo) d m.

Definition find_cb (tagsToDelete : list Tag) (pkg : PackageVersion)
  (s : DState) : option Exn * DState * option DTask :=
  let pkgDigest := pv_name pkg in
  if negb (JsString.truthy pkgDigest) then
    let err := FalsyName (pv_id pkg) in
    (Some err,
     {| graph := graph s; dproc := controller_abort err (dproc s) |}, None)
  else
    let '(pkgInfo, g1) := pkgMap_get (Some pkgDigest) (graph s) in
    let tgs := filter JsString.truthy (pv_tags pkg) in
    match tgs with
    | [] =>
        (None,
         {| graph :=
              JsMap.set (Some pkgDigest)
                {| pi_id := Some (pv_id pkg);
                   isOrphan := isOrphan pkgInfo;
                   belongsToTagsToDelete := belongsToTagsToDelete pkgInfo;
                   indexDigest := indexDigest pkgInfo;
                   tags := tags pkgInfo |} g1;
            dproc := dproc s |},
         None)
    | headTag :: _ =>
        let belongs :=
          negb (Nat.eqb
                  (JsSet.size
                     (JsSet.intersection tagsToDelete (JsSet.of_list tgs)))
                  0) in
        (None,
         {| graph :=
              JsMap.set (Some pkgDigest)
                {| pi_id := Some (pv_id pkg);
                   isOrphan := false;
                   belongsToTagsToDelete := belongs;
                   indexDigest := pkgDigest;
                   tags := tgs |} g1;
            dproc := dproc s |},
         Some {| dt_tag := headTag; dt_pkgDigest := pkgDigest;
                 dt_belongs := belongs |})
    end.

(** The digest list a delete-path task applies to the graph: the fetched
    list itself. *)
Definition find_task_digests (t : DTask) (resp : IndexResponse) (p : Proc)
  : list (option Digest) * Proc :=
  let '(r, p1) := getDigestsFromManifestIndex true false (dt_tag t) resp p in
  (fetched r, p1).

(** One iteration of [digests.forEach] in a delete-path task. *)
Definition mark_digest (t : DTask) (g : PkgMap) (d : option Digest) : PkgMap :=
  let '(info, g1) := pkgMap_get d g in
  JsMap.set d
    {| pi_id := pi_id info;
       isOrphan := false;
       belongsToTagsToDelete := dt_belongs t;
       indexDigest := dt_pkgDigest t;
       tags := tags info |} g1.

Definition find_task (reg : Tag -> IndexResponse) (t : DTask) (s : DState)
  : DState :=
  let '(digests, p1) := find_task_digests t (reg (dt_tag t)) (dproc s) in
  {| graph := fold_left (mark_digest t) digests (graph s); dproc := p1 |}.

Definition dstate0 (p : Proc) : DState := {| graph := JsMap.empty; dproc := p |}.

(** The enumeration and the tasks of the delete path: the error thrown by
    the callback and the state when every started task has completed. *)
Definition find_run (tagsToDelete : list Tag) (w : World) (p : Proc)
  : option Exn * DState :=
  fst (run (fun s => signal_aborted (dproc s)) (find_cb tagsToDelete)
         (find_task (registry w)) (schedule w) None (ledger w) (lim0 DTask)
         (dstate0 p)).

(** Whether a waiting task of that run was discarded. *)
Definition find_dropped (tagsToDelete : list Tag) (w : World) (p : Proc)
  : bool :=
  snd (run (fun s => signal_aborted (dproc s)) (find_cb tagsToDelete)
         (find_task (registry w)) (schedule w) None (ledger w) (lim0 DTask)
         (dstate0 p)).

(** [await forEachPackageVersion(...); await Promise.all(tasks);
     throwIfAborted(...); return digestToPkgMap;]: the join settles when no
    task was discarded, and never when one was. *)
Definition findOrphanOrTaggedPackageVersions (tagsToDelete : list Tag)
  (w : World) (p : Proc) : Outcome PkgMap * Proc :=
  let '(r, s) := find_run tagsToDelete w p in
  match r with
  | Some e => (Throws e, dproc s)
  | None =>
      if find_dropped tagsToDelete w p then (NeverSettles, dproc s)
      else
        match throwIfAborted (dproc s) with
        | Some e => (Throws e, dproc s)
        | None => (Returns (graph s), dproc s)
        end
  end.

(** ** [logRegistryStats] (debug output left out) *)

Definition count_if {A} (f : A -> bool) (l : list A) : nat :=
  length (filter f l).

Definition idCount (m : PkgMap) : nat :=
  count_if (fun e => match pi_id (snd e) with Some _ => true | None => false end) m.

Definition orphanCount (m : PkgMap) : nat :=
  count_if (fun e => isOrphan (snd e)) m.

Definition overallTagCount (m : PkgMap) : nat :=
  fold_left (fun n e => (n + length (tags (snd e)))%nat) m 0%nat.

Definition tagToBeDeletedDigestCount (m : PkgMap) : nat :=
  count_if (fun e => belongsToTagsToDelete (snd e)) m.

Definition logRegistryStats (tagsToDelete : list Tag) (m : PkgMap) (p : Proc)
  : option Exn * Proc :=
  let p1 := emit (StatVersions (idCount m)) p in
  let p2 := emit (StatDistinctDigests (JsMap.size m)) p1 in
  let p3 := emit (StatTags (overallTagCount m)) p2 in
  let n := tagToBeDeletedDigestCount m in
  if Nat.eqb (JsSet.size tagsToDelete) 0 && negb (Nat.eqb n 0) then
    let err := InconsistentNoTag n in
    (Some err, emit (LogError err) p3)
  else
    let p4 :=
      if negb (Nat.eqb (JsSet.size tagsToDelete) 0) || negb (Nat.eqb n 0)
      then emit (StatToDelete n tagsToDelete) p3 else p3 in
    (None, emit (StatOrphans (orphanCount m)) p4).

(** ** [deletePackageVersion] and the loop of [deletePackageVersions] *)

Definition deletePackageVersion (api : Z -> bool) (packageVersionID : Z)
  (p : Proc) : option Exn * Proc :=
  match throwIfAborted p with
  | Some e => (Some e, p)
  | None =>
      let p1 := emit (ApiDelete packageVersionID) p in
      if api packageVersionID then (None, p1)
      else (Some (DeleteRequestError packageVersionID), p1)
  end.

(** The state of the loop: the map being iterated (the loop reads it
    through [DefaultValueMap.get], which may append an entry), the count of
    deletions and the process. *)
Record LoopState : Type := {
  lmap : PkgMap;
  deletedCount : nat;
  loproc : Proc
}.

Definition loop_emit (ev : Event) (st : LoopState) : LoopState :=
  {| lmap := lmap st; deletedCount := deletedCount st;
     loproc := emit ev (loproc st) |}.

(** The body of the [for ... of digestToPkgMap] loop for one entry. *)
Definition visit (api : Z -> bool) (deleteOrphans : bool)
  (entry : option Digest * PkgInfo) (st : LoopState)
  : option Exn * LoopState :=
  let '(digest, info) := entry in
  match digest with
  | None => (Some TypeErrorUndefined, st)
  | Some dg =>
      let shortDg := trunc8 dg in
      let st1 :=
        if isOrphan info
        then loop_emit (WarnOrphan (pi_id info) shortDg deleteOrphans) st
        else st in
      if isOrphan info
         && (JsString.truthy (indexDigest info)
             || negb (Nat.eqb (length (tags info)) 0))
      then
        let err :=
          InconsistentOrphan (pi_id info) shortDg (indexDigest info)
            (tags info) in
        (Some err, loop_emit (LogError err) st1)
      else
        match pi_id info with
        | None =>
            let '(idx, m1) := pkgMap_get (Some (indexDigest info)) (lmap st1) in
            (None,
             {| lmap := m1; deletedCount := deletedCount st1;
                loproc :=
                  emit (WarnMissingImage shortDg (trunc8 (indexDigest info))
                          (tags idx)) (loproc st1) |})
        | Some i =>
            if belongsToTagsToDelete info || (deleteOrphans && isOrphan info)
            then
              let st2 :=
                loop_emit (InfoDeleting i shortDg (belongsToTagsToDelete info))
                  st1 in
              match deletePackageVersion api i (loproc st2) with
              | (Some e, p) =>
                  (Some e,
                   {| lmap := lmap st2; deletedCount := deletedCount st2;
                      loproc := p |})
              | (None, p) =>
                  (None,
                   {| lmap := lmap st2; deletedCount := S (deletedCount st2);
                      loproc := p |})
              end
            else (None, st1)
        end
  end.

Fixpoint loop_entries (api : Z -> bool) (deleteOrphans : bool)
  (todo : list (option Digest * PkgInfo)) (st : LoopState)
  : option Exn * LoopState :=
  match todo with
  | [] => (None, st)
  | e :: r =>
      match visit api deleteOrphans e st with
      | (Some x, st') => (Some x, st')
      | (None, st') => loop_entries api deleteOrphans r st'
      end
  end.

(** The iterator of a [Map] also visits the entries appended while it
    runs: after the entries present at the start, those appended by that
    pass, and so on. *)
Fixpoint loop_rounds (n : nat) (api : Z -> bool) (deleteOrphans : bool)
  (todo : list (option Digest * PkgInfo)) (st : LoopState)
  : option Exn * LoopState :=
  match n with
  | O => (None, st)
  | S n' =>
      match loop_entries api deleteOrphans todo st with
      | (Some x, st') => (Some x, st')
      | (None, st') =>
          loop_rounds n' api deleteOrphans
            (skipn (length (lmap st)) (lmap st')) st'
      end
  end.

(** Three passes reach every entry: the first can only append default
    nodes, the second only the default node of the empty digest, the third
    appends nothing (lemma [loop_rounds_stable]). *)
Definition delete_loop (api : Z -> bool) (deleteOrphans : bool) (m : PkgMap)
  (p : Proc) : option Exn * LoopState :=
  loop_rounds 3 api deleteOrphans m
    {| lmap := m; deletedCount := 0; loproc := p |}.

Definition deletePackageVersions (tagsToDelete : list Tag)
  (deleteOrphans : bool) (w : World) (p : Proc) : Outcome unit * Proc :=
  match findOrphanOrTaggedPackageVersions tagsToDelete w p with
  | (Throws e, p1) => (Throws e, p1)
  | (NeverSettles, p1) => (NeverSettles, p1)
  | (Returns digestToPkgMap, p1) =>
      match logRegistryStats tagsToDelete digestToPkgMap p1 with
      | (Some e, p2) => (Throws e, p2)
      | (None, p2) =>
          match delete_loop (deleteApi w) deleteOrphans digestToPkgMap p2 with
          | (Some e, st) => (Throws e, loproc st)
          | (None, st) =>
              (Returns tt,
               emit (InfoDeletedCount (deletedCount st)) (loproc st))
          end
      end
  end.

(** ** The entry point: [runCmd] and [main] *)

Inductive Cmd : Type :=
| ListCmd (tgs : list Tag)
| DeleteCmd (tgs : list Tag) (deleteOrphans : bool)
| ReportCmd.

Definition runCmd (cmd : Cmd) (w : World) (p : Proc) : Outcome unit * Proc :=
  match cmd with
  | ListCmd tgs => printPackageVersionsForImageTags tgs w p
  | DeleteCmd tgs deleteOrphans => deletePackageVersions tgs deleteOrphans w p
  | ReportCmd => deletePackageVersions [] false w p
  end.

(** [await main();] is a top-level [await]: when it never settles, Node
    ends the process once no work is pending, with
    [process.exitCode ??= 13]. *)
Definition exit_unsettled (p : Proc) : Proc :=
  {| reason := reason p;
     exitCode := if exitCode p =? 0 then 13 else exitCode p;
     trace := trace p |}.

(** [await main()]: an error thrown by the command sets the exit code and
    aborts; when the command never settles, neither does [main]. *)
Definition main (cmd : Cmd) (w : World) : Proc :=
  match runCmd cmd w proc0 with
  | (Returns _, p) => p
  | (Throws err, p) => controller_abort err (exitCode_or_1 p)
  | (NeverSettles, p) => exit_unsettled p
  end.

(** The outcome of a call that has thrown or returned. *)
Definition outcome_of (r : option Exn) : Outcome unit :=
  match r with Some e => Throws e | None => Returns tt end.

(** The deletion requests of a trace, in order. *)
Definition deletions (tr : list Event) : list Z :=
  flat_map (fun ev => match ev with ApiDelete i => [i] | _ => [] end) tr.

(** ** Vocabulary of the statements *)

(** The deletion predicate of the loop: [belongsToTagsToDelete ||
    (deleteOrphans && isOrphan)]. *)
Definition eligible (deleteOrphans : bool) (info : PkgInfo) : bool :=
  belongsToTagsToDelete info || (deleteOrphans && isOrphan info).

(** The check [isOrphan && (indexDigest || tags.length)]. *)
Definition inconsistent_orphan (info : PkgInfo) : bool :=
  isOrphan info
  && (JsString.truthy (indexDigest info)
      || negb (Nat.eqb (length (tags info)) 0)).

(** The ids of the entries of a list that have an id and satisfy the
    deletion predicate, in order. *)
Definition eligible_ids (deleteOrphans : bool)
  (l : list (option Digest * PkgInfo)) : list Z :=
  flat_map
    (fun e =>
       match pi_id (snd e) with
       | Some i => if eligible deleteOrphans (snd e) then [i] else []
       | None => []
       end) l.

(** The tags the delete path keeps of a record, and whether it treats the
    record as an image index. *)
Definition kept_tags (pkg : PackageVersion) : list Tag :=
  filter JsString.truthy (pv_tags pkg).

Definition is_index (pkg : PackageVersion) : bool :=
  negb (Nat.eqb (length (kept_tags pkg)) 0).

(** The digests an index response lists. *)
Definition response_digests (resp : IndexResponse) : list (option Digest) :=
  match resp with
  | IndexOk ms => map im_digest ms
  | IndexError _ => []
  end.

(** No index of the ledger is listed in the manifest list of an index
    with another digest. *)
Definition no_foreign_listing (w : World) : Prop :=
  forall q p : PackageVersion,
    In q (ledger w) -> In p (ledger w) ->
    is_index q = true -> is_index p = true ->
    In (Some (pv_name p))
       (response_digests (registry w (hd "" (kept_tags q)))) ->
    pv_name p = pv_name q.

(** The records enumerated so far that are indexes have their own digest
    as [indexDigest] (or the run is aborted). *)
Definition own_index_inv (w : World) (todo : list PackageVersion)
  (s : DState) : Prop :=
  signal_aborted (dproc s) = true
  \/ exists done,
       ledger w = done ++ todo
       /\ forall pkg, In pkg done -> is_index pkg = true ->
            exists info,
              JsMap.get (Some (pv_name pkg)) (graph s) = Some info
              /\ indexDigest info = pv_name pkg.

(** A scheduled task of the delete path stems from an index of the
    ledger. *)
Definition task_of_ledger (w : World) (t : DTask) : Prop :=
  exists q, In q (ledger w) /\ is_index q = true
            /\ dt_pkgDigest t = pv_name q
            /\ dt_tag t = hd "" (kept_tags q).

(** [p'] continues the trace of [p] with events that all satisfy [Q]. *)
Definition appends (Q : Event -> Prop) (p p' : Proc) : Prop :=
  exists t, trace p' = trace p ++ t /\ Forall Q t.

Definition not_delete (ev : Event) : Prop :=
  match ev with ApiDelete _ => False | _ => True end.

Definition not_empty_manifest_log (ev : Event) : Prop :=
  match ev with LogError (EmptyManifestList _) => False | _ => True end.

(** The events of each phase of a command. *)
Definition fetch_event (ev : Event) : Prop :=
  match ev with
  | LogError (RegistryError _ _) | LogError (EmptyManifestList _)
  | LogAbortReason _ => True
  | _ => False
  end.

Definition stat_event (ev : Event) : Prop :=
  match ev with
  | StatVersions _ | StatDistinctDigests _ | StatTags _ | StatToDelete _ _
  | StatOrphans _ | LogError (InconsistentNoTag _) => True
  | _ => False
  end.

Definition loop_event (ev : Event) : Prop :=
  match ev with
  | WarnOrphan _ _ _ | WarnMissingImage _ _ _ | InfoDeleting _ _ _
  | ApiDelete _ | LogError (InconsistentOrphan _ _ _ _) => True
  | _ => False
  end.

Definition print_event (ev : Event) : Prop :=
  match ev with
  | ErrorMissingTagGroup _ | PrintGroup _ _ | PrintSummary _ _ => True
  | _ => False
  end.

(** What the enumeration callback or a task does to the process: nothing,
    an abort, or an error log followed by an abort. *)
Inductive fetch_step (p : Proc) : Proc -> Prop :=
| fetch_same : fetch_step p p
| fetch_abort : forall err, fetch_step p (controller_abort err p)
| fetch_log_abort :
    forall err,
      match err with
      | RegistryError _ _ | EmptyManifestList _ => True
      | _ => False
      end ->
      fetch_step p (controller_abort err (emit (LogError err) p)).

(** The invariant of a graph node: a node marked orphan has no
    [indexDigest] and no tags. *)
Definition consistent_entry (e : option Digest * PkgInfo) : Prop :=
  inconsistent_orphan (snd e) = false.

(** A default node, as [DefaultValueMap.get] appends it for a digest. *)
Definition default_entry (e : option Digest * PkgInfo) : Prop :=
  exists k : Digest, e = (Some k, defaultPkgInfo).

(** An entry that is no deletion target. *)
Definition no_target (e : option Digest * PkgInfo) : Prop :=
  belongsToTagsToDelete (snd e) = false.

(** [p'] is [p] after logging events that all satisfy [Q]: the abort
    signal and the exit code are untouched. *)
Definition emits (Q : Event -> Prop) (p p' : Proc) : Prop :=
  exists t,
    p' = {| reason := reason p; exitCode := exitCode p;
            trace := trace p ++ t |}
    /\ Forall Q t.

(** A logged empty manifest list comes with an abort, and an abort with a
    non-zero exit code. *)
Definition sound (p : Proc) : Prop :=
  (forall t, In (LogError (EmptyManifestList t)) (trace p) -> reason p <> None)
  /\ (reason p <> None -> exitCode p <> 0).

(** ** Sample worlds

    Scenario A of the specification: one index [D0] tagged [v1] and
    [latest] whose manifest lists [D1] and [D2], and an orphan [D9]. *)

Definition D0 : Digest := "sha256:d0".
Definition D1 : Digest := "sha256:d1".
Definition D2 : Digest := "sha256:d2".
Definition D9 : Digest := "sha256:d9".

Definition pkgD0 : PackageVersion :=
  {| pv_id := 10; pv_name := D0; pv_tags := ["v1"; "latest"] |}.
Definition pkgD1 : PackageVersion :=
  {| pv_id := 11; pv_name := D1; pv_tags := [] |}.
Definition pkgD2 : PackageVersion :=
  {| pv_id := 12; pv_name := D2; pv_tags := [] |}.
Definition pkgD9 : PackageVersion :=
  {| pv_id := 19; pv_name := D9; pv_tags := [] |}.

Definition registryA (t : Tag) : IndexResponse :=
  if string_dec t "v1"
  then IndexOk [ {| im_digest := Some D1 |}; {| im_digest := Some D2 |} ]
  else IndexError 404.

Definition worldA : World :=
  {| ledger := [pkgD0; pkgD1; pkgD2; pkgD9];
     registry := registryA;
     deleteApi := fun _ => true;
     schedule := [] |}.

(** Scenario A with a deletion request that fails for [D1]. *)
Definition worldA_failing : World :=
  {| ledger := [pkgD0; pkgD1; pkgD2; pkgD9];
     registry := registryA;
     deleteApi := fun i => negb (i =? 11);
     schedule := [] |}.

(** Scenario D: an empty ledger. *)
Definition worldEmpty : World :=
  {| ledger := [];
     registry := registryA;
     deleteApi := fun _ => true;
     schedule := [] |}.

(** Scenario E: the manifest list fetched for [v1] is empty. *)
Definition worldE : World :=
  {| ledger := [pkgD0; pkgD1; pkgD2; pkgD9];
     registry := fun _ => IndexOk [];
     deleteApi := fun _ => true;
     schedule := [] |}.

(** Six indexes with one tag each; the registry fails for the first tag
    and serves one image for the others.  The six records are enumerated
    before any fetch completes, so five fetches run and the sixth waits. *)
Definition pkgIx (i : Z) (d : Digest) (t : Tag) : PackageVersion :=
  {| pv_id := i; pv_name := d; pv_tags := [t] |}.

Definition registrySix (t : Tag) : IndexResponse :=
  if string_dec t "t1" then IndexError 404
  else IndexOk [ {| im_digest := Some D9 |} ].

Definition worldSix : World :=
  {| ledger := [pkgIx 1 "sha256:i1" "t1"; pkgIx 2 "sha256:i2" "t2";
                pkgIx 3 "sha256:i3" "t3"; pkgIx 4 "sha256:i4" "t4";
                pkgIx 5 "sha256:i5" "t5"; pkgIx 6 "sha256:i6" "t6"];
     registry := registrySix;
     deleteApi := fun _ => true;
     schedule := [] |}.

(** An index whose first entry has no [digest] field. *)
Definition registryMissing (t : Tag) : IndexResponse :=
  if string_dec t "v1"
  then IndexOk [ {| im_digest := None |}; {| im_digest := Some D2 |} ]
  else IndexError 404.

Definition worldMissing : World :=
  {| ledger := [pkgD0; pkgD1; pkgD2; pkgD9];
     registry := registryMissing;
     deleteApi := fun _ => true;
     schedule := [] |}.

(** Two indexes, the first of which lists the digest of the second. *)
Definition pkgOuter : PackageVersion :=
  {| pv_id := 20; pv_name := D0; pv_tags := ["outer"] |}.
Definition pkgInner : PackageVersion :=
  {| pv_id := 21; pv_name := D1; pv_tags := ["inner"] |}.

Definition registryNested (t : Tag) : IndexResponse :=
  if string_dec t "outer" then IndexOk [ {| im_digest := Some D1 |} ]
  else IndexOk [ {| im_digest := Some D2 |} ].

Definition worldNested : World :=
  {| ledger := [pkgOuter; pkgInner];
     registry := registryNested;
     deleteApi := fun _ => true;
     schedule := [] |}.

(** A record whose only tag is the empty string. *)
Definition pkgBlankTag : PackageVersion :=
  {| pv_id := 30; pv_name := D0; pv_tags := [""] |}.

Definition worldBlankTag : World :=
  {| ledger := [pkgBlankTag];
     registry := registryA;
     deleteApi := fun _ => true;
     schedule := [] |}.

(** ** Vocabulary of the further properties *)

(** The reasons logged by the abort listener, in order. *)
Definition abort_logs (tr : list Event) : list Exn :=
  flat_map (fun ev => match ev with LogAbortReason e => [e] | _ => [] end) tr.

(** The listener has logged exactly the stored reason, and the exit code
    is 1 or 0 according to whether the signal is aborted. *)
Definition coherent (p : Proc) : Prop :=
  abort_logs (trace p) = opt_list (reason p)
  /\ exitCode p = match reason p with Some _ => 1 | None => 0 end.

(** The events of the report, the loop and the printer. *)
Definition plain_event (ev : Event) : Prop :=
  match ev with
  | LogAbortReason _ | LogError (RegistryError _ _)
  | LogError (EmptyManifestList _) | LogError (FalsyName _)
  | LogError TypeErrorUndefined | LogError (DeleteRequestError _)
  | WarnMissingDigest _ | DebugImageIndex _ _ => False
  | _ => True
  end.

(** An event of the fetch phase, the report or the loop: anything but
    the final count and the printer's output. *)
Definition before_count_event (ev : Event) : Prop :=
  fetch_event ev \/ stat_event ev \/ loop_event ev.

(** A digest is referenced when it is the digest of an index of the
    ledger or is listed in the manifest the registry serves for the head
    tag of such an index. *)
Definition listed_by (w : World) (q : PackageVersion) (k : option Digest)
  : Prop :=
  k = Some (pv_name q)
  \/ In k (response_digests (registry w (hd "" (kept_tags q)))).

Definition referenced (w : World) (k : option Digest) : Prop :=
  exists q, In q (ledger w) /\ is_index q = true /\ listed_by w q k.

(** A digest is referenced through one of the tags [tgs] when such an
    index carries one of them. *)
Definition tagged_ref (tgs : list Tag) (w : World) (k : option Digest)
  : Prop :=
  exists q, In q (ledger w) /\ is_index q = true
            /\ (exists t, In t tgs /\ In t (kept_tags q))
            /\ listed_by w q k.

(** What reconciliation keeps of every node: its id is that of a ledger
    record with its digest, it is marked non-orphan only if referenced and
    marked for deletion only if referenced through a requested tag. *)
Definition node_ok (tgs : list Tag) (w : World)
  (e : option Digest * PkgInfo) : Prop :=
  (forall i, pi_id (snd e) = Some i ->
     exists pkg, In pkg (ledger w) /\ pv_id pkg = i
                 /\ fst e = Some (pv_name pkg))
  /\ (isOrphan (snd e) = false -> referenced w (fst e))
  /\ (belongsToTagsToDelete (snd e) = true -> tagged_ref tgs w (fst e)).

(** A scheduled task of the delete path stems from an index of the ledger
    and carries whether that index has one of the requested tags. *)
Definition task_ok (tgs : list Tag) (w : World) (t : DTask) : Prop :=
  exists q, In q (ledger w) /\ is_index q = true
            /\ dt_tag t = hd "" (kept_tags q)
            /\ dt_pkgDigest t = pv_name q
            /\ (dt_belongs t = true -> exists x, In x tgs /\ In x (kept_tags q)).

(** The errors of the fetch phase. *)
Definition fetch_error (e : Exn) : Prop :=
  match e with
  | RegistryError _ _ | EmptyManifestList _ | FalsyName _ => True
  | _ => False
  end.

(** The graph holds a node for the digest that is marked non-orphan. *)
Definition marked (g : PkgMap) (k : option Digest) : Prop :=
  exists info, JsMap.get k g = Some info /\ isOrphan info = false.

(** Every index enumerated so far is marked, and the digests its manifest
    lists are marked unless its fetch is still pending (or the run is
    aborted). *)
Definition resolved_inv (w : World) (todo : list PackageVersion)
  (pending : list DTask) (s : DState) : Prop :=
  signal_aborted (dproc s) = true
  \/ exists done,
       ledger w = done ++ todo
       /\ forall q, In q done -> is_index q = true ->
            marked (graph s) (Some (pv_name q))
            /\ ((exists t, In t pending /\ dt_tag t = hd "" (kept_tags q))
                \/ forall d,
                     In d (response_digests
                             (registry w (hd "" (kept_tags q)))) ->
                     marked (graph s) d).

(** What makes a run fail: each error of the program with the state of
    the world that brings it about.  The two consistency errors have
    none. *)
Definition cause (w : World) (e : Exn) : Prop :=
  match e with
  | RegistryError t st => registry w t = IndexError st
  | EmptyManifestList t => registry w t = IndexOk []
  | FalsyName i =>
      exists pkg, In pkg (ledger w) /\ pv_id pkg = i
                  /\ JsString.truthy (pv_name pkg) = false
  | TypeErrorUndefined =>
      exists q, In q (ledger w) /\ is_index q = true
                /\ In None
                     (response_digests (registry w (hd "" (kept_tags q))))
  | DeleteRequestError i => deleteApi w i = false
  | InconsistentOrphan _ _ _ _ | InconsistentNoTag _ => False
  end.

(** The stored abort reason, if any, has a cause. *)
Definition caused (w : World) (p : Proc) : Prop :=
  forall e, reason p = Some e -> cause w e.

(** A node without a digest stems from a manifest entry without one. *)
Definition key_ok (w : World) (e : option Digest * PkgInfo) : Prop :=
  fst e = None -> referenced w None.

(** An index carries one of the requested tags. *)
Definition has_requested (tgs : list Tag) (q : PackageVersion) : Prop :=
  exists t, In t tgs /\ In t (kept_tags q).

(** No digest referenced by an index with a requested tag is referenced
    by an index without one. *)
Definition unshared (tgs : list Tag) (w : World) : Prop :=
  forall (q q' : PackageVersion) (k : option Digest),
    In q (ledger w) -> In q' (ledger w) ->
    is_index q = true -> is_index q' = true ->
    has_requested tgs q -> listed_by w q k -> listed_by w q' k ->
    has_requested tgs q'.

(** The graph holds a node for the digest that is marked for deletion. *)
Definition del_marked (g : PkgMap) (k : option Digest) : Prop :=
  exists info,
    JsMap.get k g = Some info /\ belongsToTagsToDelete info = true.

(** The graph holds the node of a record, with the record's id. *)
Definition has_id (g : PkgMap) (pkg : PackageVersion) : Prop :=
  exists info,
    JsMap.get (Some (pv_name pkg)) g = Some info
    /\ pi_id info = Some (pv_id pkg).

(** A scheduled task stems from an index of the ledger and marks for
    deletion when that index has a requested tag. *)
Definition task_exact (tgs : list Tag) (w : World) (t : DTask) : Prop :=
  exists q, In q (ledger w) /\ is_index q = true
            /\ dt_tag t = hd "" (kept_tags q)
            /\ (has_requested tgs q -> dt_belongs t = true).

(** Every record enumerated so far has its node with its id; every index
    with a requested tag enumerated so far is marked for deletion, and so
    are the digests its manifest lists unless its fetch is still pending
    (or the run is aborted). *)
Definition complete_inv (tgs : list Tag) (w : World)
  (todo : list PackageVersion) (pending : list DTask) (s : DState) : Prop :=
  Forall (task_exact tgs w) pending
  /\ (signal_aborted (dproc s) = true
      \/ exists done,
           ledger w = done ++ todo
           /\ (forall pkg, In pkg done -> has_id (graph s) pkg)
           /\ forall q, In q done -> is_index q = true ->
                has_requested tgs q ->
                del_marked (graph s) (Some (pv_name q))
                /\ ((exists t, In t pending
                               /\ dt_tag t = hd "" (kept_tags q))
                    \/ forall d,
                         In d (response_digests
                                 (registry w (hd "" (kept_tags q)))) ->
                         del_marked (graph s) d)).

(** The package versions printed by a run, in order. *)
Definition printed (tr : list Event) : list PackageVersion :=
  flat_map
    (fun ev => match ev with PrintGroup _ pkgs => pkgs | _ => [] end) tr.

Definition not_missing_group (ev : Event) : Prop :=
  match ev with ErrorMissingTagGroup _ => False | _ => True end.

(** The tag has an entry in the map of tag groups. *)
Definition has_key (t : Tag) (m : TagGroupMap) : Prop :=
  JsMap.get t m <> None.

(** The records enumerated so far are a prefix of the ledger (all that
    precedes the records still to enumerate, unless the run is aborted);
    [Unknown], every head tag recorded for a digest and the head tag of
    every pending task have a tag group. *)
Definition list_inv (w : World) (todo : list PackageVersion)
  (pending : list LTask) (s : LState) : Prop :=
  (exists rest,
      ledger w = pkgVersions s ++ rest
      /\ (signal_aborted (lproc s) = false -> rest = todo))
  /\ has_key UNKNOWN_TAG (tagGroups s)
  /\ (forall d t, JsMap.get d (digestToHeadTag s) = Some t ->
        has_key t (tagGroups s))
  /\ Forall (fun t => has_key (lt_headTag t) (tagGroups s)) pending.

(** ** The command line parser: positionals, tags and subcommands

    [String.prototype.trim] strips the white space of both ends; which
    characters count as white space is a parameter.  The subcommand
    parsers are taken from the result of [parseArgs]: the positionals and
    the value of [--orphans]. *)

Inductive ParseFailure : Type :=
| TakesExactly (cmdName : string) (nArgs : nat)
| TakesAtMost (cmdName : string) (maxArgs : nat)
| TakesAtLeast (cmdName : string) (minArgs : nat)
| BlankPositional
| RepoFailure (e : CmdLineParserError).

Record DeleteCmdOpts : Type := {
  dc_command : string;
  dc_repo : string;
  dc_tags : list Tag;
  dc_deleteOrphans : bool
}.

Record ListCmdOpts : Type := {
  lc_command : string;
  lc_repo : string;
  lc_tags : list Tag
}.

Record ReportCmdOpts : Type := {
  rc_command : string;
  rc_repo : string
}.

Section Parser.
Variable is_space : ascii -> bool.

Fixpoint trimStart (s : string) : string :=
  match s with
  | EmptyString => EmptyString
  | String c r => if is_space c then trimStart r else s
  end.

Fixpoint trimEnd (s : string) : string :=
  match s with
  | EmptyString => EmptyString
  | String c r =>
      match trimEnd r with
      | EmptyString => if is_space c then EmptyString else String c EmptyString
      | String c' r' => String c (String c' r')
      end
  end.

Definition trim (s : string) : string := trimEnd (trimStart s).

(** [cleanAndValidatePositionals]: the three length checks in the order
    of the source, then the trim and the check for blank arguments. *)
Definition cleanAndValidatePositionals (cmdName : string)
  (positionals : list string) (maxArgs minArgs nArgs : option nat)
  : ParseFailure + list string :=
  match
    match nArgs with
    | Some n =>
        if Nat.eqb (length positionals) n then None
        else Some (TakesExactly cmdName n)
    | None => None
    end
  with
  | Some e => inl e
  | None =>
      match
        match maxArgs with
        | Some n =>
            if Nat.ltb n (length positionals)
            then Some (TakesAtMost cmdName n) else None
        | None => None
        end
      with
      | Some e => inl e
      | None =>
          match
            match minArgs with
            | Some n =>
                if Nat.ltb (length positionals) n
                then Some (TakesAtLeast cmdName n) else None
            | None => None
            end
          with
          | Some e => inl e
          | None =>
              let cleaned := map trim positionals in
              if existsb (fun p => negb (JsString.truthy p)) cleaned
              then inl BlankPositional
              else inr cleaned
          end
      end
  end.

(** [new Set(tags.map((v) => v.trim()).filter((v) => v))]. *)
Definition validateTags (tgs : list string) : list Tag :=
  JsSet.of_list (filter JsString.truthy (map trim tgs)).

Definition parseDeleteCommand (name : string) (orphans : bool)
  (positionals : list string) : ParseFailure + DeleteCmdOpts :=
  match cleanAndValidatePositionals name positionals None (Some 2%nat) None with
  | inl e => inl e
  | inr ps =>
      match validateRepo (nth_error ps 0) with
      | inl e => inl (RepoFailure e)
      | inr repo =>
          inr {| dc_command := name; dc_repo := repo;
                 dc_tags := validateTags (skipn 1 ps);
                 dc_deleteOrphans := orphans |}
      end
  end.

Definition parseListCommand (name : string) (positionals : list string)
  : ParseFailure + ListCmdOpts :=
  match cleanAndValidatePositionals name positionals None (Some 1%nat) None with
  | inl e => inl e
  | inr ps =>
      match validateRepo (nth_error ps 0) with
      | inl e => inl (RepoFailure e)
      | inr repo =>
          inr {| lc_command := name; lc_repo := repo;
                 lc_tags := validateTags (skipn 1 ps) |}
      end
  end.

Definition parseReportCommand (name : string) (positionals : list string)
  : ParseFailure + ReportCmdOpts :=
  match cleanAndValidatePositionals name positionals None None (Some 1%nat) with
  | inl e => inl e
  | inr ps =>
      match validateRepo (nth_error ps 0) with
      | inl e => inl (RepoFailure e)
      | inr repo => inr {| rc_command := name; rc_repo := repo |}
      end
  end.
End Parser.

(** The white space of an ASCII command line. *)
Definition ascii_space (c : ascii) : bool :=
  let n := nat_of_ascii c in
  Nat.eqb n 32 || (Nat.leb 9 n && Nat.leb n 13).

(** ** Vocabulary of the report's counts *)

(** The digest of a ledger record. *)
Definition ledger_digest (w : World) (k : option Digest) : Prop :=
  exists pkg, In pkg (ledger w) /\ k = Some (pv_name pkg).

(** The key of a node is the digest of a ledger record or is referenced. *)
Definition key_src (w : World) (e : option Digest * PkgInfo) : Prop :=
  ledger_digest w (fst e) \/ referenced w (fst e).

(** The graph holds a node with an id for the digest. *)
Definition has_some_id (g : PkgMap) (k : option Digest) : Prop :=
  exists info i, JsMap.get k g = Some info /\ pi_id info = Some i.

(** Every record enumerated so far has a node with an id (or the run is
    aborted). *)
Definition ids_inv (w : World) (todo : list PackageVersion) (s : DState)
  : Prop :=
  signal_aborted (dproc s) = true
  \/ exists done,
       ledger w = done ++ todo
       /\ forall pkg, In pkg done ->
            has_some_id (graph s) (Some (pv_name pkg)).

(** The number of tags the delete path keeps of a list of records. *)
Definition tag_total (l : list PackageVersion) : nat :=
  list_sum (map (fun pkg => length (kept_tags pkg)) l).

(** The tags held by the graph are those of the records enumerated so
    far, and only nodes of such records hold tags (or the run is
    aborted). *)
Definition tags_inv (w : World) (todo : list PackageVersion) (s : DState)
  : Prop :=
  signal_aborted (dproc s) = true
  \/ exists done,
       ledger w = done ++ todo
       /\ overallTagCount (graph s) = tag_total done
       /\ forall k info,
            JsMap.get k (graph s) = Some info -> tags info <> [] ->
            exists pkg, In pkg done /\ k = Some (pv_name pkg).

(** A line of the report about the graph [m] carries the count the
    report computes from [m]. *)
Definition stat_of (m : PkgMap) (ev : Event) : Prop :=
  match ev with
  | StatVersions n => n = idCount m
  | StatDistinctDigests n => n = JsMap.size m
  | StatTags n => n = overallTagCount m
  | StatOrphans n => n = orphanCount m
  | StatToDelete n _ => n = tagToBeDeletedDigestCount m
  | LogError (InconsistentNoTag _) => True
  | _ => False
  end.

(** An event that is no count of the report. *)
Definition not_stat (ev : Event) : Prop :=
  match ev with
  | StatVersions _ | StatDistinctDigests _ | StatTags _ | StatOrphans _
  | StatToDelete _ _ => False
  | _ => True
  end.

(** Every deletion request of the trace comes right after the log line
    that announces it. *)
Definition announced (t : list Event) : Prop :=
  forall t1 t2 i,
    t = t1 ++ ApiDelete i :: t2 ->
    exists t0 shortDg byTags, t1 = t0 ++ [InfoDeleting i shortDg byTags].

(** An entry the loop gets past: it has a digest, passes the orphan
    consistency check, and its deletion request, if it is to be deleted,
    succeeds. *)
Definition batch_ok (api : Z -> bool) (deleteOrphans : bool)
  (e : option Digest * PkgInfo) : Prop :=
  fst e <> None
  /\ consistent_entry e
  /\ (forall i, pi_id (snd e) = Some i ->
        belongsToTagsToDelete (snd e) || (deleteOrphans && isOrphan (snd e))
        = true ->
        api i = true).

(** The tag whose index a command fetches for a record of the ledger:
    the first tag of the record, in the delete path the first non-empty
    one. *)
Definition fetch_tag (cmd : Cmd) (q : PackageVersion) : option Tag :=
  match cmd with
  | ListCmd _ => hd_error (pv_tags q)
  | DeleteCmd _ _ | ReportCmd => hd_error (kept_tags q)
  end.

(** The fetch of tag [tg] for record [q] is still to come, unless the run
    is aborted: [q] is still to be enumerated, or a task that fetches [tg]
    is running or waiting. *)
Definition awaits_fetch {St Tk : Type} (aborted : St -> bool)
  (tag_of : Tk -> Tag) (q : PackageVersion) (tg : Tag)
  (todo : list PackageVersion) (pending : list Tk) (s : St) : Prop :=
  aborted s = true
  \/ In q todo
  \/ exists t, In t pending /\ tag_of t = tg.

(** * Properties *)

Unset Implicit Arguments.

(** ** [JsMap] *)

Section JsMapFacts.
Context {K V : Type} `{EqDec K}.
Implicit Types (m : JsMap.t K V) (k : K) (v : V).

Lemma get_set_same : forall m k v, JsMap.get k (JsMap.set k v m) = Some v.
Proof.
  induction m as [|[k' v'] r IH]; intros k v; simpl.
  - destruct (eq_dec k k); congruence.
  - destruct (eq_dec k k') as [->|n]; simpl.
    + destruct (eq_dec k' k'); congruence.
    + destruct (eq_dec k k'); [congruence|apply IH].
Qed.

Lemma get_set_other :
  forall m k k' v, k' <> k -> JsMap.get k' (JsMap.set k v m) = JsMap.get k' m.
Proof.
  induction m as [|[k0 v0] r IH]; intros k k' v Hne; simpl.
  - destruct (eq_dec k' k); congruence.
  - destruct (eq_dec k k0) as [->|n]; simpl.
    + destruct (eq_dec k' k0); congruence.
    + destruct (eq_dec k' k0); [reflexivity|apply IH; assumption].
Qed.

Lemma set_absent :
  forall m k v, JsMap.get k m = None -> JsMap.set k v m = m ++ [(k, v)].
Proof.
  induction m as [|[k0 v0] r IH]; intros k v Hg; simpl in *.
  - reflexivity.
  - destruct (eq_dec k k0); [discriminate|].
    rewrite IH by assumption. reflexivity.
Qed.

End JsMapFacts.

(** ** [DefaultValueMap.get] *)

(** C9. For every key, [get] returns a value (never [undefined]) that the
    map holds under that key afterwards; the map is either unchanged (the
    key was present) or extended with the callback's default for the absent
    key; a second [get] of the same key returns the same value and leaves
    the map as it is. *)
Theorem DefaultValueMap_get_or_create :
  forall (K V : Type) (E : EqDec K) (cb : K -> JsMap.t K V -> V)
         (k : K) (m : JsMap.t K V),
    let v := fst (DefaultValueMap_get cb k m) in
    let m' := snd (DefaultValueMap_get cb k m) in
    JsMap.get k m' = Some v
    /\ JsMap.has k m' = true
    /\ (JsMap.get k m = Some v /\ m' = m
        \/ JsMap.get k m = None /\ v = cb k m /\ m' = JsMap.set k v m)
    /\ DefaultValueMap_get cb k m' = (v, m').
Proof.
  intros K V E cb k m. unfold DefaultValueMap_get, JsMap.has.
  destruct (JsMap.get k m) as [v0|] eqn:Hg; simpl.
  - rewrite Hg. repeat split; auto.
  - rewrite get_set_same. repeat split; auto.
Qed.

(** ** [validateRepo] and [unpackRepo] *)

Section StringFacts.
Import JsString.

Lemma indexOf_from_lower :
  forall c s z, -1 <= z -> -1 <= indexOf_from c s z.
Proof.
  intros c s. induction s as [|a s IHs]; intros z Hz; simpl; [lia|].
  destruct (Ascii.eqb a c); [assumption|apply IHs; lia].
Qed.

Lemma indexOf_from_shift :
  forall c s i,
    indexOf_from c s i =
    if indexOf_from c s 0 =? -1 then -1 else indexOf_from c s 0 + i.
Proof.
  intros c s. induction s as [|a r IH]; intros i; simpl.
  - reflexivity.
  - destruct (Ascii.eqb a c); simpl; [lia|].
    rewrite (IH (i + 1)), (IH 1).
    destruct (indexOf_from c r 0 =? -1) eqn:E; simpl; [reflexivity|].
    assert (Hr : indexOf_from c r 0 <> -1) by (apply Z.eqb_neq; assumption).
    assert (Hge : -1 <= indexOf_from c r 0)
      by (apply indexOf_from_lower; lia).
    destruct (indexOf_from c r 0 + 1 =? -1) eqn:E2; [|lia].
    apply Z.eqb_eq in E2. lia.
Qed.

Lemma indexOf_cons :
  forall c a r,
    indexOf c (String a r) =
    if Ascii.eqb a c then 0
    else if indexOf c r =? -1 then -1 else indexOf c r + 1.
Proof.
  intros c a r. unfold indexOf. simpl.
  destruct (Ascii.eqb a c); [reflexivity|].
  apply indexOf_from_shift.
Qed.

Lemma indexOf_range : forall c s, indexOf c s = -1 \/ 0 <= indexOf c s.
Proof.
  intros c s. induction s as [|a r IH].
  - left; reflexivity.
  - rewrite indexOf_cons. destruct (Ascii.eqb a c); [right; lia|].
    destruct (indexOf c r =? -1) eqn:E; [left; reflexivity|].
    apply Z.eqb_neq in E. right. lia.
Qed.

(** A string with a separator splits at its first occurrence. *)
Lemma indexOf_decompose :
  forall c s, 0 <= indexOf c s ->
    exists a r, s = (a ++ String c r)%string
                /\ indexOf c a = -1
                /\ Z.of_nat (String.length a) = indexOf c s.
Proof.
  intros c s. induction s as [|x r IH]; intros Hge.
  - unfold indexOf in Hge. simpl in Hge. lia.
  - rewrite indexOf_cons in Hge |- *.
    destruct (Ascii.eqb x c) eqn:Exc.
    + apply Ascii.eqb_eq in Exc. subst x.
      exists EmptyString, r. repeat split; reflexivity.
    + destruct (indexOf c r =? -1) eqn:E; [lia|].
      apply Z.eqb_neq in E.
      destruct (indexOf_range c r) as [Hr|Hr]; [contradiction|].
      destruct (IH Hr) as (a & r' & -> & Ha & Hlen).
      exists (String x a), r'. repeat split.
      * rewrite indexOf_cons, Exc, Ha. reflexivity.
      * simpl String.length. lia.
Qed.

Lemma split_nonempty : forall c s, split c s <> [].
Proof.
  intros c s. destruct s as [|a r]; simpl; [discriminate|].
  destruct (Ascii.eqb a c); [discriminate|].
  destruct (split c r); discriminate.
Qed.

Lemma split_no_separator :
  forall c s, indexOf c s = -1 -> split c s = [s].
Proof.
  intros c s. induction s as [|a r IH]; intros Hi; simpl.
  - reflexivity.
  - rewrite indexOf_cons in Hi.
    destruct (Ascii.eqb a c); [discriminate|].
    destruct (indexOf c r =? -1) eqn:E.
    + apply Z.eqb_eq in E. rewrite (IH E). reflexivity.
    + destruct (indexOf_range c r) as [Hr|Hr]; [|lia].
      apply Z.eqb_neq in E. contradiction.
Qed.

Lemma split_at_first :
  forall c a r, indexOf c a = -1 ->
    split c (a ++ String c r)%string = a :: split c r.
Proof.
  intros c a r. induction a as [|x a IH]; intros Hi; simpl.
  - rewrite Ascii.eqb_refl. reflexivity.
  - rewrite indexOf_cons in Hi.
    destruct (Ascii.eqb x c); [discriminate|].
    destruct (indexOf c a =? -1) eqn:E.
    + apply Z.eqb_eq in E. rewrite (IH E). reflexivity.
    + destruct (indexOf_range c a) as [Ha|Ha]; [|lia].
      apply Z.eqb_neq in E. contradiction.
Qed.

(** The first piece of a split has no separator, and what follows it in
    the string is empty or starts with the separator. *)
Lemma split_head :
  forall c s, exists h rest,
    split c s = h :: tl (split c s)
    /\ s = (h ++ rest)%string
    /\ indexOf c h = -1
    /\ (rest = EmptyString \/ exists r, rest = String c r).
Proof.
  intros c s. destruct (indexOf_range c s) as [Hn|Hp].
  - exists s, EmptyString. rewrite (split_no_separator _ _ Hn). simpl.
    repeat split; auto.
    clear. induction s; simpl; congruence.
  - destruct (indexOf_decompose _ _ Hp) as (a & r & -> & Ha & _).
    exists a, (String c r). rewrite (split_at_first _ _ _ Ha). simpl.
    repeat split; eauto.
Qed.
End StringFacts.

(** The guard of [validateRepo] looks at the first slash: a string that
    starts with a slash is rejected, whatever follows. *)
Lemma validateRepo_leading_slash :
  forall r : string,
    validateRepo (Some (String slash r))
    = inl (InvalidRepositoryArgument (Some (String slash r))).
Proof. intros r. reflexivity. Qed.

(** C10, as the code has it.  A repository string whose first slash is at
    index 1 or greater (the parser's test is [repo.indexOf("/") >= 1]) is
    accepted by [validateRepo], and [unpackRepo] returns as account the
    text before the first slash and as package name the component between
    the first and the second slash; whatever follows a second slash is
    dropped, not rejected. *)
Theorem unpackRepo_accepted :
  forall repo : string,
    1 <= JsString.indexOf slash repo ->
    validateRepo (Some repo) = inr repo
    /\ exists account pkg rest : string,
         repo = (account ++ String slash (pkg ++ rest))%string
         /\ Z.of_nat (String.length account) = JsString.indexOf slash repo
         /\ JsString.indexOf slash account = -1
         /\ JsString.indexOf slash pkg = -1
         /\ (rest = EmptyString \/ exists r, rest = String slash r)
         /\ unpackRepo repo = (Some account, Some pkg).
Proof.
  intros repo Hidx. split.
  - unfold validateRepo.
    destruct repo as [|a r]; [unfold JsString.indexOf in Hidx; simpl in Hidx; lia|].
    simpl JsString.truthy. simpl negb.
    destruct (JsString.indexOf slash (String a r) <? 1) eqn:E; [|reflexivity].
    apply Z.ltb_lt in E. lia.
  - destruct (indexOf_decompose slash repo) as (account & r & -> & Ha & Hlen);
      [lia|].
    destruct (split_head slash r) as (pkg & rest & Hs & -> & Hp & Hrest).
    exists account, pkg, rest. repeat split; try assumption.
    unfold unpackRepo, JsString.split_limit.
    rewrite (split_at_first _ _ _ Ha), Hs. reflexivity.
Qed.

(** A witness for C10: ['a/b/c'] is accepted and unpacked to ['a'] and
    ['b']. *)
Lemma unpackRepo_accepted_witness :
  validateRepo (Some "a/b/c") = inr "a/b/c"
  /\ unpackRepo "a/b/c" = (Some "a", Some "b").
Proof.
  destruct (unpackRepo_accepted "a/b/c") as [Hv (account & pkg & rest & H)].
  - vm_compute. discriminate.
  - split; [exact Hv|reflexivity].
Defined.

(** C10 as stated fails: ["/a/b"] contains a slash at index 2, and
    [validateRepo] rejects it, because its first slash is at index 0. *)
Lemma unpackRepo_accepted_counterexample :
  String.get 2 "/a/b" = Some slash
  /\ JsString.indexOf slash "/a/b" = 0
  /\ validateRepo (Some "/a/b")
     = inl (InvalidRepositoryArgument (Some "/a/b")).
Proof. repeat split. Qed.

(** ** The tag grouper *)

Section JsSetFacts.
Context {A : Type} `{EqDec A}.

Lemma add_In : forall (x y : A) s, In y (JsSet.add x s) <-> y = x \/ In y s.
Proof.
  intros x y s. unfold JsSet.add, JsSet.mem.
  destruct (in_dec eq_dec x s) as [Hin|Hnin].
  - split; [auto|]. intros [->|Hy]; assumption.
  - rewrite in_app_iff. simpl. split.
    + intros [Hy|[->|[]]]; auto.
    + intros [->|Hy]; auto.
Qed.

Lemma add_NoDup : forall (x : A) s, NoDup s -> NoDup (JsSet.add x s).
Proof.
  intros x s Hnd. unfold JsSet.add, JsSet.mem.
  destruct (in_dec eq_dec x s) as [Hin|Hnin]; [assumption|].
  apply NoDup_app; [assumption|repeat constructor; simpl; tauto|].
  intros a Ha [<-|[]]. contradiction.
Qed.

Lemma fold_add_spec :
  forall (xs s : list A),
    (forall y, In y (fold_left (fun s x => JsSet.add x s) xs s)
               <-> In y xs \/ In y s)
    /\ (NoDup s -> NoDup (fold_left (fun s x => JsSet.add x s) xs s)).
Proof.
  induction xs as [|x xs IH]; intros s; simpl.
  - split; [intros y; tauto|auto].
  - destruct (IH (JsSet.add x s)) as [IHin IHnd]. split.
    + intros y. rewrite IHin, add_In. intuition congruence.
    + intros Hnd. apply IHnd, add_NoDup, Hnd.
Qed.

Lemma of_list_In : forall (xs : list A) y, In y (JsSet.of_list xs) <-> In y xs.
Proof.
  intros xs y. unfold JsSet.of_list.
  rewrite (proj1 (fold_add_spec xs [])). simpl. tauto.
Qed.

Lemma of_list_NoDup : forall xs : list A, NoDup (JsSet.of_list xs).
Proof.
  intros xs. apply (proj2 (fold_add_spec xs [])). constructor.
Qed.
End JsSetFacts.

Lemma fold_set_get :
  forall (g : list Tag) (l : list Tag) (m : TagGroupMap) (t : Tag),
    JsMap.get t (fold_left (fun m tag => JsMap.set tag g m) l m) =
    if in_dec string_dec t l then Some g else JsMap.get t m.
Proof.
  intros g l. induction l as [|x l IH]; intros m t; simpl.
  - reflexivity.
  - rewrite IH. destruct (in_dec string_dec t l) as [Hin|Hnin].
    + destruct (string_dec x t); reflexivity.
    + destruct (string_dec x t) as [->|Hne].
      * apply get_set_same.
      * apply get_set_other. congruence.
Qed.

(** C3, as the code has it.  The grouper does not merge: it points every
    tag of the record's list to one fresh group holding exactly the tags of
    that list, each once, and leaves every other tag on the group it had.
    A tag of an earlier group that is not in the new list therefore keeps
    the earlier group, which still lists the tags that moved. *)
Theorem setTagGroup_replaces :
  forall (tgs : list Tag) (groups : TagGroupMap) (t : Tag),
    JsMap.get t (setTagGroup tgs groups) =
      (if in_dec string_dec t tgs then Some (JsSet.of_list tgs)
       else JsMap.get t groups)
    /\ NoDup (JsSet.of_list tgs)
    /\ (forall x, In x (JsSet.of_list tgs) <-> In x tgs).
Proof.
  intros tgs groups t. split; [|split].
  - unfold setTagGroup. rewrite fold_set_get.
    destruct (in_dec string_dec t (JsSet.of_list tgs)) as [Hin|Hnin];
      destruct (in_dec string_dec t tgs) as [Hin'|Hnin']; try reflexivity.
    + exfalso. apply Hnin'. apply (proj1 (of_list_In tgs t)). exact Hin.
    + exfalso. apply Hnin. apply (proj2 (of_list_In tgs t)). exact Hin'.
  - apply of_list_NoDup.
  - intros x. apply of_list_In.
Qed.

(** C3 as stated fails: after a record tagged [a, b] and a record tagged
    [b, c], the lookups of [a], [b] and [c] do not all yield a group whose
    members are [a], [b] and [c]. *)
Lemma setTagGroup_merge_counterexample :
  let groups :=
    setTagGroup ["b"; "c"]
      (setTagGroup ["a"; "b"] (tagGroups (lstate0 proc0))) in
  ~ (forall t, In t ["a"; "b"; "c"] ->
       exists g, JsMap.get t groups = Some g
                 /\ forall x, In x g <-> In x ["a"; "b"; "c"]).
Proof.
  intros groups Hall.
  destruct (Hall "a") as (g & Hg & Hmem); [simpl; auto|].
  vm_compute in Hg. injection Hg as <-.
  assert (Hc : In "c" ["a"; "b"]) by (apply Hmem; simpl; auto).
  simpl in Hc. destruct Hc as [Hc|[Hc|[]]]; discriminate.
Qed.

(** ** Traces *)

Lemma deletions_app :
  forall a b, deletions (a ++ b) = deletions a ++ deletions b.
Proof. intros a b. unfold deletions. apply flat_map_app. Qed.

Lemma deletions_none :
  forall t, Forall not_delete t -> deletions t = [].
Proof.
  induction 1 as [|ev t Hev _ IH]; [reflexivity|].
  unfold deletions in *. simpl. rewrite IH.
  destruct ev; simpl in *; try reflexivity. contradiction.
Qed.

Lemma appends_refl : forall Q p, appends Q p p.
Proof. intros Q p. exists []. rewrite app_nil_r. auto. Qed.

Lemma appends_trans :
  forall Q p1 p2 p3, appends Q p1 p2 -> appends Q p2 p3 -> appends Q p1 p3.
Proof.
  intros Q p1 p2 p3 (t1 & E1 & F1) (t2 & E2 & F2).
  exists (t1 ++ t2). rewrite E2, E1, app_assoc. split; [reflexivity|].
  apply Forall_app; auto.
Qed.

Lemma appends_emit : forall (Q : Event -> Prop) ev p, Q ev -> appends Q p (emit ev p).
Proof. intros Q ev p Hq. exists [ev]. simpl. auto. Qed.

Lemma appends_exitCode_or_1 : forall Q p, appends Q p (exitCode_or_1 p).
Proof. intros Q p. exists []. simpl. rewrite app_nil_r. auto. Qed.

Lemma appends_abort :
  forall (Q : Event -> Prop) err p,
    Q (LogAbortReason err) -> appends Q p (controller_abort err p).
Proof.
  intros Q err p Hq. unfold controller_abort.
  destruct (reason p); [apply appends_refl|].
  exists [LogAbortReason err]. simpl. auto.
Qed.

(** ** The deletion loop *)

Ltac visit_cases :=
  unfold visit, loop_emit, deletePackageVersion, throwIfAborted, pkgMap_get,
    DefaultValueMap_get in *;
  repeat match goal with
    | |- context [match ?x with _ => _ end] =>
        lazymatch x with
        | context [match _ with _ => _ end] => fail
        | _ => destruct x eqn:?
        end
    | H : context [match ?x with _ => _ end] |- _ =>
        lazymatch x with
        | context [match _ with _ => _ end] => fail
        | _ => destruct x eqn:?
        end
    end.

Lemma loop_entries_app :
  forall api o l1 l2 st,
    loop_entries api o (l1 ++ l2) st =
    match loop_entries api o l1 st with
    | (Some x, st') => (Some x, st')
    | (None, st') => loop_entries api o l2 st'
    end.
Proof.
  intros api o l1. induction l1 as [|e l1 IH]; intros l2 st; simpl.
  - reflexivity.
  - destruct (visit api o e st) as [[x|] st']; [reflexivity|apply IH].
Qed.

(** A visit keeps the abort reason and appends at most default nodes. *)
Lemma visit_frame :
  forall api o e st r st',
    visit api o e st = (r, st') ->
    reason (loproc st') = reason (loproc st)
    /\ exists ex, lmap st' = lmap st ++ ex
                  /\ Forall (fun x => snd x = defaultPkgInfo) ex.
Proof.
  intros api o [d info] st r st' Hv.
  assert (Hnil : forall m : PkgMap, exists ex,
             m = m ++ ex /\ Forall (fun x => snd x = defaultPkgInfo) ex)
    by (intros m; exists []; rewrite app_nil_r; auto).
  visit_cases; inversion Hv; subst; simpl; try (split; [reflexivity|apply Hnil]);
    try (split; [reflexivity|]).
  all: try (match goal with
            | Hg : JsMap.get _ _ = None |- _ =>
                rewrite (set_absent _ _ _ Hg); eexists; split; [reflexivity|];
                repeat constructor
            end).
Qed.

Lemma loop_entries_frame :
  forall api o todo st r st',
    loop_entries api o todo st = (r, st') ->
    reason (loproc st') = reason (loproc st)
    /\ exists ex, lmap st' = lmap st ++ ex
                  /\ Forall (fun x => snd x = defaultPkgInfo) ex.
Proof.
  intros api o todo. induction todo as [|e todo IH]; intros st r st' Hl;
    simpl in Hl.
  - inversion Hl; subst. split; [reflexivity|].
    exists []. rewrite app_nil_r. auto.
  - destruct (visit api o e st) as [[x|] st1] eqn:Hv.
    + inversion Hl; subst. eapply visit_frame; eassumption.
    + destruct (visit_frame _ _ _ _ _ _ Hv) as [Hr (ex1 & E1 & F1)].
      destruct (IH _ _ _ Hl) as [Hr2 (ex2 & E2 & F2)].
      split; [congruence|].
      exists (ex1 ++ ex2). rewrite E2, E1, app_assoc. split; [reflexivity|].
      apply Forall_app; auto.
Qed.

Lemma deletions_emit :
  forall ev p,
    deletions (trace (emit ev p)) =
    deletions (trace p) ++ match ev with ApiDelete i => [i] | _ => [] end.
Proof.
  intros ev p. simpl. rewrite deletions_app. f_equal.
  unfold deletions. simpl. apply app_nil_r.
Qed.

(** A visit that does not throw issues the deletion request of its entry
    exactly when the entry has an id and satisfies the deletion predicate. *)
Lemma visit_deletions :
  forall api o e st st',
    visit api o e st = (None, st') ->
    reason (loproc st) = None ->
    deletions (trace (loproc st')) =
    deletions (trace (loproc st)) ++ eligible_ids o [e].
Proof.
  intros api o [d info] st st' Hv Hr.
  unfold eligible_ids, eligible. simpl.
  visit_cases; inversion Hv; subst; simpl in *;
    repeat rewrite deletions_app; simpl;
    repeat rewrite app_nil_r; try reflexivity; try congruence.
  all: try (rewrite <- app_assoc; reflexivity).
Qed.

Lemma visit_inconsistent :
  forall api o dg info st,
    inconsistent_orphan info = true ->
    exists st',
      visit api o (Some dg, info) st =
        (Some (InconsistentOrphan (pi_id info) (trunc8 dg) (indexDigest info)
                 (tags info)), st')
      /\ deletions (trace (loproc st')) = deletions (trace (loproc st))
      /\ In (LogError (InconsistentOrphan (pi_id info) (trunc8 dg)
                         (indexDigest info) (tags info)))
            (trace (loproc st')).
Proof.
  intros api o dg info st Hinc. unfold inconsistent_orphan in Hinc.
  unfold visit. rewrite Hinc.
  apply andb_true_iff in Hinc. destruct Hinc as [Ho _]. rewrite Ho.
  eexists. split; [reflexivity|]. simpl. split.
  - repeat rewrite deletions_app. simpl. repeat rewrite app_nil_r.
    reflexivity.
  - apply in_or_app. right. left. reflexivity.
Qed.

Lemma visit_delete_fails :
  forall api o dg info i st,
    pi_id info = Some i ->
    eligible o info = true ->
    inconsistent_orphan info = false ->
    api i = false ->
    reason (loproc st) = None ->
    exists st',
      visit api o (Some dg, info) st = (Some (DeleteRequestError i), st')
      /\ deletions (trace (loproc st')) =
         deletions (trace (loproc st)) ++ [i].
Proof.
  intros api o dg info i st Hid Hel Hinc Hapi Hr.
  unfold inconsistent_orphan in Hinc. unfold eligible in Hel.
  unfold visit. rewrite Hinc, Hid, Hel.
  unfold deletePackageVersion, throwIfAborted.
  destruct (isOrphan info); simpl; rewrite Hr, Hapi;
    (eexists; split; [reflexivity|]); simpl;
    repeat rewrite deletions_app; simpl; repeat rewrite app_nil_r;
    reflexivity.
Qed.

Lemma loop_entries_deletions :
  forall api o todo st st',
    loop_entries api o todo st = (None, st') ->
    reason (loproc st) = None ->
    deletions (trace (loproc st')) =
    deletions (trace (loproc st)) ++ eligible_ids o todo.
Proof.
  intros api o todo. induction todo as [|e todo IH]; intros st st' Hl Hr;
    simpl in Hl.
  - inversion Hl; subst. unfold eligible_ids. simpl. rewrite app_nil_r.
    reflexivity.
  - destruct (visit api o e st) as [[x|] st1] eqn:Hv; [discriminate|].
    destruct (visit_frame _ _ _ _ _ _ Hv) as [Hr1 _].
    rewrite (IH _ _ Hl) by congruence.
    rewrite (visit_deletions _ _ _ _ _ Hv Hr).
    unfold eligible_ids. simpl. rewrite app_nil_r, <- app_assoc.
    reflexivity.
Qed.

Lemma eligible_ids_default :
  forall o ex, Forall (fun x => snd x = defaultPkgInfo) ex ->
    eligible_ids o ex = [].
Proof.
  intros o ex F. induction F as [|e ex He _ IH]; [reflexivity|].
  unfold eligible_ids in *. simpl. rewrite He, IH. reflexivity.
Qed.

Lemma skipn_appended :
  forall {A} (l ex : list A), skipn (length l) (l ++ ex) = ex.
Proof.
  intros A l ex. rewrite skipn_app, skipn_all, Nat.sub_diag. reflexivity.
Qed.

(** Later passes visit appended default nodes only: no deletion request. *)
Lemma loop_rounds_deletions_default :
  forall n api o ex st st',
    Forall (fun x => snd x = defaultPkgInfo) ex ->
    loop_rounds n api o ex st = (None, st') ->
    reason (loproc st) = None ->
    deletions (trace (loproc st')) = deletions (trace (loproc st)).
Proof.
  induction n as [|n IH]; intros api o ex st st' F Hl Hr; simpl in Hl.
  - inversion Hl; subst. reflexivity.
  - destruct (loop_entries api o ex st) as [[x|] st1] eqn:He; [discriminate|].
    destruct (loop_entries_frame _ _ _ _ _ _ He) as [Hr1 (ex1 & E1 & F1)].
    rewrite E1, skipn_appended in Hl.
    rewrite (IH _ _ _ _ _ F1 Hl) by congruence.
    rewrite (loop_entries_deletions _ _ _ _ _ He Hr).
    rewrite (eligible_ids_default _ _ F). apply app_nil_r.
Qed.

Lemma delete_loop_deletions :
  forall api o m p st,
    reason p = None ->
    delete_loop api o m p = (None, st) ->
    deletions (trace (loproc st)) = deletions (trace p) ++ eligible_ids o m.
Proof.
  intros api o m p st Hr Hl. unfold delete_loop in Hl.
  cbn [loop_rounds] in Hl.
  destruct (loop_entries api o m _) as [[x|] st1] eqn:He; [discriminate|].
  destruct (loop_entries_frame _ _ _ _ _ _ He) as [Hr1 (ex1 & E1 & F1)].
  simpl in Hr1, E1.
  pose proof (loop_entries_deletions _ _ _ _ _ He Hr) as Hd. simpl in Hd.
  change (loop_rounds 2 api o (skipn (length m) (lmap st1)) st1 = (None, st))
    in Hl.
  rewrite E1, skipn_appended in Hl.
  rewrite (loop_rounds_deletions_default _ _ _ _ _ _ F1 Hl) by congruence.
  exact Hd.
Qed.

Lemma loop_rounds_throw :
  forall n api o todo st x st',
    loop_entries api o todo st = (Some x, st') ->
    loop_rounds (S n) api o todo st = (Some x, st').
Proof. intros n api o todo st x st' He. simpl. rewrite He. reflexivity. Qed.

Lemma exitCode_or_1_nonzero : forall p, exitCode (exitCode_or_1 p) <> 0.
Proof.
  intros p. simpl. destruct (exitCode p =? 0) eqn:E; [lia|].
  apply Z.eqb_neq. assumption.
Qed.

Lemma controller_abort_exitCode :
  forall err p, exitCode p <> 0 -> exitCode (controller_abort err p) <> 0.
Proof.
  intros err p Hp. unfold controller_abort. destruct (reason p); [assumption|].
  simpl. destruct (exitCode p =? 0); [lia|assumption].
Qed.

(** An error thrown by the command makes the exit code non-zero. *)
Lemma main_error_exit :
  forall cmd w e p,
    runCmd cmd w proc0 = (Throws e, p) -> exitCode (main cmd w) <> 0.
Proof.
  intros cmd w e p Hr. unfold main. rewrite Hr.
  apply controller_abort_exitCode, exitCode_or_1_nonzero.
Qed.

(** C7. In the deletion loop, an entry marked orphan that has a non-empty
    [indexDigest] or a non-empty [tags] list is never deleted and raises a
    fatal consistency error.  Whatever the state of the loop, the visit of
    such an entry logs and throws the consistency error and issues no
    deletion request.  So the loop over a graph that holds such an entry
    always ends with an error, the consistency error for that entry unless
    an entry before it has already thrown, and the deletion requests issued
    are those issued before the entry was reached. *)
Theorem inconsistent_orphan_refused :
  forall (api : Z -> bool) (deleteOrphans : bool) (dg : Digest)
         (info : PkgInfo),
    isOrphan info = true ->
    indexDigest info <> "" \/ tags info <> [] ->
    let err :=
      InconsistentOrphan (pi_id info) (trunc8 dg) (indexDigest info)
        (tags info) in
    (forall st : LoopState,
        exists st' : LoopState,
          visit api deleteOrphans (Some dg, info) st = (Some err, st')
          /\ deletions (trace (loproc st')) = deletions (trace (loproc st))
          /\ In (LogError err) (trace (loproc st')))
    /\ (forall (l1 l2 : list (option Digest * PkgInfo)) (p : Proc),
          let m := l1 ++ (Some dg, info) :: l2 in
          let before :=
            loop_entries api deleteOrphans l1
              {| lmap := m; deletedCount := 0; loproc := p |} in
          let result := delete_loop api deleteOrphans m p in
          fst result
            = match fst before with Some x => Some x | None => Some err end
          /\ fst result <> None
          /\ deletions (trace (loproc (snd result))) =
             deletions (trace (loproc (snd before)))).
Proof.
  intros api o dg info Ho Hne err.
  assert (Hinc : inconsistent_orphan info = true).
  { unfold inconsistent_orphan. rewrite Ho. simpl.
    destruct Hne as [Hi|Ht].
    - destruct (indexDigest info); [congruence|reflexivity].
    - destruct (tags info); [congruence|]. simpl. apply orb_true_r. }
  split; [intros st; apply visit_inconsistent; exact Hinc|].
  intros l1 l2 p m before result.
  assert (Hres : exists st',
             loop_entries api o m {| lmap := m; deletedCount := 0; loproc := p |}
             = (Some (match fst before with Some x => x | None => err end), st')
             /\ deletions (trace (loproc st')) =
                deletions (trace (loproc (snd before)))).
  { unfold m at 1. rewrite loop_entries_app. fold before.
    destruct before as [[x|] st1]; cbn [fst snd loop_entries].
    - eexists. split; reflexivity.
    - destruct (visit_inconsistent api o dg info st1 Hinc)
        as (st' & Hv & Hd & _).
      rewrite Hv. eexists. split; [reflexivity|exact Hd]. }
  destruct Hres as (st' & He & Hd).
  unfold result, delete_loop. rewrite (loop_rounds_throw _ _ _ _ _ _ _ He).
  simpl. repeat split.
  - destruct (fst before); reflexivity.
  - discriminate.
  - exact Hd.
Qed.

(** A witness for C7: an orphan entry carrying a tag is refused, after the
    deletion of the entry before it. *)
Lemma inconsistent_orphan_refused_witness :
  let e1 :=
    (Some "sha256:aa",
     {| pi_id := Some 1; isOrphan := false; belongsToTagsToDelete := true;
        indexDigest := "sha256:aa"; tags := ["v1"] |}) in
  let bad :=
    {| pi_id := Some 2; isOrphan := true; belongsToTagsToDelete := true;
       indexDigest := ""; tags := ["v2"] |} in
  let result :=
    delete_loop (fun _ => true) true [e1; (Some "sha256:bb", bad)] proc0 in
  fst result = Some (InconsistentOrphan (Some 2) "sha256:bb" "" ["v2"])
  /\ deletions (trace (loproc (snd result))) = [1].
Proof.
  intros e1 bad result.
  destruct (inconsistent_orphan_refused (fun _ => true) true "sha256:bb" bad)
    as (_ & Hloop).
  - reflexivity.
  - right. discriminate.
  - destruct (Hloop [e1] [] proc0) as (H1 & _ & H3).
    split; [exact H1|exact H3].
Defined.

(** ** The engine: enumeration, tasks and join *)

Lemma remove_nth_In :
  forall {A} (l : list A) i x, In x (remove_nth i l) -> In x l.
Proof.
  intros A l. unfold remove_nth.
  induction l as [|a l IH]; intros i x Hin.
  - destruct i; simpl in Hin; contradiction.
  - destruct i as [|i]; simpl in Hin.
    + right. assumption.
    + destruct Hin as [<-|Hin]; [left; reflexivity|].
      right. apply (IH i). assumption.
Qed.

Lemma remove_nth_app :
  forall {A} (a q : list A) i,
    (i < length a)%nat -> remove_nth i (a ++ q) = remove_nth i a ++ q.
Proof.
  intros A a q i Hi. unfold remove_nth.
  rewrite firstn_app, skipn_app.
  replace (i - length a)%nat with 0%nat by lia.
  replace (S i - length a)%nat with 0%nat by lia.
  simpl. rewrite app_nil_r, app_assoc. reflexivity.
Qed.

Lemma remove_nth_length :
  forall {A} (l : list A) i t,
    nth_error l i = Some t -> S (length (remove_nth i l)) = length l.
Proof.
  intros A l. unfold remove_nth.
  induction l as [|a l IH]; intros i t Hn; [destruct i; discriminate|].
  destruct i as [|i]; simpl in *; [reflexivity|].
  f_equal. apply (IH i t). assumption.
Qed.

Section EngineFacts.
Variables St Tk : Type.
Variable aborted : St -> bool.
Variable cb : PackageVersion -> St -> option Exn * St * option Tk.
Variable resolve : Tk -> St -> St.

(** *** The limiter *)

Lemma resumeNext_pending :
  forall l : Limiter Tk, lim_pending (resumeNext l) = lim_pending l.
Proof.
  intros [a q d]. unfold resumeNext, lim_pending. simpl.
  destruct q as [|t q]; [reflexivity|].
  destruct (Nat.ltb (length a) concurrency); simpl; [|reflexivity].
  rewrite <- app_assoc. reflexivity.
Qed.

Lemma resumeNext_dropped :
  forall l : Limiter Tk, lim_dropped (resumeNext l) = lim_dropped l.
Proof.
  intros [a q d]. unfold resumeNext. simpl.
  destruct q as [|t q]; [reflexivity|].
  destruct (Nat.ltb (length a) concurrency); reflexivity.
Qed.

(** The limiter starts a waiting task exactly when fewer than five run. *)
Lemma resumeNext_wf :
  forall l : Limiter Tk,
    (length (lim_active l) <= concurrency)%nat ->
    (length (lim_queue l) <= 1)%nat \/ (4 <= length (lim_active l))%nat ->
    lim_wf (resumeNext l).
Proof.
  intros [a q d]. unfold resumeNext, lim_wf, concurrency. simpl.
  intros Ha Hq. destruct q as [|t q]; simpl.
  - split; [assumption|left; reflexivity].
  - destruct (Nat.ltb_spec (length a) 5) as [Hlt|Hge]; simpl.
    + rewrite length_app. simpl. split; [lia|].
      destruct Hq as [Hq|Hq]; [left|right; lia].
      simpl in Hq. destruct q; [reflexivity|simpl in Hq; lia].
    + split; [assumption|right; lia].
Qed.

Lemma on_abort_cases :
  forall (s s' : St) (l : Limiter Tk),
    on_abort aborted s s' l = l
    \/ (aborted s = false /\ aborted s' = true
        /\ on_abort aborted s s' l = clearQueue l).
Proof.
  intros s s' l. unfold on_abort.
  destruct (aborted s); simpl; [left; reflexivity|].
  destruct (aborted s'); [right; auto|left; reflexivity].
Qed.

Lemma on_abort_active :
  forall (s s' : St) (l : Limiter Tk),
    lim_active (on_abort aborted s s' l) = lim_active l.
Proof.
  intros s s' l.
  destruct (on_abort_cases s s' l) as [->|(_ & _ & ->)]; reflexivity.
Qed.

Lemma on_abort_queue :
  forall (s s' : St) (l : Limiter Tk),
    lim_queue (on_abort aborted s s' l) = lim_queue l
    \/ lim_queue (on_abort aborted s s' l) = [].
Proof.
  intros s s' l.
  destruct (on_abort_cases s s' l) as [->|(_ & _ & ->)]; auto.
Qed.

Lemma on_abort_wf :
  forall (s s' : St) (l : Limiter Tk),
    lim_wf l -> lim_wf (on_abort aborted s s' l).
Proof.
  intros s s' l [Ha Hq]. unfold lim_wf. rewrite on_abort_active.
  split; [assumption|].
  destruct (on_abort_queue s s' l) as [->| ->]; auto.
Qed.

(** What a completion does to the limiter: the task leaves, and the
    waiting tasks stay unless this step aborts the run. *)
Lemma complete_spec :
  forall i (l : Limiter Tk) s l' s',
    complete aborted resolve i l s = (l', s') ->
    (nth_error (lim_active l) i = None /\ l' = l /\ s' = s)
    \/ exists t,
         nth_error (lim_active l) i = Some t
         /\ s' = resolve t s
         /\ (lim_pending l' = remove_nth i (lim_pending l)
             /\ lim_dropped l' = lim_dropped l
             \/ aborted s = false /\ aborted s' = true
                /\ lim_pending l' = remove_nth i (lim_active l)).
Proof.
  intros i l s l' s' Hc. unfold complete in Hc.
  destruct (nth_error (lim_active l) i) as [t|] eqn:Hn.
  - right. exists t. inversion Hc; subst l' s'; clear Hc.
    split; [reflexivity|]. split; [reflexivity|].
    rewrite resumeNext_pending, resumeNext_dropped.
    assert (Hi : (i < length (lim_active l))%nat).
    { apply nth_error_Some. congruence. }
    match goal with
    | |- context [on_abort aborted s ?s1 ?l1] =>
        destruct (on_abort_cases s s1 l1) as [->|(Ha & Ha' & ->)]
    end.
    + left. unfold lim_pending. simpl.
      rewrite remove_nth_app by assumption. auto.
    + right. unfold lim_pending. simpl. rewrite app_nil_r. auto.
  - left. inversion Hc. auto.
Qed.

Lemma complete_wf :
  forall i (l : Limiter Tk) s l' s',
    lim_wf l -> complete aborted resolve i l s = (l', s') -> lim_wf l'.
Proof.
  intros i l s l' s' Hw Hc. unfold complete in Hc.
  destruct (nth_error (lim_active l) i) as [t|] eqn:Hn;
    [|inversion Hc; subst; assumption].
  inversion Hc; subst l' s'; clear Hc.
  pose proof (remove_nth_length _ _ _ Hn) as Hlen.
  destruct Hw as [Ha Hq]. unfold concurrency in *.
  apply resumeNext_wf; rewrite on_abort_active; simpl.
  - unfold concurrency. lia.
  - match goal with
    | |- context [on_abort aborted s ?s1 ?l1] =>
        destruct (on_abort_queue s s1 l1) as [Hk|Hk]; rewrite Hk
    end; simpl.
    + destruct Hq as [->|Hq]; [left; simpl; lia|right; lia].
    + left. lia.
Qed.

Lemma complete_measure :
  forall (l : Limiter Tk) s l' s' t a,
    lim_active l = t :: a ->
    complete aborted resolve 0 l s = (l', s') ->
    (length (lim_pending l') < length (lim_pending l))%nat.
Proof.
  intros l s l' s' t a Ha Hc.
  destruct (complete_spec _ _ _ _ _ Hc) as [(Hn & _)|(t' & Hn & _ & Hp)].
  - rewrite Ha in Hn. discriminate.
  - assert (Hn' : nth_error (lim_pending l) 0 = Some t').
    { unfold lim_pending. rewrite Ha in *. exact Hn. }
    pose proof (remove_nth_length _ _ _ Hn') as H1.
    pose proof (remove_nth_length _ _ _ Hn) as H2.
    destruct Hp as [[-> _]|(_ & _ & ->)]; [lia|].
    unfold lim_pending in *. rewrite length_app in *. lia.
Qed.

(** What an enumeration step does to the limiter: the callback's task
    joins, and the waiting tasks stay unless this step aborts the run. *)
Lemma enumerate_spec :
  forall pkg (l : Limiter Tk) s r l' s',
    enumerate aborted cb pkg l s = (r, l', s') ->
    exists ot,
      cb pkg s = (r, s', ot)
      /\ let new := match r with None => opt_list ot | Some _ => [] end in
         (lim_pending l' = lim_pending l ++ new
          /\ lim_dropped l' = lim_dropped l
          \/ aborted s = false /\ aborted s' = true
             /\ lim_pending l' = lim_active l ++ new).
Proof.
  intros pkg l s r l' s' He. unfold enumerate in He.
  destruct (cb pkg s) as [[r0 s0] ot] eqn:Hc. exists ot.
  assert (Hbase :
            lim_pending (on_abort aborted s s0 l) = lim_pending l
            /\ lim_dropped (on_abort aborted s s0 l) = lim_dropped l
            \/ aborted s = false /\ aborted s0 = true
               /\ lim_pending (on_abort aborted s s0 l) = lim_active l).
  { destruct (on_abort_cases s s0 l) as [->|(Ha & Ha' & ->)]; [auto|].
    right. unfold lim_pending. simpl. rewrite app_nil_r. auto. }
  destruct r0 as [e|].
  - inversion He; subst r l' s'; clear He. split; [reflexivity|]. simpl.
    rewrite !app_nil_r. exact Hbase.
  - inversion He; subst r l' s'; clear He. split; [reflexivity|]. simpl.
    destruct ot as [t|]; simpl; [|rewrite !app_nil_r; exact Hbase].
    unfold submit. rewrite resumeNext_pending, resumeNext_dropped.
    unfold lim_pending in *. simpl. rewrite app_assoc.
    destruct Hbase as [[-> ->]|(Ha & Ha' & ->)]; auto.
Qed.

Lemma enumerate_wf :
  forall pkg (l : Limiter Tk) s r l' s',
    lim_wf l -> enumerate aborted cb pkg l s = (r, l', s') -> lim_wf l'.
Proof.
  intros pkg l s r l' s' Hw He. unfold enumerate in He.
  destruct (cb pkg s) as [[r0 s0] ot].
  pose proof (on_abort_wf s s0 l Hw) as Hw1.
  destruct r0 as [e|]; [inversion He; subst; assumption|].
  inversion He; subst r l' s'; clear He.
  destruct ot as [t|]; [|assumption].
  destruct Hw1 as [Ha Hq]. unfold submit.
  apply resumeNext_wf; simpl; [assumption|].
  destruct Hq as [->|Hq]; [left; simpl; lia|right].
  unfold concurrency in Hq. lia.
Qed.

Lemma complete_pending_incl :
  forall i (l : Limiter Tk) s l' s',
    complete aborted resolve i l s = (l', s') ->
    forall x, In x (lim_pending l') -> In x (lim_pending l).
Proof.
  intros i l s l' s' Hc x Hx.
  destruct (complete_spec _ _ _ _ _ Hc)
    as [(_ & -> & _)|(t & _ & _ & [[Hp _]|(_ & _ & Hp)])];
    [assumption| |]; rewrite Hp in Hx.
  - eapply remove_nth_In; eassumption.
  - unfold lim_pending. apply in_or_app. left.
    eapply remove_nth_In; eassumption.
Qed.

Lemma enumerate_pending_incl :
  forall pkg (l : Limiter Tk) s r l' s',
    enumerate aborted cb pkg l s = (r, l', s') ->
    forall x,
      In x (lim_pending l') ->
      In x (lim_pending l)
      \/ In x (match r with
               | None => opt_list (snd (cb pkg s))
               | Some _ => []
               end).
Proof.
  intros pkg l s r l' s' He x Hx.
  destruct (enumerate_spec _ _ _ _ _ _ He) as (ot & Hc & Hp). rewrite Hc. simpl.
  destruct Hp as [[Hp _]|(_ & _ & Hp)]; rewrite Hp in Hx;
    apply in_app_or in Hx; destruct Hx as [Hx|Hx]; auto.
  left. unfold lim_pending. apply in_or_app. auto.
Qed.

(** *** Invariants of a run

    [P thrown todo l s]: the invariant, given the error thrown by the
    callback so far, the records still to enumerate, the limiter and the
    state. *)
Section RunInvariant.
Variable P : option Exn -> list PackageVersion -> Limiter Tk -> St -> Prop.

Hypothesis P_enumerate :
  forall pkg rest l s r l' s',
    lim_wf l -> P None (pkg :: rest) l s -> aborted s = false ->
    enumerate aborted cb pkg l s = (r, l', s') ->
    P r (match r with None => rest | Some _ => [] end) l' s'.
Hypothesis P_complete :
  forall thrown todo i l s l' s',
    lim_wf l -> P thrown todo l s ->
    complete aborted resolve i l s = (l', s') ->
    P thrown todo l' s'.
Hypothesis P_stop :
  forall thrown todo l s,
    P thrown todo l s -> aborted s = true \/ thrown <> None ->
    P thrown [] l s.

(** Every started task completes: the join leaves no task running, and
    the fuel given to it is enough. *)
Lemma drain_tasks_done :
  forall fuel thrown l s l' s',
    lim_wf l -> P thrown [] l s ->
    (length (lim_pending l) <= fuel)%nat ->
    drain_tasks aborted resolve fuel l s = (l', s') ->
    P thrown [] l' s' /\ lim_active l' = [] /\ lim_queue l' = [].
Proof.
  induction fuel as [|f IH]; intros thrown l s l' s' Hw Hp Hf Hd;
    simpl in Hd.
  - inversion Hd; subst. unfold lim_pending in Hf. rewrite length_app in Hf.
    split; [assumption|].
    split; apply length_zero_iff_nil; lia.
  - destruct (lim_active l) as [|t a] eqn:Ha.
    + inversion Hd; subst. split; [assumption|]. split; [assumption|].
      destruct Hw as [_ [Hq|Hq]]; [assumption|].
      rewrite Ha in Hq. discriminate.
    + destruct (complete aborted resolve 0 l s) as [l1 s1] eqn:Hc.
      pose proof (complete_measure _ _ _ _ _ _ Ha Hc) as Hm.
      eapply IH; [| | |exact Hd].
      * eapply complete_wf; eassumption.
      * eapply P_complete; eassumption.
      * lia.
Qed.

Lemma drain_ledger_P :
  forall todo l s r l' s',
    lim_wf l -> P None todo l s ->
    drain_ledger aborted cb todo l s = (r, l', s') ->
    P r [] l' s' /\ lim_wf l'.
Proof.
  induction todo as [|pkg rest IH]; intros l s r l' s' Hw Hp Hd;
    simpl in Hd.
  - inversion Hd; subst. auto.
  - destruct (aborted s) eqn:Ha.
    + inversion Hd; subst. split; [|assumption].
      eapply P_stop; [eassumption|auto].
    + destruct (enumerate aborted cb pkg l s) as [[r1 l1] s1] eqn:He.
      pose proof (P_enumerate _ _ _ _ _ _ _ Hw Hp Ha He) as Hp1.
      pose proof (enumerate_wf _ _ _ _ _ _ Hw He) as Hw1.
      destruct r1 as [e|].
      * inversion Hd; subst. auto.
      * eapply IH; eassumption.
Qed.

Lemma finish_P :
  forall thrown todo l s r s' d,
    lim_wf l -> P thrown todo l s ->
    finish aborted cb resolve thrown todo l s = (r, s', d) ->
    exists l',
      P r [] l' s' /\ lim_active l' = [] /\ lim_queue l' = []
      /\ lim_dropped l' = d.
Proof.
  intros thrown todo l s r s' d Hw Hp Hf. unfold finish in Hf.
  assert (H1 : exists r1 l1 s1,
             match thrown with
             | Some e => (Some e, l, s)
             | None => drain_ledger aborted cb todo l s
             end = (r1, l1, s1)
             /\ P r1 [] l1 s1 /\ lim_wf l1).
  { destruct thrown as [e|].
    - exists (Some e), l, s. split; [reflexivity|]. split; [|assumption].
      eapply P_stop; [eassumption|]. right. discriminate.
    - destruct (drain_ledger aborted cb todo l s) as [[r1 l1] s1] eqn:Hd.
      exists r1, l1, s1. split; [reflexivity|].
      eapply drain_ledger_P; eassumption. }
  destruct H1 as (r1 & l1 & s1 & Heq & Hp1 & Hw1). rewrite Heq in Hf.
  destruct (drain_tasks aborted resolve
              (length (lim_active l1) + length (lim_queue l1)) l1 s1)
    as [l2 s2] eqn:Hd.
  inversion Hf; subst r s' d; clear Hf. exists l2.
  assert (Hlen : (length (lim_pending l1)
                  <= length (lim_active l1) + length (lim_queue l1))%nat).
  { unfold lim_pending. rewrite length_app. lia. }
  destruct (drain_tasks_done _ _ _ _ _ _ Hw1 Hp1 Hlen Hd)
    as (Hp2 & Ha2 & Hq2).
  auto.
Qed.

Lemma run_P :
  forall sched thrown todo l s r s' d,
    lim_wf l -> P thrown todo l s ->
    run aborted cb resolve sched thrown todo l s = (r, s', d) ->
    exists l',
      P r [] l' s' /\ lim_active l' = [] /\ lim_queue l' = []
      /\ lim_dropped l' = d.
Proof.
  induction sched as [|c sc IH]; intros thrown todo l s r s' d Hw Hp Hr;
    simpl in Hr.
  - eapply finish_P; eassumption.
  - destruct c as [|i].
    + destruct thrown as [e|].
      * eapply IH; [exact Hw| |exact Hr].
        eapply P_stop; [eassumption|]. right. discriminate.
      * destruct todo as [|pkg rest]; [eapply IH; eassumption|].
        destruct (aborted s) eqn:Ha.
        -- eapply IH; [exact Hw| |exact Hr].
           eapply P_stop; [eassumption|auto].
        -- destruct (enumerate aborted cb pkg l s) as [[r1 l1] s1] eqn:He.
           pose proof (P_enumerate _ _ _ _ _ _ _ Hw Hp Ha He) as Hp1.
           pose proof (enumerate_wf _ _ _ _ _ _ Hw He) as Hw1.
           destruct r1 as [e|]; eapply IH; eassumption.
    + destruct (complete aborted resolve i l s) as [l1 s1] eqn:Hc.
      eapply IH; [| |exact Hr].
      * eapply complete_wf; eassumption.
      * eapply P_complete; eassumption.
Qed.
End RunInvariant.

Lemma lim0_wf : lim_wf (lim0 Tk).
Proof.
  unfold lim_wf, lim0, concurrency. simpl. split; [lia|auto].
Qed.

(** An error thrown by the callback is the error of the run. *)
Lemma run_thrown :
  forall sched thrown todo l s r s' d,
    lim_wf l ->
    run aborted cb resolve sched thrown todo l s = (r, s', d) ->
    forall e, thrown = Some e -> r = Some e.
Proof.
  intros sched thrown todo l s r s' d Hw Hr.
  destruct (run_P (fun th _ _ _ => forall e, thrown = Some e -> th = Some e))
    with (4 := Hw) (6 := Hr) as (l' & H & _).
  - intros pkg rest l0 s0 r0 l1 s1 _ H _ _ e He.
    specialize (H e He). discriminate.
  - intros th td i l0 s0 l1 s1 _ H _. exact H.
  - intros th td l0 s0 H _. exact H.
  - intros e He. exact He.
  - exact H.
Qed.

(** *** The limiter never runs more than five tasks, and a task is
    discarded only by an abort *)

Hypothesis resolve_sticky :
  forall t s, aborted s = true -> aborted (resolve t s) = true.

Lemma run_dropped_aborted :
  forall sched todo s r s',
    run aborted cb resolve sched None todo (lim0 Tk) s = (r, s', true) ->
    aborted s' = true.
Proof.
  intros sched todo s r s' Hr.
  destruct (run_P (fun _ _ l s => lim_dropped l = true -> aborted s = true))
    with (4 := lim0_wf) (6 := Hr) as (l' & H & _ & _ & Hd).
  - intros pkg rest l0 s0 r0 l1 s1 _ H Ha He Hd.
    destruct (enumerate_spec _ _ _ _ _ _ He) as (ot & _ & [[_ Hd']|(_ & Ha' & _)]);
      [|assumption].
    rewrite Hd' in Hd. specialize (H Hd). congruence.
  - intros th td i l0 s0 l1 s1 _ H Hc Hd.
    destruct (complete_spec _ _ _ _ _ Hc)
      as [(_ & -> & ->)|(t & _ & -> & [[_ Hd']|(_ & Ha' & _)])].
    + auto.
    + apply resolve_sticky. apply H. congruence.
    + assumption.
  - intros th td l0 s0 H _. exact H.
  - simpl. discriminate.
  - auto.
Qed.
End EngineFacts.

Section EngineInv.
Variables St Tk : Type.
Variable aborted : St -> bool.
Variable cb : PackageVersion -> St -> option Exn * St * option Tk.
Variable resolve : Tk -> St -> St.

(** [I todo s]: the invariant, given the records still to enumerate;
    [E s]: what holds once the callback has thrown; [TP t]: what holds of
    a scheduled task. *)
Variable I : list PackageVersion -> St -> Prop.
Variable E : St -> Prop.
Variable TP : Tk -> Prop.

Hypothesis cb_ok :
  forall pkg rest s s' ot,
    I (pkg :: rest) s -> aborted s = false -> cb pkg s = (None, s', ot) ->
    I rest s' /\ (forall t, ot = Some t -> TP t).
Hypothesis cb_err :
  forall pkg rest s e s' ot,
    I (pkg :: rest) s -> aborted s = false -> cb pkg s = (Some e, s', ot) ->
    E s'.
Hypothesis resolve_ok :
  forall todo t s, TP t -> I todo s -> I todo (resolve t s).
Hypothesis resolve_err :
  forall t s, TP t -> E s -> E (resolve t s).
Hypothesis stop_ok :
  forall todo s, I todo s -> aborted s = true -> I [] s.

Lemma run_inv :
  forall sched todo s r s',
    I todo s ->
    fst (run aborted cb resolve sched None todo (lim0 Tk) s) = (r, s') ->
    match r with None => I [] s' | Some _ => E s' end.
Proof.
  intros sched todo s r s' Hi Hr.
  destruct (run aborted cb resolve sched None todo (lim0 Tk) s)
    as [[r0 s0] d] eqn:Hrun.
  simpl in Hr. inversion Hr; subst r0 s0; clear Hr.
  destruct (run_P St Tk aborted cb resolve
              (fun thrown todo l s =>
                 Forall TP (lim_pending l)
                 /\ match thrown with None => I todo s | Some _ => E s end))
    with (4 := lim0_wf Tk) (6 := Hrun) as (l' & [_ H] & _).
  - intros pkg rest l0 s0 r0 l1 s1 _ [F H] Ha He.
    destruct (enumerate_spec _ _ _ _ _ _ _ _ _ _ He) as (ot & Hc & _).
    split.
    + rewrite Forall_forall in *. intros t Ht.
      destruct (enumerate_pending_incl _ _ _ _ _ _ _ _ _ _ He _ Ht) as [Hin|Hin];
        [apply F; assumption|].
      destruct r0 as [e|]; [destruct Hin|].
      rewrite Hc in Hin. simpl in Hin. destruct ot as [t0|]; [|destruct Hin].
      destruct Hin as [<-|[]].
      apply (proj2 (cb_ok _ _ _ _ _ H Ha Hc)). reflexivity.
    + destruct r0 as [e|].
      * eapply cb_err; eassumption.
      * apply (proj1 (cb_ok _ _ _ _ _ H Ha Hc)).
  - intros th td i l0 s0 l1 s1 _ [F H] Hc. split.
    + rewrite Forall_forall in *. intros t Ht. apply F.
      eapply complete_pending_incl; eassumption.
    + destruct (complete_spec _ _ _ _ _ _ _ _ _ Hc)
        as [(_ & _ & ->)|(t & Hn & -> & _)]; [assumption|].
      assert (Ht : TP t).
      { rewrite Forall_forall in F. apply F. unfold lim_pending.
        apply in_or_app. left. eapply nth_error_In; eassumption. }
      destruct th; [apply resolve_err|apply resolve_ok]; assumption.
  - intros th td l0 s0 [F H] Hs. split; [assumption|].
    destruct th as [e|]; [assumption|].
    destruct Hs as [Hs|Hs]; [|congruence].
    eapply stop_ok; eassumption.
  - split; [constructor|assumption].
  - exact H.
Qed.
End EngineInv.

(** *** Invariants that mention the tasks the limiter holds *)

Lemma remove_nth_keeps :
  forall {A} (l : list A) i t x,
    nth_error l i = Some t -> In x l -> x = t \/ In x (remove_nth i l).
Proof.
  intros A l. unfold remove_nth.
  induction l as [|a l IH]; intros i t x Hn Hin; [destruct Hin|].
  destruct i as [|i]; simpl in *.
  - inversion Hn; subst. destruct Hin as [->|Hin]; auto.
  - destruct Hin as [->|Hin]; [right; left; reflexivity|].
    destruct (IH i t x Hn Hin) as [->|H]; auto.
Qed.

Section EngineFactsPending.
Variables St Tk : Type.
Variable aborted : St -> bool.
Variable cb : PackageVersion -> St -> option Exn * St * option Tk.
Variable resolve : Tk -> St -> St.
Variable I : list PackageVersion -> list Tk -> St -> Prop.

Hypothesis cb_ok :
  forall pkg rest pending s s' ot,
    I (pkg :: rest) pending s -> aborted s = false ->
    cb pkg s = (None, s', ot) ->
    I rest (pending ++ opt_list ot) s'.
Hypothesis resolve_ok :
  forall todo pending i t s,
    I todo pending s -> nth_error pending i = Some t ->
    I todo (remove_nth i pending) (resolve t s).
Hypothesis stop_todo :
  forall todo pending s,
    I todo pending s -> aborted s = true -> I [] pending s.
Hypothesis drop_ok :
  forall todo pending pending' s,
    I todo pending s -> aborted s = true -> incl pending' pending ->
    I todo pending' s.

(** At the end of a run whose callback did not throw, the invariant holds
    with nothing left to enumerate and no task running or waiting. *)
Lemma run_pending :
  forall sched todo s s',
    I todo [] s ->
    fst (run aborted cb resolve sched None todo (lim0 Tk) s) = (None, s') ->
    I [] [] s'.
Proof.
  intros sched todo s s' Hi Hr.
  destruct (run aborted cb resolve sched None todo (lim0 Tk) s)
    as [[r0 s0] d] eqn:Hrun.
  simpl in Hr. inversion Hr; subst r0 s0; clear Hr.
  destruct (run_P St Tk aborted cb resolve
              (fun thrown todo l s =>
                 match thrown with
                 | None => I todo (lim_pending l) s
                 | Some _ => True
                 end))
    with (4 := lim0_wf Tk) (6 := Hrun) as (l' & H & Ha & Hq & _).
  - intros pkg rest l0 s0 r0 l1 s1 _ H Ha He.
    destruct r0 as [e|]; [exact Logic.I|].
    destruct (enumerate_spec _ _ _ _ _ _ _ _ _ _ He)
      as (ot & Hc & [[-> _]|(_ & Ha' & ->)]).
    + eapply cb_ok; eassumption.
    + eapply drop_ok; [eapply cb_ok; eassumption|assumption|].
      unfold lim_pending. intros x Hx. apply in_app_or in Hx.
      apply in_or_app. destruct Hx as [Hx|Hx]; [left|right; assumption].
      apply in_or_app. left. assumption.
  - intros th td i l0 s0 l1 s1 _ H Hc.
    destruct th as [e|]; [exact Logic.I|].
    destruct (complete_spec _ _ _ _ _ _ _ _ _ Hc)
      as [(_ & -> & ->)|(t & Hn & -> & Hp)]; [assumption|].
    assert (Hn' : nth_error (lim_pending l0) i = Some t).
    { unfold lim_pending. rewrite nth_error_app1; [assumption|].
      apply nth_error_Some. congruence. }
    pose proof (resolve_ok _ _ _ _ _ H Hn') as H1.
    destruct Hp as [[-> _]|(_ & Ha' & ->)]; [assumption|].
    eapply drop_ok; [exact H1|assumption|].
    unfold lim_pending. rewrite remove_nth_app.
    + intros x Hx. apply in_or_app. left. assumption.
    + apply nth_error_Some. congruence.
  - intros th td l0 s0 H Hs. destruct th as [e|]; [exact Logic.I|].
    destruct Hs as [Hs|Hs]; [|congruence].
    eapply stop_todo; eassumption.
  - exact Hi.
  - unfold lim_pending in H. rewrite Ha, Hq in H. exact H.
Qed.
End EngineFactsPending.

(** ** Logging steps *)

Lemma emits_refl : forall Q p, emits Q p p.
Proof.
  intros Q [r c t]. exists []. simpl. rewrite app_nil_r. auto.
Qed.

Lemma emits_step :
  forall (Q : Event -> Prop) p q ev, emits Q p q -> Q ev -> emits Q p (emit ev q).
Proof.
  intros Q p q ev (t & -> & F) Hq. exists (t ++ [ev]). unfold emit. simpl.
  rewrite app_assoc. split; [reflexivity|].
  apply Forall_app. auto.
Qed.

Lemma emits_trans :
  forall Q p1 p2 p3, emits Q p1 p2 -> emits Q p2 p3 -> emits Q p1 p3.
Proof.
  intros Q p1 p2 p3 (t1 & -> & F1) (t2 & -> & F2). simpl.
  exists (t1 ++ t2). rewrite app_assoc. split; [reflexivity|].
  apply Forall_app. auto.
Qed.

Lemma emits_weaken :
  forall (Q Q' : Event -> Prop) p q,
    (forall ev, Q ev -> Q' ev) -> emits Q p q -> emits Q' p q.
Proof.
  intros Q Q' p q Hw (t & -> & F). exists t. split; [reflexivity|].
  eapply Forall_impl; eassumption.
Qed.

Lemma emits_appends : forall Q p q, emits Q p q -> appends Q p q.
Proof. intros Q p q (t & -> & F). exists t. simpl. auto. Qed.

Lemma emits_reason : forall Q p q, emits Q p q -> reason q = reason p.
Proof. intros Q p q (t & -> & F). reflexivity. Qed.

Lemma emits_exitCode : forall Q p q, emits Q p q -> exitCode q = exitCode p.
Proof. intros Q p q (t & -> & F). reflexivity. Qed.

Lemma emits_sound :
  forall p q, emits not_empty_manifest_log p q -> sound p -> sound q.
Proof.
  intros p q (t & -> & F) [S1 S2]. split; simpl; [|assumption].
  intros tag Hin. apply in_app_iff in Hin. destruct Hin as [Hin|Hin].
  - eapply S1; eassumption.
  - rewrite Forall_forall in F. destruct (F _ Hin).
Qed.

Lemma appends_weaken :
  forall (Q Q' : Event -> Prop) p q,
    (forall ev, Q ev -> Q' ev) -> appends Q p q -> appends Q' p q.
Proof.
  intros Q Q' p q Hw (t & E & F). exists t. split; [assumption|].
  eapply Forall_impl; eassumption.
Qed.

Ltac emits_tac :=
  repeat first [ apply emits_refl
               | apply emits_step; [|exact Logic.I] ].

(** ** What the fetch phase does to the process *)

Lemma sound_after_abort :
  forall err q,
    (reason q <> None -> exitCode q <> 0) -> sound (controller_abort err q).
Proof.
  intros err q Hq. unfold controller_abort.
  destruct (reason q) as [e|] eqn:Hr.
  - split; [intros; congruence|].
    intros _. apply Hq. discriminate.
  - split; simpl; [intros; discriminate|].
    intros _. destruct (exitCode q =? 0) eqn:E0; [lia|].
    apply Z.eqb_neq. assumption.
Qed.

Lemma fetch_step_sound : forall p p', sound p -> fetch_step p p' -> sound p'.
Proof.
  intros p p' [S1 S2] Hs. destruct Hs as [|err|err Herr].
  - split; assumption.
  - apply sound_after_abort. assumption.
  - apply sound_after_abort. simpl. assumption.
Qed.

Lemma fetch_step_appends :
  forall p0 p p',
    appends fetch_event p0 p -> fetch_step p p' -> appends fetch_event p0 p'.
Proof.
  intros p0 p p' Ha Hs. eapply appends_trans; [exact Ha|].
  destruct Hs as [|err|err Herr].
  - apply appends_refl.
  - apply appends_abort. exact Logic.I.
  - eapply appends_trans; [apply appends_emit|apply appends_abort].
    + destruct err; simpl in *; auto.
    + exact Logic.I.
Qed.

Lemma fetch_step_reason :
  forall p p', fetch_step p p' -> reason p <> None -> reason p' = reason p.
Proof.
  intros p p' Hs Hr. destruct Hs as [|err|err Herr];
    unfold controller_abort; simpl;
    destruct (reason p) eqn:Hp; simpl; try rewrite Hp; try reflexivity;
    congruence.
Qed.

(** With [abort: true] the fetch never throws: it hands back the listed
    digests as they are, or logs, aborts and hands back the empty list. *)
Lemma getDigests_abort_spec :
  forall printIndex tag resp p r p',
    getDigestsFromManifestIndex true printIndex tag resp p = (r, p') ->
    exists ds, r = inr ds
      /\ (ds = response_digests resp /\ ds <> []
          /\ p' = (if printIndex
                   then match resp with
                        | IndexOk ms => printImageIndex tag ms p
                        | IndexError _ => p
                        end
                   else p)
          \/ ds = [] /\ reason p' <> None).
Proof.
  intros printIndex tag resp p r p' Hg.
  assert (Hab : forall err q, reason (controller_abort err q) <> None).
  { intros err q. unfold controller_abort.
    destruct (reason q) eqn:Hq; [congruence|simpl; discriminate]. }
  unfold getDigestsFromManifestIndex in Hg. destruct resp as [st|ms].
  - inversion Hg; subst. exists []. split; [reflexivity|]. right.
    split; [reflexivity|apply Hab].
  - simpl response_digests. destruct (map im_digest ms) as [|d ds] eqn:Hm.
    + inversion Hg; subst. exists []. split; [reflexivity|]. right.
      split; [reflexivity|apply Hab].
    + inversion Hg; subst. exists (d :: ds). split; [reflexivity|]. left.
      split; [reflexivity|]. split; [discriminate|].
      destruct printIndex; reflexivity.
Qed.

Lemma getDigests_step :
  forall tag resp p r p',
    getDigestsFromManifestIndex true false tag resp p = (r, p') ->
    fetch_step p p'.
Proof.
  intros tag resp p r p' Hg.
  unfold getDigestsFromManifestIndex in Hg. destruct resp as [st|ms].
  - inversion Hg; subst. apply fetch_log_abort. exact Logic.I.
  - destruct (map im_digest ms); inversion Hg; subst.
    + apply fetch_log_abort. exact Logic.I.
    + apply fetch_same.
Qed.

Lemma find_cb_step :
  forall tgs pkg s r s' ot,
    find_cb tgs pkg s = (r, s', ot) -> fetch_step (dproc s) (dproc s').
Proof.
  intros tgs pkg s r s' ot Hc. unfold find_cb in Hc.
  destruct (negb (JsString.truthy (pv_name pkg))).
  - inversion Hc; subst. simpl. apply fetch_abort.
  - destruct (pkgMap_get _ _) as [info g1].
    destruct (filter _ _); inversion Hc; subst; apply fetch_same.
Qed.

Lemma find_task_step :
  forall reg t s, fetch_step (dproc s) (dproc (find_task reg t s)).
Proof.
  intros reg t s. unfold find_task, find_task_digests.
  destruct (getDigestsFromManifestIndex _ _ _ _ _) as [r p1] eqn:Hg.
  simpl. eapply getDigests_step; eassumption.
Qed.

Lemma list_cb_step :
  forall pkg s r s' ot,
    list_cb pkg s = (r, s', ot) -> lproc s' = lproc s /\ r = None.
Proof.
  intros pkg s r s' ot Hc. unfold list_cb in Hc.
  destruct (pv_tags pkg); inversion Hc; subst; auto.
Qed.

Lemma list_task_step :
  forall reg t s, fetch_step (lproc s) (lproc (list_task reg t s)).
Proof.
  intros reg t s. unfold list_task, list_task_digests.
  destruct (getDigestsFromManifestIndex _ _ _ _ _) as [r p1] eqn:Hg.
  simpl. eapply getDigests_step; eassumption.
Qed.

(** Whatever is preserved by the steps of the fetch phase holds of the
    process at the join. *)
Lemma find_run_closed :
  forall P : Proc -> Prop,
    (forall p p', P p -> fetch_step p p' -> P p') ->
    forall tgs w p r s,
      P p -> find_run tgs w p = (r, s) -> P (dproc s).
Proof.
  intros P Hcl tgs w p r s Hp Hr. unfold find_run in Hr.
  assert (Hfin : match r with None => P (dproc s) | Some _ => P (dproc s) end).
  { eapply (run_inv DState DTask (fun s => signal_aborted (dproc s))
              (find_cb tgs) (find_task (registry w))
              (fun _ s => P (dproc s)) (fun s => P (dproc s))
              (fun _ => True)).
    7: exact Hr.
    - intros pkg rest s0 s0' ot Hi _ Hc. split; [|auto].
      eapply Hcl; [exact Hi|eapply find_cb_step; exact Hc].
    - intros pkg rest s0 e s0' ot Hi _ Hc.
      eapply Hcl; [exact Hi|eapply find_cb_step; exact Hc].
    - intros todo t s0 _ Hi. eapply Hcl; [exact Hi|apply find_task_step].
    - intros t s0 _ Hi. eapply Hcl; [exact Hi|apply find_task_step].
    - intros todo s0 Hi _. exact Hi.
    - exact Hp. }
  destruct r; exact Hfin.
Qed.

Lemma list_run_closed :
  forall P : Proc -> Prop,
    (forall p p', P p -> fetch_step p p' -> P p') ->
    forall w p r s,
      P p -> list_run w p = (r, s) -> P (lproc s) /\ r = None.
Proof.
  intros P Hcl w p r s Hp Hr. unfold list_run in Hr.
  assert (Hfin : match r with None => P (lproc s) | Some _ => False end).
  { eapply (run_inv LState LTask (fun s => signal_aborted (lproc s))
              list_cb (list_task (registry w))
              (fun _ s => P (lproc s)) (fun _ => False)
              (fun _ => True)).
    7: exact Hr.
    - intros pkg rest s0 s0' ot Hi _ Hc. split; [|auto].
      destruct (list_cb_step _ _ _ _ _ Hc) as [-> _]. exact Hi.
    - intros pkg rest s0 e s0' ot Hi _ Hc.
      destruct (list_cb_step _ _ _ _ _ Hc) as [_ Hn]. discriminate.
    - intros todo t s0 _ Hi. eapply Hcl; [exact Hi|apply list_task_step].
    - intros t s0 _ [].
    - intros todo s0 Hi _. exact Hi.
    - exact Hp. }
  destruct r; [destruct Hfin|]. split; [exact Hfin|reflexivity].
Qed.

Lemma fetch_step_aborted :
  forall p p',
    fetch_step p p' -> signal_aborted p = true -> signal_aborted p' = true.
Proof.
  intros p p' Hs Ha. unfold signal_aborted in *.
  destruct (reason p) eqn:Hr; [|discriminate].
  rewrite (fetch_step_reason _ _ Hs) by congruence. rewrite Hr. reflexivity.
Qed.

(** A waiting task is discarded only by an abort. *)
Lemma find_dropped_aborted :
  forall tgs w p r s,
    find_run tgs w p = (r, s) -> find_dropped tgs w p = true ->
    reason (dproc s) <> None.
Proof.
  intros tgs w p r s Hr Hd. unfold find_run, find_dropped in *.
  destruct (run _ _ _ _ _ _ _ _) as [[r0 s0] d] eqn:Hrun.
  simpl in *. inversion Hr; subst r0 s0 d; clear Hr.
  apply run_dropped_aborted in Hrun.
  - unfold signal_aborted in Hrun. destruct (reason (dproc s)); congruence.
  - intros t s0. apply fetch_step_aborted, find_task_step.
Qed.

Lemma list_dropped_aborted :
  forall w p r s,
    list_run w p = (r, s) -> list_dropped w p = true ->
    reason (lproc s) <> None.
Proof.
  intros w p r s Hr Hd. unfold list_run, list_dropped in *.
  destruct (run _ _ _ _ _ _ _ _) as [[r0 s0] d] eqn:Hrun.
  simpl in *. inversion Hr; subst r0 s0 d; clear Hr.
  apply run_dropped_aborted in Hrun.
  - unfold signal_aborted in Hrun. destruct (reason (lproc s)); congruence.
  - intros t s0. apply fetch_step_aborted, list_task_step.
Qed.

(** ** What the report, the loop and the printer do to the process *)

Lemma logRegistryStats_emits :
  forall tgs m p r p',
    logRegistryStats tgs m p = (r, p') -> emits stat_event p p'.
Proof.
  intros tgs m p r p' Hs. unfold logRegistryStats in Hs.
  destruct (_ && _); [inversion Hs; subst; emits_tac|].
  destruct (_ || _); inversion Hs; subst; emits_tac.
Qed.

(** A report that does not throw has printed its four counts. *)
Lemma logRegistryStats_lines :
  forall tgs m p p',
    logRegistryStats tgs m p = (None, p') ->
    In (StatVersions (idCount m)) (trace p')
    /\ In (StatDistinctDigests (JsMap.size m)) (trace p')
    /\ In (StatTags (overallTagCount m)) (trace p')
    /\ In (StatOrphans (orphanCount m)) (trace p')
    /\ (JsSet.size tgs = 0%nat -> tagToBeDeletedDigestCount m = 0%nat).
Proof.
  intros tgs m p p' Hs. unfold logRegistryStats in Hs.
  destruct (Nat.eqb (JsSet.size tgs) 0) eqn:Et;
    destruct (Nat.eqb (tagToBeDeletedDigestCount m) 0) eqn:En;
    simpl in Hs; inversion Hs; subst; simpl;
    repeat rewrite in_app_iff; simpl;
    (repeat split; [tauto|tauto|tauto|tauto|]);
    intros Hz; try (apply Nat.eqb_eq; assumption).
  all: rewrite Hz in Et; discriminate.
Qed.

Lemma visit_emits :
  forall api o e st r st',
    visit api o e st = (r, st') -> emits loop_event (loproc st) (loproc st').
Proof.
  intros api o [d info] st r st' Hv.
  visit_cases; inversion Hv; subst; simpl; emits_tac.
Qed.

Lemma loop_entries_emits :
  forall api o todo st r st',
    loop_entries api o todo st = (r, st') ->
    emits loop_event (loproc st) (loproc st').
Proof.
  intros api o todo. induction todo as [|e todo IH]; intros st r st' Hl;
    simpl in Hl.
  - inversion Hl; subst. apply emits_refl.
  - destruct (visit api o e st) as [[x|] st1] eqn:Hv.
    + inversion Hl; subst. eapply visit_emits; eassumption.
    + eapply emits_trans; [eapply visit_emits; eassumption|].
      eapply IH; eassumption.
Qed.

Lemma loop_rounds_emits :
  forall n api o todo st r st',
    loop_rounds n api o todo st = (r, st') ->
    emits loop_event (loproc st) (loproc st').
Proof.
  induction n as [|n IH]; intros api o todo st r st' Hl; simpl in Hl.
  - inversion Hl; subst. apply emits_refl.
  - destruct (loop_entries api o todo st) as [[x|] st1] eqn:He.
    + inversion Hl; subst. eapply loop_entries_emits; eassumption.
    + eapply emits_trans; [eapply loop_entries_emits; eassumption|].
      eapply IH; eassumption.
Qed.

(** Without [deleteOrphans], an entry that is no deletion target is left
    alone. *)
Lemma visit_quiet :
  forall api e st r st',
    belongsToTagsToDelete (snd e) = false ->
    visit api false e st = (r, st') ->
    emits not_delete (loproc st) (loproc st').
Proof.
  intros api [d info] st r st' Hb Hv. simpl in Hb.
  unfold visit in Hv. rewrite Hb in Hv. simpl in Hv.
  visit_cases; inversion Hv; subst; simpl; emits_tac.
Qed.

Lemma loop_entries_quiet :
  forall api todo st r st',
    Forall no_target todo ->
    loop_entries api false todo st = (r, st') ->
    emits not_delete (loproc st) (loproc st').
Proof.
  intros api todo. induction todo as [|e todo IH]; intros st r st' F Hl;
    simpl in Hl.
  - inversion Hl; subst. apply emits_refl.
  - inversion F; subst.
    destruct (visit api false e st) as [[x|] st1] eqn:Hv.
    + inversion Hl; subst. eapply visit_quiet; eassumption.
    + eapply emits_trans; [eapply visit_quiet; eassumption|].
      eapply IH; eassumption.
Qed.

Lemma loop_rounds_quiet :
  forall n api todo st r st',
    Forall no_target todo ->
    loop_rounds n api false todo st = (r, st') ->
    emits not_delete (loproc st) (loproc st').
Proof.
  induction n as [|n IH]; intros api todo st r st' F Hl; simpl in Hl.
  - inversion Hl; subst. apply emits_refl.
  - destruct (loop_entries api false todo st) as [[x|] st1] eqn:He.
    + inversion Hl; subst. eapply loop_entries_quiet; eassumption.
    + eapply emits_trans; [eapply loop_entries_quiet; eassumption|].
      destruct (loop_entries_frame _ _ _ _ _ _ He) as [_ (ex & E1 & F1)].
      rewrite E1, skipn_appended in Hl.
      eapply IH; [|exact Hl].
      eapply Forall_impl; [|exact F1].
      intros a Ha. unfold no_target. rewrite Ha. reflexivity.
Qed.

Lemma no_targets_counted :
  forall m : PkgMap, tagToBeDeletedDigestCount m = 0%nat -> Forall no_target m.
Proof.
  intros m. unfold tagToBeDeletedDigestCount, count_if, no_target.
  induction m as [|e m IH]; intros Hc; [constructor|].
  simpl in Hc. destruct (belongsToTagsToDelete (snd e)) eqn:Hb;
    [discriminate|].
  constructor; [assumption|apply IH; assumption].
Qed.

Lemma print_group_emits :
  forall tgs groups acc entry,
    emits print_event (fst (fst acc))
      (fst (fst (print_group tgs groups acc entry))).
Proof.
  intros tgs groups [[p c] g] [headTag pkgs]. unfold print_group.
  destruct (JsMap.get headTag groups); simpl; [|emits_tac].
  destruct (_ && _); simpl; emits_tac.
Qed.

Lemma print_fold_emits :
  forall tgs groups l acc,
    emits print_event (fst (fst acc))
      (fst (fst (fold_left (print_group tgs groups) l acc))).
Proof.
  intros tgs groups l. induction l as [|e l IH]; intros acc; simpl.
  - apply emits_refl.
  - eapply emits_trans; [apply print_group_emits|apply IH].
Qed.

(** ** Commands *)

Lemma fetch_event_not_delete : forall ev, fetch_event ev -> not_delete ev.
Proof. intros []; simpl; auto. Qed.

Lemma stat_event_not_delete : forall ev, stat_event ev -> not_delete ev.
Proof. intros []; simpl; auto. Qed.

Lemma print_event_not_delete : forall ev, print_event ev -> not_delete ev.
Proof. intros []; simpl; auto. Qed.

Lemma find_appends :
  forall tgs w p r p',
    findOrphanOrTaggedPackageVersions tgs w p = (r, p') ->
    appends fetch_event p p'.
Proof.
  intros tgs w p r p' Hf. unfold findOrphanOrTaggedPackageVersions in Hf.
  destruct (find_run tgs w p) as [x s] eqn:Hr.
  assert (Ha : appends fetch_event p (dproc s)).
  { eapply (find_run_closed (appends fetch_event p));
      [apply fetch_step_appends|apply appends_refl|exact Hr]. }
  destruct x; [inversion Hf; subst; exact Ha|].
  destruct (find_dropped tgs w p); [inversion Hf; subst; exact Ha|].
  destruct (throwIfAborted (dproc s)); inversion Hf; subst; exact Ha.
Qed.

Lemma list_cmd_appends :
  forall tgs w p r p',
    printPackageVersionsForImageTags tgs w p = (r, p') ->
    appends not_delete p p'.
Proof.
  intros tgs w p r p' Hp. unfold printPackageVersionsForImageTags in Hp.
  unfold getPackageVersionsByImageTag in Hp.
  destruct (list_run w p) as [x s] eqn:Hr.
  destruct (list_run_closed (appends fetch_event p) (fetch_step_appends p)
              w p x s (appends_refl _ _) Hr) as [Ha ->].
  apply (appends_weaken _ _ _ _ fetch_event_not_delete) in Ha.
  destruct (list_dropped w p); [inversion Hp; subst; exact Ha|].
  match type of Hp with
  | context [fold_left ?f ?l ?a] =>
      pose proof (print_fold_emits tgs (tagGroups s) l a) as He;
      destruct (fold_left f l a) as [[p2 c] g]
  end.
  simpl in He. inversion Hp; subst.
  eapply appends_trans; [exact Ha|].
  apply (appends_weaken _ _ _ _ print_event_not_delete).
  apply emits_appends. apply emits_step; [exact He|exact Logic.I].
Qed.

(** A delete or report command either stops before the loop, having
    requested no deletion, or runs the loop on the graph after the report. *)
Lemma delete_cmd_structure :
  forall tgs o w p r p',
    deletePackageVersions tgs o w p = (r, p') ->
    (r <> Returns tt /\ appends not_delete p p'
     /\ (forall g p1,
           findOrphanOrTaggedPackageVersions tgs w p = (Returns g, p1) ->
           emits stat_event p1 p'))
    \/ exists g p1 p2 rl st,
         findOrphanOrTaggedPackageVersions tgs w p = (Returns g, p1)
         /\ reason p1 = None
         /\ logRegistryStats tgs g p1 = (None, p2)
         /\ appends not_delete p p2
         /\ delete_loop (deleteApi w) o g p2 = (rl, st)
         /\ r = outcome_of rl
         /\ p' = match rl with
                 | Some _ => loproc st
                 | None => emit (InfoDeletedCount (deletedCount st)) (loproc st)
                 end.
Proof.
  intros tgs o w p r p' Hd. unfold deletePackageVersions in Hd.
  destruct (findOrphanOrTaggedPackageVersions tgs w p) as [[g|e|] p1] eqn:Hf.
  2, 3: inversion Hd; subst; left; (split; [discriminate|]); split;
    [apply (appends_weaken _ _ _ _ fetch_event_not_delete);
     eapply find_appends; eassumption
    |intros g p0 Hx; discriminate].
  - assert (Ha1 : appends not_delete p p1).
    { apply (appends_weaken _ _ _ _ fetch_event_not_delete).
      eapply find_appends; eassumption. }
    assert (Hr1 : reason p1 = None).
    { unfold findOrphanOrTaggedPackageVersions in Hf.
      destruct (find_run tgs w p) as [x s]. destruct x; [discriminate|].
      destruct (find_dropped tgs w p); [discriminate|].
      unfold throwIfAborted in Hf.
      destruct (reason (dproc s)) eqn:Hrs; inversion Hf; subst. exact Hrs. }
    destruct (logRegistryStats tgs g p1) as [[e|] p2] eqn:Hs.
    + inversion Hd; subst. left. split; [discriminate|]. split.
      * eapply appends_trans; [exact Ha1|].
        apply (appends_weaken _ _ _ _ stat_event_not_delete).
        apply emits_appends. eapply logRegistryStats_emits; eassumption.
      * intros g0 p0 Hx. inversion Hx; subst.
        eapply logRegistryStats_emits; eassumption.
    + right.
      destruct (delete_loop (deleteApi w) o g p2) as [rl st] eqn:Hl.
      exists g, p1, p2, rl, st. repeat split; try assumption.
      * eapply appends_trans; [exact Ha1|].
        apply (appends_weaken _ _ _ _ stat_event_not_delete).
        apply emits_appends. eapply logRegistryStats_emits; eassumption.
      * destruct rl; inversion Hd; reflexivity.
      * destruct rl; inversion Hd; reflexivity.
Qed.

Lemma main_appends :
  forall (Q : Event -> Prop) cmd w r p,
    (forall e, Q (LogAbortReason e)) ->
    runCmd cmd w proc0 = (r, p) -> appends Q p (main cmd w).
Proof.
  intros Q cmd w r p HQ Hr. unfold main. rewrite Hr. destruct r as [u|e|].
  - apply appends_refl.
  - eapply appends_trans; [apply appends_exitCode_or_1|].
    apply appends_abort. apply HQ.
  - exists []. simpl. rewrite app_nil_r. auto.
Qed.

Lemma prefix_before_delete :
  forall (a b t1 t2 : list Event) i,
    a ++ b = t1 ++ ApiDelete i :: t2 ->
    deletions a = [] ->
    exists b1, t1 = a ++ b1.
Proof.
  induction a as [|x a IH]; intros b t1 t2 i Heq Hd.
  - exists t1. reflexivity.
  - destruct t1 as [|y t1]; simpl in Heq.
    + inversion Heq; subst. unfold deletions in Hd. simpl in Hd. discriminate.
    + inversion Heq; subst.
      assert (Hd' : deletions a = []).
      { unfold deletions in *. simpl in Hd.
        apply app_eq_nil in Hd. tauto. }
      destruct (IH _ _ _ _ H1 Hd') as (b1 & ->).
      exists b1. reflexivity.
Qed.

Lemma appends_from_proc0 :
  forall Q p, appends Q proc0 p -> Forall Q (trace p).
Proof. intros Q p (t & E & F). rewrite E. exact F. Qed.

Lemma list_cmd_no_deletions :
  forall (tgs : list Tag) (w : World),
    deletions (trace (main (ListCmd tgs) w)) = [].
Proof.
  intros tgs w.
  destruct (runCmd (ListCmd tgs) w proc0) as [r p] eqn:Hr.
  pose proof (main_appends not_delete _ _ _ _ (fun _ => Logic.I) Hr) as Hm.
  simpl in Hr.
  pose proof (list_cmd_appends _ _ _ _ _ Hr) as Hl.
  apply deletions_none, appends_from_proc0.
  eapply appends_trans; eassumption.
Qed.

Lemma report_cmd_no_deletions :
  forall w : World, deletions (trace (main ReportCmd w)) = [].
Proof.
  intros w.
  destruct (runCmd ReportCmd w proc0) as [r p] eqn:Hr.
  pose proof (main_appends not_delete _ _ _ _ (fun _ => Logic.I) Hr) as Hm.
  simpl in Hr.
  apply deletions_none, appends_from_proc0.
  eapply appends_trans; [|exact Hm].
  destruct (delete_cmd_structure _ _ _ _ _ _ Hr)
    as [(_ & Ha & _)|(g & p1 & p2 & rl & st & Hf & Hr1 & Hs & Ha & Hl & -> & ->)];
    [exact Ha|].
  eapply appends_trans; [exact Ha|].
  destruct (logRegistryStats_lines _ _ _ _ Hs) as (_ & _ & _ & _ & Hz).
  pose proof (no_targets_counted g (Hz eq_refl)) as Hnt.
  unfold delete_loop in Hl.
  pose proof (loop_rounds_quiet _ _ _ _ _ _ Hnt Hl) as Hq. simpl in Hq.
  apply emits_appends.
  destruct rl; [exact Hq|]. apply emits_step; [exact Hq|exact Logic.I].
Qed.

(** C8. The list command and the report command request no deletion,
    whatever the ledger, the registry and the interleaving; and in a delete
    command every deletion request comes after the four counts of the
    report on the reconciled graph (package versions, distinct digests,
    tags, orphans) have been printed. *)
Theorem deletions_only_after_report :
  (forall (tgs : list Tag) (w : World),
      deletions (trace (main (ListCmd tgs) w)) = [])
  /\ (forall w : World, deletions (trace (main ReportCmd w)) = [])
  /\ (forall (tgs : list Tag) (deleteOrphans : bool) (w : World)
             (t1 t2 : list Event) (i : Z),
        trace (main (DeleteCmd tgs deleteOrphans) w) = t1 ++ ApiDelete i :: t2 ->
        exists g : PkgMap,
          fst (findOrphanOrTaggedPackageVersions tgs w proc0) = Returns g
          /\ In (StatVersions (idCount g)) t1
          /\ In (StatDistinctDigests (JsMap.size g)) t1
          /\ In (StatTags (overallTagCount g)) t1
          /\ In (StatOrphans (orphanCount g)) t1).
Proof.
  split; [exact list_cmd_no_deletions|split; [exact report_cmd_no_deletions|]].
  intros tgs o w t1 t2 i Ht.
  destruct (runCmd (DeleteCmd tgs o) w proc0) as [r p] eqn:Hr.
  pose proof (main_appends not_delete _ _ _ _ (fun _ => Logic.I) Hr) as Hm.
  simpl in Hr.
  destruct (delete_cmd_structure _ _ _ _ _ _ Hr)
    as [(_ & Ha & _)|(g & p1 & p2 & rl & st & Hf & Hr1 & Hs & Ha & Hl & -> & Hp)].
  - exfalso.
    assert (Hd : deletions (trace (main (DeleteCmd tgs o) w)) = []).
    { apply deletions_none, appends_from_proc0.
      eapply appends_trans; eassumption. }
    rewrite Ht, deletions_app in Hd. apply app_eq_nil in Hd.
    destruct Hd as [_ Hd]. unfold deletions in Hd. simpl in Hd.
    discriminate.
  - exists g. rewrite Hf. split; [reflexivity|].
    assert (Hrest : exists t, trace (main (DeleteCmd tgs o) w) = trace p2 ++ t).
    { destruct Hm as (tm & Em & _). rewrite Em.
      unfold delete_loop in Hl.
      pose proof (loop_rounds_emits _ _ _ _ _ _ _ Hl) as (tl & El & _).
      simpl in El.
      assert (Hp2 : exists t, trace p = trace p2 ++ t).
      { rewrite Hp. destruct rl; rewrite El; simpl.
        - eexists; reflexivity.
        - rewrite <- app_assoc. eexists; reflexivity. }
      destruct Hp2 as (t & ->). rewrite <- app_assoc.
      eexists; reflexivity. }
    destruct Hrest as (t & Et). rewrite Et in Ht.
    destruct (prefix_before_delete _ _ _ _ _ Ht) as (b1 & ->).
    { apply deletions_none, appends_from_proc0. exact Ha. }
    destruct (logRegistryStats_lines _ _ _ _ Hs) as (L1 & L2 & L3 & L4 & _).
    repeat split; apply in_or_app; left; assumption.
Qed.

(** A witness for C8: in Scenario A the first deletion request (id 10)
    comes after the counts 4, 4, 2 and 1. *)
Lemma deletions_only_after_report_witness :
  exists g : PkgMap,
    fst (findOrphanOrTaggedPackageVersions ["v1"] worldA proc0) = Returns g
    /\ In (StatVersions (idCount g))
         (firstn 6 (trace (main (DeleteCmd ["v1"] false) worldA)))
    /\ In (StatDistinctDigests (JsMap.size g))
         (firstn 6 (trace (main (DeleteCmd ["v1"] false) worldA)))
    /\ In (StatTags (overallTagCount g))
         (firstn 6 (trace (main (DeleteCmd ["v1"] false) worldA)))
    /\ In (StatOrphans (orphanCount g))
         (firstn 6 (trace (main (DeleteCmd ["v1"] false) worldA))).
Proof.
  destruct deletions_only_after_report as (_ & _ & H).
  apply (H ["v1"] false worldA
           (firstn 6 (trace (main (DeleteCmd ["v1"] false) worldA)))
           (skipn 7 (trace (main (DeleteCmd ["v1"] false) worldA)))
           10).
  vm_compute. reflexivity.
Defined.

(** ** Empty manifest lists *)

Lemma stat_event_not_eml : forall ev, stat_event ev -> not_empty_manifest_log ev.
Proof. intros [[]| | | | | | | | | | | | | | | |]; simpl; auto. Qed.

Lemma loop_event_not_eml : forall ev, loop_event ev -> not_empty_manifest_log ev.
Proof. intros [[]| | | | | | | | | | | | | | | |]; simpl; auto. Qed.

Lemma print_event_not_eml : forall ev, print_event ev -> not_empty_manifest_log ev.
Proof. intros [[]| | | | | | | | | | | | | | | |]; simpl; auto. Qed.

Lemma sound_proc0 : sound proc0.
Proof. split; simpl; [intros t []|congruence]. Qed.

Lemma find_sound :
  forall tgs w p x p',
    sound p -> findOrphanOrTaggedPackageVersions tgs w p = (x, p') -> sound p'.
Proof.
  intros tgs w p x p' Hs Hf. unfold findOrphanOrTaggedPackageVersions in Hf.
  destruct (find_run tgs w p) as [r s] eqn:Hr.
  pose proof (find_run_closed sound fetch_step_sound tgs w p r s Hs Hr) as Hd.
  destruct r; [inversion Hf; subst; exact Hd|].
  destruct (find_dropped _ _ _); [inversion Hf; subst; exact Hd|].
  destruct (throwIfAborted (dproc s)); inversion Hf; subst; exact Hd.
Qed.

(** From the graph on, a delete or report command logs no empty manifest
    list and leaves the signal and the exit code alone. *)
Lemma delete_cmd_after_find :
  forall tgs o w p r p' x p1,
    deletePackageVersions tgs o w p = (r, p') ->
    findOrphanOrTaggedPackageVersions tgs w p = (x, p1) ->
    emits not_empty_manifest_log p1 p'.
Proof.
  intros tgs o w p r p' x p1 Hd Hf. unfold deletePackageVersions in Hd.
  rewrite Hf in Hd. destruct x as [g|e|].
  2, 3: inversion Hd; subst; apply emits_refl.
  - destruct (logRegistryStats tgs g p1) as [[e|] p2] eqn:Hs.
    + inversion Hd; subst.
      apply (emits_weaken _ _ _ _ stat_event_not_eml).
      eapply logRegistryStats_emits; eassumption.
    + eapply emits_trans.
      * apply (emits_weaken _ _ _ _ stat_event_not_eml).
        eapply logRegistryStats_emits; eassumption.
      * destruct (delete_loop (deleteApi w) o g p2) as [rl st] eqn:Hl.
        unfold delete_loop in Hl.
        pose proof (loop_rounds_emits _ _ _ _ _ _ _ Hl) as He. simpl in He.
        apply (emits_weaken _ _ _ _ loop_event_not_eml) in He.
        destruct rl; inversion Hd; subst; [exact He|].
        apply emits_step; [exact He|exact Logic.I].
Qed.

Lemma delete_cmd_sound :
  forall tgs o w p r p',
    sound p -> deletePackageVersions tgs o w p = (r, p') -> sound p'.
Proof.
  intros tgs o w p r p' Hs Hd.
  destruct (findOrphanOrTaggedPackageVersions tgs w p) as [x p1] eqn:Hf.
  eapply emits_sound; [eapply delete_cmd_after_find; eassumption|].
  eapply find_sound; eassumption.
Qed.

(** The process is sound when a command returns, and when [main] does. *)
Lemma runCmd_sound :
  forall cmd w r p, runCmd cmd w proc0 = (r, p) -> sound p.
Proof.
  intros cmd w r p Hr. destruct cmd as [tgs|tgs o|]; simpl in Hr.
  - unfold printPackageVersionsForImageTags, getPackageVersionsByImageTag in Hr.
    destruct (list_run w proc0) as [x s] eqn:Hl.
    destruct (list_run_closed sound fetch_step_sound w proc0 x s sound_proc0 Hl)
      as [Hs ->].
    destruct (list_dropped w proc0); [inversion Hr; subst; exact Hs|].
    match type of Hr with
    | context [fold_left ?f ?l ?a] =>
        pose proof (print_fold_emits tgs (tagGroups s) l a) as He;
        destruct (fold_left f l a) as [[p2 c] g]
    end.
    simpl in He. inversion Hr; subst.
    eapply emits_sound; [|exact Hs].
    apply (emits_weaken _ _ _ _ print_event_not_eml).
    apply emits_step; [exact He|exact Logic.I].
  - eapply delete_cmd_sound; [apply sound_proc0|exact Hr].
  - eapply delete_cmd_sound; [apply sound_proc0|exact Hr].
Qed.

Lemma exit_unsettled_id :
  forall p, exitCode p <> 0 -> exit_unsettled p = p.
Proof.
  intros [r c t] Hc. unfold exit_unsettled. simpl in *.
  apply Z.eqb_neq in Hc. rewrite Hc. reflexivity.
Qed.

Lemma sound_exit_unsettled : forall p, sound p -> sound (exit_unsettled p).
Proof.
  intros p [H1 H2]. split; [exact H1|]. intros _. simpl.
  destruct (exitCode p =? 0) eqn:Hc; [lia|].
  apply Z.eqb_neq. assumption.
Qed.

(** A command whose join never settles leaves the run aborted, and the
    process ends as the command left it. *)
Lemma runCmd_never :
  forall cmd w p, runCmd cmd w proc0 = (NeverSettles, p) -> reason p <> None.
Proof.
  assert (Hdel : forall tgs o w p,
             deletePackageVersions tgs o w proc0 = (NeverSettles, p) ->
             reason p <> None).
  { intros tgs o w p Hd. unfold deletePackageVersions in Hd.
    destruct (findOrphanOrTaggedPackageVersions tgs w proc0)
      as [[g|e|] p1] eqn:Hf.
    - destruct (logRegistryStats tgs g p1) as [[e|] p2]; [discriminate|].
      destruct (delete_loop (deleteApi w) o g p2) as [[e|] st]; discriminate.
    - discriminate.
    - inversion Hd; subst p1; clear Hd.
      unfold findOrphanOrTaggedPackageVersions in Hf.
      destruct (find_run tgs w proc0) as [r s] eqn:Hr.
      destruct r; [discriminate|].
      destruct (find_dropped tgs w proc0) eqn:Hdr.
      + inversion Hf; subst. eapply find_dropped_aborted; eassumption.
      + destruct (throwIfAborted (dproc s)); discriminate. }
  intros cmd w p Hr. destruct cmd as [tgs|tgs o|]; simpl in Hr;
    [|eapply Hdel; eassumption|eapply Hdel; eassumption].
  unfold printPackageVersionsForImageTags, getPackageVersionsByImageTag in Hr.
  destruct (list_run w proc0) as [x s] eqn:Hl.
  destruct x; [discriminate|].
  destruct (list_dropped w proc0) eqn:Hdr.
  - inversion Hr; subst. eapply list_dropped_aborted; eassumption.
  - destruct (fold_left _ _ _) as [[p2 c] g]. discriminate.
Qed.

Lemma main_never :
  forall cmd w p, runCmd cmd w proc0 = (NeverSettles, p) -> main cmd w = p.
Proof.
  intros cmd w p Hr. unfold main. rewrite Hr. apply exit_unsettled_id.
  apply (proj2 (runCmd_sound _ _ _ _ Hr)). eapply runCmd_never; eassumption.
Qed.

Lemma main_sound : forall cmd w, sound (main cmd w).
Proof.
  intros cmd w. unfold main.
  destruct (runCmd cmd w proc0) as [[u|e|] p] eqn:Hr.
  - eapply runCmd_sound; eassumption.
  - apply sound_after_abort. intros _. apply exitCode_or_1_nonzero.
  - apply sound_exit_unsettled. eapply runCmd_sound; eassumption.
Qed.

Lemma delete_cmd_no_deletions_after_empty :
  forall tgs o w tag,
    In (LogError (EmptyManifestList tag))
       (trace (main (DeleteCmd tgs o) w)) ->
    deletions (trace (main (DeleteCmd tgs o) w)) = [].
Proof.
  intros tgs o w tag Hin.
  destruct (runCmd (DeleteCmd tgs o) w proc0) as [r p] eqn:Hr.
  pose proof (main_appends not_delete _ _ _ _ (fun _ => Logic.I) Hr) as Hm.
  pose proof (main_appends not_empty_manifest_log _ _ _ _
                (fun _ => Logic.I) Hr) as Hme.
  simpl in Hr.
  destruct (delete_cmd_structure _ _ _ _ _ _ Hr)
    as [(_ & Ha & _)|(g & p1 & p2 & rl & st & Hf & Hr1 & Hs & Ha & Hl & _ & _)].
  - apply deletions_none, appends_from_proc0.
    eapply appends_trans; eassumption.
  - exfalso.
    pose proof (find_sound _ _ _ _ _ sound_proc0 Hf) as [S1 _].
    pose proof (emits_appends _ _ _ (delete_cmd_after_find _ _ _ _ _ _ _ _ Hr Hf))
      as Hap.
    destruct (appends_trans _ _ _ _ Hap Hme) as (t & Et & Ft).
    rewrite Et in Hin. apply in_app_iff in Hin. destruct Hin as [Hin|Hin].
    + apply (S1 _ Hin). exact Hr1.
    + rewrite Forall_forall in Ft. exact (Ft _ Hin).
Qed.

(** A fetch that is served an empty manifest list aborts the run. *)
Lemma getDigests_empty_aborts :
  forall tag p,
    signal_aborted
      (snd (getDigestsFromManifestIndex true false tag (IndexOk []) p)) = true.
Proof.
  intros tag p. simpl. unfold controller_abort, signal_aborted. simpl.
  destruct (reason p) eqn:Hp; simpl; [rewrite Hp|]; reflexivity.
Qed.

Lemma find_task_empty_aborts :
  forall reg t s,
    reg (dt_tag t) = IndexOk [] ->
    signal_aborted (dproc (find_task reg t s)) = true.
Proof.
  intros reg t s Hreg. unfold find_task, find_task_digests. rewrite Hreg.
  pose proof (getDigests_empty_aborts (dt_tag t) (dproc s)) as Ha.
  destruct (getDigestsFromManifestIndex _ _ _ _ _) as [r p1]. exact Ha.
Qed.

Lemma list_task_empty_aborts :
  forall reg t s,
    reg (lt_headTag t) = IndexOk [] ->
    signal_aborted (lproc (list_task reg t s)) = true.
Proof.
  intros reg t s Hreg. unfold list_task, list_task_digests. rewrite Hreg.
  pose proof (getDigests_empty_aborts (lt_headTag t) (lproc s)) as Ha.
  destruct (getDigestsFromManifestIndex _ _ _ _ _) as [r p1]. exact Ha.
Qed.

(** The callback of the delete path schedules the fetch of the first tag
    it keeps; when it throws, it has aborted the run. *)
Lemma find_cb_fetch :
  forall tgs pkg s r s' ot tg,
    find_cb tgs pkg s = (r, s', ot) ->
    hd_error (kept_tags pkg) = Some tg ->
    match r with
    | Some _ => signal_aborted (dproc s') = true
    | None => exists t, ot = Some t /\ dt_tag t = tg
    end.
Proof.
  intros tgs pkg s r s' ot tg Hc Hk. unfold find_cb in Hc.
  unfold kept_tags in Hk.
  destruct (negb (JsString.truthy (pv_name pkg))).
  - inversion Hc; subst. simpl. unfold controller_abort, signal_aborted.
    destruct (reason (dproc s)) eqn:Hp; simpl; [rewrite Hp|]; reflexivity.
  - destruct (pkgMap_get (Some (pv_name pkg)) (graph s)) as [info g1].
    destruct (filter JsString.truthy (pv_tags pkg)) as [|headTag l];
      [discriminate|].
    inversion Hk; subst. inversion Hc; subst.
    eexists. split; reflexivity.
Qed.

Lemma find_cb_throws_aborted :
  forall tgs pkg s e s' ot,
    find_cb tgs pkg s = (Some e, s', ot) -> signal_aborted (dproc s') = true.
Proof.
  intros tgs pkg s e s' ot Hc. unfold find_cb in Hc.
  destruct (negb (JsString.truthy (pv_name pkg))).
  - inversion Hc; subst. simpl. unfold controller_abort, signal_aborted.
    destruct (reason (dproc s)) eqn:Hp; simpl; [rewrite Hp|]; reflexivity.
  - destruct (pkgMap_get (Some (pv_name pkg)) (graph s)) as [info g1].
    destruct (filter JsString.truthy (pv_tags pkg)); discriminate.
Qed.

Lemma list_cb_fetch :
  forall pkg s r s' ot tg,
    list_cb pkg s = (r, s', ot) ->
    hd_error (pv_tags pkg) = Some tg ->
    exists t, ot = Some t /\ lt_headTag t = tg.
Proof.
  intros pkg s r s' ot tg Hc Hk. unfold list_cb in Hc.
  destruct (pv_tags pkg) as [|headTag l]; [discriminate|].
  inversion Hk; subst. inversion Hc; subst. eexists. split; reflexivity.
Qed.

(** When the registry serves an empty manifest list for the tag fetched
    for a record of the ledger, the fetch phase ends aborted: the record is
    enumerated unless the run is aborted before, and its fetch completes
    unless it is discarded by an abort. *)
Lemma find_run_empty_aborts :
  forall tgs w p q tg r s,
    In q (ledger w) -> hd_error (kept_tags q) = Some tg ->
    registry w tg = IndexOk [] ->
    find_run tgs w p = (r, s) ->
    reason (dproc s) <> None.
Proof.
  intros tgs w p q tg r s Hq Hk Hreg Hr. unfold find_run in Hr.
  assert (Hab : signal_aborted (dproc s) = true);
    [|unfold signal_aborted in Hab; destruct (reason (dproc s)); congruence].
  destruct r as [e|].
  - apply (run_inv DState DTask (fun s => signal_aborted (dproc s))
             (find_cb tgs) (find_task (registry w))
             (fun _ _ => True) (fun s => signal_aborted (dproc s) = true)
             (fun _ => True)) with
      (sched := schedule w) (todo := ledger w) (s := dstate0 p)
      (r := Some e).
    + intros. split; [exact Logic.I|intros; exact Logic.I].
    + intros pkg rest s0 e0 s0' ot _ _ Hc.
      eapply find_cb_throws_aborted; eassumption.
    + intros. exact Logic.I.
    + intros t s0 _ Ha. eapply fetch_step_aborted; [|exact Ha].
      apply find_task_step.
    + intros. exact Logic.I.
    + exact Logic.I.
    + exact Hr.
  - assert (Hfin : awaits_fetch (fun s => signal_aborted (dproc s)) dt_tag
                     q tg [] [] s).
    { apply (run_pending DState DTask (fun s => signal_aborted (dproc s))
               (find_cb tgs) (find_task (registry w))
               (awaits_fetch (fun s => signal_aborted (dproc s)) dt_tag q tg))
        with (sched := schedule w) (todo := ledger w) (s := dstate0 p).
      - intros pkg rest pending s0 s0' ot Hi Ha Hc.
        destruct Hi as [Hab|[[<-|Hin]|(t & Ht & Htag)]].
        + congruence.
        + destruct (find_cb_fetch _ _ _ _ _ _ _ Hc Hk) as (t & -> & Htag).
          right. right. exists t. split; [|exact Htag].
          apply in_or_app. right. left. reflexivity.
        + right. left. exact Hin.
        + right. right. exists t. split; [|exact Htag].
          apply in_or_app. left. exact Ht.
      - intros todo pending i t s0 Hi Hn.
        destruct Hi as [Hab|[Hin|(t' & Ht' & Htag)]].
        + left. eapply fetch_step_aborted; [|exact Hab].
          apply find_task_step.
        + right. left. exact Hin.
        + destruct (remove_nth_keeps _ _ _ _ Hn Ht') as [->|Hin].
          * left. apply find_task_empty_aborts. rewrite Htag. exact Hreg.
          * right. right. exists t'. auto.
      - intros todo pending s0 _ Ha. left. exact Ha.
      - intros todo pending pending' s0 _ Ha _. left. exact Ha.
      - right. left. exact Hq.
      - exact Hr. }
    destruct Hfin as [Hab|[[]|(t & [] & _)]]. exact Hab.
Qed.

Lemma list_run_empty_aborts :
  forall w p q tg r s,
    In q (ledger w) -> hd_error (pv_tags q) = Some tg ->
    registry w tg = IndexOk [] ->
    list_run w p = (r, s) ->
    reason (lproc s) <> None.
Proof.
  intros w p q tg r s Hq Hk Hreg Hr.
  destruct (list_run_closed (fun _ => True) (fun _ _ _ _ => Logic.I)
              w p r s Logic.I Hr) as [_ ->].
  unfold list_run in Hr.
  assert (Hfin : awaits_fetch (fun s => signal_aborted (lproc s)) lt_headTag
                   q tg [] [] s).
  { apply (run_pending LState LTask (fun s => signal_aborted (lproc s))
             list_cb (list_task (registry w))
             (awaits_fetch (fun s => signal_aborted (lproc s)) lt_headTag
                q tg))
      with (sched := schedule w) (todo := ledger w) (s := lstate0 p).
    - intros pkg rest pending s0 s0' ot Hi Ha Hc.
      destruct Hi as [Hab|[[<-|Hin]|(t & Ht & Htag)]].
      + congruence.
      + destruct (list_cb_fetch _ _ _ _ _ _ Hc Hk) as (t & -> & Htag).
        right. right. exists t. split; [|exact Htag].
        apply in_or_app. right. left. reflexivity.
      + right. left. exact Hin.
      + right. right. exists t. split; [|exact Htag].
        apply in_or_app. left. exact Ht.
    - intros todo pending i t s0 Hi Hn.
      destruct Hi as [Hab|[Hin|(t' & Ht' & Htag)]].
      + left. eapply fetch_step_aborted; [|exact Hab].
        apply list_task_step.
      + right. left. exact Hin.
      + destruct (remove_nth_keeps _ _ _ _ Hn Ht') as [->|Hin].
        * left. apply list_task_empty_aborts. rewrite Htag. exact Hreg.
        * right. right. exists t'. auto.
    - intros todo pending s0 _ Ha. left. exact Ha.
    - intros todo pending pending' s0 _ Ha _. left. exact Ha.
    - right. left. exact Hq.
    - exact Hr. }
  destruct Hfin as [Hab|[[]|(t & [] & _)]].
  unfold signal_aborted in Hab. destruct (reason (lproc s)); congruence.
Qed.

(** A run whose command leaves the signal aborted ends aborted. *)
Lemma main_reason :
  forall cmd w r p,
    runCmd cmd w proc0 = (r, p) -> reason p <> None ->
    reason (main cmd w) <> None.
Proof.
  intros cmd w r p Hr Hp. unfold main. rewrite Hr.
  destruct r as [u|e|]; simpl; [exact Hp| |exact Hp].
  unfold controller_abort. simpl.
  destruct (reason p) eqn:Hre; simpl; [rewrite Hre|]; congruence.
Qed.

(** A delete or report command whose fetch phase ends aborted never gets
    to the loop. *)
Lemma delete_cmd_fetch_aborted :
  forall tgs o w r p,
    deletePackageVersions tgs o w proc0 = (r, p) ->
    reason (dproc (snd (find_run tgs w proc0))) <> None ->
    reason p <> None /\ deletions (trace p) = [].
Proof.
  intros tgs o w r p Hd Hab.
  destruct (delete_cmd_structure _ _ _ _ _ _ Hd)
    as [(_ & Ha & _)|(g & p1 & p2 & rl & st & Hf & Hr1 & _)].
  - split; [|apply deletions_none, appends_from_proc0; exact Ha].
    unfold deletePackageVersions in Hd.
    unfold findOrphanOrTaggedPackageVersions in Hd.
    destruct (find_run tgs w proc0) as [x s]. simpl in Hab.
    destruct x as [e|]; [inversion Hd; subst; exact Hab|].
    destruct (find_dropped tgs w proc0); [inversion Hd; subst; exact Hab|].
    unfold throwIfAborted in Hd.
    destruct (reason (dproc s)) eqn:Hre; [|congruence].
    inversion Hd; subst. rewrite Hre. discriminate.
  - exfalso. unfold findOrphanOrTaggedPackageVersions in Hf.
    destruct (find_run tgs w proc0) as [x s]. simpl in Hab.
    destruct x as [e|]; [discriminate|].
    destruct (find_dropped tgs w proc0); [discriminate|].
    unfold throwIfAborted in Hf.
    destruct (reason (dproc s)); [discriminate|congruence].
Qed.

(** C4. A fetch that resolves with an empty digest list logs the error,
    aborts the run and hands back no digest.  So whenever the registry
    serves an empty manifest list for the tag a command fetches for a
    record of the ledger, the run ends aborted with a non-zero exit code
    and without any deletion request, whatever the rest of the ledger, the
    other answers of the registry and the order in which the fetches
    complete; and whenever that error has been logged in a run, no
    deletion request is made in the whole run, the signal is aborted and
    the exit code is non-zero. *)
Theorem empty_manifest_list_is_fatal :
  (forall (tag : Tag) (p : Proc),
      let result :=
        getDigestsFromManifestIndex true false tag (IndexOk []) p in
      fst result = inr []
      /\ In (LogError (EmptyManifestList tag)) (trace (snd result))
      /\ reason (snd result) <> None)
  /\ (forall (cmd : Cmd) (w : World) (q : PackageVersion) (tag : Tag),
        In q (ledger w) ->
        fetch_tag cmd q = Some tag ->
        registry w tag = IndexOk [] ->
        deletions (trace (main cmd w)) = []
        /\ reason (main cmd w) <> None
        /\ exitCode (main cmd w) <> 0)
  /\ (forall (cmd : Cmd) (w : World) (tag : Tag),
        In (LogError (EmptyManifestList tag)) (trace (main cmd w)) ->
        deletions (trace (main cmd w)) = []
        /\ reason (main cmd w) <> None
        /\ exitCode (main cmd w) <> 0).
Proof.
  split; [|split].
  - intros tag p. simpl. split; [reflexivity|].
    unfold controller_abort. simpl.
    destruct (reason p) eqn:Hp; simpl.
    + rewrite Hp. split; [|discriminate].
      apply in_or_app. right. simpl. auto.
    + split; [|discriminate].
      apply in_or_app. left. apply in_or_app. right. simpl. auto.
  - intros cmd w q tag Hq Hk Hreg.
    assert (Hfin : deletions (trace (main cmd w)) = []
                   /\ reason (main cmd w) <> None).
    { destruct (runCmd cmd w proc0) as [r p] eqn:Hr.
      pose proof (main_appends not_delete _ _ _ _ (fun _ => Logic.I) Hr)
        as Hm.
      assert (Hdel : forall tgs o,
                 fetch_tag cmd q = hd_error (kept_tags q) ->
                 deletePackageVersions tgs o w proc0 = (r, p) ->
                 deletions (trace (main cmd w)) = []
                 /\ reason (main cmd w) <> None).
      { intros tgs o Hft Hd. rewrite Hft in Hk.
        destruct (find_run tgs w proc0) as [x s] eqn:Hfr.
        pose proof (find_run_empty_aborts _ _ _ _ _ _ _ Hq Hk Hreg Hfr)
          as Hab.
        destruct (delete_cmd_fetch_aborted _ _ _ _ _ Hd) as [Hp Hnd];
          [rewrite Hfr; exact Hab|].
        split; [|eapply main_reason; eassumption].
        destruct Hm as (t & Et & Ft). rewrite Et, deletions_app, Hnd.
        apply deletions_none. exact Ft. }
      destruct cmd as [tgs|tgs o|]; simpl in Hr;
        [|apply (Hdel tgs o eq_refl Hr)|apply (Hdel [] false eq_refl Hr)].
      split; [apply list_cmd_no_deletions|].
      eapply main_reason; [simpl; exact Hr|]. simpl in Hk.
      unfold printPackageVersionsForImageTags, getPackageVersionsByImageTag
        in Hr.
      destruct (list_run w proc0) as [x s] eqn:Hl.
      pose proof (list_run_empty_aborts _ _ _ _ _ _ Hq Hk Hreg Hl) as Hab.
      destruct x as [e|]; [inversion Hr; subst; exact Hab|].
      destruct (list_dropped w proc0); [inversion Hr; subst; exact Hab|].
      match type of Hr with
      | context [fold_left ?f ?l ?a] =>
          pose proof (print_fold_emits tgs (tagGroups s) l a) as He;
          destruct (fold_left f l a) as [[p2 c] g]
      end.
      simpl in He. inversion Hr; subst. simpl.
      rewrite (emits_reason _ _ _ He). exact Hab. }
    destruct Hfin as [Hd Hre].
    split; [exact Hd|]. split; [exact Hre|].
    exact (proj2 (main_sound cmd w) Hre).
  - intros cmd w tag Hin.
    destruct (main_sound cmd w) as [S1 S2].
    pose proof (S1 _ Hin) as Hre.
    split; [|split; [exact Hre|exact (S2 Hre)]].
    destruct cmd as [tgs|tgs o|].
    + apply list_cmd_no_deletions.
    + eapply delete_cmd_no_deletions_after_empty; eassumption.
    + apply report_cmd_no_deletions.
Qed.

(** A witness for C4: Scenario E in delete mode, with every record
    enumerated before the fetch completes. *)
Lemma empty_manifest_list_is_fatal_witness :
  deletions (trace (main (DeleteCmd ["v1"] false) worldE)) = []
  /\ reason (main (DeleteCmd ["v1"] false) worldE) <> None
  /\ exitCode (main (DeleteCmd ["v1"] false) worldE) <> 0.
Proof.
  destruct empty_manifest_list_is_fatal as (_ & H & _).
  apply (H (DeleteCmd ["v1"] false) worldE pkgD0 "v1").
  - left. reflexivity.
  - reflexivity.
  - reflexivity.
Defined.

(** ** The task limiter and the join *)

(** C5.  The limiter holds at most five running fetches, and a fetch waits
    only when five run; the waiting fetches start in submission order; an
    abort discards every waiting fetch and leaves the running ones alone.
    The join, however, does not settle once a waiting fetch has been
    discarded: the command stops at the join, for every ledger, registry
    and order of completion.  With six indexes of which the first fetch
    fails, five fetches run, the sixth waits and is discarded by the abort:
    the delete command never reaches [throwIfAborted] and the list command
    prints nothing; the process ends with status 1 after the four other
    fetches have completed. *)
Theorem join_never_settles_after_drop :
  (forall (St Tk : Type) (aborted : St -> bool)
          (cb : PackageVersion -> St -> option Exn * St * option Tk)
          (resolve : Tk -> St -> St),
      lim_wf (lim0 Tk)
      /\ (forall pkg l s r l' s',
            lim_wf l -> enumerate aborted cb pkg l s = (r, l', s') ->
            lim_wf l')
      /\ (forall i l s l' s',
            lim_wf l -> complete aborted resolve i l s = (l', s') ->
            lim_wf l'))
  /\ (forall (Tk : Type) (a q : list Tk) (t : Tk) (d : bool),
        (length a < concurrency)%nat ->
        resumeNext {| lim_active := a; lim_queue := t :: q; lim_dropped := d |}
        = {| lim_active := a ++ [t]; lim_queue := q; lim_dropped := d |})
  /\ (forall (Tk : Type) (l : Limiter Tk) (t : Tk),
        length (lim_active l) = concurrency ->
        submit t l
        = {| lim_active := lim_active l; lim_queue := lim_queue l ++ [t];
             lim_dropped := lim_dropped l |})
  /\ (forall (Tk : Type) (l : Limiter Tk),
        lim_active (clearQueue l) = lim_active l
        /\ lim_queue (clearQueue l) = []
        /\ (lim_queue l <> [] -> lim_dropped (clearQueue l) = true))
  /\ (forall (tgs : list Tag) (deleteOrphans : bool) (w : World),
        fst (find_run tgs w proc0) = None ->
        find_dropped tgs w proc0 = true ->
        runCmd (DeleteCmd tgs deleteOrphans) w proc0
        = (NeverSettles, dproc (snd (find_run tgs w proc0)))
        /\ main (DeleteCmd tgs deleteOrphans) w
           = dproc (snd (find_run tgs w proc0))
        /\ reason (main (DeleteCmd tgs deleteOrphans) w) <> None)
  /\ (forall (tgs : list Tag) (w : World),
        list_dropped w proc0 = true ->
        runCmd (ListCmd tgs) w proc0
        = (NeverSettles, lproc (snd (list_run w proc0)))
        /\ main (ListCmd tgs) w = lproc (snd (list_run w proc0))
        /\ reason (main (ListCmd tgs) w) <> None)
  /\ (let stopped :=
        {| reason := Some (RegistryError "t1" 404);
           exitCode := 1;
           trace := [LogError (RegistryError "t1" 404);
                     LogAbortReason (RegistryError "t1" 404)] |} in
      fst (find_run ["t2"] worldSix proc0) = None
      /\ find_dropped ["t2"] worldSix proc0 = true
      /\ list_dropped worldSix proc0 = true
      /\ runCmd (DeleteCmd ["t2"] false) worldSix proc0
         = (NeverSettles, stopped)
      /\ runCmd ReportCmd worldSix proc0 = (NeverSettles, stopped)
      /\ runCmd (ListCmd []) worldSix proc0 = (NeverSettles, stopped)
      /\ main (DeleteCmd ["t2"] false) worldSix = stopped
      /\ main (ListCmd []) worldSix = stopped).
Proof.
  split; [|split; [|split; [|split; [|split; [|split]]]]].
  - intros St Tk aborted cb resolve.
    split; [apply lim0_wf|]. split.
    + intros pkg l s r l' s'. apply enumerate_wf.
    + intros i l s l' s'. apply complete_wf.
  - intros Tk a q t d Hlt. unfold resumeNext. simpl.
    apply Nat.ltb_lt in Hlt. rewrite Hlt. reflexivity.
  - intros Tk l t Hlen. unfold submit, resumeNext. simpl.
    destruct (lim_queue l ++ [t]) as [|x q] eqn:Hq; [reflexivity|].
    rewrite Hlen, Nat.ltb_irrefl. reflexivity.
  - intros Tk l. split; [reflexivity|]. split; [reflexivity|].
    intros Hq. simpl. destruct (lim_queue l); [congruence|].
    simpl. apply orb_true_r.
  - intros tgs o w Hr Hd.
    assert (Hrun : runCmd (DeleteCmd tgs o) w proc0
                   = (NeverSettles, dproc (snd (find_run tgs w proc0)))).
    { simpl. unfold deletePackageVersions, findOrphanOrTaggedPackageVersions.
      rewrite Hd. destruct (find_run tgs w proc0) as [r s]. simpl in *.
      subst r. reflexivity. }
    split; [exact Hrun|].
    rewrite (main_never _ _ _ Hrun). split; [reflexivity|].
    eapply runCmd_never; exact Hrun.
  - intros tgs w Hd.
    assert (Hrun : runCmd (ListCmd tgs) w proc0
                   = (NeverSettles, lproc (snd (list_run w proc0)))).
    { simpl.
      unfold printPackageVersionsForImageTags, getPackageVersionsByImageTag.
      rewrite Hd. destruct (list_run w proc0) as [r s] eqn:Hl.
      destruct (list_run_closed (fun _ => True) (fun _ _ _ _ => Logic.I)
                  w proc0 r s Logic.I Hl) as [_ ->].
      reflexivity. }
    split; [exact Hrun|].
    rewrite (main_never _ _ _ Hrun). split; [reflexivity|].
    eapply runCmd_never; exact Hrun.
  - repeat split; vm_compute; reflexivity.
Qed.

(** A witness for C5: the six indexes, in delete mode. *)
Lemma join_never_settles_after_drop_witness :
  runCmd (DeleteCmd ["t2"] false) worldSix proc0
  = (NeverSettles, dproc (snd (find_run ["t2"] worldSix proc0)))
  /\ reason (main (DeleteCmd ["t2"] false) worldSix) <> None.
Proof.
  destruct join_never_settles_after_drop as (_ & _ & _ & _ & H & _).
  destruct (H ["t2"] false worldSix) as (H1 & _ & H2);
    [vm_compute; reflexivity|vm_compute; reflexivity|].
  split; [exact H1|exact H2].
Defined.

(** ** The index's own digest *)

Lemma fetched_digests :
  forall tag resp p,
    fetched (fst (getDigestsFromManifestIndex true false tag resp p))
    = response_digests resp.
Proof.
  intros tag resp p. unfold getDigestsFromManifestIndex.
  destruct resp as [st|ms]; simpl; [reflexivity|].
  destruct (map im_digest ms); reflexivity.
Qed.

Lemma list_task_digests_spec :
  forall t resp p,
    fst (list_task_digests t resp p)
    = response_digests resp ++ [Some (lt_own t)].
Proof.
  intros t resp p. unfold list_task_digests.
  pose proof (fetched_digests (lt_headTag t) resp p) as Hf.
  destruct (getDigestsFromManifestIndex _ _ _ _ _) as [r p1].
  simpl in *. rewrite Hf. reflexivity.
Qed.

Lemma find_task_digests_spec :
  forall t resp p,
    fst (find_task_digests t resp p) = response_digests resp.
Proof.
  intros t resp p. unfold find_task_digests.
  pose proof (fetched_digests (dt_tag t) resp p) as Hf.
  destruct (getDigestsFromManifestIndex _ _ _ _ _) as [r p1].
  simpl in *. exact Hf.
Qed.

Lemma fold_set_other :
  forall (v : Tag) (ds : list (option Digest))
         (m : JsMap.t (option Digest) Tag) (d : option Digest),
    ~ In d ds ->
    JsMap.get d (fold_left (fun m d => JsMap.set d v m) ds m) = JsMap.get d m.
Proof.
  intros v ds. induction ds as [|x ds IH]; intros m d Hn; simpl.
  - reflexivity.
  - rewrite IH by (intros Hi; apply Hn; right; assumption).
    apply get_set_other. intros ->. apply Hn. left. reflexivity.
Qed.

Lemma fold_set_last :
  forall (v : Tag) (ds : list (option Digest))
         (m : JsMap.t (option Digest) Tag) (d : option Digest),
    In d ds ->
    JsMap.get d (fold_left (fun m d => JsMap.set d v m) ds m) = Some v.
Proof.
  intros v ds. induction ds as [|x ds IH]; intros m d Hin; [destruct Hin|].
  simpl. destruct (in_dec eq_dec d ds) as [Hd|Hd].
  - apply IH. assumption.
  - destruct Hin as [->|Hin]; [|contradiction].
    rewrite fold_set_other by assumption. apply get_set_same.
Qed.

Lemma mark_digest_get :
  forall t g d k,
    JsMap.get k (mark_digest t g d) =
    if eq_dec k d
    then Some {| pi_id := pi_id (fst (pkgMap_get d g));
                 isOrphan := false;
                 belongsToTagsToDelete := dt_belongs t;
                 indexDigest := dt_pkgDigest t;
                 tags := tags (fst (pkgMap_get d g)) |}
    else JsMap.get k g.
Proof.
  intros t g d k. unfold mark_digest.
  destruct (pkgMap_get d g) as [info g1] eqn:Hg. simpl.
  destruct (eq_dec k d) as [->|Hne].
  - apply get_set_same.
  - rewrite get_set_other by assumption.
    unfold pkgMap_get, DefaultValueMap_get in Hg.
    destruct (JsMap.get d g); inversion Hg; subst; [reflexivity|].
    apply get_set_other. assumption.
Qed.

Lemma fold_mark_other :
  forall t ds g k,
    ~ In k ds -> JsMap.get k (fold_left (mark_digest t) ds g) = JsMap.get k g.
Proof.
  intros t ds. induction ds as [|d ds IH]; intros g k Hn; simpl.
  - reflexivity.
  - rewrite IH by (intros Hi; apply Hn; right; assumption).
    rewrite mark_digest_get.
    destruct (eq_dec k d) as [->|Hne]; [|reflexivity].
    exfalso. apply Hn. left. reflexivity.
Qed.

Lemma fold_mark_in :
  forall t ds g k,
    In k ds ->
    exists info,
      JsMap.get k (fold_left (mark_digest t) ds g) = Some info
      /\ indexDigest info = dt_pkgDigest t
      /\ isOrphan info = false.
Proof.
  intros t ds. induction ds as [|d ds IH]; intros g k Hin; [destruct Hin|].
  simpl. destruct (in_dec eq_dec k ds) as [Hd|Hd].
  - apply IH. assumption.
  - destruct Hin as [->|Hin]; [|contradiction].
    rewrite fold_mark_other by assumption.
    rewrite mark_digest_get.
    destruct (eq_dec k k); [|congruence].
    eexists. split; [reflexivity|]. split; reflexivity.
Qed.

Lemma pkgMap_get_other :
  forall d g k, k <> d -> JsMap.get k (snd (pkgMap_get d g)) = JsMap.get k g.
Proof.
  intros d g k Hne. unfold pkgMap_get, DefaultValueMap_get.
  destruct (JsMap.get d g); simpl; [reflexivity|].
  apply get_set_other. assumption.
Qed.

Lemma pkgMap_get_present :
  forall d g info, JsMap.get d g = Some info -> fst (pkgMap_get d g) = info.
Proof.
  intros d g info Hg. unfold pkgMap_get, DefaultValueMap_get. rewrite Hg.
  reflexivity.
Qed.

(** What the enumeration callback of the delete path does to the graph. *)
Lemma find_cb_graph :
  forall tgs pkg s s' ot,
    find_cb tgs pkg s = (None, s', ot) ->
    dproc s' = dproc s
    /\ (forall k, k <> Some (pv_name pkg) ->
          JsMap.get k (graph s') = JsMap.get k (graph s))
    /\ exists info',
         JsMap.get (Some (pv_name pkg)) (graph s') = Some info'
         /\ pi_id info' = Some (pv_id pkg)
         /\ (is_index pkg = true ->
               indexDigest info' = pv_name pkg
               /\ isOrphan info' = false
               /\ tags info' = kept_tags pkg
               /\ exists t, ot = Some t
                    /\ dt_tag t = hd "" (kept_tags pkg)
                    /\ dt_pkgDigest t = pv_name pkg)
         /\ (is_index pkg = false ->
               ot = None
               /\ forall info,
                    JsMap.get (Some (pv_name pkg)) (graph s) = Some info ->
                    indexDigest info' = indexDigest info).
Proof.
  intros tgs pkg s s' ot Hc. unfold find_cb in Hc.
  destruct (negb (JsString.truthy (pv_name pkg))); [discriminate|].
  destruct (pkgMap_get (Some (pv_name pkg)) (graph s)) as [info g1] eqn:Hg.
  assert (Hother : forall k, k <> Some (pv_name pkg) ->
                     JsMap.get k g1 = JsMap.get k (graph s)).
  { intros k Hk. pose proof (pkgMap_get_other (Some (pv_name pkg)) (graph s) k Hk)
      as Ho. rewrite Hg in Ho. exact Ho. }
  unfold is_index, kept_tags.
  destruct (filter JsString.truthy (pv_tags pkg)) as [|headTag tl] eqn:Hk;
    inversion Hc; subst; simpl.
  - split; [reflexivity|]. split.
    + intros k Hne. rewrite get_set_other by assumption. apply Hother.
      assumption.
    + eexists. split; [apply get_set_same|]. split; [reflexivity|].
      split; [discriminate|]. intros _. split; [reflexivity|].
      intros info0 Hi.
      pose proof (pkgMap_get_present _ _ _ Hi) as Hp. rewrite Hg in Hp.
      simpl in *. congruence.
  - split; [reflexivity|]. split.
    + intros k Hne. rewrite get_set_other by assumption. apply Hother.
      assumption.
    + eexists. split; [apply get_set_same|]. split; [reflexivity|].
      split; [|discriminate]. intros _. simpl.
      repeat split. eexists. repeat split.
Qed.

Section SelfReference.
Variable tgs : list Tag.
Variable w : World.
Hypothesis Hforeign : no_foreign_listing w.

Lemma own_index_cb :
  forall pkg rest s s' ot,
    own_index_inv w (pkg :: rest) s ->
    signal_aborted (dproc s) = false ->
    find_cb tgs pkg s = (None, s', ot) ->
    own_index_inv w rest s' /\ (forall t, ot = Some t -> task_of_ledger w t).
Proof.
  intros pkg rest s s' ot Hi Ha Hc.
  destruct Hi as [Hab|(done & Hl & Hdone)]; [congruence|].
  destruct (find_cb_graph _ _ _ _ _ Hc)
    as (Hp & Hother & info' & Hget & _ & Hidx & Hplain).
  split.
  - right. exists (done ++ [pkg]). split.
    + rewrite Hl, <- app_assoc. reflexivity.
    + intros p Hin Hpi. apply in_app_iff in Hin.
      destruct (string_dec (pv_name p) (pv_name pkg)) as [Heq|Hne].
      * rewrite Heq. exists info'. split; [exact Hget|].
        destruct (is_index pkg) eqn:Hx.
        -- destruct (Hidx eq_refl) as [Hd _]. exact Hd.
        -- destruct Hin as [Hin|[<-|[]]]; [|congruence].
           destruct (Hdone _ Hin Hpi) as (info & Hg & Hd).
           destruct (Hplain eq_refl) as [_ Hkeep].
           rewrite Heq in Hg. rewrite (Hkeep _ Hg). congruence.
      * destruct Hin as [Hin|[<-|[]]]; [|congruence].
        destruct (Hdone _ Hin Hpi) as (info & Hg & Hd).
        exists info. split; [|exact Hd].
        rewrite Hother; [exact Hg|congruence].
  - intros t ->. destruct (is_index pkg) eqn:Hx.
    + destruct (Hidx eq_refl) as (_ & _ & _ & t' & Ht & Htag & Hdg).
      inversion Ht; subst t'. exists pkg. repeat split; try assumption.
      rewrite Hl. apply in_or_app. right. left. reflexivity.
    + destruct (Hplain eq_refl) as [Hn _]. discriminate.
Qed.

Lemma own_index_task :
  forall todo t s,
    task_of_ledger w t -> own_index_inv w todo s ->
    own_index_inv w todo (find_task (registry w) t s).
Proof.
  intros todo t s (q & Hq & Hqi & Hdg & Htag) Hi.
  destruct Hi as [Hab|(done & Hl & Hdone)].
  - left. pose proof (find_task_step (registry w) t s) as Hs.
    unfold signal_aborted in *.
    destruct (reason (dproc s)) eqn:Hr; [|discriminate].
    rewrite (fetch_step_reason _ _ Hs) by congruence. rewrite Hr. reflexivity.
  - right. exists done. split; [exact Hl|].
    intros p Hin Hpi. unfold find_task.
    pose proof (find_task_digests_spec t (registry w (dt_tag t)) (dproc s))
      as Hds.
    destruct (find_task_digests t (registry w (dt_tag t)) (dproc s))
      as [digests p1]. simpl in *. subst digests.
    destruct (in_dec eq_dec (Some (pv_name p))
                (response_digests (registry w (dt_tag t)))) as [Hd|Hd].
    + destruct (fold_mark_in t _ (graph s) _ Hd) as (info & Hg & Hx & _).
      exists info. split; [exact Hg|]. rewrite Hx, Hdg. symmetry.
      apply (Hforeign q p); try assumption.
      * rewrite Hl. apply in_or_app. left. assumption.
      * rewrite <- Htag. assumption.
    + rewrite fold_mark_other by assumption. apply Hdone; assumption.
Qed.

Lemma own_index_final :
  forall g p',
    findOrphanOrTaggedPackageVersions tgs w proc0 = (Returns g, p') ->
    forall pkg, In pkg (ledger w) -> is_index pkg = true ->
      exists info,
        JsMap.get (Some (pv_name pkg)) g = Some info
        /\ indexDigest info = pv_name pkg.
Proof.
  intros g p' Hf. unfold findOrphanOrTaggedPackageVersions in Hf.
  destruct (find_run tgs w proc0) as [r s] eqn:Hr.
  destruct r; [discriminate|].
  destruct (find_dropped tgs w proc0); [discriminate|].
  unfold throwIfAborted in Hf.
  destruct (reason (dproc s)) eqn:Hre; [discriminate|].
  inversion Hf; subst. unfold find_run in Hr.
  assert (Hfin : own_index_inv w [] s).
  { apply (run_inv DState DTask (fun s => signal_aborted (dproc s))
             (find_cb tgs) (find_task (registry w))
             (own_index_inv w) (fun _ => True) (task_of_ledger w)
             own_index_cb
             (fun _ _ _ _ _ _ _ _ _ => Logic.I)
             own_index_task
             (fun _ _ _ _ => Logic.I)
             (fun _ _ _ H => or_introl H)
             _ _ _ None _
             (or_intror (ex_intro _ [] (conj eq_refl
                (fun _ (H : In _ []) _ => match H with end))))
             Hr). }
  destruct Hfin as [Hab|(done & Hl & Hdone)].
  - unfold signal_aborted in Hab. rewrite Hre in Hab. discriminate.
  - rewrite app_nil_r in Hl. subst done. exact Hdone.
Qed.
End SelfReference.


Lemma worldA_no_foreign_listing : no_foreign_listing worldA.
Proof.
  intros q p Hq Hp Hqi Hpi _. simpl in Hq, Hp.
  destruct Hq as [<-|[<-|[<-|[<-|[]]]]]; try discriminate Hqi.
  destruct Hp as [<-|[<-|[<-|[<-|[]]]]]; try discriminate Hpi.
  reflexivity.
Defined.



(** ** Index entries without a digest *)

(** C6 does not hold of the code.  With [printImageIndex: false], as both
    callers pass it, a fetched index with at least one entry yields the
    [digest] field of every entry, also of an entry that has none, and
    logs nothing.  In the sample world the entry without a digest becomes
    a node of the graph under the key [undefined]; the delete command
    requests two deletions and then ends with a [TypeError] and exit code
    1, and so does the report command. *)
Theorem missing_digest_not_skipped :
  (forall (tag : Tag) (m : ImageManifest) (ms : list ImageManifest) (p : Proc),
      getDigestsFromManifestIndex true false tag (IndexOk (m :: ms)) p
      = (inr (im_digest m :: map im_digest ms), p))
  /\ (exists t : DTask,
        snd (find_cb ["v1"] pkgD0 (dstate0 proc0)) = Some t
        /\ find_task_digests t (registry worldMissing (dt_tag t)) proc0
           = ([None; Some D2], proc0))
  /\ (exists g : PkgMap,
        fst (findOrphanOrTaggedPackageVersions ["v1"] worldMissing proc0)
        = Returns g
        /\ JsMap.has None g = true)
  /\ reason (main (DeleteCmd ["v1"] false) worldMissing)
     = Some TypeErrorUndefined
  /\ exitCode (main (DeleteCmd ["v1"] false) worldMissing) = 1
  /\ deletions (trace (main (DeleteCmd ["v1"] false) worldMissing)) = [10; 12]
  /\ ~ In (WarnMissingDigest "v1")
         (trace (main (DeleteCmd ["v1"] false) worldMissing))
  /\ reason (main ReportCmd worldMissing) = Some TypeErrorUndefined
  /\ exitCode (main ReportCmd worldMissing) = 1.
Proof.
  split; [intros tag m ms p; reflexivity|].
  split; [eexists; split; vm_compute; reflexivity|].
  split; [eexists; split; vm_compute; reflexivity|].
  repeat split; try (vm_compute; reflexivity).
  vm_compute. intuition discriminate.
Qed.

(** ** The passes of the deletion loop reach every entry *)

Lemma visit_appends_default :
  forall api o e st r st',
    visit api o e st = (r, st') ->
    exists ex, lmap st' = lmap st ++ ex /\ Forall default_entry ex.
Proof.
  intros api o [d info] st r st' Hv.
  assert (Hnil : forall m : PkgMap, exists ex,
             m = m ++ ex /\ Forall default_entry ex)
    by (intros m; exists []; rewrite app_nil_r; auto).
  visit_cases; inversion Hv; subst; simpl; try apply Hnil.
  all: match goal with
       | Hg : JsMap.get _ _ = None |- _ =>
           rewrite (set_absent _ _ _ Hg); eexists; split; [reflexivity|];
           constructor; [eexists; reflexivity|constructor]
       end.
Qed.

Lemma loop_entries_appends_default :
  forall api o todo st r st',
    loop_entries api o todo st = (r, st') ->
    exists ex, lmap st' = lmap st ++ ex /\ Forall default_entry ex.
Proof.
  intros api o todo. induction todo as [|e todo IH]; intros st r st' Hl;
    simpl in Hl.
  - inversion Hl; subst. exists []. rewrite app_nil_r. auto.
  - destruct (visit api o e st) as [[x|] st1] eqn:Hv.
    + inversion Hl; subst. eapply visit_appends_default; eassumption.
    + destruct (visit_appends_default _ _ _ _ _ _ Hv) as (ex1 & E1 & F1).
      destruct (IH _ _ _ Hl) as (ex2 & E2 & F2).
      exists (ex1 ++ ex2). rewrite E2, E1, app_assoc. split; [reflexivity|].
      apply Forall_app; auto.
Qed.

(** Visiting a default node throws nothing; it appends at most the default
    node of the empty digest, which the map holds afterwards. *)
Lemma visit_default :
  forall api o k st,
    exists st',
      visit api o (Some k, defaultPkgInfo) st = (None, st')
      /\ JsMap.get (Some "") (lmap st') <> None
      /\ (lmap st' = lmap st
          \/ lmap st' = lmap st ++ [(Some "", defaultPkgInfo)]).
Proof.
  intros api o k st. unfold visit, pkgMap_get, DefaultValueMap_get. simpl.
  destruct (JsMap.get (Some "") (lmap st)) as [v|] eqn:Hg; simpl.
  - eexists. split; [reflexivity|]. simpl. split; [congruence|].
    left. reflexivity.
  - eexists. split; [reflexivity|]. simpl. split.
    + rewrite get_set_same. discriminate.
    + right. apply set_absent. assumption.
Qed.

Lemma loop_entries_defaults :
  forall api o ex st,
    Forall default_entry ex ->
    exists st',
      loop_entries api o ex st = (None, st')
      /\ (lmap st' = lmap st
          \/ lmap st' = lmap st ++ [(Some "", defaultPkgInfo)]
             /\ JsMap.get (Some "") (lmap st') <> None).
Proof.
  intros api o ex. induction ex as [|e ex IH]; intros st F.
  - exists st. split; [reflexivity|]. left. reflexivity.
  - inversion F as [|? ? (k & ->) F']; subst.
    destruct (visit_default api o k st) as (st1 & Hv & Hp & Hm).
    destruct (IH st1 F') as (st2 & Hl & Hm2).
    exists st2. cbn [loop_entries]. rewrite Hv. split; [exact Hl|].
    assert (Hsame : lmap st2 = lmap st1).
    { destruct Hm2 as [Hs|[Happ Hg]]; [exact Hs|].
      exfalso.
      destruct (loop_entries_appends_default _ _ _ _ _ _ Hl) as (ex2 & E2 & _).
      assert (Hstill : forall todo s r s',
                 loop_entries api o todo s = (r, s') ->
                 Forall default_entry todo ->
                 JsMap.get (Some "") (lmap s) <> None ->
                 lmap s' = lmap s).
      { clear. intros todo. induction todo as [|e todo IHt];
          intros s r s' Hl F Hg; simpl in Hl.
        - inversion Hl; reflexivity.
        - inversion F as [|? ? (k & ->) F']; subst.
          unfold visit, pkgMap_get, DefaultValueMap_get in Hl. simpl in Hl.
          destruct (JsMap.get (Some "") (lmap s)) eqn:Hgs; [|congruence].
          simpl in Hl. apply IHt in Hl; [exact Hl|assumption|].
          simpl. congruence. }
      pose proof (Hstill _ _ _ _ Hl F' Hp) as Heq.
      rewrite Heq in Happ.
      apply (f_equal (@length _)) in Happ. rewrite length_app in Happ.
      simpl in Happ. lia. }
    rewrite Hsame. destruct Hm as [Hs|Happ].
    + left. exact Hs.
    + right. split; [exact Happ|]. exact Hp.
Qed.

Lemma loop_rounds_nil :
  forall n api o st, loop_rounds n api o [] st = (None, st).
Proof.
  induction n as [|n IH]; intros api o st; simpl; [reflexivity|].
  rewrite skipn_all. apply IH.
Qed.

Lemma visit_default_present :
  forall api o k st,
    JsMap.get (Some "") (lmap st) <> None ->
    exists st',
      visit api o (Some k, defaultPkgInfo) st = (None, st')
      /\ lmap st' = lmap st.
Proof.
  intros api o k st Hg. unfold visit, pkgMap_get, DefaultValueMap_get. simpl.
  destruct (JsMap.get (Some "") (lmap st)) as [v|] eqn:Hgs; [|congruence].
  simpl. eexists. split; reflexivity.
Qed.

(** Further passes of the loop do nothing: three passes are the loop. *)
Lemma loop_rounds_stable :
  forall k api o m p,
    loop_rounds (3 + k) api o m {| lmap := m; deletedCount := 0; loproc := p |}
    = delete_loop api o m p.
Proof.
  intros k api o m p. unfold delete_loop.
  change (3 + k)%nat with (S (S (S k))).
  cbn [loop_rounds].
  destruct (loop_entries api o m _) as [[x|] st1] eqn:H1; [reflexivity|].
  destruct (loop_entries_appends_default _ _ _ _ _ _ H1) as (ex1 & E1 & F1).
  simpl in E1. cbn [lmap].
  assert (T2 : skipn (length m) (lmap st1) = ex1)
    by (rewrite E1; apply skipn_appended).
  rewrite T2.
  destruct (loop_entries_defaults api o ex1 st1 F1) as (st2 & H2 & Hm).
  rewrite H2. destruct Hm as [Hs|[Happ Hg]].
  - assert (T3 : skipn (length (lmap st1)) (lmap st2) = [])
      by (rewrite Hs; apply skipn_all).
    rewrite T3. cbn [loop_entries]. rewrite skipn_all.
    apply loop_rounds_nil.
  - assert (T3 : skipn (length (lmap st1)) (lmap st2)
                 = [(Some "", defaultPkgInfo)])
      by (rewrite Happ; apply skipn_appended).
    rewrite T3. cbn [loop_entries].
    destruct (visit_default_present api o "" st2 Hg) as (st3 & Hv & Hl3).
    rewrite Hv. rewrite Hl3, skipn_all. apply loop_rounds_nil.
Qed.

(** ** The graph invariant

    Reconciliation only builds nodes that respect the invariant checked by
    the deletion loop: the consistency error of the loop is a defensive
    check. *)

Lemma set_Forall :
  forall (P : option Digest * PkgInfo -> Prop) (m : PkgMap) k v,
    Forall P m -> P (k, v) -> Forall P (JsMap.set k v m).
Proof.
  intros P m. induction m as [|[k0 v0] m IH]; intros k v F Hp; simpl.
  - constructor; [assumption|constructor].
  - inversion F; subst. destruct (eq_dec k k0).
    + constructor; assumption.
    + constructor; [assumption|apply IH; assumption].
Qed.

Lemma pkgMap_get_consistent :
  forall d g,
    Forall consistent_entry g ->
    Forall consistent_entry (snd (pkgMap_get d g))
    /\ inconsistent_orphan (fst (pkgMap_get d g)) = false.
Proof.
  intros d g F. unfold pkgMap_get, DefaultValueMap_get.
  destruct (JsMap.get d g) as [info|] eqn:Hg; simpl.
  - split; [assumption|].
    assert (Hin : In (d, info) g).
    { clear F. induction g as [|[k0 v0] g IH]; simpl in *; [discriminate|].
      destruct (eq_dec d k0) as [->|n]; [left; congruence|right; auto]. }
    rewrite Forall_forall in F. apply (F _ Hin).
  - split; [|reflexivity]. apply set_Forall; [assumption|reflexivity].
Qed.

Lemma find_cb_consistent :
  forall tgs pkg s r s' ot,
    find_cb tgs pkg s = (r, s', ot) ->
    Forall consistent_entry (graph s) -> Forall consistent_entry (graph s').
Proof.
  intros tgs pkg s r s' ot Hc F. unfold find_cb in Hc.
  destruct (negb (JsString.truthy (pv_name pkg)));
    [inversion Hc; subst; exact F|].
  destruct (pkgMap_get_consistent (Some (pv_name pkg)) (graph s) F)
    as [Fg Hi].
  destruct (pkgMap_get (Some (pv_name pkg)) (graph s)) as [info g1].
  simpl in Fg, Hi.
  destruct (filter JsString.truthy (pv_tags pkg)); inversion Hc; subst; simpl;
    (apply set_Forall; [assumption|]).
  - exact Hi.
  - reflexivity.
Qed.

Lemma find_task_consistent :
  forall reg t s,
    Forall consistent_entry (graph s) ->
    Forall consistent_entry (graph (find_task reg t s)).
Proof.
  intros reg t s F. unfold find_task.
  destruct (find_task_digests t (reg (dt_tag t)) (dproc s)) as [ds p1].
  simpl. revert F. generalize (graph s).
  induction ds as [|d ds IH]; intros g F; simpl; [assumption|].
  apply IH. unfold mark_digest.
  destruct (pkgMap_get_consistent d g F) as [Fg _].
  destruct (pkgMap_get d g) as [info g1]. simpl in Fg.
  apply set_Forall; [assumption|reflexivity].
Qed.

(** Every node of a graph returned by reconciliation is consistent. *)
Lemma reconciled_graph_consistent :
  forall tgs w p g p',
    findOrphanOrTaggedPackageVersions tgs w p = (Returns g, p') ->
    Forall consistent_entry g.
Proof.
  intros tgs w p g p' Hf. unfold findOrphanOrTaggedPackageVersions in Hf.
  destruct (find_run tgs w p) as [r s] eqn:Hr.
  destruct r; [discriminate|].
  destruct (find_dropped tgs w p); [discriminate|].
  destruct (throwIfAborted (dproc s)); [discriminate|].
  inversion Hf; subst. unfold find_run in Hr.
  apply (run_inv DState DTask (fun s => signal_aborted (dproc s))
           (find_cb tgs) (find_task (registry w))
           (fun _ s => Forall consistent_entry (graph s)) (fun _ => True)
           (fun _ => True)
           (fun pkg rest s0 s0' ot Hi _ Hc =>
              conj (find_cb_consistent _ _ _ _ _ _ Hc Hi) (fun _ _ => Logic.I))
           (fun _ _ _ _ _ _ _ _ _ => Logic.I)
           (fun _ t s0 _ Hi => find_task_consistent _ t s0 Hi)
           (fun _ _ _ _ => Logic.I)
           (fun _ _ Hi _ => Hi)
           (schedule w) (ledger w) (dstate0 p) None s
           (Forall_nil _) Hr).
Qed.

(** ** The scenarios of the specification *)

(** Scenario A: [D0] is an index with tags [v1] and [latest]; [D1] and [D2]
    are not orphans and refer to [D0]; the list command prints them under
    the group of [v1] and [latest], and the orphan [D9] (Scenario B) under
    [Unknown]. *)
Example scenario_A_graph :
  fst (findOrphanOrTaggedPackageVersions [] worldA proc0)
  = Returns [ (Some D0, {| pi_id := Some 10; isOrphan := false;
                       belongsToTagsToDelete := false; indexDigest := D0;
                       tags := ["v1"; "latest"] |});
          (Some D1, {| pi_id := Some 11; isOrphan := false;
                       belongsToTagsToDelete := false; indexDigest := D0;
                       tags := [] |});
          (Some D2, {| pi_id := Some 12; isOrphan := false;
                       belongsToTagsToDelete := false; indexDigest := D0;
                       tags := [] |});
          (Some D9, {| pi_id := Some 19; isOrphan := true;
                       belongsToTagsToDelete := false; indexDigest := "";
                       tags := [] |}) ].
Proof. vm_compute. reflexivity. Qed.

Example scenario_A_list :
  trace (main (ListCmd []) worldA)
  = [ PrintGroup ["v1"; "latest"] [pkgD0; pkgD1; pkgD2];
      PrintGroup [UNKNOWN_TAG] [pkgD9];
      PrintSummary 4 2 ].
Proof. vm_compute. reflexivity. Qed.

(** Scenario C: deleting [v1] without orphans requests [D0], [D1] and [D2]
    and leaves the orphan alone. *)
Example scenario_C_deletions :
  deletions (trace (main (DeleteCmd ["v1"] false) worldA)) = [10; 11; 12]
  /\ exitCode (main (DeleteCmd ["v1"] false) worldA) = 0.
Proof. split; vm_compute; reflexivity. Qed.

(** Scenario D: the report on an empty ledger prints zero counts. *)
Example scenario_D_report :
  main ReportCmd worldEmpty
  = {| reason := None; exitCode := 0;
       trace := [ StatVersions 0; StatDistinctDigests 0; StatTags 0;
                  StatOrphans 0; InfoDeletedCount 0 ] |}.
Proof. vm_compute. reflexivity. Qed.

(** Scenario E: an empty manifest list aborts the run before any deletion. *)
Example scenario_E_abort :
  main (DeleteCmd ["v1"] false) worldE
  = {| reason := Some (EmptyManifestList "v1"); exitCode := 1;
       trace := [ LogError (EmptyManifestList "v1");
                  LogAbortReason (EmptyManifestList "v1") ] |}.
Proof. vm_compute. reflexivity. Qed.

(** * Further properties of the code *)

(** ** [trunc8] *)

Section Trunc8Facts.
Import JsString.

Lemma indexOf_app_first :
  forall c a r,
    indexOf c a = -1 ->
    indexOf c (a ++ String c r)%string = Z.of_nat (String.length a).
Proof.
  intros c a r. induction a as [|x a IH]; intros Ha.
  - simpl. rewrite indexOf_cons, Ascii.eqb_refl. reflexivity.
  - rewrite indexOf_cons in Ha. simpl String.append. rewrite indexOf_cons.
    destruct (Ascii.eqb x c); [discriminate|].
    destruct (indexOf c a =? -1) eqn:E.
    + apply Z.eqb_eq in E. rewrite (IH E).
      destruct (Z.of_nat (String.length a) =? -1) eqn:E2.
      * apply Z.eqb_eq in E2. lia.
      * simpl String.length. lia.
    + destruct (indexOf_range c a) as [Hn|Hp]; [|lia].
      apply Z.eqb_neq in E. contradiction.
Qed.

Lemma take_app :
  forall (a b : string) (k : nat),
    String.substring 0 (String.length a + k) (a ++ b)%string
    = (a ++ String.substring 0 k b)%string.
Proof.
  induction a as [|x a IH]; intros b k; simpl.
  - reflexivity.
  - rewrite IH. reflexivity.
Qed.

Lemma take_take :
  forall (n : nat) (s : string),
    String.substring 0 n (String.substring 0 n s) = String.substring 0 n s.
Proof.
  induction n as [|n IH]; intros s.
  - destruct s; reflexivity.
  - destruct s as [|x s]; simpl; [reflexivity|]. rewrite IH. reflexivity.
Qed.

Lemma take_prefix :
  forall (n : nat) (s : string),
    exists rest, s = (String.substring 0 n s ++ rest)%string.
Proof.
  induction n as [|n IH]; intros s.
  - exists s. destruct s; reflexivity.
  - destruct s as [|x s]; simpl.
    + exists EmptyString. reflexivity.
    + destruct (IH s) as (rest & Hr). exists rest. simpl. congruence.
Qed.

Lemma take_no_separator :
  forall c (n : nat) (s : string),
    indexOf c s = -1 -> indexOf c (String.substring 0 n s) = -1.
Proof.
  intros c. induction n as [|n IH]; intros s Hs.
  - destruct s; reflexivity.
  - destruct s as [|x s]; simpl; [reflexivity|].
    rewrite indexOf_cons in Hs |- *.
    destruct (Ascii.eqb x c); [discriminate|].
    destruct (indexOf c s =? -1) eqn:E.
    + apply Z.eqb_eq in E. rewrite (IH s E). reflexivity.
    + destruct (indexOf_range c s) as [Hn|Hp]; [|lia].
      apply Z.eqb_neq in E. contradiction.
Qed.

Lemma trunc8_with_colon :
  forall alg hex : string,
    indexOf colon alg = -1 ->
    trunc8 (alg ++ String colon hex)
    = (alg ++ String colon (String.substring 0 8 hex))%string.
Proof.
  intros alg hex Ha. unfold trunc8, substring0.
  rewrite (indexOf_app_first _ _ _ Ha).
  replace (Z.to_nat (Z.of_nat (String.length alg) + 9))
    with (String.length alg + 9)%nat by lia.
  rewrite take_app. reflexivity.
Qed.

Lemma trunc8_without_colon :
  forall s : string,
    indexOf colon s = -1 -> trunc8 s = String.substring 0 8 s.
Proof. intros s Hs. unfold trunc8, substring0. rewrite Hs. reflexivity. Qed.
End Trunc8Facts.

(** X1. [trunc8] keeps what precedes the first colon, the colon and the
    first 8 characters after it (fewer when the digest is shorter); of a
    string without a colon it keeps the first 8 characters.  Its result is
    a prefix of its argument, and truncating twice is truncating once. *)
Theorem trunc8_shape :
  (forall alg hex : string,
      JsString.indexOf colon alg = -1 ->
      trunc8 (alg ++ String colon hex)
      = (alg ++ String colon (String.substring 0 8 hex))%string)
  /\ (forall s : string,
        JsString.indexOf colon s = -1 -> trunc8 s = String.substring 0 8 s)
  /\ (forall s : string, exists rest, s = (trunc8 s ++ rest)%string)
  /\ (forall s : string, trunc8 (trunc8 s) = trunc8 s).
Proof.
  split; [exact trunc8_with_colon|].
  split; [exact trunc8_without_colon|].
  split.
  - intros s. unfold trunc8, JsString.substring0. apply take_prefix.
  - intros s. destruct (indexOf_range colon s) as [Hn|Hp].
    + rewrite (trunc8_without_colon s Hn).
      rewrite trunc8_without_colon by (apply take_no_separator; exact Hn).
      apply take_take.
    + destruct (indexOf_decompose colon s Hp) as (a & r & -> & Ha & _).
      rewrite (trunc8_with_colon a r Ha).
      rewrite (trunc8_with_colon a _ Ha). rewrite take_take. reflexivity.
Qed.

(** A witness for X1: a sha256 digest is cut after 8 hexadecimal digits. *)
Lemma trunc8_shape_witness :
  trunc8 "sha256:abcd123456789" = "sha256:abcd1234".
Proof.
  destruct trunc8_shape as (H & _).
  apply (H "sha256" "abcd123456789"). reflexivity.
Defined.

(** ** The abort signal and the exit status *)

Lemma abort_logs_app :
  forall a b, abort_logs (a ++ b) = abort_logs a ++ abort_logs b.
Proof. intros a b. unfold abort_logs. apply flat_map_app. Qed.

Lemma abort_logs_plain :
  forall t, Forall plain_event t -> abort_logs t = [].
Proof.
  induction 1 as [|ev t Hev _ IH]; [reflexivity|].
  unfold abort_logs in *. simpl. rewrite IH.
  destruct ev; simpl in *; try reflexivity. contradiction.
Qed.

Lemma coherent_proc0 : coherent proc0.
Proof. split; reflexivity. Qed.

Lemma coherent_abort :
  forall err p, coherent p -> coherent (controller_abort err p).
Proof.
  intros err p [Hl He]. unfold controller_abort.
  destruct (reason p) as [r|] eqn:Hr.
  - split; rewrite Hr; assumption.
  - split; simpl.
    + rewrite abort_logs_app, Hl. reflexivity.
    + rewrite He. reflexivity.
Qed.

Lemma coherent_emit :
  forall ev p,
    match ev with LogAbortReason _ => False | _ => True end ->
    coherent p -> coherent (emit ev p).
Proof.
  intros ev p Hev [Hl He]. split; simpl; [|assumption].
  rewrite abort_logs_app, Hl. unfold abort_logs. simpl.
  destruct ev; simpl; try apply app_nil_r. contradiction.
Qed.

Lemma coherent_fetch_step :
  forall p p', coherent p -> fetch_step p p' -> coherent p'.
Proof.
  intros p p' Hc Hs. destruct Hs as [|err|err Herr].
  - assumption.
  - apply coherent_abort. assumption.
  - apply coherent_abort, coherent_emit; [exact Logic.I|assumption].
Qed.

Lemma coherent_emits :
  forall p p', coherent p -> emits plain_event p p' -> coherent p'.
Proof.
  intros p p' [Hl He] (t & -> & F). split; simpl; [|assumption].
  rewrite abort_logs_app, Hl, (abort_logs_plain _ F). apply app_nil_r.
Qed.

Lemma stat_event_plain : forall ev, stat_event ev -> plain_event ev.
Proof. intros [[]| | | | | | | | | | | | | | | |]; simpl; auto. Qed.

Lemma loop_event_plain : forall ev, loop_event ev -> plain_event ev.
Proof. intros [[]| | | | | | | | | | | | | | | |]; simpl; auto. Qed.

Lemma print_event_plain : forall ev, print_event ev -> plain_event ev.
Proof. intros [[]| | | | | | | | | | | | | | | |]; simpl; auto. Qed.

(** From the graph on, a delete or report command only logs plain
    events. *)
Lemma delete_cmd_after_find_plain :
  forall tgs o w p r p' x p1,
    deletePackageVersions tgs o w p = (r, p') ->
    findOrphanOrTaggedPackageVersions tgs w p = (x, p1) ->
    emits plain_event p1 p'.
Proof.
  intros tgs o w p r p' x p1 Hd Hf. unfold deletePackageVersions in Hd.
  rewrite Hf in Hd. destruct x as [g|e|].
  2, 3: inversion Hd; subst; apply emits_refl.
  - destruct (logRegistryStats tgs g p1) as [[e|] p2] eqn:Hs.
    + inversion Hd; subst.
      apply (emits_weaken _ _ _ _ stat_event_plain).
      eapply logRegistryStats_emits; eassumption.
    + eapply emits_trans.
      * apply (emits_weaken _ _ _ _ stat_event_plain).
        eapply logRegistryStats_emits; eassumption.
      * destruct (delete_loop (deleteApi w) o g p2) as [rl st] eqn:Hl.
        unfold delete_loop in Hl.
        pose proof (loop_rounds_emits _ _ _ _ _ _ _ Hl) as He. simpl in He.
        apply (emits_weaken _ _ _ _ loop_event_plain) in He.
        destruct rl; inversion Hd; subst; [exact He|].
        apply emits_step; [exact He|exact Logic.I].
Qed.

(** What the fetch phase and plain logging preserve holds when a command
    returns. *)
Lemma runCmd_closed :
  forall P : Proc -> Prop,
    (forall p p', P p -> fetch_step p p' -> P p') ->
    (forall p p', P p -> emits plain_event p p' -> P p') ->
    forall cmd w r p,
      P proc0 -> runCmd cmd w proc0 = (r, p) -> P p.
Proof.
  intros P Hfs Hem cmd w r p H0 Hr. destruct cmd as [tgs|tgs o|]; simpl in Hr.
  - unfold printPackageVersionsForImageTags, getPackageVersionsByImageTag in Hr.
    destruct (list_run w proc0) as [x s] eqn:Hl.
    destruct (list_run_closed P Hfs w proc0 x s H0 Hl) as [Hs ->].
    destruct (list_dropped w proc0); [inversion Hr; subst; exact Hs|].
    match type of Hr with
    | context [fold_left ?f ?l ?a] =>
        pose proof (print_fold_emits tgs (tagGroups s) l a) as He;
        destruct (fold_left f l a) as [[p2 c] g]
    end.
    simpl in He. inversion Hr; subst.
    eapply Hem; [exact Hs|].
    apply (emits_weaken _ _ _ _ print_event_plain).
    apply emits_step; [exact He|exact Logic.I].
  - destruct (findOrphanOrTaggedPackageVersions tgs w proc0) as [x p1] eqn:Hf.
    eapply Hem; [|eapply delete_cmd_after_find_plain; eassumption].
    unfold findOrphanOrTaggedPackageVersions in Hf.
    destruct (find_run tgs w proc0) as [y s] eqn:Hrun.
    pose proof (find_run_closed P Hfs tgs w proc0 y s H0 Hrun) as Hd.
    destruct y; [inversion Hf; subst; exact Hd|].
    destruct (find_dropped _ _ _); [inversion Hf; subst; exact Hd|].
    destruct (throwIfAborted (dproc s)); inversion Hf; subst; exact Hd.
  - destruct (findOrphanOrTaggedPackageVersions [] w proc0) as [x p1] eqn:Hf.
    eapply Hem; [|eapply delete_cmd_after_find_plain; eassumption].
    unfold findOrphanOrTaggedPackageVersions in Hf.
    destruct (find_run [] w proc0) as [y s] eqn:Hrun.
    pose proof (find_run_closed P Hfs [] w proc0 y s H0 Hrun) as Hd.
    destruct y; [inversion Hf; subst; exact Hd|].
    destruct (find_dropped _ _ _); [inversion Hf; subst; exact Hd|].
    destruct (throwIfAborted (dproc s)); inversion Hf; subst; exact Hd.
Qed.

Lemma main_coherent : forall cmd w, coherent (main cmd w).
Proof.
  intros cmd w.
  destruct (runCmd cmd w proc0) as [[u|e|] p] eqn:Hr;
    pose proof (runCmd_closed coherent coherent_fetch_step coherent_emits
                  cmd w _ p coherent_proc0 Hr) as [Hl He];
    [unfold main; rewrite Hr; split; assumption
    |unfold main; rewrite Hr
    |rewrite (main_never _ _ _ Hr); split; assumption].
  unfold controller_abort, exitCode_or_1. simpl.
  destruct (reason p) as [r|] eqn:Hre; split; simpl; rewrite ?Hre.
  - assumption.
  - rewrite He. reflexivity.
  - rewrite abort_logs_app, Hl. reflexivity.
  - rewrite He. reflexivity.
Qed.

(** X2. Aborting twice is aborting once: the first reason is kept.  In
    every run the abort listener logs the stored reason exactly once when
    the run ends aborted and never otherwise; the exit code is 1 when the
    run ends aborted and 0 otherwise; and a command that throws always
    leaves the run aborted. *)
Theorem abort_once_and_exit_status :
  (forall (e1 e2 : Exn) (p : Proc),
      controller_abort e2 (controller_abort e1 p) = controller_abort e1 p)
  /\ (forall (cmd : Cmd) (w : World),
        abort_logs (trace (main cmd w)) = opt_list (reason (main cmd w))
        /\ exitCode (main cmd w)
           = match reason (main cmd w) with Some _ => 1 | None => 0 end)
  /\ (forall (cmd : Cmd) (w : World) (e : Exn) (p : Proc),
        runCmd cmd w proc0 = (Throws e, p) ->
        reason (main cmd w)
        = Some (match reason p with Some r => r | None => e end)).
Proof.
  split; [|split].
  - intros e1 e2 p. unfold controller_abort.
    destruct (reason p) as [r|] eqn:Hr; simpl; [rewrite Hr|]; reflexivity.
  - intros cmd w. exact (main_coherent cmd w).
  - intros cmd w e p Hr. unfold main. rewrite Hr.
    unfold controller_abort, exitCode_or_1. simpl.
    destruct (reason p) as [r|] eqn:Hre; simpl; rewrite ?Hre; reflexivity.
Qed.

(** A witness for X2: in Scenario A with a failing deletion request the
    command throws and the run ends aborted with that error. *)
Lemma abort_once_and_exit_status_witness :
  reason (main (DeleteCmd ["v1"] false) worldA_failing)
  = Some (DeleteRequestError 11).
Proof.
  destruct abort_once_and_exit_status as (_ & _ & H).
  apply (H (DeleteCmd ["v1"] false) worldA_failing (DeleteRequestError 11)
           (snd (runCmd (DeleteCmd ["v1"] false) worldA_failing proc0))).
  vm_compute. reflexivity.
Defined.

(** ** The count of deleted package versions *)

Lemma visit_count :
  forall api o e st st',
    visit api o e st = (None, st') ->
    reason (loproc st) = None ->
    deletedCount st' = (deletedCount st + length (eligible_ids o [e]))%nat.
Proof.
  intros api o [d info] st st' Hv Hr.
  unfold eligible_ids, eligible. simpl.
  visit_cases; inversion Hv; subst; simpl in *; try lia; congruence.
Qed.

Lemma eligible_ids_app :
  forall o l1 l2,
    eligible_ids o (l1 ++ l2) = eligible_ids o l1 ++ eligible_ids o l2.
Proof. intros o l1 l2. unfold eligible_ids. apply flat_map_app. Qed.

Lemma loop_entries_count :
  forall api o todo st st',
    loop_entries api o todo st = (None, st') ->
    reason (loproc st) = None ->
    deletedCount st' = (deletedCount st + length (eligible_ids o todo))%nat.
Proof.
  intros api o todo. induction todo as [|e todo IH]; intros st st' Hl Hr;
    simpl in Hl.
  - inversion Hl; subst. simpl. lia.
  - destruct (visit api o e st) as [[x|] st1] eqn:Hv; [discriminate|].
    destruct (visit_frame _ _ _ _ _ _ Hv) as [Hr1 _].
    rewrite (IH _ _ Hl) by congruence.
    rewrite (visit_count _ _ _ _ _ Hv Hr).
    change (e :: todo) with ([e] ++ todo). rewrite eligible_ids_app.
    rewrite length_app. lia.
Qed.

Lemma loop_rounds_count_default :
  forall n api o ex st st',
    Forall (fun x => snd x = defaultPkgInfo) ex ->
    loop_rounds n api o ex st = (None, st') ->
    reason (loproc st) = None ->
    deletedCount st' = deletedCount st.
Proof.
  induction n as [|n IH]; intros api o ex st st' F Hl Hr; simpl in Hl.
  - inversion Hl; subst. reflexivity.
  - destruct (loop_entries api o ex st) as [[x|] st1] eqn:He; [discriminate|].
    destruct (loop_entries_frame _ _ _ _ _ _ He) as [Hr1 (ex1 & E1 & F1)].
    rewrite E1, skipn_appended in Hl.
    rewrite (IH _ _ _ _ _ F1 Hl) by congruence.
    rewrite (loop_entries_count _ _ _ _ _ He Hr).
    rewrite (eligible_ids_default _ _ F). simpl. lia.
Qed.

Lemma delete_loop_count :
  forall api o m p st,
    reason p = None ->
    delete_loop api o m p = (None, st) ->
    deletedCount st = length (eligible_ids o m).
Proof.
  intros api o m p st Hr Hl. unfold delete_loop in Hl.
  cbn [loop_rounds] in Hl.
  destruct (loop_entries api o m _) as [[x|] st1] eqn:He; [discriminate|].
  destruct (loop_entries_frame _ _ _ _ _ _ He) as [Hr1 (ex1 & E1 & F1)].
  simpl in Hr1, E1.
  pose proof (loop_entries_count _ _ _ _ _ He Hr) as Hc. simpl in Hc.
  change (loop_rounds 2 api o (skipn (length m) (lmap st1)) st1 = (None, st))
    in Hl.
  rewrite E1, skipn_appended in Hl.
  rewrite (loop_rounds_count_default _ _ _ _ _ _ F1 Hl) by congruence.
  exact Hc.
Qed.

(** The trace of a delete or report command: without the final count when
    the command throws; otherwise the fetch phase and the report, the loop
    and the count of the loop. *)
Lemma delete_cmd_trace :
  forall tgs o w r p',
    deletePackageVersions tgs o w proc0 = (r, p') ->
    (r <> Returns tt /\ Forall before_count_event (trace p'))
    \/ (r = Returns tt
        /\ exists g p1 p2 st tl,
             findOrphanOrTaggedPackageVersions tgs w proc0 = (Returns g, p1)
             /\ logRegistryStats tgs g p1 = (None, p2)
             /\ delete_loop (deleteApi w) o g p2 = (None, st)
             /\ reason p2 = None
             /\ Forall (fun ev => fetch_event ev \/ stat_event ev) (trace p2)
             /\ Forall loop_event tl
             /\ reason p' = None
             /\ trace (loproc st) = trace p2 ++ tl
             /\ trace p' = trace p2 ++ tl ++ [InfoDeletedCount (deletedCount st)]).
Proof.
  intros tgs o w r p' Hd. unfold deletePackageVersions in Hd.
  destruct (findOrphanOrTaggedPackageVersions tgs w proc0)
    as [[g|e|] p1] eqn:Hf.
  2, 3: inversion Hd; subst; left; (split; [discriminate|]);
    pose proof (appends_from_proc0 _ _ (find_appends _ _ _ _ _ Hf)) as F;
    (eapply Forall_impl; [|exact F]); intros ev Hev; left; exact Hev.
  - pose proof (appends_from_proc0 _ _ (find_appends _ _ _ _ _ Hf)) as F1.
    assert (Hr1 : reason p1 = None).
    { unfold findOrphanOrTaggedPackageVersions in Hf.
      destruct (find_run tgs w proc0) as [x s]. destruct x; [discriminate|].
      destruct (find_dropped tgs w proc0); [discriminate|].
      unfold throwIfAborted in Hf.
      destruct (reason (dproc s)) eqn:Hrs; inversion Hf; subst. exact Hrs. }
    destruct (logRegistryStats tgs g p1) as [[e|] p2] eqn:Hs;
      pose proof (logRegistryStats_emits _ _ _ _ _ Hs) as (ts & Ep2 & Fs).
    + inversion Hd; subst. left. split; [discriminate|]. simpl.
      apply Forall_app. split.
      * eapply Forall_impl; [|exact F1]. intros ev Hev. left. exact Hev.
      * eapply Forall_impl; [|exact Fs]. intros ev Hev. right. left. exact Hev.
    + assert (F2 : Forall (fun ev => fetch_event ev \/ stat_event ev) (trace p2)).
      { rewrite Ep2. simpl. apply Forall_app. split.
        - eapply Forall_impl; [|exact F1]. intros ev Hev. left. exact Hev.
        - eapply Forall_impl; [|exact Fs]. intros ev Hev. right. exact Hev. }
      assert (Hr2 : reason p2 = None) by (rewrite Ep2; exact Hr1).
      destruct (delete_loop (deleteApi w) o g p2) as [rl st] eqn:Hl.
      pose proof Hl as Hl'. unfold delete_loop in Hl'.
      pose proof (loop_rounds_emits _ _ _ _ _ _ _ Hl') as (tl & El & Fl).
      simpl in El. destruct rl as [e|]; injection Hd as Hr' Hp'; subst r p'.
      * left. split; [discriminate|]. rewrite El. simpl.
        apply Forall_app. split.
        -- eapply Forall_impl; [|exact F2]. intros ev [Hev|Hev];
             [left|right; left]; exact Hev.
        -- eapply Forall_impl; [|exact Fl]. intros ev Hev. right. right.
           exact Hev.
      * right. split; [reflexivity|].
        exists g, p1, p2, st, tl. repeat split; try assumption.
        -- simpl. rewrite El. simpl. exact Hr2.
        -- rewrite El. reflexivity.
        -- simpl. rewrite El. simpl. rewrite <- app_assoc. reflexivity.
Qed.

Lemma deletions_fetch_stat :
  forall t, Forall (fun ev => fetch_event ev \/ stat_event ev) t ->
    deletions t = [].
Proof.
  intros t F. apply deletions_none. eapply Forall_impl; [|exact F].
  intros ev [Hev|Hev];
    [apply fetch_event_not_delete|apply stat_event_not_delete]; exact Hev.
Qed.

(** X3. The delete command logs the number of deleted package versions
    only when its loop completes, and then the number is the number of
    deletion requests made in the run, which ends with exit code 0. *)
Theorem deleted_count_is_exact :
  forall (tgs : list Tag) (deleteOrphans : bool) (w : World) (n : nat),
    In (InfoDeletedCount n) (trace (main (DeleteCmd tgs deleteOrphans) w)) ->
    n = length (deletions (trace (main (DeleteCmd tgs deleteOrphans) w)))
    /\ reason (main (DeleteCmd tgs deleteOrphans) w) = None
    /\ exitCode (main (DeleteCmd tgs deleteOrphans) w) = 0.
Proof.
  intros tgs o w n Hin.
  destruct (runCmd (DeleteCmd tgs o) w proc0) as [r p] eqn:Hr.
  pose proof Hr as Hrun. simpl in Hr.
  assert (Hno : forall t, Forall before_count_event t ->
                  ~ In (InfoDeletedCount n) t).
  { intros t F Hi. rewrite Forall_forall in F.
    destruct (F _ Hi) as [H|[H|H]]; exact H. }
  destruct (delete_cmd_trace _ _ _ _ _ Hr)
    as [[Hne F]|(-> & g & p1 & p2 & st & tl & Hf & Hs & Hl & Hr2 & F2 & Fl
                 & Hrp & El & Et)].
  - exfalso. unfold main in Hin. rewrite Hrun in Hin.
    destruct r as [[]|e|]; [congruence| |exact (Hno _ F Hin)].
    unfold controller_abort in Hin.
    destruct (reason (exitCode_or_1 p)); simpl in Hin.
    + exact (Hno _ F Hin).
    + apply in_app_iff in Hin. destruct Hin as [Hin|[Hin|[]]];
        [exact (Hno _ F Hin)|discriminate].
  - assert (Hm : main (DeleteCmd tgs o) w = p)
      by (unfold main; rewrite Hrun; reflexivity).
    rewrite Hm in *. pose proof (main_coherent (DeleteCmd tgs o) w) as [_ Hec].
    rewrite Hm, Hrp in Hec.
    split; [|split; assumption].
    pose proof (delete_loop_deletions _ _ _ _ _ Hr2 Hl) as Hd.
    pose proof (delete_loop_count _ _ _ _ _ Hr2 Hl) as Hc.
    rewrite El, deletions_app in Hd. apply app_inv_head in Hd.
    rewrite Et in Hin |- *.
    assert (Hn : n = deletedCount st).
    { apply in_app_iff in Hin. destruct Hin as [Hin|Hin].
      - exfalso. rewrite Forall_forall in F2.
        destruct (F2 _ Hin) as [H|H]; exact H.
      - apply in_app_iff in Hin. destruct Hin as [Hin|[Hin|[]]].
        + exfalso. rewrite Forall_forall in Fl. exact (Fl _ Hin).
        + congruence. }
    rewrite Hn, Hc.
    rewrite !deletions_app, (deletions_fetch_stat _ F2), Hd.
    change (deletions [InfoDeletedCount (deletedCount st)]) with (@nil Z).
    rewrite app_nil_r. reflexivity.
Qed.

(** A witness for X3: Scenario A, three deletions. *)
Lemma deleted_count_is_exact_witness :
  3%nat = length (deletions (trace (main (DeleteCmd ["v1"] false) worldA)))
  /\ reason (main (DeleteCmd ["v1"] false) worldA) = None
  /\ exitCode (main (DeleteCmd ["v1"] false) worldA) = 0.
Proof.
  apply (deleted_count_is_exact ["v1"] false worldA 3).
  vm_compute. intuition.
Defined.

(** ** The deletion batch *)

Lemma announced_nil : announced [].
Proof. intros [|x t1] t2 i H; discriminate. Qed.

Lemma announced_cons :
  forall ev t, not_delete ev -> announced t -> announced (ev :: t).
Proof.
  intros ev t Hev Ht [|x t1] t2 i H; simpl in H; inversion H; subst.
  - destruct Hev.
  - destruct (Ht _ _ _ eq_refl) as (t0 & sd & b & ->).
    exists (x :: t0), sd, b. reflexivity.
Qed.

Lemma announced_pair_cons :
  forall i shortDg byTags t,
    announced t -> announced (InfoDeleting i shortDg byTags :: ApiDelete i :: t).
Proof.
  intros i sd b t Ht [|x [|y t1]] t2 j H; simpl in H; inversion H; subst.
  - exists [], sd, b. reflexivity.
  - destruct (Ht _ _ _ eq_refl) as (t0 & sd' & b' & ->).
    exists (InfoDeleting i sd b :: ApiDelete i :: t0), sd', b'. reflexivity.
Qed.

Lemma announced_app :
  forall a b, announced a -> announced b -> announced (a ++ b).
Proof.
  intros a b Ha Hb t1 t2 i H.
  apply app_eq_app in H. destruct H as (l & [[-> H]|[-> H]]).
  - destruct l as [|x l]; simpl in H.
    + destruct (Hb [] t2 i (eq_sym H)) as (t0 & sd & bt & H0).
      destruct t0; discriminate.
    + inversion H; subst. exact (Ha _ _ _ eq_refl).
  - destruct (Hb _ _ _ H) as (t0 & sd & bt & ->).
    exists (a ++ t0), sd, bt. rewrite app_assoc. reflexivity.
Qed.

Ltac announced_tac :=
  repeat first
    [ apply announced_nil
    | apply announced_pair_cons
    | apply announced_cons; [exact Logic.I|] ].

(** A visit announces the deletion request it makes. *)
Lemma visit_announced :
  forall api o e st r st',
    visit api o e st = (r, st') ->
    exists tl, trace (loproc st') = trace (loproc st) ++ tl /\ announced tl.
Proof.
  intros api o [d info] st r st' Hv.
  visit_cases; inversion Hv; subst; simpl;
    repeat rewrite <- app_assoc; simpl;
    try (exists []; split; [rewrite app_nil_r; reflexivity|announced_tac]);
    (eexists; split; [reflexivity|announced_tac]).
Qed.

Lemma loop_entries_announced :
  forall api o todo st r st',
    loop_entries api o todo st = (r, st') ->
    exists tl, trace (loproc st') = trace (loproc st) ++ tl /\ announced tl.
Proof.
  intros api o todo. induction todo as [|e todo IH]; intros st r st' Hl;
    simpl in Hl.
  - inversion Hl; subst. exists []. rewrite app_nil_r.
    split; [reflexivity|apply announced_nil].
  - destruct (visit api o e st) as [[x|] st1] eqn:Hv.
    + inversion Hl; subst. eapply visit_announced; eassumption.
    + destruct (visit_announced _ _ _ _ _ _ Hv) as (t1 & E1 & A1).
      destruct (IH _ _ _ Hl) as (t2 & E2 & A2).
      exists (t1 ++ t2). rewrite E2, E1, app_assoc.
      split; [reflexivity|apply announced_app; assumption].
Qed.

Lemma loop_rounds_announced :
  forall n api o todo st r st',
    loop_rounds n api o todo st = (r, st') ->
    exists tl, trace (loproc st') = trace (loproc st) ++ tl /\ announced tl.
Proof.
  induction n as [|n IH]; intros api o todo st r st' Hl; simpl in Hl.
  - inversion Hl; subst. exists []. rewrite app_nil_r.
    split; [reflexivity|apply announced_nil].
  - destruct (loop_entries api o todo st) as [[x|] st1] eqn:He.
    + inversion Hl; subst. eapply loop_entries_announced; eassumption.
    + destruct (loop_entries_announced _ _ _ _ _ _ He) as (t1 & E1 & A1).
      destruct (IH _ _ _ _ _ _ Hl) as (t2 & E2 & A2).
      exists (t1 ++ t2). rewrite E2, E1, app_assoc.
      split; [reflexivity|apply announced_app; assumption].
Qed.

(** The visit of an entry that has a digest and passes the consistency
    check returns, unless its deletion request fails. *)
Lemma visit_completes :
  forall api o e st,
    batch_ok api o e -> reason (loproc st) = None ->
    exists st', visit api o e st = (None, st').
Proof.
  intros api o [d info] st (Hk & Hc & Hapi) Hr.
  unfold consistent_entry, inconsistent_orphan in Hc. simpl in *.
  destruct d as [dg|]; [|congruence].
  unfold visit. rewrite Hc.
  destruct (pi_id info) as [i|] eqn:Hid.
  - destruct (belongsToTagsToDelete info || (o && isOrphan info)) eqn:Hel.
    + pose proof (Hapi i eq_refl eq_refl) as Ha.
      unfold deletePackageVersion, throwIfAborted.
      destruct (isOrphan info); simpl; rewrite Hr, Ha; eexists; reflexivity.
    + eexists; reflexivity.
  - destruct (pkgMap_get _ _). eexists. reflexivity.
Qed.

Lemma loop_entries_completes :
  forall api o todo st,
    Forall (batch_ok api o) todo -> reason (loproc st) = None ->
    exists st', loop_entries api o todo st = (None, st').
Proof.
  intros api o todo. induction todo as [|e todo IH]; intros st F Hr; simpl.
  - eexists. reflexivity.
  - inversion F; subst.
    destruct (visit_completes api o e st H1 Hr) as (st1 & Hv). rewrite Hv.
    apply IH; [assumption|].
    rewrite (proj1 (visit_frame _ _ _ _ _ _ Hv)). exact Hr.
Qed.

Lemma default_entry_batch_ok :
  forall api o ex, Forall default_entry ex -> Forall (batch_ok api o) ex.
Proof.
  intros api o ex F. eapply Forall_impl; [|exact F].
  intros a (k & ->). split; [discriminate|].
  split; [reflexivity|]. simpl. discriminate.
Qed.

Lemma loop_rounds_completes :
  forall n api o todo st,
    Forall (batch_ok api o) todo -> reason (loproc st) = None ->
    exists st', loop_rounds n api o todo st = (None, st').
Proof.
  induction n as [|n IH]; intros api o todo st F Hr; simpl.
  - eexists. reflexivity.
  - destruct (loop_entries_completes api o todo st F Hr) as (st1 & He).
    rewrite He.
    destruct (loop_entries_appends_default _ _ _ _ _ _ He) as (ex & E1 & F1).
    rewrite E1, skipn_appended.
    apply IH; [apply default_entry_batch_ok; exact F1|].
    rewrite (proj1 (loop_entries_frame _ _ _ _ _ _ He)). exact Hr.
Qed.

Lemma abort_logs_In :
  forall t e, In e (abort_logs t) -> In (LogAbortReason e) t.
Proof.
  intros t e Hin. unfold abort_logs in Hin. apply in_flat_map in Hin.
  destruct Hin as (ev & Hev & Hin).
  destruct ev; try destruct Hin as [<-|[]]; try destruct Hin. exact Hev.
Qed.

(** ** What reconciliation keeps of the graph *)

Lemma intersection_nonempty :
  forall (a b : list Tag),
    negb (Nat.eqb (JsSet.size (JsSet.intersection a (JsSet.of_list b))) 0)
    = true ->
    exists t, In t a /\ In t b.
Proof.
  intros a b H. unfold JsSet.size, JsSet.intersection in H.
  destruct (filter (fun x => JsSet.mem x (JsSet.of_list b)) a) as [|t l] eqn:Hf;
    [discriminate|].
  assert (Hin : In t (filter (fun x => JsSet.mem x (JsSet.of_list b)) a))
    by (rewrite Hf; left; reflexivity).
  apply filter_In in Hin. destruct Hin as [Ha Hm].
  exists t. split; [assumption|].
  unfold JsSet.mem in Hm.
  destruct (in_dec eq_dec t (JsSet.of_list b)) as [Hb|]; [|discriminate].
  apply (proj1 (of_list_In b t)). exact Hb.
Qed.

Lemma pkgMap_get_Forall :
  forall (P : option Digest * PkgInfo -> Prop) d g,
    Forall P g -> P (d, defaultPkgInfo) ->
    Forall P (snd (pkgMap_get d g)) /\ P (d, fst (pkgMap_get d g)).
Proof.
  intros P d g F Hd. unfold pkgMap_get, DefaultValueMap_get.
  destruct (JsMap.get d g) as [info|] eqn:Hg; simpl.
  - split; [assumption|].
    assert (Hin : In (d, info) g).
    { clear F. induction g as [|[k0 v0] g IH]; simpl in *; [discriminate|].
      destruct (eq_dec d k0) as [->|n]; [left; congruence|right; auto]. }
    rewrite Forall_forall in F. apply (F _ Hin).
  - split; [|assumption]. apply set_Forall; assumption.
Qed.

Lemma node_ok_default :
  forall tgs w d, node_ok tgs w (d, defaultPkgInfo).
Proof. intros tgs w d. repeat split; simpl; intros; discriminate. Qed.

Lemma find_cb_node_ok :
  forall tgs w pkg s s' ot,
    In pkg (ledger w) ->
    find_cb tgs pkg s = (None, s', ot) ->
    Forall (node_ok tgs w) (graph s) ->
    Forall (node_ok tgs w) (graph s')
    /\ (forall t, ot = Some t -> task_ok tgs w t).
Proof.
  intros tgs w pkg s s' ot Hin Hc F. unfold find_cb in Hc.
  destruct (negb (JsString.truthy (pv_name pkg))); [discriminate|].
  destruct (pkgMap_get_Forall (node_ok tgs w) (Some (pv_name pkg)) (graph s) F
              (node_ok_default _ _ _)) as [Fg (Hid & Hro & Hta)].
  destruct (pkgMap_get (Some (pv_name pkg)) (graph s)) as [info g1].
  simpl in Fg, Hid, Hro, Hta.
  destruct (filter JsString.truthy (pv_tags pkg)) as [|headTag tl] eqn:Hk;
    inversion Hc; subst; simpl.
  - split; [|intros t Ht; discriminate].
    apply set_Forall; [assumption|].
    repeat split; simpl; try assumption.
    intros i Hi. inversion Hi; subst. exists pkg. auto.
  - assert (Hidx : is_index pkg = true)
      by (unfold is_index, kept_tags; rewrite Hk; reflexivity).
    assert (Hhd : hd "" (kept_tags pkg) = headTag)
      by (unfold kept_tags; rewrite Hk; reflexivity).
    assert (Hself : listed_by w pkg (Some (pv_name pkg)))
      by (left; reflexivity).
    assert (Htag :
      negb (Nat.eqb
              (JsSet.size
                 (JsSet.intersection tgs (JsSet.of_list (headTag :: tl)))) 0)
      = true -> exists x, In x tgs /\ In x (kept_tags pkg)).
    { intros Hb. unfold kept_tags. rewrite Hk.
      apply intersection_nonempty. exact Hb. }
    split.
    + apply set_Forall; [assumption|].
      repeat split; simpl.
      * intros i Hi. inversion Hi; subst. exists pkg. auto.
      * intros _. exists pkg. auto.
      * intros Hb. exists pkg. repeat split; auto.
    + intros t Ht. inversion Ht; subst. simpl.
      exists pkg. repeat split; auto.
Qed.

Lemma find_task_node_ok :
  forall tgs w t s,
    task_ok tgs w t ->
    Forall (node_ok tgs w) (graph s) ->
    Forall (node_ok tgs w) (graph (find_task (registry w) t s)).
Proof.
  intros tgs w t s (q & Hq & Hqi & Htag & Hdg & Hbel) F. unfold find_task.
  pose proof (find_task_digests_spec t (registry w (dt_tag t)) (dproc s)) as Hds.
  destruct (find_task_digests t (registry w (dt_tag t)) (dproc s)) as [ds p1].
  simpl in *. subst ds.
  assert (Hsub : forall d, In d (response_digests (registry w (dt_tag t))) ->
                   listed_by w q d).
  { intros d Hd. right. rewrite <- Htag. exact Hd. }
  revert Hsub F. generalize (response_digests (registry w (dt_tag t))).
  generalize (graph s). intros g ds. revert g.
  induction ds as [|d ds IH]; intros g Hsub F; simpl; [assumption|].
  apply IH; [intros x Hx; apply Hsub; right; exact Hx|].
  unfold mark_digest.
  destruct (pkgMap_get_Forall (node_ok tgs w) d g F (node_ok_default _ _ _))
    as [Fg (Hid & _ & _)].
  destruct (pkgMap_get d g) as [info g1]. simpl in Fg, Hid.
  apply set_Forall; [assumption|].
  repeat split; simpl.
  - exact Hid.
  - intros _. exists q. repeat split; auto. apply Hsub. left. reflexivity.
  - intros Hb. exists q. repeat split; auto. apply Hsub. left. reflexivity.
Qed.

(** Every node of a reconciled graph satisfies [node_ok]. *)
Lemma reconciled_graph_node_ok :
  forall tgs w p g p',
    findOrphanOrTaggedPackageVersions tgs w p = (Returns g, p') ->
    Forall (node_ok tgs w) g.
Proof.
  intros tgs w p g p' Hf. unfold findOrphanOrTaggedPackageVersions in Hf.
  destruct (find_run tgs w p) as [r s] eqn:Hr.
  destruct r; [discriminate|].
  destruct (find_dropped tgs w p); [discriminate|].
  destruct (throwIfAborted (dproc s)); [discriminate|].
  inversion Hf; subst. unfold find_run in Hr.
  assert (Hfin : (forall x, In x [] -> In x (ledger w))
                 /\ Forall (node_ok tgs w) (graph s)).
  { apply (run_inv DState DTask (fun s => signal_aborted (dproc s))
             (find_cb tgs) (find_task (registry w))
             (fun todo s => (forall x, In x todo -> In x (ledger w))
                            /\ Forall (node_ok tgs w) (graph s))
             (fun _ => True) (task_ok tgs w)) with
      (sched := schedule w) (todo := ledger w)
      (s := dstate0 p) (r := None).
    - intros pkg rest s0 s0' ot [Hsub F] _ Hc.
      destruct (find_cb_node_ok tgs w pkg s0 s0' ot
                  (Hsub pkg (or_introl eq_refl)) Hc F) as [F' Ht].
      split; [split; [|exact F']|exact Ht].
      intros x Hx. apply Hsub. right. exact Hx.
    - intros. exact Logic.I.
    - intros todo t s0 Ht [Hsub F]. split; [exact Hsub|].
      apply find_task_node_ok; assumption.
    - intros. exact Logic.I.
    - intros todo s0 [_ F] _. split; [intros x []|exact F].
    - split; [auto|constructor].
    - exact Hr. }
  exact (proj2 Hfin).
Qed.

(** ** Every referenced digest ends up marked *)

Lemma mark_digest_marked :
  forall t g d k, marked g k -> marked (mark_digest t g d) k.
Proof.
  intros t g d k (info & Hg & Ho). unfold marked.
  rewrite mark_digest_get. destruct (eq_dec k d).
  - eexists. split; reflexivity.
  - exists info. auto.
Qed.

Lemma fold_mark_marked :
  forall t ds g k, marked g k -> marked (fold_left (mark_digest t) ds g) k.
Proof.
  intros t ds. induction ds as [|d ds IH]; intros g k Hm; simpl.
  - assumption.
  - apply IH. apply mark_digest_marked. assumption.
Qed.

Lemma find_task_marks :
  forall reg t s,
    (forall k, marked (graph s) k -> marked (graph (find_task reg t s)) k)
    /\ (forall d, In d (response_digests (reg (dt_tag t))) ->
          marked (graph (find_task reg t s)) d).
Proof.
  intros reg t s. unfold find_task.
  pose proof (find_task_digests_spec t (reg (dt_tag t)) (dproc s)) as Hds.
  destruct (find_task_digests t (reg (dt_tag t)) (dproc s)) as [ds p1].
  simpl in *. subst ds. split.
  - intros k Hm. apply fold_mark_marked. assumption.
  - intros d Hd.
    destruct (fold_mark_in t _ (graph s) d Hd) as (info & Hg & _ & Ho).
    exists info. auto.
Qed.

Lemma find_cb_marks :
  forall tgs pkg s s' ot,
    find_cb tgs pkg s = (None, s', ot) ->
    (forall k, marked (graph s) k -> marked (graph s') k)
    /\ (is_index pkg = true ->
          marked (graph s') (Some (pv_name pkg))
          /\ exists t, ot = Some t /\ dt_tag t = hd "" (kept_tags pkg)).
Proof.
  intros tgs pkg s s' ot Hc.
  destruct (find_cb_graph _ _ _ _ _ Hc)
    as (_ & Hother & info' & Hget & _ & Hidx & _).
  split.
  - intros k (info & Hg & Ho).
    destruct (eq_dec k (Some (pv_name pkg))) as [->|Hne].
    + exists info'. split; [exact Hget|].
      unfold find_cb in Hc.
      destruct (negb (JsString.truthy (pv_name pkg))); [discriminate|].
      pose proof (pkgMap_get_present _ _ _ Hg) as Hp.
      destruct (pkgMap_get (Some (pv_name pkg)) (graph s)) as [old g1].
      simpl in Hp. subst old.
      destruct (filter JsString.truthy (pv_tags pkg));
        inversion Hc; subst; simpl in Hget; rewrite get_set_same in Hget;
        inversion Hget; subst; simpl; [exact Ho|reflexivity].
    + exists info. split; [|exact Ho]. rewrite Hother; assumption.
  - intros Hi. destruct (Hidx Hi) as (_ & Ho & _ & t & Ht & Htag & _).
    split; [exists info'; auto|]. exists t. auto.
Qed.

Lemma resolved_inv_final :
  forall tgs w g p',
    findOrphanOrTaggedPackageVersions tgs w proc0 = (Returns g, p') ->
    forall k, referenced w k -> marked g k.
Proof.
  intros tgs w g p' Hf. unfold findOrphanOrTaggedPackageVersions in Hf.
  destruct (find_run tgs w proc0) as [r s] eqn:Hr.
  destruct r; [discriminate|].
  destruct (find_dropped tgs w proc0); [discriminate|].
  unfold throwIfAborted in Hf.
  destruct (reason (dproc s)) eqn:Hre; [discriminate|].
  inversion Hf; subst. unfold find_run in Hr.
  assert (Hfin : resolved_inv w [] [] s).
  { apply (run_pending DState DTask (fun s => signal_aborted (dproc s))
             (find_cb tgs) (find_task (registry w)) (resolved_inv w)) with
      (sched := schedule w) (todo := ledger w)
      (s := dstate0 proc0).
    - (* the callback *)
      intros pkg rest pending s0 s0' ot Hi Ha Hc.
      destruct Hi as [Hab|(done & Hl & Hdone)]; [congruence|].
      destruct (find_cb_marks _ _ _ _ _ Hc) as [Hmono Hidx].
      right. exists (done ++ [pkg]). split.
      + rewrite Hl, <- app_assoc. reflexivity.
      + intros q Hq Hqi. apply in_app_iff in Hq.
        destruct Hq as [Hq|[<-|[]]].
        * destruct (Hdone q Hq Hqi) as [Hm Hrest]. split; [auto|].
          destruct Hrest as [(t & Ht & Htag)|Hres].
          -- left. exists t. split; [apply in_or_app; left|]; assumption.
          -- right. intros d Hd. apply Hmono, Hres, Hd.
        * destruct (Hidx Hqi) as [Hm (t & -> & Htag)]. split; [exact Hm|].
          left. exists t. split; [|exact Htag].
          apply in_or_app. right. left. reflexivity.
    - (* a task resolves *)
      intros todo pending i t s0 Hi Hn.
      destruct Hi as [Hab|(done & Hl & Hdone)].
      + left. pose proof (find_task_step (registry w) t s0) as Hs.
        unfold signal_aborted in *.
        destruct (reason (dproc s0)) eqn:Hr0; [|discriminate].
        rewrite (fetch_step_reason _ _ Hs) by congruence. rewrite Hr0.
        reflexivity.
      + right. exists done. split; [exact Hl|].
        destruct (find_task_marks (registry w) t s0) as [Hmono Hnew].
        intros q Hq Hqi. destruct (Hdone q Hq Hqi) as [Hm Hrest].
        split; [auto|].
        destruct Hrest as [(t' & Ht' & Htag)|Hres].
        * destruct (remove_nth_keeps _ _ _ _ Hn Ht') as [->|Hin].
          -- right. intros d Hd. apply Hnew. rewrite Htag. exact Hd.
          -- left. exists t'. auto.
        * right. intros d Hd. apply Hmono, Hres, Hd.
    - intros todo pending s0 _ Ha. left. exact Ha.
    - intros todo pending pending' s0 _ Ha _. left. exact Ha.
    - right. exists []. split; [reflexivity|]. intros q [].
    - exact Hr. }
  destruct Hfin as [Hab|(done & Hl & Hdone)].
  - unfold signal_aborted in Hab. rewrite Hre in Hab. discriminate.
  - rewrite app_nil_r in Hl. subst done.
    intros k (q & Hq & Hqi & Hlist).
    destruct (Hdone q Hq Hqi) as [Hm [(t & [] & _)|Hres]].
    destruct Hlist as [->|Hd]; [exact Hm|apply Hres, Hd].
Qed.

(** ** The keys of the graph are distinct *)

Lemma set_keys_In :
  forall (m : PkgMap) k v k',
    In k' (map fst (JsMap.set k v m)) -> k' = k \/ In k' (map fst m).
Proof.
  induction m as [|[k0 v0] m IH]; intros k v k' Hin; simpl in *.
  - destruct Hin as [<-|[]]. left; reflexivity.
  - destruct (eq_dec k k0) as [->|n]; simpl in Hin.
    + destruct Hin as [<-|Hin]; auto.
    + destruct Hin as [<-|Hin]; [auto|].
      destruct (IH _ _ _ Hin); auto.
Qed.

Lemma set_keys_NoDup :
  forall (m : PkgMap) k v,
    NoDup (map fst m) -> NoDup (map fst (JsMap.set k v m)).
Proof.
  induction m as [|[k0 v0] m IH]; intros k v Hnd; simpl in *.
  - constructor; [intros []|constructor].
  - inversion Hnd as [|? ? Hnin Hnd']; subst.
    destruct (eq_dec k k0) as [->|n]; simpl.
    + constructor; assumption.
    + constructor; [|apply IH; assumption].
      intros Hin. destruct (set_keys_In _ _ _ _ Hin) as [->|Hin'];
        [congruence|contradiction].
Qed.

Lemma pkgMap_get_keys_NoDup :
  forall d (g : PkgMap),
    NoDup (map fst g) -> NoDup (map fst (snd (pkgMap_get d g))).
Proof.
  intros d g Hnd. unfold pkgMap_get, DefaultValueMap_get.
  destruct (JsMap.get d g); simpl; [assumption|].
  apply set_keys_NoDup. assumption.
Qed.

Lemma get_of_In :
  forall (m : PkgMap) k v,
    NoDup (map fst m) -> In (k, v) m -> JsMap.get k m = Some v.
Proof.
  induction m as [|[k0 v0] m IH]; intros k v Hnd Hin; simpl in *.
  - destruct Hin.
  - inversion Hnd as [|? ? Hnin Hnd']; subst.
    destruct Hin as [Heq|Hin].
    + inversion Heq; subst. destruct (eq_dec k k); congruence.
    + destruct (eq_dec k k0) as [->|n]; [|apply IH; assumption].
      exfalso. apply Hnin. apply (in_map fst) in Hin. exact Hin.
Qed.

Lemma reconciled_graph_keys :
  forall tgs w p g p',
    findOrphanOrTaggedPackageVersions tgs w p = (Returns g, p') ->
    NoDup (map fst g).
Proof.
  intros tgs w p g p' Hf. unfold findOrphanOrTaggedPackageVersions in Hf.
  destruct (find_run tgs w p) as [r s] eqn:Hr.
  destruct r; [discriminate|].
  destruct (find_dropped tgs w p); [discriminate|].
  destruct (throwIfAborted (dproc s)); [discriminate|].
  inversion Hf; subst. unfold find_run in Hr.
  apply (run_inv DState DTask (fun s => signal_aborted (dproc s))
           (find_cb tgs) (find_task (registry w))
           (fun _ s => NoDup (map fst (graph s))) (fun _ => True)
           (fun _ => True)) with
    (sched := schedule w) (todo := ledger w)
    (s := dstate0 p) (r := None).
  - intros pkg rest s0 s0' ot Hi _ Hc. split; [|auto].
    unfold find_cb in Hc.
    destruct (negb (JsString.truthy (pv_name pkg))); [discriminate|].
    pose proof (pkgMap_get_keys_NoDup (Some (pv_name pkg)) (graph s0) Hi) as Hg.
    destruct (pkgMap_get (Some (pv_name pkg)) (graph s0)) as [info g1].
    simpl in Hg.
    destruct (filter JsString.truthy (pv_tags pkg)); inversion Hc; subst;
      simpl; apply set_keys_NoDup; assumption.
  - intros. exact Logic.I.
  - intros todo t s0 _ Hi. unfold find_task.
    destruct (find_task_digests t (registry w (dt_tag t)) (dproc s0))
      as [ds p1]. simpl. revert Hi. generalize (graph s0).
    induction ds as [|d ds IH]; intros g Hg; simpl; [assumption|].
    apply IH. unfold mark_digest.
    pose proof (pkgMap_get_keys_NoDup d g Hg) as Hg1.
    destruct (pkgMap_get d g) as [info g1]. simpl in Hg1.
    apply set_keys_NoDup. assumption.
  - intros. exact Logic.I.
  - intros todo s0 Hi _. exact Hi.
  - constructor.
  - exact Hr.
Qed.

(** X4. When reconciliation returns the graph, its keys are distinct and
    a node is marked non-orphan exactly when its digest is referenced: it
    is the digest of a ledger record with a non-empty tag, or the manifest
    served for the first such tag of such a record lists it. *)
Theorem orphan_classification_exact :
  forall (tgs : list Tag) (w : World) (g : PkgMap) (p' : Proc),
    findOrphanOrTaggedPackageVersions tgs w proc0 = (Returns g, p') ->
    NoDup (map fst g)
    /\ forall (k : option Digest) (info : PkgInfo),
         In (k, info) g -> (isOrphan info = false <-> referenced w k).
Proof.
  intros tgs w g p' Hf.
  pose proof (reconciled_graph_keys _ _ _ _ _ Hf) as Hnd.
  split; [exact Hnd|]. intros k info Hin. split.
  - intros Ho. pose proof (reconciled_graph_node_ok _ _ _ _ _ Hf) as F.
    rewrite Forall_forall in F. destruct (F _ Hin) as (_ & Href & _).
    apply Href. exact Ho.
  - intros Href.
    destruct (resolved_inv_final _ _ _ _ Hf k Href) as (info' & Hg & Ho).
    rewrite (get_of_In _ _ _ Hnd Hin) in Hg. inversion Hg; subst. exact Ho.
Qed.

(** A witness for X4: the graph of Scenario A. *)
Lemma orphan_classification_exact_witness :
  NoDup (map fst (graph (snd (find_run [] worldA proc0))))
  /\ forall (k : option Digest) (info : PkgInfo),
       In (k, info) (graph (snd (find_run [] worldA proc0))) ->
       (isOrphan info = false <-> referenced worldA k).
Proof.
  apply (orphan_classification_exact [] worldA
           (graph (snd (find_run [] worldA proc0)))
           (dproc (snd (find_run [] worldA proc0)))).
  vm_compute. reflexivity.
Defined.

(** ** Which package versions are deleted *)

Lemma visit_deletions_from :
  forall api o e st r st',
    visit api o e st = (r, st') ->
    exists ds,
      deletions (trace (loproc st')) = deletions (trace (loproc st)) ++ ds
      /\ forall i, In i ds ->
           pi_id (snd e) = Some i /\ eligible o (snd e) = true.
Proof.
  intros api o [d info] st r st' Hv. unfold eligible. simpl.
  assert (Hnone : forall p : Proc, exists ds : list Z,
             deletions (trace p) = deletions (trace p) ++ ds
             /\ forall i, In i ds ->
                  pi_id info = Some i
                  /\ belongsToTagsToDelete info || (o && isOrphan info) = true).
  { intros p. exists []. rewrite app_nil_r. split; [reflexivity|intros i []]. }
  visit_cases; inversion Hv; subst; simpl;
    repeat rewrite deletions_app; simpl; repeat rewrite app_nil_r;
    try apply Hnone.
  all: exists [z]; split;
         [unfold deletions; simpl; rewrite ?app_nil_r; reflexivity
         |intros i [<-|[]]; split; [reflexivity|];
          repeat match goal with
                 | H : isOrphan _ = _ |- _ => rewrite H
                 end; first [assumption|reflexivity]].
Qed.

Lemma loop_entries_deletions_from :
  forall api o todo st r st',
    loop_entries api o todo st = (r, st') ->
    exists ds,
      deletions (trace (loproc st')) = deletions (trace (loproc st)) ++ ds
      /\ forall i, In i ds ->
           exists e, In e todo /\ pi_id (snd e) = Some i
                     /\ eligible o (snd e) = true.
Proof.
  intros api o todo. induction todo as [|e todo IH]; intros st r st' Hl;
    simpl in Hl.
  - inversion Hl; subst. exists []. rewrite app_nil_r.
    split; [reflexivity|intros i []].
  - destruct (visit api o e st) as [[x|] st1] eqn:Hv.
    + inversion Hl; subst.
      destruct (visit_deletions_from _ _ _ _ _ _ Hv) as (ds & Hd & Hds).
      exists ds. split; [exact Hd|]. intros i Hi. exists e.
      destruct (Hds i Hi). simpl. auto.
    + destruct (visit_deletions_from _ _ _ _ _ _ Hv) as (ds1 & Hd1 & Hds1).
      destruct (IH _ _ _ Hl) as (ds2 & Hd2 & Hds2).
      exists (ds1 ++ ds2). split; [rewrite Hd2, Hd1, app_assoc; reflexivity|].
      intros i Hi. apply in_app_iff in Hi. destruct Hi as [Hi|Hi].
      * exists e. destruct (Hds1 i Hi). simpl. auto.
      * destruct (Hds2 i Hi) as (e' & He' & H'). exists e'. simpl. auto.
Qed.

Lemma loop_rounds_deletions_from :
  forall n api o todo st r st',
    loop_rounds n api o todo st = (r, st') ->
    exists ds,
      deletions (trace (loproc st')) = deletions (trace (loproc st)) ++ ds
      /\ forall i, In i ds ->
           exists e, In e todo /\ pi_id (snd e) = Some i
                     /\ eligible o (snd e) = true.
Proof.
  induction n as [|n IH]; intros api o todo st r st' Hl; simpl in Hl.
  - inversion Hl; subst. exists []. rewrite app_nil_r.
    split; [reflexivity|intros i []].
  - destruct (loop_entries api o todo st) as [[x|] st1] eqn:He.
    + inversion Hl; subst. eapply loop_entries_deletions_from; eassumption.
    + destruct (loop_entries_deletions_from _ _ _ _ _ _ He)
        as (ds1 & Hd1 & Hds1).
      destruct (loop_entries_frame _ _ _ _ _ _ He) as [_ (ex & E1 & F1)].
      rewrite E1, skipn_appended in Hl.
      destruct (IH _ _ _ _ _ _ Hl) as (ds2 & Hd2 & Hds2).
      exists (ds1 ++ ds2). split; [rewrite Hd2, Hd1, app_assoc; reflexivity|].
      intros i Hi. apply in_app_iff in Hi. destruct Hi as [Hi|Hi].
      * apply Hds1. exact Hi.
      * exfalso. destruct (Hds2 i Hi) as (e & Hin & Hid & _).
        rewrite Forall_forall in F1. rewrite (F1 _ Hin) in Hid. discriminate.
Qed.

Lemma main_deletions :
  forall cmd w r p,
    runCmd cmd w proc0 = (r, p) ->
    deletions (trace (main cmd w)) = deletions (trace p).
Proof.
  intros cmd w r p Hr.
  destruct (main_appends not_delete _ _ _ _ (fun _ => Logic.I) Hr)
    as (t & Et & Ft).
  rewrite Et, deletions_app, (deletions_none _ Ft). apply app_nil_r.
Qed.

(** Every deletion request of a delete command is for the id of a node of
    the reconciled graph that satisfies the deletion predicate. *)
Lemma deleted_ids_from_graph :
  forall tgs o w i,
    In i (deletions (trace (main (DeleteCmd tgs o) w))) ->
    exists g p1 k info,
      findOrphanOrTaggedPackageVersions tgs w proc0 = (Returns g, p1)
      /\ In (k, info) g
      /\ pi_id info = Some i
      /\ eligible o info = true.
Proof.
  intros tgs o w i Hin.
  destruct (runCmd (DeleteCmd tgs o) w proc0) as [r p] eqn:Hr.
  rewrite (main_deletions _ _ _ _ Hr) in Hin. simpl in Hr.
  destruct (delete_cmd_structure _ _ _ _ _ _ Hr)
    as [(_ & Ha & _)|(g & p1 & p2 & rl & st & Hf & Hr1 & Hs & Ha & Hl & -> & ->)].
  - exfalso.
    rewrite (deletions_none _ (appends_from_proc0 _ _ Ha)) in Hin.
    destruct Hin.
  - exists g, p1. unfold delete_loop in Hl.
    destruct (loop_rounds_deletions_from _ _ _ _ _ _ _ Hl) as (ds & Hd & Hds).
    simpl in Hd.
    rewrite (deletions_none _ (appends_from_proc0 _ _ Ha)) in Hd. simpl in Hd.
    assert (Hin' : In i ds).
    { destruct rl; simpl in Hin; [rewrite Hd in Hin; exact Hin|].
      rewrite deletions_app, Hd in Hin.
      change (deletions [InfoDeletedCount (deletedCount st)]) with (@nil Z)
        in Hin.
      rewrite app_nil_r in Hin. exact Hin. }
    destruct (Hds i Hin') as ([k info] & He & Hid & Hel).
    exists k, info. auto.
Qed.

(** X5. Every deletion request of a delete command is for the id of a
    ledger record whose digest is referenced through one of the requested
    tags (it is the digest of an index carrying such a tag or is listed in
    the manifest of one), or, with [deleteOrphans], whose digest is not
    referenced at all.  Without [deleteOrphans], when no requested tag is
    a tag of a ledger record, nothing is deleted. *)
Theorem deletion_scope :
  (forall (tgs : list Tag) (deleteOrphans : bool) (w : World) (i : Z),
      In i (deletions (trace (main (DeleteCmd tgs deleteOrphans) w))) ->
      exists pkg : PackageVersion,
        In pkg (ledger w) /\ pv_id pkg = i
        /\ (tagged_ref tgs w (Some (pv_name pkg))
            \/ deleteOrphans = true
               /\ ~ referenced w (Some (pv_name pkg))))
  /\ (forall (tgs : list Tag) (w : World),
        (forall q t, In q (ledger w) -> In t tgs -> ~ In t (kept_tags q)) ->
        deletions (trace (main (DeleteCmd tgs false) w)) = []).
Proof.
  assert (Hscope : forall tgs o w i,
    In i (deletions (trace (main (DeleteCmd tgs o) w))) ->
    exists pkg : PackageVersion,
      In pkg (ledger w) /\ pv_id pkg = i
      /\ (tagged_ref tgs w (Some (pv_name pkg))
          \/ o = true /\ ~ referenced w (Some (pv_name pkg)))).
  { intros tgs o w i Hin.
    destruct (deleted_ids_from_graph _ _ _ _ Hin)
      as (g & p1 & k & info & Hf & He & Hid & Hel).
    pose proof (reconciled_graph_node_ok _ _ _ _ _ Hf) as F.
    rewrite Forall_forall in F. destruct (F _ He) as (Hpid & _ & Htag).
    simpl in Hpid, Htag.
    destruct (Hpid i Hid) as (pkg & Hpkg & Hi & ->).
    exists pkg. split; [exact Hpkg|]. split; [exact Hi|].
    unfold eligible in Hel. apply orb_true_iff in Hel.
    destruct Hel as [Hb|Ho]; [left; apply Htag; exact Hb|].
    apply andb_true_iff in Ho. destruct Ho as [-> Ho]. right.
    split; [reflexivity|]. intros Href.
    pose proof (reconciled_graph_keys _ _ _ _ _ Hf) as Hnd.
    destruct (resolved_inv_final _ _ _ _ Hf _ Href) as (info' & Hg & Ho').
    rewrite (get_of_In _ _ _ Hnd He) in Hg. inversion Hg; subst. congruence. }
  split; [exact Hscope|].
  intros tgs w Hno.
  destruct (deletions (trace (main (DeleteCmd tgs false) w))) as [|i l] eqn:Hd;
    [reflexivity|].
  exfalso.
  destruct (Hscope tgs false w i) as (pkg & _ & _ & [Ht|[Hf _]]).
  - rewrite Hd. left. reflexivity.
  - destruct Ht as (q & Hq & _ & (t & Ht & Hk) & _). exact (Hno q t Hq Ht Hk).
  - discriminate.
Qed.

(** A witness for X5: in Scenario A the request for id 12 is for [D2],
    listed by the index tagged [v1]; and deleting an unknown tag deletes
    nothing. *)
Lemma deletion_scope_witness :
  (exists pkg : PackageVersion,
      In pkg (ledger worldA) /\ pv_id pkg = 12
      /\ (tagged_ref ["v1"] worldA (Some (pv_name pkg))
          \/ false = true /\ ~ referenced worldA (Some (pv_name pkg))))
  /\ deletions (trace (main (DeleteCmd ["v9"] false) worldA)) = [].
Proof.
  destruct deletion_scope as [H1 H2]. split.
  - apply (H1 ["v1"] false worldA 12). vm_compute. auto.
  - apply (H2 ["v9"] worldA).
    intros q t Hq [<-|[]] Hk. simpl in Hq.
    destruct Hq as [<-|[<-|[<-|[<-|[]]]]]; vm_compute in Hk;
      repeat (destruct Hk as [Hk|Hk]; [discriminate|]); exact Hk.
Defined.

(** ** Why a run fails *)

Lemma caused_none : forall w p, reason p = None -> caused w p.
Proof. intros w p Hr e He. congruence. Qed.

Lemma caused_abort :
  forall w e p, cause w e -> caused w p -> caused w (controller_abort e p).
Proof.
  intros w e p He Hp x Hx. unfold controller_abort in Hx.
  destruct (reason p) eqn:Hr.
  - apply Hp. congruence.
  - simpl in Hx. inversion Hx; subst. exact He.
Qed.

Lemma caused_emits :
  forall w Q p p', emits Q p p' -> caused w p -> caused w p'.
Proof.
  intros w Q p p' He Hp x Hx. apply Hp.
  rewrite <- (emits_reason _ _ _ He). exact Hx.
Qed.

Lemma getDigests_caused :
  forall w tag p r p',
    getDigestsFromManifestIndex true false tag (registry w tag) p = (r, p') ->
    caused w p -> caused w p'.
Proof.
  intros w tag p r p' Hg Hp. unfold getDigestsFromManifestIndex in Hg.
  destruct (registry w tag) as [st|ms] eqn:Hreg.
  - inversion Hg; subst. apply caused_abort; [exact Hreg|].
    intros x Hx. apply Hp. exact Hx.
  - destruct ms as [|m ms]; simpl in Hg; inversion Hg; subst.
    + apply caused_abort; [exact Hreg|]. intros x Hx. apply Hp. exact Hx.
    + exact Hp.
Qed.

Lemma find_cb_caused :
  forall tgs w pkg s r s' ot,
    In pkg (ledger w) ->
    find_cb tgs pkg s = (r, s', ot) ->
    caused w (dproc s) ->
    caused w (dproc s') /\ (r <> None -> reason (dproc s') <> None).
Proof.
  intros tgs w pkg s r s' ot Hin Hc Hp. unfold find_cb in Hc.
  destruct (negb (JsString.truthy (pv_name pkg))) eqn:Hn.
  - inversion Hc; subst. simpl. split.
    + apply caused_abort; [|exact Hp]. exists pkg. repeat split; auto.
      apply negb_true_iff. exact Hn.
    + intros _. unfold controller_abort.
      destruct (reason (dproc s)) eqn:Hr; simpl; congruence.
  - destruct (pkgMap_get _ _) as [info g1].
    destruct (filter _ _); inversion Hc; subst; simpl; split; auto;
      intros H; congruence.
Qed.

Lemma find_task_caused :
  forall w t s,
    caused w (dproc s) -> caused w (dproc (find_task (registry w) t s)).
Proof.
  intros w t s Hp. unfold find_task, find_task_digests.
  destruct (getDigestsFromManifestIndex _ _ _ _ _) as [r p1] eqn:Hg.
  simpl. eapply getDigests_caused; eassumption.
Qed.

Lemma list_task_caused :
  forall w t s,
    caused w (lproc s) -> caused w (lproc (list_task (registry w) t s)).
Proof.
  intros w t s Hp. unfold list_task, list_task_digests.
  destruct (getDigestsFromManifestIndex _ _ _ _ _) as [r p1] eqn:Hg.
  simpl. eapply getDigests_caused; eassumption.
Qed.

Lemma find_cb_key_ok :
  forall tgs w pkg s r s' ot,
    find_cb tgs pkg s = (r, s', ot) ->
    Forall (key_ok w) (graph s) -> Forall (key_ok w) (graph s').
Proof.
  intros tgs w pkg s r s' ot Hc F. unfold find_cb in Hc.
  destruct (negb (JsString.truthy (pv_name pkg)));
    [inversion Hc; subst; exact F|].
  assert (Hk : forall v, key_ok w (Some (pv_name pkg), v))
    by (intros v H; discriminate).
  destruct (pkgMap_get_Forall (key_ok w) (Some (pv_name pkg)) (graph s) F
              (Hk _)) as [Fg _].
  destruct (pkgMap_get (Some (pv_name pkg)) (graph s)) as [info g1].
  simpl in Fg.
  destruct (filter JsString.truthy (pv_tags pkg)); inversion Hc; subst; simpl;
    apply set_Forall; auto.
Qed.

Lemma find_task_key_ok :
  forall tgs w t s,
    task_ok tgs w t ->
    Forall (key_ok w) (graph s) ->
    Forall (key_ok w) (graph (find_task (registry w) t s)).
Proof.
  intros tgs w t s (q & Hq & Hqi & Htag & _) F. unfold find_task.
  pose proof (find_task_digests_spec t (registry w (dt_tag t)) (dproc s)) as Hds.
  destruct (find_task_digests t (registry w (dt_tag t)) (dproc s)) as [ds p1].
  simpl in *. subst ds.
  assert (Hsub : forall d, In d (response_digests (registry w (dt_tag t))) ->
                   referenced w d).
  { intros d Hd. exists q. repeat split; auto. right. rewrite <- Htag.
    exact Hd. }
  revert Hsub F. generalize (response_digests (registry w (dt_tag t))).
  generalize (graph s). intros g ds. revert g.
  induction ds as [|d ds IH]; intros g Hsub F; simpl; [assumption|].
  apply IH; [intros x Hx; apply Hsub; right; exact Hx|].
  assert (Hk : forall v, key_ok w (d, v)).
  { intros v H. simpl in H. subst d. apply Hsub. left. reflexivity. }
  unfold mark_digest.
  destruct (pkgMap_get_Forall (key_ok w) d g F (Hk _)) as [Fg _].
  destruct (pkgMap_get d g) as [info g1]. simpl in Fg.
  apply set_Forall; auto.
Qed.

(** The fetch phase stores only reasons that have a cause; when it throws
    the run is aborted; the graph it returns has a node without a digest
    only if a manifest has such an entry. *)
Lemma find_caused :
  forall tgs w p r p1,
    findOrphanOrTaggedPackageVersions tgs w p = (r, p1) ->
    caused w p ->
    caused w p1
    /\ match r with
       | Returns g => Forall (key_ok w) g
       | Throws _ | NeverSettles => reason p1 <> None
       end.
Proof.
  intros tgs w p r p1 Hf Hp. unfold findOrphanOrTaggedPackageVersions in Hf.
  destruct (find_run tgs w p) as [x s] eqn:Hr. pose proof Hr as Hr0.
  unfold find_run in Hr.
  assert (Hfin :
    match x with
    | None => (forall y, In y [] -> In y (ledger w))
              /\ caused w (dproc s)
              /\ Forall (key_ok w) (graph s)
              /\ Forall (node_ok tgs w) (graph s)
    | Some _ => caused w (dproc s) /\ reason (dproc s) <> None
    end).
  { apply (run_inv DState DTask (fun s => signal_aborted (dproc s))
             (find_cb tgs) (find_task (registry w))
             (fun todo s => (forall y, In y todo -> In y (ledger w))
                            /\ caused w (dproc s)
                            /\ Forall (key_ok w) (graph s)
                            /\ Forall (node_ok tgs w) (graph s))
             (fun s => caused w (dproc s) /\ reason (dproc s) <> None)
             (task_ok tgs w)) with
      (sched := schedule w) (todo := ledger w)
      (s := dstate0 p).
    - intros pkg rest s0 s0' ot (Hsub & Hc0 & Fk & Fn) _ Hc.
      destruct (find_cb_caused tgs w pkg s0 None s0' ot
                  (Hsub pkg (or_introl eq_refl)) Hc Hc0) as [Hc1 _].
      destruct (find_cb_node_ok tgs w pkg s0 s0' ot
                  (Hsub pkg (or_introl eq_refl)) Hc Fn) as [Fn' Ht].
      split; [|exact Ht].
      split; [intros y Hy; apply Hsub; right; exact Hy|].
      split; [exact Hc1|].
      split; [eapply find_cb_key_ok; eassumption|exact Fn'].
    - intros pkg rest s0 e s0' ot (Hsub & Hc0 & _) _ Hc.
      destruct (find_cb_caused tgs w pkg s0 (Some e) s0' ot
                  (Hsub pkg (or_introl eq_refl)) Hc Hc0) as [H1 H2].
      split; [exact H1|apply H2; discriminate].
    - intros todo t s0 Ht (Hsub & Hc0 & Fk & Fn).
      split; [exact Hsub|].
      split; [apply find_task_caused; exact Hc0|].
      split; [eapply find_task_key_ok; eassumption|].
      apply find_task_node_ok; assumption.
    - intros t s0 Ht [Hc0 Hre]. split; [apply find_task_caused; exact Hc0|].
      rewrite (fetch_step_reason _ _ (find_task_step (registry w) t s0) Hre).
      exact Hre.
    - intros todo s0 (_ & H) _. split; [intros y []|exact H].
    - split; [auto|]. split; [exact Hp|]. split; constructor.
    - exact Hr. }
  destruct x as [e|].
  - inversion Hf; subst. exact Hfin.
  - destruct Hfin as (_ & Hc & F & _).
    destruct (find_dropped tgs w p) eqn:Hdr.
    + inversion Hf; subst. split; [exact Hc|].
      eapply find_dropped_aborted; eassumption.
    + unfold throwIfAborted in Hf.
      destruct (reason (dproc s)) eqn:Hre; inversion Hf; subst.
      * split; [exact Hc|congruence].
      * split; [exact Hc|exact F].
Qed.

(** The report's consistency check never fires on a reconciled graph. *)
Lemma stats_never_throw :
  forall tgs w g p r p',
    Forall (node_ok tgs w) g ->
    logRegistryStats tgs g p = (r, p') -> r = None.
Proof.
  intros tgs w g p r p' F Hs. unfold logRegistryStats in Hs.
  destruct (Nat.eqb (JsSet.size tgs) 0
            && negb (Nat.eqb (tagToBeDeletedDigestCount g) 0)) eqn:Hb.
  - exfalso. apply andb_true_iff in Hb. destruct Hb as [Ht Hn].
    apply Nat.eqb_eq in Ht. unfold JsSet.size in Ht.
    destruct tgs; [|discriminate].
    apply negb_true_iff in Hn. apply Nat.eqb_neq in Hn. apply Hn.
    unfold tagToBeDeletedDigestCount, count_if.
    clear Hn Hs. induction F as [|e g He F IH]; [reflexivity|]. simpl.
    destruct (belongsToTagsToDelete (snd e)) eqn:Hbel; [|exact IH].
    destruct He as (_ & _ & Htag).
    destruct (Htag Hbel) as (q & _ & _ & (t & [] & _) & _).
  - destruct (_ || _); inversion Hs; reflexivity.
Qed.

(** What the loop throws. *)
Lemma visit_thrown :
  forall api o e st x st',
    visit api o e st = (Some x, st') ->
    reason (loproc st) = None ->
    consistent_entry e ->
    (x = TypeErrorUndefined /\ fst e = None)
    \/ exists i, x = DeleteRequestError i /\ api i = false.
Proof.
  intros api o [d info] st x st' Hv Hr Hc.
  unfold consistent_entry, inconsistent_orphan in Hc. simpl in Hc.
  visit_cases; inversion Hv; subst; simpl in *;
    try discriminate; try congruence;
    try (left; split; reflexivity);
    try (right; eexists; split; [reflexivity|assumption]).
Qed.

Lemma loop_entries_thrown :
  forall api o todo st x st',
    loop_entries api o todo st = (Some x, st') ->
    reason (loproc st) = None ->
    Forall consistent_entry todo ->
    (x = TypeErrorUndefined /\ exists info, In (None, info) todo)
    \/ exists i, x = DeleteRequestError i /\ api i = false.
Proof.
  intros api o todo. induction todo as [|e todo IH]; intros st x st' Hl Hr F;
    simpl in Hl; [discriminate|].
  inversion F; subst.
  destruct (visit api o e st) as [[y|] st1] eqn:Hv.
  - inversion Hl; subst.
    destruct (visit_thrown _ _ _ _ _ _ Hv Hr H1) as [[-> Hk]|Hd];
      [left|right; exact Hd].
    split; [reflexivity|]. destruct e as [k info]. simpl in Hk. subst k.
    exists info. left. reflexivity.
  - destruct (visit_frame _ _ _ _ _ _ Hv) as [Hr1 _].
    destruct (IH _ _ _ Hl (eq_trans Hr1 Hr) H2)
      as [[-> (info & Hin)]|Hd]; [left|right; exact Hd].
    split; [reflexivity|]. exists info. right. exact Hin.
Qed.

Lemma default_entry_consistent :
  forall ex, Forall default_entry ex -> Forall consistent_entry ex.
Proof.
  intros ex F. eapply Forall_impl; [|exact F].
  intros a (k & ->). reflexivity.
Qed.

Lemma loop_rounds_thrown :
  forall n api o todo st x st',
    loop_rounds n api o todo st = (Some x, st') ->
    reason (loproc st) = None ->
    Forall consistent_entry todo ->
    (x = TypeErrorUndefined /\ exists info, In (None, info) todo)
    \/ exists i, x = DeleteRequestError i /\ api i = false.
Proof.
  induction n as [|n IH]; intros api o todo st x st' Hl Hr F; simpl in Hl;
    [discriminate|].
  destruct (loop_entries api o todo st) as [[y|] st1] eqn:He.
  - inversion Hl; subst. eapply loop_entries_thrown; eassumption.
  - destruct (loop_entries_frame _ _ _ _ _ _ He) as [Hr1 _].
    destruct (loop_entries_appends_default _ _ _ _ _ _ He) as (ex & E1 & F1).
    rewrite E1, skipn_appended in Hl.
    destruct (IH _ _ _ _ _ _ Hl (eq_trans Hr1 Hr)
                (default_entry_consistent _ F1))
      as [[_ (info & Hin)]|Hd]; [exfalso|right; exact Hd].
    rewrite Forall_forall in F1. destruct (F1 _ Hin) as (k & Hk).
    discriminate.
Qed.

(** A delete or report command stores only reasons that have a cause and,
    when nothing had aborted, throws only errors that have one. *)
Lemma delete_cmd_caused :
  forall tgs o w r p,
    deletePackageVersions tgs o w proc0 = (r, p) ->
    caused w p /\ (forall e, r = Throws e -> reason p = None -> cause w e).
Proof.
  intros tgs o w r p Hd. unfold deletePackageVersions in Hd.
  destruct (findOrphanOrTaggedPackageVersions tgs w proc0)
    as [[g|e|] p1] eqn:Hf.
  2, 3: destruct (find_caused _ _ _ _ _ Hf (caused_none w proc0 eq_refl))
      as [Hc Hne];
    inversion Hd; subst; (split; [exact Hc|]); intros e0 _ Hn;
    contradiction.
  - destruct (find_caused _ _ _ _ _ Hf (caused_none w proc0 eq_refl))
      as [_ Fk].
    pose proof (reconciled_graph_node_ok _ _ _ _ _ Hf) as Fn.
    pose proof (reconciled_graph_consistent _ _ _ _ _ Hf) as Fc.
    assert (Hr1 : reason p1 = None).
    { unfold findOrphanOrTaggedPackageVersions in Hf.
      destruct (find_run tgs w proc0) as [y s]. destruct y; [discriminate|].
      destruct (find_dropped tgs w proc0); [discriminate|].
      unfold throwIfAborted in Hf.
      destruct (reason (dproc s)) eqn:Hrs; inversion Hf; subst. exact Hrs. }
    destruct (logRegistryStats tgs g p1) as [[e|] p2] eqn:Hs.
    + pose proof (stats_never_throw _ _ _ _ _ _ Fn Hs). discriminate.
    + pose proof (logRegistryStats_emits _ _ _ _ _ Hs) as He.
      assert (Hr2 : reason p2 = None)
        by (rewrite (emits_reason _ _ _ He); exact Hr1).
      destruct (delete_loop (deleteApi w) o g p2) as [[x|] st] eqn:Hl;
        inversion Hd; subst; unfold delete_loop in Hl;
        pose proof (loop_rounds_emits _ _ _ _ _ _ _ Hl) as Hle;
        simpl in Hle; pose proof (emits_reason _ _ _ Hle) as Hr3;
        rewrite Hr2 in Hr3.
      * split; [apply caused_none; exact Hr3|].
        intros e0 He0 _. inversion He0; subst.
        destruct (loop_rounds_thrown _ _ _ _ _ _ _ Hl Hr2 Fc)
          as [[-> (info & Hin)]|(i & -> & Hi)]; [|exact Hi].
        rewrite Forall_forall in Fk.
        destruct (Fk _ Hin eq_refl) as (q & Hq & Hqi & [Hx|Hx]);
          [discriminate|].
        exists q. auto.
      * split; [apply caused_none; exact Hr3|intros; discriminate].
Qed.

(** A list command never throws and stores only reasons that have a
    cause. *)
Lemma list_cmd_caused :
  forall tgs w r p,
    printPackageVersionsForImageTags tgs w proc0 = (r, p) ->
    caused w p /\ (forall e, r <> Throws e).
Proof.
  intros tgs w r p Hp. unfold printPackageVersionsForImageTags in Hp.
  unfold getPackageVersionsByImageTag in Hp.
  destruct (list_run w proc0) as [x s] eqn:Hr. unfold list_run in Hr.
  assert (Hfin : match x with
                 | None => caused w (lproc s)
                 | Some _ => False
                 end).
  { eapply (run_inv LState LTask (fun s => signal_aborted (lproc s))
              list_cb (list_task (registry w))
              (fun _ s => caused w (lproc s)) (fun _ => False)
              (fun _ => True)).
    7: exact Hr.
    - intros pkg rest s0 s0' ot Hi _ Hc. split; [|auto].
      destruct (list_cb_step _ _ _ _ _ Hc) as [-> _]. exact Hi.
    - intros pkg rest s0 e s0' ot Hi _ Hc.
      destruct (list_cb_step _ _ _ _ _ Hc) as [_ Hn]. discriminate.
    - intros todo t s0 _ Hi. apply list_task_caused. exact Hi.
    - intros t s0 _ [].
    - intros todo s0 Hi _. exact Hi.
    - apply caused_none. reflexivity. }
  destruct x; [destruct Hfin|].
  destruct (list_dropped w proc0);
    [inversion Hp; subst; split; [exact Hfin|discriminate]|].
  match type of Hp with
  | context [fold_left ?f ?l ?a] =>
      pose proof (print_fold_emits tgs (tagGroups s) l a) as He;
      destruct (fold_left f l a) as [[p2 c] g]
  end.
  simpl in He. inversion Hp; subst. split; [|discriminate].
  intros e Hre. simpl in Hre. rewrite (emits_reason _ _ _ He) in Hre.
  apply Hfin. exact Hre.
Qed.

Lemma runCmd_caused :
  forall cmd w r p,
    runCmd cmd w proc0 = (r, p) ->
    caused w p /\ (forall e, r = Throws e -> reason p = None -> cause w e).
Proof.
  intros cmd w r p Hr. destruct cmd as [tgs|tgs o|]; simpl in Hr.
  - destruct (list_cmd_caused _ _ _ _ Hr) as [Hc Hn].
    split; [exact Hc|]. intros e He. destruct (Hn e He).
  - eapply delete_cmd_caused; eassumption.
  - eapply delete_cmd_caused; eassumption.
Qed.

(** X6. Every failed run has a cause in the world it talked to.  The
    reason a run ends aborted with is a registry error for a tag the
    registry answers with that status, an empty manifest list for a tag
    whose manifest list is empty, a record of the ledger without a digest,
    a manifest entry without a digest listed by an index of the ledger, or
    a deletion request the API refuses.  It is never one of the two
    consistency errors: on the graph built by reconciliation those checks
    cannot fire. *)
Theorem failure_has_cause :
  forall (cmd : Cmd) (w : World) (e : Exn),
    reason (main cmd w) = Some e -> cause w e.
Proof.
  intros cmd w e Hm. unfold main in Hm.
  destruct (runCmd cmd w proc0) as [[u|x|] p] eqn:Hr;
    destruct (runCmd_caused _ _ _ _ Hr) as [Hc Hx].
  - apply Hc. exact Hm.
  - unfold controller_abort in Hm. simpl in Hm.
    destruct (reason p) as [y|] eqn:Hre; simpl in Hm.
    + apply Hc. congruence.
    + inversion Hm; subst. apply Hx; reflexivity.
  - apply Hc. exact Hm.
Qed.

(** A witness for X6: the refused deletion request of Scenario A. *)
Lemma failure_has_cause_witness :
  deleteApi worldA_failing 11 = false.
Proof.
  apply (failure_has_cause (DeleteCmd ["v1"] false) worldA_failing
           (DeleteRequestError 11)).
  vm_compute. reflexivity.
Defined.

(** ** Which package versions a successful delete command deletes *)

Lemma get_In :
  forall (m : PkgMap) k v, JsMap.get k m = Some v -> In (k, v) m.
Proof.
  induction m as [|[k0 v0] m IH]; intros k v Hg; simpl in *; [discriminate|].
  destruct (eq_dec k k0) as [->|n]; [left; congruence|right; auto].
Qed.

Lemma intersection_requested :
  forall (a b : list Tag),
    (exists t, In t a /\ In t b) ->
    negb (Nat.eqb (JsSet.size (JsSet.intersection a (JsSet.of_list b))) 0)
    = true.
Proof.
  intros a b (t & Ha & Hb). unfold JsSet.size, JsSet.intersection.
  assert (Hin : In t (filter (fun x => JsSet.mem x (JsSet.of_list b)) a)).
  { apply filter_In. split; [exact Ha|]. unfold JsSet.mem.
    destruct (in_dec eq_dec t (JsSet.of_list b)) as [|Hn]; [reflexivity|].
    exfalso. apply Hn. apply (proj2 (of_list_In b t)). exact Hb. }
  destruct (filter (fun x => JsSet.mem x (JsSet.of_list b)) a);
    [destruct Hin|reflexivity].
Qed.

Lemma find_cb_del :
  forall tgs w pkg s s' ot,
    unshared tgs w -> In pkg (ledger w) ->
    find_cb tgs pkg s = (None, s', ot) ->
    (forall q k, In q (ledger w) -> is_index q = true ->
       has_requested tgs q -> listed_by w q k ->
       del_marked (graph s) k -> del_marked (graph s') k)
    /\ (is_index pkg = true -> has_requested tgs pkg ->
          del_marked (graph s') (Some (pv_name pkg)))
    /\ (forall t, ot = Some t -> task_exact tgs w t).
Proof.
  intros tgs w pkg s s' ot Hu Hin Hc. unfold find_cb in Hc.
  destruct (negb (JsString.truthy (pv_name pkg))); [discriminate|].
  destruct (pkgMap_get (Some (pv_name pkg)) (graph s)) as [info g1] eqn:Hg.
  assert (Hother : forall k, k <> Some (pv_name pkg) ->
                     JsMap.get k g1 = JsMap.get k (graph s)).
  { intros k Hk.
    pose proof (pkgMap_get_other (Some (pv_name pkg)) (graph s) k Hk) as Ho.
    rewrite Hg in Ho. exact Ho. }
  assert (Hkeep : forall v k i0,
            k <> Some (pv_name pkg) ->
            JsMap.get k (graph s) = Some i0 ->
            JsMap.get k (JsMap.set (Some (pv_name pkg)) v g1) = Some i0).
  { intros v k i0 Hne Hg0. rewrite get_set_other by assumption.
    rewrite Hother by assumption. exact Hg0. }
  destruct (filter JsString.truthy (pv_tags pkg)) as [|headTag tl] eqn:Hk;
    inversion Hc; subst; simpl.
  - split; [|split].
    + intros q k Hq Hqi Hreq Hl (i0 & Hg0 & Hb0).
      destruct (eq_dec k (Some (pv_name pkg))) as [->|Hne].
      * eexists. split; [apply get_set_same|]. simpl.
        pose proof (pkgMap_get_present _ _ _ Hg0) as Hp.
        rewrite Hg in Hp. simpl in Hp. subst. exact Hb0.
      * exists i0. split; [|exact Hb0]. apply Hkeep; assumption.
    + intros Hi. unfold is_index, kept_tags in Hi. rewrite Hk in Hi.
      discriminate.
    + intros t Ht. discriminate.
  - assert (Hidx : is_index pkg = true)
      by (unfold is_index, kept_tags; rewrite Hk; reflexivity).
    assert (Hhd : hd "" (kept_tags pkg) = headTag)
      by (unfold kept_tags; rewrite Hk; reflexivity).
    assert (Hb : has_requested tgs pkg ->
      negb (Nat.eqb
              (JsSet.size
                 (JsSet.intersection tgs (JsSet.of_list (headTag :: tl)))) 0)
      = true).
    { intros (t & Ha & Hb). apply intersection_requested. exists t.
      unfold kept_tags in Hb. rewrite Hk in Hb. auto. }
    split; [|split].
    + intros q k Hq Hqi Hreq Hl (i0 & Hg0 & Hb0).
      destruct (eq_dec k (Some (pv_name pkg))) as [->|Hne].
      * eexists. split; [apply get_set_same|]. simpl. apply Hb.
        apply (Hu q pkg (Some (pv_name pkg))); auto. left. reflexivity.
      * exists i0. split; [|exact Hb0]. apply Hkeep; assumption.
    + intros _ Hreq. eexists. split; [apply get_set_same|]. simpl.
      apply Hb. exact Hreq.
    + intros t Ht. inversion Ht; subst. exists pkg. simpl.
      repeat split; auto.
Qed.

Lemma fold_mark_belongs :
  forall t ds g k,
    In k ds ->
    exists info,
      JsMap.get k (fold_left (mark_digest t) ds g) = Some info
      /\ belongsToTagsToDelete info = dt_belongs t.
Proof.
  intros t ds. induction ds as [|d ds IH]; intros g k Hin; [destruct Hin|].
  simpl. destruct (in_dec eq_dec k ds) as [Hd|Hd].
  - apply IH. assumption.
  - destruct Hin as [->|Hin]; [|contradiction].
    rewrite fold_mark_other by assumption.
    rewrite mark_digest_get.
    destruct (eq_dec k k); [|congruence].
    eexists. split; reflexivity.
Qed.

Lemma fold_mark_id :
  forall t ds g k info,
    JsMap.get k g = Some info ->
    exists info',
      JsMap.get k (fold_left (mark_digest t) ds g) = Some info'
      /\ pi_id info' = pi_id info.
Proof.
  intros t ds. induction ds as [|d ds IH]; intros g k info Hg; simpl.
  - exists info. auto.
  - assert (Hm : exists i1, JsMap.get k (mark_digest t g d) = Some i1
                            /\ pi_id i1 = pi_id info).
    { rewrite mark_digest_get. destruct (eq_dec k d) as [->|].
      - eexists. split; [reflexivity|]. simpl.
        rewrite (pkgMap_get_present _ _ _ Hg). reflexivity.
      - exists info. auto. }
    destruct Hm as (i1 & Hg1 & Hi1).
    destruct (IH _ _ _ Hg1) as (i2 & Hg2 & Hi2).
    exists i2. split; [exact Hg2|congruence].
Qed.

Lemma find_task_del :
  forall tgs w t s,
    unshared tgs w -> task_exact tgs w t ->
    (forall pkg, has_id (graph s) pkg ->
       has_id (graph (find_task (registry w) t s)) pkg)
    /\ (forall q k, In q (ledger w) -> is_index q = true ->
          has_requested tgs q -> listed_by w q k ->
          del_marked (graph s) k ->
          del_marked (graph (find_task (registry w) t s)) k)
    /\ (forall q d, In q (ledger w) -> is_index q = true ->
          has_requested tgs q ->
          dt_tag t = hd "" (kept_tags q) ->
          In d (response_digests (registry w (hd "" (kept_tags q)))) ->
          del_marked (graph (find_task (registry w) t s)) d).
Proof.
  intros tgs w t s Hu (q' & Hq' & Hqi' & Htag' & Hbel'). unfold find_task.
  pose proof (find_task_digests_spec t (registry w (dt_tag t)) (dproc s)) as Hds.
  destruct (find_task_digests t (registry w (dt_tag t)) (dproc s)) as [ds p1].
  simpl in *. subst ds.
  assert (Hnew : forall q k, In q (ledger w) -> is_index q = true ->
            has_requested tgs q -> listed_by w q k ->
            In k (response_digests (registry w (dt_tag t))) ->
            del_marked
              (fold_left (mark_digest t)
                 (response_digests (registry w (dt_tag t))) (graph s)) k).
  { intros q k Hq Hqi Hreq Hl Hin.
    destruct (fold_mark_belongs t _ (graph s) k Hin) as (info & Hg & Hb).
    exists info. split; [exact Hg|]. rewrite Hb. apply Hbel'.
    apply (Hu q q' k); auto. right. rewrite <- Htag'. exact Hin. }
  split; [|split].
  - intros pkg (info & Hg & Hi).
    destruct (fold_mark_id t (response_digests (registry w (dt_tag t)))
                _ _ _ Hg) as (info' & Hg' & Hi').
    exists info'. split; [exact Hg'|congruence].
  - intros q k Hq Hqi Hreq Hl (info & Hg & Hb).
    destruct (in_dec eq_dec k (response_digests (registry w (dt_tag t))))
      as [Hin|Hn].
    + eapply Hnew; eassumption.
    + exists info. split; [|exact Hb]. rewrite fold_mark_other; assumption.
  - intros q d Hq Hqi Hreq Htag Hd. rewrite <- Htag in Hd.
    apply (Hnew q d); auto. right. rewrite <- Htag. exact Hd.
Qed.

Lemma NoDup_names_before :
  forall (done rest : list PackageVersion) pkg pkg0,
    NoDup (map pv_name (done ++ pkg :: rest)) ->
    In pkg0 done -> pv_name pkg0 <> pv_name pkg.
Proof.
  intros done rest pkg pkg0 Hnd Hin Heq.
  rewrite map_app in Hnd. simpl in Hnd.
  apply NoDup_remove_2 in Hnd. apply Hnd. apply in_or_app. left.
  rewrite <- Heq. apply in_map. exact Hin.
Qed.

(** When reconciliation returns the graph, every ledger record has its
    node with its id and every digest referenced through a requested tag
    is marked for deletion, provided digests are distinct and no digest is
    shared with an index that has no requested tag. *)
Lemma complete_inv_final :
  forall tgs w g p',
    unshared tgs w -> NoDup (map pv_name (ledger w)) ->
    findOrphanOrTaggedPackageVersions tgs w proc0 = (Returns g, p') ->
    (forall pkg, In pkg (ledger w) -> has_id g pkg)
    /\ (forall k, tagged_ref tgs w k -> del_marked g k).
Proof.
  intros tgs w g p' Hu Hnd Hf. unfold findOrphanOrTaggedPackageVersions in Hf.
  destruct (find_run tgs w proc0) as [r s] eqn:Hr.
  destruct r; [discriminate|].
  destruct (find_dropped tgs w proc0); [discriminate|].
  unfold throwIfAborted in Hf.
  destruct (reason (dproc s)) eqn:Hre; [discriminate|].
  inversion Hf; subst. unfold find_run in Hr.
  assert (Hfin : complete_inv tgs w [] [] s).
  { apply (run_pending DState DTask (fun s => signal_aborted (dproc s))
             (find_cb tgs) (find_task (registry w)) (complete_inv tgs w)) with
      (sched := schedule w) (todo := ledger w)
      (s := dstate0 proc0).
    - (* the callback *)
      intros pkg rest pending s0 s0' ot [Ft Hi] Ha Hc.
      destruct Hi as [Hab|(done & Hl & Hids & Hdone)]; [congruence|].
      assert (Hin : In pkg (ledger w))
        by (rewrite Hl; apply in_or_app; right; left; reflexivity).
      destruct (find_cb_del _ _ _ _ _ _ Hu Hin Hc) as (Hmono & Hself & Htask).
      destruct (find_cb_graph _ _ _ _ _ Hc)
        as (_ & Hother & info' & Hget & Hid & Hidx & _).
      split.
      + apply Forall_app. split; [exact Ft|].
        destruct ot as [t|]; simpl; [|constructor].
        constructor; [apply Htask; reflexivity|constructor].
      + right. exists (done ++ [pkg]). split; [|split].
        * rewrite Hl, <- app_assoc. reflexivity.
        * intros pkg0 Hp0. apply in_app_iff in Hp0.
          destruct Hp0 as [Hp0|[<-|[]]].
          -- destruct (Hids _ Hp0) as (i0 & Hg0 & Hi0).
             exists i0. split; [|exact Hi0]. rewrite Hother; [exact Hg0|].
             intros Heq. inversion Heq as [Hn].
             rewrite Hl in Hnd.
             exact (NoDup_names_before _ _ _ _ Hnd Hp0 Hn).
          -- exists info'. auto.
        * intros q Hq Hqi Hreq. apply in_app_iff in Hq.
          destruct Hq as [Hq|[<-|[]]].
          -- assert (Hql : In q (ledger w))
               by (rewrite Hl; apply in_or_app; left; exact Hq).
             destruct (Hdone q Hq Hqi Hreq) as [Hm Hrest]. split.
             ++ apply (Hmono q); auto. left. reflexivity.
             ++ destruct Hrest as [(t & Ht & Htag)|Hres].
                ** left. exists t. split; [apply in_or_app; left|]; assumption.
                ** right. intros d Hd. apply (Hmono q); auto. right. exact Hd.
          -- split; [apply Hself; assumption|].
             destruct (Hidx Hqi) as (_ & _ & _ & t & -> & Htag & _).
             left. exists t. split; [|exact Htag].
             apply in_or_app. right. left. reflexivity.
    - (* a task resolves *)
      intros todo pending i t s0 [Ft Hi] Hn.
      assert (Ht : task_exact tgs w t).
      { rewrite Forall_forall in Ft. apply Ft.
        eapply nth_error_In; eassumption. }
      split.
      + rewrite Forall_forall in *. intros x Hx. apply Ft.
        eapply remove_nth_In; eassumption.
      + destruct Hi as [Hab|(done & Hl & Hids & Hdone)].
        * left. pose proof (find_task_step (registry w) t s0) as Hs.
          unfold signal_aborted in *.
          destruct (reason (dproc s0)) eqn:Hr0; [|discriminate].
          rewrite (fetch_step_reason _ _ Hs) by congruence. rewrite Hr0.
          reflexivity.
        * right. exists done. split; [exact Hl|].
          destruct (find_task_del tgs w t s0 Hu Ht) as (Hid & Hmono & Hnew).
          split; [intros pkg Hp; apply Hid, Hids, Hp|].
          intros q Hq Hqi Hreq.
          assert (Hql : In q (ledger w))
            by (rewrite Hl; apply in_or_app; left; exact Hq).
          destruct (Hdone q Hq Hqi Hreq) as [Hm Hrest]. split.
          -- apply (Hmono q); auto. left. reflexivity.
          -- destruct Hrest as [(t' & Ht' & Htag)|Hres].
             ++ destruct (remove_nth_keeps _ _ _ _ Hn Ht') as [->|Hin].
                ** right. intros d Hd. apply (Hnew q); auto.
                ** left. exists t'. auto.
             ++ right. intros d Hd. apply (Hmono q); auto. right. exact Hd.
    - intros todo pending s0 [Ft _] Ha. split; [exact Ft|left; exact Ha].
    - intros todo pending pending' s0 [Ft _] Ha Hin.
      split; [|left; exact Ha].
      rewrite Forall_forall in *. intros x Hx. apply Ft, Hin, Hx.
    - split; [constructor|]. right. exists []. split; [reflexivity|].
      split; [intros pkg []|intros q []].
    - exact Hr. }
  destruct Hfin as [_ [Hab|(done & Hl & Hids & Hdone)]].
  - unfold signal_aborted in Hab. rewrite Hre in Hab. discriminate.
  - rewrite app_nil_r in Hl. subst done. split; [exact Hids|].
    intros k (q & Hq & Hqi & Hreq & Hlist).
    destruct (Hdone q Hq Hqi Hreq) as [Hm [(t & [] & _)|Hres]].
    destruct Hlist as [->|Hd]; [exact Hm|apply Hres, Hd].
Qed.

(** The deletion requests of a delete command that ends not aborted are
    those of the graph's nodes that satisfy the deletion predicate. *)
Lemma delete_success_deletions :
  forall tgs o w,
    reason (main (DeleteCmd tgs o) w) = None ->
    exists g p1,
      findOrphanOrTaggedPackageVersions tgs w proc0 = (Returns g, p1)
      /\ deletions (trace (main (DeleteCmd tgs o) w)) = eligible_ids o g.
Proof.
  intros tgs o w Hm.
  destruct (runCmd (DeleteCmd tgs o) w proc0) as [[[]|e|] p] eqn:Hr.
  2: { exfalso. revert Hm. unfold main. rewrite Hr. unfold controller_abort.
       destruct (reason (exitCode_or_1 p)) eqn:Hre; [congruence|].
       simpl. discriminate. }
  2: { exfalso. rewrite (main_never _ _ _ Hr) in Hm.
       exact (runCmd_never _ _ _ Hr Hm). }
  unfold main in Hm |- *. rewrite Hr in Hm |- *.
  - simpl in Hr.
    destruct (delete_cmd_trace _ _ _ _ _ Hr)
      as [[Hne _]|(_ & g & p1 & p2 & st & tl & Hf & Hs & Hl & Hr2 & F2 & Fl
                   & Hrp & El & Et)]; [congruence|].
    exists g, p1. split; [exact Hf|].
    pose proof (delete_loop_deletions _ _ _ _ _ Hr2 Hl) as Hd.
    rewrite El, deletions_app in Hd. apply app_inv_head in Hd.
    rewrite Et, !deletions_app, (deletions_fetch_stat _ F2), Hd.
    change (deletions [InfoDeletedCount (deletedCount st)]) with (@nil Z).
    rewrite app_nil_r. reflexivity.
Qed.

Lemma eligible_ids_In :
  forall o (g : PkgMap) k info i,
    In (k, info) g -> pi_id info = Some i -> eligible o info = true ->
    In i (eligible_ids o g).
Proof.
  intros o g k info i Hin Hid Hel. unfold eligible_ids.
  apply in_flat_map. exists (k, info). split; [exact Hin|]. simpl.
  rewrite Hid, Hel. left. reflexivity.
Qed.

(** A delete command whose graph has a digest for every node and whose
    deletion requests all succeed ends not aborted: the report and the
    consistency check of the loop never throw on a reconciled graph. *)
Lemma delete_cmd_completes :
  forall tgs o w g p1,
    findOrphanOrTaggedPackageVersions tgs w proc0 = (Returns g, p1) ->
    (forall info, ~ In (None, info) g) ->
    (forall i, In i (eligible_ids o g) -> deleteApi w i = true) ->
    reason (main (DeleteCmd tgs o) w) = None.
Proof.
  intros tgs o w g p1 Hf Hkey Hapi.
  assert (Hr1 : reason p1 = None).
  { pose proof Hf as Hf0. unfold findOrphanOrTaggedPackageVersions in Hf0.
    destruct (find_run tgs w proc0) as [x s]. destruct x; [discriminate|].
    destruct (find_dropped tgs w proc0); [discriminate|].
    unfold throwIfAborted in Hf0.
    destruct (reason (dproc s)) eqn:Hrs; inversion Hf0; subst. exact Hrs. }
  pose proof (reconciled_graph_consistent _ _ _ _ _ Hf) as Fc.
  pose proof (reconciled_graph_node_ok _ _ _ _ _ Hf) as Fn.
  assert (F : Forall (batch_ok (deleteApi w) o) g).
  { apply Forall_forall. intros [k info] Hin. split; [|split]; simpl.
    - intros ->. exact (Hkey _ Hin).
    - rewrite Forall_forall in Fc. exact (Fc _ Hin).
    - intros i Hid Hel. apply Hapi.
      eapply eligible_ids_In; [exact Hin|exact Hid|exact Hel]. }
  unfold main. simpl runCmd. unfold deletePackageVersions. rewrite Hf.
  destruct (logRegistryStats tgs g p1) as [x p2] eqn:Hs.
  pose proof (stats_never_throw _ _ _ _ _ _ Fn Hs). subst x.
  pose proof (logRegistryStats_emits _ _ _ _ _ Hs) as He.
  assert (Hr2 : reason p2 = None)
    by (rewrite (emits_reason _ _ _ He); exact Hr1).
  destruct (loop_rounds_completes 3 (deleteApi w) o g
              {| lmap := g; deletedCount := 0; loproc := p2 |} F Hr2)
    as (st & Hl).
  unfold delete_loop. rewrite Hl. simpl.
  pose proof (loop_rounds_emits _ _ _ _ _ _ _ Hl) as Hle. simpl in Hle.
  rewrite (emits_reason _ _ _ Hle). exact Hr2.
Qed.




(** X7. A delete command that ends not aborted has requested the deletion
    of every ledger record whose digest is referenced through a requested
    tag, and with [deleteOrphans] of every ledger record whose digest is
    not referenced at all, provided the digests of the ledger are distinct
    and no digest referenced through a requested tag is also referenced by
    an index without one. *)
Theorem deletion_complete :
  forall (tgs : list Tag) (deleteOrphans : bool) (w : World)
         (pkg : PackageVersion),
    reason (main (DeleteCmd tgs deleteOrphans) w) = None ->
    NoDup (map pv_name (ledger w)) ->
    unshared tgs w ->
    In pkg (ledger w) ->
    tagged_ref tgs w (Some (pv_name pkg))
    \/ (deleteOrphans = true /\ ~ referenced w (Some (pv_name pkg))) ->
    In (pv_id pkg) (deletions (trace (main (DeleteCmd tgs deleteOrphans) w))).
Proof.
  intros tgs o w pkg Hm Hnd Hu Hin Hwhy.
  destruct (delete_success_deletions _ _ _ Hm) as (g & p1 & Hf & ->).
  destruct (complete_inv_final _ _ _ _ Hu Hnd Hf) as [Hids Hdel].
  destruct (Hids pkg Hin) as (info & Hg & Hid).
  apply (eligible_ids_In o g (Some (pv_name pkg)) info);
    [apply get_In; exact Hg|exact Hid|].
  unfold eligible. destruct Hwhy as [Ht|[-> Hnr]].
  - destruct (Hdel _ Ht) as (info' & Hg' & Hb).
    rewrite Hg in Hg'. inversion Hg'; subst. rewrite Hb. reflexivity.
  - destruct (isOrphan info) eqn:Ho; [apply orb_true_r|].
    exfalso. apply Hnr.
    pose proof (reconciled_graph_node_ok _ _ _ _ _ Hf) as F.
    rewrite Forall_forall in F.
    destruct (F _ (get_In _ _ _ Hg)) as (_ & Href & _).
    apply Href. exact Ho.
Qed.

(** A witness for X7: in Scenario A deleting [v1] requests the deletion
    of [D2], which the index tagged [v1] lists. *)
Lemma deletion_complete_witness :
  In 12 (deletions (trace (main (DeleteCmd ["v1"] false) worldA))).
Proof.
  apply (deletion_complete ["v1"] false worldA pkgD2).
  - vm_compute. reflexivity.
  - simpl. repeat constructor; simpl; intuition discriminate.
  - intros q q' k _ Hq' _ Hi' _ _ _. simpl in Hq'.
    destruct Hq' as [<-|[<-|[<-|[<-|[]]]]]; try discriminate Hi'.
    exists "v1". split; left; reflexivity.
  - simpl. auto.
  - left. exists pkgD0. split; [left; reflexivity|].
    split; [reflexivity|]. split.
    + exists "v1". split; left; reflexivity.
    + right. vm_compute. auto.
Defined.

(** ** The list command: tag groups and printed package versions *)

Lemma setTagGroup_keys :
  forall tgs groups t,
    has_key t groups \/ In t tgs -> has_key t (setTagGroup tgs groups).
Proof.
  intros tgs groups t Hk. unfold has_key, setTagGroup in *.
  rewrite fold_set_get.
  destruct (in_dec string_dec t (JsSet.of_list tgs)) as [Hin|Hn];
    [discriminate|].
  destruct Hk as [Hk|Hk]; [exact Hk|].
  exfalso. apply Hn. apply (proj2 (of_list_In tgs t)). exact Hk.
Qed.

Lemma fold_set_values :
  forall (h : Tag) (ds : list (option Digest))
         (m : JsMap.t (option Digest) Tag) d t,
    JsMap.get d (fold_left (fun m d => JsMap.set d h m) ds m) = Some t ->
    t = h \/ JsMap.get d m = Some t.
Proof.
  intros h ds. induction ds as [|d0 ds IH]; intros m d t Hg; simpl in Hg.
  - right. exact Hg.
  - destruct (IH _ _ _ Hg) as [->|Hg1]; [left; reflexivity|].
    destruct (eq_dec d d0) as [->|Hne].
    + rewrite get_set_same in Hg1. left. congruence.
    + rewrite get_set_other in Hg1 by assumption. right. exact Hg1.
Qed.

Section GroupBy.
Context {A : Type}.
Variable f : A -> Tag.

Lemma group_step_perm :
  forall (m : JsMap.t Tag (list A)) k l x,
    JsMap.get k m = Some l ->
    Permutation (flat_map snd (JsMap.set k (l ++ [x]) m))
                (flat_map snd m ++ [x]).
Proof.
  induction m as [|[k0 v0] m IH]; intros k l x Hg; simpl in *;
    [discriminate|].
  destruct (eq_dec k k0) as [->|Hne]; simpl.
  - inversion Hg; subst. rewrite <- !app_assoc.
    apply Permutation_app_head. apply Permutation_app_comm.
  - rewrite <- app_assoc. apply Permutation_app_head. apply IH. exact Hg.
Qed.

Lemma groupBy_fold_perm :
  forall (items : list A) (m : JsMap.t Tag (list A)),
    Permutation
      (flat_map snd
         (fold_left
            (fun m x =>
               match JsMap.get (f x) m with
               | Some l => JsMap.set (f x) (l ++ [x]) m
               | None => JsMap.set (f x) [x] m
               end) items m))
      (flat_map snd m ++ items).
Proof.
  induction items as [|x items IH]; intros m; simpl.
  - rewrite app_nil_r. apply Permutation_refl.
  - eapply Permutation_trans; [apply IH|].
    change (x :: items) with ([x] ++ items). rewrite app_assoc.
    apply Permutation_app_tail.
    destruct (JsMap.get (f x) m) as [l|] eqn:Hg.
    + apply group_step_perm. exact Hg.
    + rewrite (set_absent _ _ _ Hg), flat_map_app. simpl.
      rewrite ?app_nil_r. apply Permutation_refl.
Qed.

Lemma groupBy_fold_keys :
  forall (items : list A) (m : JsMap.t Tag (list A)) e,
    In e
      (fold_left
         (fun m x =>
            match JsMap.get (f x) m with
            | Some l => JsMap.set (f x) (l ++ [x]) m
            | None => JsMap.set (f x) [x] m
            end) items m) ->
    In (fst e) (map fst m) \/ exists x, In x items /\ f x = fst e.
Proof.
  assert (Hset : forall (m : JsMap.t Tag (list A)) k v e,
            In e (JsMap.set k v m) -> In (fst e) (map fst m) \/ fst e = k).
  { induction m as [|[k0 v0] m IHm]; intros k v e Hin; simpl in *.
    - destruct Hin as [<-|[]]. right. reflexivity.
    - destruct (eq_dec k k0) as [->|Hne]; simpl in Hin.
      + destruct Hin as [<-|Hin]; [right; reflexivity|].
        left. right. apply in_map. exact Hin.
      + destruct Hin as [<-|Hin]; [left; left; reflexivity|].
        destruct (IHm _ _ _ Hin) as [H|H]; [left; right; exact H|right; exact H]. }
  induction items as [|x items IH]; intros m e Hin; simpl in Hin.
  - left. apply in_map. exact Hin.
  - destruct (IH _ _ Hin) as [Hk|(y & Hy & Hf)].
    + apply in_map_iff in Hk. destruct Hk as (e' & He' & Hin').
      assert (Hs : In (fst e') (map fst m) \/ fst e' = f x).
      { destruct (JsMap.get (f x) m); eapply Hset; exact Hin'. }
      rewrite He' in Hs. destruct Hs as [Hs|Hs]; [left; exact Hs|].
      right. exists x. split; [left; reflexivity|congruence].
    + right. exists y. split; [right; exact Hy|exact Hf].
Qed.

(** [Map.groupBy] partitions the items: every item is in exactly one
    group, and every group is keyed by the key of one of the items. *)
Lemma groupBy_partition :
  forall items : list A,
    Permutation (flat_map snd (groupBy f items)) items
    /\ forall e, In e (groupBy f items) ->
         exists x, In x items /\ f x = fst e.
Proof.
  intros items. unfold groupBy. split.
  - apply (groupBy_fold_perm items JsMap.empty).
  - intros e Hin.
    destruct (groupBy_fold_keys items JsMap.empty e Hin) as [[]|H].
    exact H.
Qed.
End GroupBy.

Lemma list_cb_inv :
  forall w pkg rest pending s s' ot,
    list_inv w (pkg :: rest) pending s ->
    signal_aborted (lproc s) = false ->
    list_cb pkg s = (None, s', ot) ->
    list_inv w rest (pending ++ opt_list ot) s'.
Proof.
  intros w pkg rest pending s s' ot ((r & Hl & Hr) & Hu & Hd & Fp) Ha Hc.
  specialize (Hr Ha). subst r. unfold list_cb in Hc.
  assert (Hpre : exists rest0,
            ledger w = (pkgVersions s ++ [pkg]) ++ rest0
            /\ (signal_aborted (lproc s) = false -> rest0 = rest)).
  { exists rest. split; [rewrite Hl, <- app_assoc; reflexivity|auto]. }
  destruct (pv_tags pkg) as [|headTag tl] eqn:Ht; inversion Hc; subst;
    unfold list_inv; simpl.
  - split; [exact Hpre|]. split; [exact Hu|]. split; [exact Hd|].
    rewrite app_nil_r. exact Fp.
  - split; [exact Hpre|].
    split; [apply setTagGroup_keys; left; exact Hu|].
    split.
    + intros d t Hg. apply setTagGroup_keys. left. eapply Hd; eassumption.
    + apply Forall_app. split.
      * eapply Forall_impl; [|exact Fp]. intros a Hk.
        apply setTagGroup_keys. left. exact Hk.
      * constructor; [|constructor]. simpl.
        apply setTagGroup_keys. right. left. reflexivity.
Qed.

Lemma list_task_inv :
  forall w todo pending i t s,
    list_inv w todo pending s -> nth_error pending i = Some t ->
    list_inv w todo (remove_nth i pending) (list_task (registry w) t s).
Proof.
  intros w todo pending i t s ((r & Hl & Hr) & Hu & Hd & Fp) Hn.
  assert (Ht : has_key (lt_headTag t) (tagGroups s)).
  { rewrite Forall_forall in Fp. apply Fp. eapply nth_error_In; eassumption. }
  pose proof (list_task_step (registry w) t s) as Hs.
  unfold list_task in *.
  destruct (list_task_digests t (registry w (lt_headTag t)) (lproc s))
    as [ds p1].
  unfold list_inv; simpl in *.
  split; [|split; [exact Hu|split]].
  - exists r. split; [exact Hl|]. intros Ha. apply Hr.
    unfold signal_aborted in *.
    destruct (reason (lproc s)) eqn:Hre; [|reflexivity].
    rewrite (fetch_step_reason _ _ Hs) in Ha by congruence.
    rewrite Hre in Ha. discriminate.
  - intros d t0 Hg.
    destruct (fold_set_values _ _ _ _ _ Hg) as [->|Hg0];
      [exact Ht|eapply Hd; eassumption].
  - rewrite Forall_forall in *. intros x Hx. apply Fp.
    eapply remove_nth_In; eassumption.
Qed.

Lemma list_run_inv :
  forall w r s,
    list_run w proc0 = (r, s) -> r = None /\ list_inv w [] [] s.
Proof.
  intros w r s Hr.
  destruct (list_run_closed (fun _ => True) (fun _ _ _ _ => Logic.I)
              w proc0 r s Logic.I Hr) as [_ ->].
  split; [reflexivity|]. unfold list_run in Hr.
  apply (run_pending LState LTask (fun s => signal_aborted (lproc s))
           list_cb (list_task (registry w)) (list_inv w)) with
    (sched := schedule w) (todo := ledger w)
    (s := lstate0 proc0).
  - intros pkg rest pending s0 s0' ot Hi Ha Hc.
    eapply list_cb_inv; eassumption.
  - intros todo pending i t s0 Hi Hn. apply list_task_inv; assumption.
  - intros todo pending s0 ((r0 & Hl & _) & Hrest) Ha.
    split; [|exact Hrest]. exists r0. split; [exact Hl|]. congruence.
  - intros todo pending pending' s0 (Hpre & Hu & Hd & F) _ Hin.
    split; [exact Hpre|]. split; [exact Hu|]. split; [exact Hd|].
    rewrite Forall_forall in *. intros x Hx. apply F, Hin, Hx.
  - split; [|split; [|split]].
    + exists (ledger w). split; [reflexivity|auto].
    + unfold has_key. simpl. discriminate.
    + intros d t Hg. discriminate.
    + constructor.
  - exact Hr.
Qed.

Lemma headTag_has_group :
  forall w todo pending s pkgV,
    list_inv w todo pending s ->
    has_key (headTagOf (digestToHeadTag s) pkgV) (tagGroups s).
Proof.
  intros w todo pending s pkgV (_ & Hu & Hd & _). unfold headTagOf.
  destruct (JsMap.get (Some (pv_name pkgV)) (digestToHeadTag s)) as [t|] eqn:Hg;
    [|exact Hu].
  destruct (JsString.truthy t); [eapply Hd; eassumption|exact Hu].
Qed.

Lemma print_group_present :
  forall tgs groups acc e,
    has_key (fst e) groups ->
    emits not_missing_group (fst (fst acc))
      (fst (fst (print_group tgs groups acc e))).
Proof.
  intros tgs groups [[p c] n] [h pkgs] Hk. unfold print_group, has_key in *.
  simpl in Hk. destruct (JsMap.get h groups); [|congruence].
  destruct (_ && _); simpl; emits_tac.
Qed.

Lemma print_fold_present :
  forall tgs groups l acc,
    (forall e, In e l -> has_key (fst e) groups) ->
    emits not_missing_group (fst (fst acc))
      (fst (fst (fold_left (print_group tgs groups) l acc))).
Proof.
  intros tgs groups l. induction l as [|e l IH]; intros acc Hk; simpl.
  - apply emits_refl.
  - eapply emits_trans.
    + apply print_group_present. apply Hk. left. reflexivity.
    + apply IH. intros x Hx. apply Hk. right. exact Hx.
Qed.

Lemma printed_app :
  forall a b, printed (a ++ b) = printed a ++ printed b.
Proof. intros a b. unfold printed. apply flat_map_app. Qed.

Lemma printed_fetch :
  forall t, Forall fetch_event t -> printed t = [].
Proof.
  intros t F. induction F as [|ev t Hev _ IH]; [reflexivity|].
  unfold printed in *. simpl. rewrite IH.
  destruct ev; try destruct Hev; reflexivity.
Qed.

Lemma print_group_all :
  forall groups acc e,
    has_key (fst e) groups ->
    printed (trace (fst (fst (print_group [] groups acc e))))
    = printed (trace (fst (fst acc))) ++ snd e
    /\ snd (fst (print_group [] groups acc e))
       = (snd (fst acc) + length (snd e))%nat.
Proof.
  intros groups [[p c] n] [h pkgs] Hk. unfold print_group, has_key in *.
  simpl in *. destruct (JsMap.get h groups); [|congruence]. simpl.
  split; [|reflexivity]. rewrite printed_app. unfold printed at 2. simpl.
  rewrite app_nil_r. reflexivity.
Qed.

Lemma print_fold_all :
  forall groups l acc,
    (forall e, In e l -> has_key (fst e) groups) ->
    printed (trace (fst (fst (fold_left (print_group [] groups) l acc))))
    = printed (trace (fst (fst acc))) ++ flat_map snd l
    /\ snd (fst (fold_left (print_group [] groups) l acc))
       = (snd (fst acc) + length (flat_map snd l))%nat.
Proof.
  intros groups l. induction l as [|e l IH]; intros acc Hk; simpl.
  - rewrite app_nil_r, Nat.add_0_r. auto.
  - destruct (IH (print_group [] groups acc e)
                (fun x Hx => Hk x (or_intror Hx))) as [Hp Hc].
    destruct (print_group_all groups acc e (Hk e (or_introl eq_refl)))
      as [Hp1 Hc1].
    rewrite Hp, Hc, Hp1, Hc1, length_app, <- app_assoc, Nat.add_assoc.
    auto.
Qed.

(** X8. The list command never logs a missing tag group: every head tag
    under which package versions are grouped has an entry in the map of
    tag groups, whatever the ledger, the registry's answers, the order in
    which the fetches resolve and the tag filter. *)
Theorem list_never_misses_tag_group :
  forall (tgs : list Tag) (w : World) (headTag : Tag),
    ~ In (ErrorMissingTagGroup headTag) (trace (main (ListCmd tgs) w)).
Proof.
  intros tgs w headTag Hin. unfold main in Hin. simpl runCmd in Hin.
  unfold printPackageVersionsForImageTags, getPackageVersionsByImageTag in Hin.
  destruct (list_run w proc0) as [x s] eqn:Hr.
  destruct (list_run_inv _ _ _ Hr) as [-> Hinv].
  pose proof (proj1 (list_run_closed (appends fetch_event proc0)
                       (fetch_step_appends proc0) w proc0 None s
                       (appends_refl _ _) Hr)) as Ha.
  apply appends_from_proc0 in Ha.
  destruct (list_dropped w proc0).
  { simpl in Hin. rewrite Forall_forall in Ha. exact (Ha _ Hin). }
  match type of Hin with
  | context [fold_left ?f ?l ?a] =>
      assert (He : emits not_missing_group (fst (fst a))
                     (fst (fst (fold_left f l a))));
      [|destruct (fold_left f l a) as [[p2 c] n]]
  end.
  { apply print_fold_present. intros e He.
    destruct (proj2 (groupBy_partition _ (pkgVersions s)) e He)
      as (pkgV & _ & <-).
    eapply headTag_has_group; exact Hinv. }
  simpl in He, Hin. destruct He as (t & -> & Ft). simpl in Hin.
  rewrite !in_app_iff in Hin. rewrite Forall_forall in Ha, Ft.
  destruct Hin as [[Hin|Hin]|[Hin|[]]].
  - exact (Ha _ Hin).
  - exact (Ft _ Hin).
  - discriminate.
Qed.

(** X9. A list command without a tag filter either never gets past its
    join or prints every package version it enumerated exactly once.  When
    the join never settles (a waiting fetch was discarded by an abort) the
    run is aborted and nothing is printed, neither a group nor the summary
    line.  Otherwise every enumerated package version is printed exactly
    once and the count of the summary line is their number; the enumerated
    records are a prefix of the ledger, and the whole ledger when the run
    ends not aborted. *)
Theorem list_prints_every_version :
  forall w : World,
    (fst (runCmd (ListCmd []) w proc0) = NeverSettles ->
       reason (main (ListCmd []) w) <> None
       /\ printed (trace (main (ListCmd []) w)) = []
       /\ forall n k : nat,
            ~ In (PrintSummary n k) (trace (main (ListCmd []) w)))
    /\ (fst (runCmd (ListCmd []) w proc0) <> NeverSettles ->
          exists (done rest : list PackageVersion) (n : nat),
            ledger w = done ++ rest
            /\ Permutation (printed (trace (main (ListCmd []) w))) done
            /\ In (PrintSummary (length done) n)
                 (trace (main (ListCmd []) w))
            /\ (reason (main (ListCmd []) w) = None -> rest = [])).
Proof.
  intros w.
  destruct (runCmd (ListCmd []) w proc0) as [r p] eqn:Hrun.
  pose proof Hrun as Hrc. simpl in Hrc. simpl fst.
  unfold printPackageVersionsForImageTags, getPackageVersionsByImageTag in Hrc.
  destruct (list_run w proc0) as [x s] eqn:Hr.
  destruct (list_run_inv _ _ _ Hr) as [-> Hinv].
  pose proof (proj1 (list_run_closed (appends fetch_event proc0)
                       (fetch_step_appends proc0) w proc0 None s
                       (appends_refl _ _) Hr)) as Ha.
  apply appends_from_proc0 in Ha.
  split.
  - intros ->. rewrite (main_never _ _ _ Hrun).
    split; [exact (runCmd_never _ _ _ Hrun)|].
    destruct (list_dropped w proc0);
      [|destruct (fold_left _ _ _) as [[p2 c] n]; discriminate].
    inversion Hrc; subst p. split; [apply printed_fetch; exact Ha|].
    intros n k Hin. rewrite Forall_forall in Ha. exact (Ha _ Hin).
  - intros Hne.
    destruct (list_dropped w proc0); [inversion Hrc; subst; congruence|].
    destruct (groupBy_partition (headTagOf (digestToHeadTag s))
                (pkgVersions s)) as [Hperm Hkeys].
    assert (Hk : forall e,
              In e (groupBy (headTagOf (digestToHeadTag s)) (pkgVersions s)) ->
              has_key (fst e) (tagGroups s)).
    { intros e He. destruct (Hkeys e He) as (pkgV & _ & <-).
      eapply headTag_has_group; exact Hinv. }
    destruct (print_fold_all (tagGroups s) _ (lproc s, 0%nat, 0%nat) Hk)
      as [Hp Hc].
    pose proof (print_fold_emits [] (tagGroups s)
                  (groupBy (headTagOf (digestToHeadTag s)) (pkgVersions s))
                  (lproc s, 0%nat, 0%nat)) as He.
    destruct (fold_left _ _ _) as [[p2 c] n]. simpl in Hp, Hc, He.
    inversion Hrc; subst r p. unfold main. rewrite Hrun.
    destruct Hinv as ((rest & Hl & Hrest) & _).
    exists (pkgVersions s), rest, n. split; [exact Hl|]. split; [|split].
    + simpl. rewrite printed_app, Hp, (printed_fetch _ Ha). simpl.
      rewrite app_nil_r. exact Hperm.
    + simpl. apply in_or_app. right. left.
      rewrite Hc, (Permutation_length Hperm). reflexivity.
    + simpl. rewrite (emits_reason _ _ _ He). intros Hre. apply Hrest.
      unfold signal_aborted. rewrite Hre. reflexivity.
Qed.

(** A witness for X9: listing Scenario A prints its four package
    versions, and listing six indexes of which the first fetch fails
    prints nothing. *)
Lemma list_prints_every_version_witness :
  Permutation (printed (trace (main (ListCmd []) worldA))) (ledger worldA)
  /\ printed (trace (main (ListCmd []) worldSix)) = [].
Proof.
  split.
  - destruct (proj2 (list_prints_every_version worldA))
      as (done & rest & n & Hl & Hp & _ & Hr).
    + vm_compute. discriminate.
    + rewrite Hl, (Hr eq_refl), app_nil_r. exact Hp.
  - apply (proj1 (list_prints_every_version worldSix)).
    vm_compute. reflexivity.
Defined.

(** ** The command line parser *)

Section ParserFacts.
Variable is_space : ascii -> bool.

Lemma trimEnd_idem :
  forall s, trimEnd is_space (trimEnd is_space s) = trimEnd is_space s.
Proof.
  induction s as [|c r IH]; [reflexivity|]. simpl.
  destruct (trimEnd is_space r) as [|c' r'] eqn:Hr.
  - destruct (is_space c) eqn:Hc; simpl; [reflexivity|].
    rewrite Hc. reflexivity.
  - simpl in *. rewrite IH. reflexivity.
Qed.

Lemma trimStart_head :
  forall s,
    trimStart is_space s = EmptyString
    \/ exists c r, trimStart is_space s = String c r /\ is_space c = false.
Proof.
  induction s as [|c r IH]; [left; reflexivity|]. simpl.
  destruct (is_space c) eqn:Hc; [exact IH|].
  right. exists c, r. auto.
Qed.

Lemma trimEnd_head :
  forall c r,
    trimEnd is_space (String c r) = EmptyString
    \/ exists r', trimEnd is_space (String c r) = String c r'.
Proof.
  intros c r. simpl. destruct (trimEnd is_space r) as [|c' r'].
  - destruct (is_space c); [left; reflexivity|right; eexists; reflexivity].
  - right. eexists. reflexivity.
Qed.

(** Trimming twice is trimming once. *)
Lemma trim_idem :
  forall s, trim is_space (trim is_space s) = trim is_space s.
Proof.
  intros s. unfold trim.
  destruct (trimStart_head s) as [E|(c & r & E & Hc)]; rewrite E;
    [reflexivity|].
  destruct (trimEnd_head c r) as [E2|(r' & E2)]; rewrite E2; [reflexivity|].
  simpl trimStart. rewrite Hc. rewrite <- E2. apply trimEnd_idem.
Qed.

Lemma no_blank_Forall :
  forall l : list string,
    existsb (fun p => negb (JsString.truthy p)) l = false ->
    Forall (fun p => JsString.truthy p = true) l.
Proof.
  induction l as [|p l IH]; intros He; [constructor|].
  simpl in He. apply orb_false_iff in He. destruct He as [Hp Hl].
  constructor; [|apply IH; exact Hl].
  apply negb_false_iff. exact Hp.
Qed.

(** What [cleanAndValidatePositionals] accepts with a lower bound. *)
Lemma clean_min_spec :
  forall name ps m ps',
    cleanAndValidatePositionals is_space name ps None (Some m) None = inr ps' ->
    (m <= length ps)%nat
    /\ ps' = map (trim is_space) ps
    /\ Forall (fun p => JsString.truthy p = true) ps'.
Proof.
  intros name ps m ps' Hc. unfold cleanAndValidatePositionals in Hc.
  destruct (Nat.ltb (length ps) m) eqn:Hm; [discriminate|].
  apply Nat.ltb_ge in Hm.
  destruct (existsb _ _) eqn:He; [discriminate|].
  inversion Hc; subst. split; [exact Hm|]. split; [reflexivity|].
  apply no_blank_Forall. exact He.
Qed.

(** What [cleanAndValidatePositionals] accepts with an exact count. *)
Lemma clean_exact_spec :
  forall name ps n ps',
    cleanAndValidatePositionals is_space name ps None None (Some n) = inr ps' ->
    length ps = n
    /\ ps' = map (trim is_space) ps
    /\ Forall (fun p => JsString.truthy p = true) ps'.
Proof.
  intros name ps n ps' Hc. unfold cleanAndValidatePositionals in Hc.
  destruct (Nat.eqb (length ps) n) eqn:Hn; [|discriminate].
  apply Nat.eqb_eq in Hn.
  destruct (existsb _ _) eqn:He; [discriminate|].
  inversion Hc; subst. split; [reflexivity|]. split; [reflexivity|].
  apply no_blank_Forall. exact He.
Qed.

(** On cleaned positionals [validateTags] only removes duplicates. *)
Lemma validateTags_cleaned :
  forall l : list string,
    Forall (fun p => JsString.truthy p = true) (map (trim is_space) l) ->
    validateTags is_space (map (trim is_space) l)
    = JsSet.of_list (map (trim is_space) l).
Proof.
  intros l F. unfold validateTags. f_equal.
  induction l as [|p l IH]; [reflexivity|].
  simpl in *. inversion F; subst. rewrite trim_idem, H1.
  f_equal. apply IH. exact H2.
Qed.

Lemma validateRepo_accepts :
  forall r repo,
    validateRepo r = inr repo ->
    r = Some repo /\ 1 <= JsString.indexOf slash repo.
Proof.
  intros r repo Hv. unfold validateRepo in Hv.
  destruct r as [r0|]; [|discriminate].
  destruct (negb (JsString.truthy r0) || (JsString.indexOf slash r0 <? 1))
    eqn:Hb; [discriminate|].
  inversion Hv; subst. split; [reflexivity|].
  apply orb_false_iff in Hb. destruct Hb as [_ Hb].
  apply Z.ltb_ge in Hb. exact Hb.
Qed.

Lemma cleaned_tags_facts :
  forall l : list string,
    Forall (fun p => JsString.truthy p = true) (map (trim is_space) l) ->
    NoDup (JsSet.of_list (map (trim is_space) l))
    /\ forall t, In t (JsSet.of_list (map (trim is_space) l)) ->
         JsString.truthy t = true /\ trim is_space t = t.
Proof.
  intros l F. split; [apply of_list_NoDup|].
  intros t Ht. apply (proj1 (of_list_In _ t)) in Ht.
  rewrite Forall_forall in F. split; [apply F; exact Ht|].
  apply in_map_iff in Ht. destruct Ht as (p & <- & _). apply trim_idem.
Qed.
End ParserFacts.

(** X10. A [delete] command line that the parser accepts has a repository
    argument and at least one tag argument, none of them blank.  The
    repository is the trimmed first argument and has a slash at index 1
    or later; the tags are the trimmed remaining arguments without
    duplicates, so the set of tags to delete is never empty and holds no
    blank or untrimmed tag; [deleteOrphans] is the value of [--orphans]. *)
Theorem delete_command_line :
  forall (is_space : ascii -> bool) (name : string) (orphans : bool)
         (positionals : list string) (opts : DeleteCmdOpts),
    parseDeleteCommand is_space name orphans positionals = inr opts ->
    exists (repoArg tagArg : string) (tagArgs : list string),
      positionals = repoArg :: tagArg :: tagArgs
      /\ dc_command opts = name
      /\ dc_repo opts = trim is_space repoArg
      /\ 1 <= JsString.indexOf slash (dc_repo opts)
      /\ dc_tags opts
         = JsSet.of_list (map (trim is_space) (tagArg :: tagArgs))
      /\ dc_tags opts <> []
      /\ NoDup (dc_tags opts)
      /\ (forall t, In t (dc_tags opts) ->
            JsString.truthy t = true /\ trim is_space t = t)
      /\ dc_deleteOrphans opts = orphans.
Proof.
  intros is_space name orphans ps opts Hp. unfold parseDeleteCommand in Hp.
  destruct (cleanAndValidatePositionals is_space name ps None (Some 2%nat) None)
    as [e|ps'] eqn:Hc; [discriminate|].
  destruct (clean_min_spec _ _ _ _ _ Hc) as (Hlen & -> & F).
  destruct ps as [|repoArg [|tagArg tagArgs]]; simpl in Hlen; try lia.
  destruct (validateRepo (nth_error (map (trim is_space)
                                       (repoArg :: tagArg :: tagArgs)) 0))
    as [e|repo] eqn:Hv; [discriminate|].
  destruct (validateRepo_accepts _ _ Hv) as [Hr Hidx].
  simpl in Hr. inversion Hr; subst repo. inversion Hp; subst opts.
  cbn [dc_command dc_repo dc_tags dc_deleteOrphans].
  change (skipn 1 (map (trim is_space) (repoArg :: tagArg :: tagArgs)))
    with (map (trim is_space) (tagArg :: tagArgs)).
  assert (F' : Forall (fun p => JsString.truthy p = true)
                 (map (trim is_space) (tagArg :: tagArgs)))
    by (inversion F; assumption).
  pose proof (validateTags_cleaned is_space _ F') as Ht.
  destruct (cleaned_tags_facts is_space _ F') as [Hnd Hin].
  simpl map in Ht, Hnd, Hin |- *. rewrite Ht.
  exists repoArg, tagArg, tagArgs.
  repeat split; try assumption; try reflexivity.
  - intros He.
    assert (Hi : In (trim is_space tagArg)
                   (JsSet.of_list
                      (trim is_space tagArg :: map (trim is_space) tagArgs)))
      by (apply (proj2 (of_list_In _ _)); left; reflexivity).
    rewrite He in Hi. destruct Hi.
  - apply Hin. assumption.
  - apply Hin. assumption.
Qed.

(** A witness for X10: [delete --orphans ' a/b ' 'v1 ' 'v1']. *)
Lemma delete_command_line_witness :
  parseDeleteCommand ascii_space "delete" true [" a/b "; "v1 "; "v1"]
  = inr {| dc_command := "delete"; dc_repo := "a/b"; dc_tags := ["v1"];
           dc_deleteOrphans := true |}
  /\ exists (repoArg tagArg : string) (tagArgs : list string),
       [" a/b "; "v1 "; "v1"] = repoArg :: tagArg :: tagArgs.
Proof.
  assert (Hp : parseDeleteCommand ascii_space "delete" true
                 [" a/b "; "v1 "; "v1"]
               = inr {| dc_command := "delete"; dc_repo := "a/b";
                        dc_tags := ["v1"]; dc_deleteOrphans := true |})
    by (vm_compute; reflexivity).
  split; [exact Hp|].
  destruct (delete_command_line _ _ _ _ _ Hp) as (r & t & ts & H & _).
  exists r, t, ts. exact H.
Defined.

(** X11. A [list] command line that the parser accepts has a repository
    argument followed by any number of tag arguments, none of them blank;
    a [report] command line has the repository argument and nothing else.
    In both the repository is the trimmed first argument and has a slash
    at index 1 or later, and the tags of [list] are the trimmed remaining
    arguments without duplicates. *)
Theorem list_and_report_command_lines :
  forall (is_space : ascii -> bool) (name : string)
         (positionals : list string),
    (forall opts : ListCmdOpts,
        parseListCommand is_space name positionals = inr opts ->
        exists (repoArg : string) (tagArgs : list string),
          positionals = repoArg :: tagArgs
          /\ lc_command opts = name
          /\ lc_repo opts = trim is_space repoArg
          /\ 1 <= JsString.indexOf slash (lc_repo opts)
          /\ lc_tags opts = JsSet.of_list (map (trim is_space) tagArgs)
          /\ NoDup (lc_tags opts)
          /\ (forall t, In t (lc_tags opts) ->
                JsString.truthy t = true /\ trim is_space t = t))
    /\ (forall opts : ReportCmdOpts,
          parseReportCommand is_space name positionals = inr opts ->
          exists repoArg : string,
            positionals = [repoArg]
            /\ rc_command opts = name
            /\ rc_repo opts = trim is_space repoArg
            /\ 1 <= JsString.indexOf slash (rc_repo opts)).
Proof.
  intros is_space name ps. split.
  - intros opts Hp. unfold parseListCommand in Hp.
    destruct (cleanAndValidatePositionals is_space name ps None (Some 1%nat)
                None) as [e|ps'] eqn:Hc; [discriminate|].
    destruct (clean_min_spec _ _ _ _ _ Hc) as (Hlen & -> & F).
    destruct ps as [|repoArg tagArgs]; simpl in Hlen; try lia.
    destruct (validateRepo (nth_error (map (trim is_space)
                                         (repoArg :: tagArgs)) 0))
      as [e|repo] eqn:Hv; [discriminate|].
    destruct (validateRepo_accepts _ _ Hv) as [Hr Hidx].
    simpl in Hr. inversion Hr; subst repo. inversion Hp; subst opts.
    cbn [lc_command lc_repo lc_tags].
    change (skipn 1 (map (trim is_space) (repoArg :: tagArgs)))
      with (map (trim is_space) tagArgs).
    assert (F' : Forall (fun p => JsString.truthy p = true)
                   (map (trim is_space) tagArgs))
      by (inversion F; assumption).
    rewrite (validateTags_cleaned is_space _ F').
    destruct (cleaned_tags_facts is_space _ F') as [Hnd Hin].
    exists repoArg, tagArgs.
    repeat split; try assumption; try reflexivity; apply Hin; assumption.
  - intros opts Hp. unfold parseReportCommand in Hp.
    destruct (cleanAndValidatePositionals is_space name ps None None
                (Some 1%nat)) as [e|ps'] eqn:Hc; [discriminate|].
    destruct (clean_exact_spec _ _ _ _ _ Hc) as (Hlen & -> & F).
    destruct ps as [|repoArg [|x l]]; simpl in Hlen; try discriminate.
    destruct (validateRepo (nth_error (map (trim is_space) [repoArg]) 0))
      as [e|repo] eqn:Hv; [discriminate|].
    destruct (validateRepo_accepts _ _ Hv) as [Hr Hidx].
    simpl in Hr. inversion Hr; subst repo. inversion Hp; subst opts.
    cbn [rc_command rc_repo].
    exists repoArg. repeat split; try assumption; reflexivity.
Qed.

(** A witness for X11: [list 'a/b' ' v1'] and [report 'a/b']. *)
Lemma list_and_report_command_lines_witness :
  (exists (repoArg : string) (tagArgs : list string),
      ["a/b"; " v1"] = repoArg :: tagArgs
      /\ lc_tags {| lc_command := "list"; lc_repo := "a/b";
                    lc_tags := ["v1"] |}
         = JsSet.of_list (map (trim ascii_space) tagArgs))
  /\ parseReportCommand ascii_space "report" ["a/b"]
     = inr {| rc_command := "report"; rc_repo := "a/b" |}.
Proof.
  split; [|vm_compute; reflexivity].
  destruct (list_and_report_command_lines ascii_space "list" ["a/b"; " v1"])
    as [H _].
  destruct (H {| lc_command := "list"; lc_repo := "a/b"; lc_tags := ["v1"] |})
    as (r & ts & Hps & _ & _ & _ & Ht & _).
  - vm_compute. reflexivity.
  - exists r, ts. split; [exact Hps|exact Ht].
Defined.

(** ** The counts of the report *)

Lemma find_cb_key_src :
  forall tgs w pkg s r s' ot,
    In pkg (ledger w) ->
    find_cb tgs pkg s = (r, s', ot) ->
    Forall (key_src w) (graph s) -> Forall (key_src w) (graph s').
Proof.
  intros tgs w pkg s r s' ot Hin Hc F. unfold find_cb in Hc.
  destruct (negb (JsString.truthy (pv_name pkg)));
    [inversion Hc; subst; exact F|].
  assert (Hk : forall v, key_src w (Some (pv_name pkg), v))
    by (intros v; left; exists pkg; auto).
  destruct (pkgMap_get_Forall (key_src w) (Some (pv_name pkg)) (graph s) F
              (Hk _)) as [Fg _].
  destruct (pkgMap_get (Some (pv_name pkg)) (graph s)) as [info g1].
  simpl in Fg.
  destruct (filter JsString.truthy (pv_tags pkg)); inversion Hc; subst; simpl;
    apply set_Forall; auto.
Qed.

Lemma find_task_key_src :
  forall tgs w t s,
    task_ok tgs w t ->
    Forall (key_src w) (graph s) ->
    Forall (key_src w) (graph (find_task (registry w) t s)).
Proof.
  intros tgs w t s (q & Hq & Hqi & Htag & _) F. unfold find_task.
  pose proof (find_task_digests_spec t (registry w (dt_tag t)) (dproc s)) as Hds.
  destruct (find_task_digests t (registry w (dt_tag t)) (dproc s)) as [ds p1].
  simpl in *. subst ds.
  assert (Hsub : forall d, In d (response_digests (registry w (dt_tag t))) ->
                   referenced w d).
  { intros d Hd. exists q. repeat split; auto. right. rewrite <- Htag.
    exact Hd. }
  revert Hsub F. generalize (response_digests (registry w (dt_tag t))).
  generalize (graph s). intros g ds. revert g.
  induction ds as [|d ds IH]; intros g Hsub F; simpl; [assumption|].
  apply IH; [intros x Hx; apply Hsub; right; exact Hx|].
  assert (Hk : forall v, key_src w (d, v)).
  { intros v. right. apply Hsub. left. reflexivity. }
  unfold mark_digest.
  destruct (pkgMap_get_Forall (key_src w) d g F (Hk _)) as [Fg _].
  destruct (pkgMap_get d g) as [info g1]. simpl in Fg.
  apply set_Forall; auto.
Qed.

(** Every key of a reconciled graph is the digest of a ledger record or
    is referenced. *)
Lemma reconciled_graph_key_src :
  forall tgs w p g p',
    findOrphanOrTaggedPackageVersions tgs w p = (Returns g, p') ->
    Forall (key_src w) g.
Proof.
  intros tgs w p g p' Hf. unfold findOrphanOrTaggedPackageVersions in Hf.
  destruct (find_run tgs w p) as [r s] eqn:Hr.
  destruct r; [discriminate|].
  destruct (find_dropped tgs w p); [discriminate|].
  destruct (throwIfAborted (dproc s)); [discriminate|].
  inversion Hf; subst. unfold find_run in Hr.
  assert (Hfin : (forall x, In x [] -> In x (ledger w))
                 /\ Forall (key_src w) (graph s)
                 /\ Forall (node_ok tgs w) (graph s)).
  { apply (run_inv DState DTask (fun s => signal_aborted (dproc s))
             (find_cb tgs) (find_task (registry w))
             (fun todo s => (forall x, In x todo -> In x (ledger w))
                            /\ Forall (key_src w) (graph s)
                            /\ Forall (node_ok tgs w) (graph s))
             (fun _ => True) (task_ok tgs w)) with
      (sched := schedule w) (todo := ledger w)
      (s := dstate0 p) (r := None).
    - intros pkg rest s0 s0' ot (Hsub & Fk & Fn) _ Hc.
      destruct (find_cb_node_ok tgs w pkg s0 s0' ot
                  (Hsub pkg (or_introl eq_refl)) Hc Fn) as [Fn' Ht].
      split; [|exact Ht].
      split; [intros x Hx; apply Hsub; right; exact Hx|].
      split; [|exact Fn'].
      eapply find_cb_key_src; [apply Hsub; left; reflexivity|exact Hc|exact Fk].
    - intros. exact Logic.I.
    - intros todo t s0 Ht (Hsub & Fk & Fn). split; [exact Hsub|].
      split; [eapply find_task_key_src; eassumption|].
      apply find_task_node_ok; assumption.
    - intros. exact Logic.I.
    - intros todo s0 (_ & F) _. split; [intros x []|exact F].
    - split; [auto|]. split; constructor.
    - exact Hr. }
  exact (proj1 (proj2 Hfin)).
Qed.

(** Every ledger record has a node with an id in a reconciled graph. *)
Lemma reconciled_graph_ids :
  forall tgs w g p',
    findOrphanOrTaggedPackageVersions tgs w proc0 = (Returns g, p') ->
    forall pkg, In pkg (ledger w) -> has_some_id g (Some (pv_name pkg)).
Proof.
  intros tgs w g p' Hf. unfold findOrphanOrTaggedPackageVersions in Hf.
  destruct (find_run tgs w proc0) as [r s] eqn:Hr.
  destruct r; [discriminate|].
  destruct (find_dropped tgs w proc0); [discriminate|].
  unfold throwIfAborted in Hf.
  destruct (reason (dproc s)) eqn:Hre; [discriminate|].
  inversion Hf; subst. unfold find_run in Hr.
  assert (Hfin : ids_inv w [] s).
  { apply (run_inv DState DTask (fun s => signal_aborted (dproc s))
             (find_cb tgs) (find_task (registry w))
             (ids_inv w) (fun _ => True) (fun _ => True)) with
      (sched := schedule w) (todo := ledger w)
      (s := dstate0 proc0) (r := None).
    - intros pkg rest s0 s0' ot Hi Ha Hc. split; [|auto].
      destruct Hi as [Hab|(done & Hl & Hids)]; [congruence|].
      destruct (find_cb_graph _ _ _ _ _ Hc)
        as (_ & Hother & info' & Hget & Hid & _).
      right. exists (done ++ [pkg]). split.
      + rewrite Hl, <- app_assoc. reflexivity.
      + intros pkg0 Hp0. apply in_app_iff in Hp0.
        destruct Hp0 as [Hp0|[<-|[]]]; [|exists info', (pv_id pkg); auto].
        destruct (eq_dec (Some (pv_name pkg0)) (Some (pv_name pkg)))
          as [Heq|Hne].
        * rewrite Heq. exists info', (pv_id pkg). auto.
        * destruct (Hids _ Hp0) as (i0 & n0 & Hg0 & Hi0).
          exists i0, n0. split; [|exact Hi0]. rewrite Hother; assumption.
    - intros. exact Logic.I.
    - intros todo t s0 _ Hi.
      destruct Hi as [Hab|(done & Hl & Hids)].
      + left. pose proof (find_task_step (registry w) t s0) as Hs.
        unfold signal_aborted in *.
        destruct (reason (dproc s0)) eqn:Hr0; [|discriminate].
        rewrite (fetch_step_reason _ _ Hs) by congruence. rewrite Hr0.
        reflexivity.
      + right. exists done. split; [exact Hl|].
        intros pkg Hp. destruct (Hids _ Hp) as (i0 & n0 & Hg0 & Hi0).
        unfold find_task.
        destruct (find_task_digests t (registry w (dt_tag t)) (dproc s0))
          as [ds p1]. simpl.
        destruct (fold_mark_id t ds _ _ _ Hg0) as (i1 & Hg1 & Hi1).
        exists i1, n0. split; [exact Hg1|congruence].
    - intros. exact Logic.I.
    - intros todo s0 _ Ha. left. exact Ha.
    - right. exists []. split; [reflexivity|intros pkg []].
    - exact Hr. }
  destruct Hfin as [Hab|(done & Hl & Hids)].
  - unfold signal_aborted in Hab. rewrite Hre in Hab. discriminate.
  - rewrite app_nil_r in Hl. subst done. exact Hids.
Qed.

(** Counting the nodes that satisfy a test is counting their keys. *)
Lemma count_if_keys :
  forall (P : option Digest * PkgInfo -> bool) (g : PkgMap)
         (L : list (option Digest)),
    NoDup (map fst g) -> NoDup L ->
    (forall k, In k L <-> exists info, In (k, info) g /\ P (k, info) = true) ->
    count_if P g = length L.
Proof.
  intros P g L Hg HL Hiff. unfold count_if.
  rewrite <- (length_map fst (filter P g)).
  apply Permutation_length. apply NoDup_Permutation.
  - clear Hiff. induction g as [|e g IH]; simpl; [constructor|].
    inversion Hg as [|? ? Hn Hg']; subst.
    destruct (P e); [|apply IH; exact Hg'].
    simpl. constructor; [|apply IH; exact Hg'].
    intros Hin. apply Hn. apply in_map_iff in Hin.
    destruct Hin as (x & Hx & Hf). apply filter_In in Hf.
    rewrite <- Hx. apply in_map. tauto.
  - exact HL.
  - intros k. rewrite Hiff. split.
    + intros Hin. apply in_map_iff in Hin.
      destruct Hin as ([k0 info] & Hx & Hf). simpl in Hx. subst k0.
      apply filter_In in Hf. exists info. exact Hf.
    + intros (info & Hin & Hp). apply in_map_iff. exists (k, info).
      split; [reflexivity|]. apply filter_In. auto.
Qed.

Lemma tagcount_sum :
  forall m : PkgMap,
    overallTagCount m = list_sum (map (fun e => length (tags (snd e))) m).
Proof.
  intros m. unfold overallTagCount.
  assert (H : forall (l : PkgMap) a,
            fold_left (fun n e => (n + length (tags (snd e)))%nat) l a
            = (a + list_sum (map (fun e => length (tags (snd e))) l))%nat).
  { induction l as [|e l IH]; intros a; simpl; [lia|]. rewrite IH. lia. }
  rewrite H. reflexivity.
Qed.

Lemma tagcount_set :
  forall (m : PkgMap) k v,
    (overallTagCount (JsMap.set k v m)
     + match JsMap.get k m with
       | Some old => length (tags old)
       | None => 0
       end)%nat
    = (overallTagCount m + length (tags v))%nat.
Proof.
  intros m k v. rewrite !tagcount_sum.
  induction m as [|[k0 v0] m IH]; simpl; [lia|].
  destruct (eq_dec k k0) as [->|Hne]; simpl; lia.
Qed.

(** Writing a node through [DefaultValueMap.get] changes the total by the
    difference of the tags written and the tags read. *)
Lemma tagcount_update :
  forall d (g : PkgMap) v,
    (overallTagCount (JsMap.set d v (snd (pkgMap_get d g)))
     + length (tags (fst (pkgMap_get d g))))%nat
    = (overallTagCount g + length (tags v))%nat.
Proof.
  intros d g v. unfold pkgMap_get, DefaultValueMap_get.
  destruct (JsMap.get d g) as [old|] eqn:Hg; simpl.
  - pose proof (tagcount_set g d v) as H. rewrite Hg in H. exact H.
  - pose proof (tagcount_set (JsMap.set d defaultPkgInfo g) d v) as H.
    rewrite get_set_same in H. simpl in H.
    pose proof (tagcount_set g d defaultPkgInfo) as H0.
    rewrite Hg in H0. simpl in H0. lia.
Qed.

Lemma pkgMap_get_tags :
  forall d (g : PkgMap),
    tags (fst (pkgMap_get d g)) <> [] ->
    JsMap.get d g = Some (fst (pkgMap_get d g)).
Proof.
  intros d g. unfold pkgMap_get, DefaultValueMap_get.
  destruct (JsMap.get d g) as [old|]; simpl; [reflexivity|].
  intros H. exfalso. apply H. reflexivity.
Qed.

Lemma mark_digest_tagcount :
  forall t g d, overallTagCount (mark_digest t g d) = overallTagCount g.
Proof.
  intros t g d. unfold mark_digest.
  pose proof (tagcount_update d g
                {| pi_id := pi_id (fst (pkgMap_get d g));
                   isOrphan := false;
                   belongsToTagsToDelete := dt_belongs t;
                   indexDigest := dt_pkgDigest t;
                   tags := tags (fst (pkgMap_get d g)) |}) as H.
  destruct (pkgMap_get d g) as [info g1]. simpl in *. lia.
Qed.

Lemma mark_digest_tags :
  forall t g d k info,
    JsMap.get k (mark_digest t g d) = Some info -> tags info <> [] ->
    exists info0, JsMap.get k g = Some info0 /\ tags info0 <> [].
Proof.
  intros t g d k info Hg Ht. rewrite mark_digest_get in Hg.
  destruct (eq_dec k d) as [->|Hne]; [|exists info; auto].
  inversion Hg; subst. simpl in Ht.
  exists (fst (pkgMap_get d g)). split; [|exact Ht].
  apply pkgMap_get_tags. exact Ht.
Qed.

Lemma find_task_tags :
  forall reg t s,
    overallTagCount (graph (find_task reg t s)) = overallTagCount (graph s)
    /\ forall k info,
         JsMap.get k (graph (find_task reg t s)) = Some info ->
         tags info <> [] ->
         exists info0, JsMap.get k (graph s) = Some info0 /\ tags info0 <> [].
Proof.
  intros reg t s. unfold find_task.
  destruct (find_task_digests t (reg (dt_tag t)) (dproc s)) as [ds p1].
  simpl. generalize (graph s).
  induction ds as [|d ds IH]; intros g; simpl.
  - split; [reflexivity|]. intros k info Hg Ht. exists info. auto.
  - destruct (IH (mark_digest t g d)) as [Hs Hk]. split.
    + rewrite Hs. apply mark_digest_tagcount.
    + intros k info Hg Ht. destruct (Hk _ _ Hg Ht) as (i1 & Hg1 & Ht1).
      eapply mark_digest_tags; eassumption.
Qed.

Lemma find_cb_tags :
  forall tgs pkg s s' ot,
    find_cb tgs pkg s = (None, s', ot) ->
    (forall info, JsMap.get (Some (pv_name pkg)) (graph s) = Some info ->
       tags info = []) ->
    overallTagCount (graph s')
    = (overallTagCount (graph s) + length (kept_tags pkg))%nat.
Proof.
  intros tgs pkg s s' ot Hc Hfresh. unfold find_cb in Hc.
  destruct (negb (JsString.truthy (pv_name pkg))); [discriminate|].
  assert (Hold : tags (fst (pkgMap_get (Some (pv_name pkg)) (graph s))) = []).
  { destruct (tags (fst (pkgMap_get (Some (pv_name pkg)) (graph s))))
      as [|x l] eqn:Ht; [reflexivity|].
    assert (Hne : tags (fst (pkgMap_get (Some (pv_name pkg)) (graph s))) <> [])
      by (rewrite Ht; discriminate).
    rewrite (Hfresh _ (pkgMap_get_tags _ _ Hne)) in Ht. discriminate. }
  pose proof (tagcount_update (Some (pv_name pkg)) (graph s)) as Hu.
  destruct (pkgMap_get (Some (pv_name pkg)) (graph s)) as [info g1].
  simpl in Hold, Hu. unfold kept_tags.
  destruct (filter JsString.truthy (pv_tags pkg)) as [|headTag tl] eqn:Hk;
    inversion Hc; subst; simpl;
    match goal with
    | |- overallTagCount (JsMap.set _ ?v _) = _ =>
        specialize (Hu v); simpl in Hu; rewrite Hold in Hu; rewrite ?Hold;
        simpl in Hu; lia
    end.
Qed.

Lemma tag_total_snoc :
  forall done pkg,
    tag_total (done ++ [pkg])
    = (tag_total done + length (kept_tags pkg))%nat.
Proof.
  intros done pkg. unfold tag_total.
  rewrite map_app, list_sum_app. simpl. lia.
Qed.

(** The tags of a reconciled graph are those the delete path keeps of the
    ledger's records, when their digests are distinct. *)
Lemma reconciled_graph_tags :
  forall tgs w g p',
    NoDup (map pv_name (ledger w)) ->
    findOrphanOrTaggedPackageVersions tgs w proc0 = (Returns g, p') ->
    overallTagCount g = tag_total (ledger w).
Proof.
  intros tgs w g p' Hnd Hf. unfold findOrphanOrTaggedPackageVersions in Hf.
  destruct (find_run tgs w proc0) as [r s] eqn:Hr.
  destruct r; [discriminate|].
  destruct (find_dropped tgs w proc0); [discriminate|].
  unfold throwIfAborted in Hf.
  destruct (reason (dproc s)) eqn:Hre; [discriminate|].
  inversion Hf; subst. unfold find_run in Hr.
  assert (Hfin : tags_inv w [] s).
  { apply (run_inv DState DTask (fun s => signal_aborted (dproc s))
             (find_cb tgs) (find_task (registry w))
             (tags_inv w) (fun _ => True) (fun _ => True)) with
      (sched := schedule w) (todo := ledger w)
      (s := dstate0 proc0) (r := None).
    - intros pkg rest s0 s0' ot Hi Ha Hc. split; [|auto].
      destruct Hi as [Hab|(done & Hl & Hsum & Hown)]; [congruence|].
      assert (Hfresh : forall info,
                JsMap.get (Some (pv_name pkg)) (graph s0) = Some info ->
                tags info = []).
      { intros info Hg. destruct (tags info) as [|x l] eqn:Ht; [reflexivity|].
        exfalso. destruct (Hown _ _ Hg) as (pkg0 & Hp0 & Heq);
          [rewrite Ht; discriminate|].
        inversion Heq as [Hn]. rewrite Hl in Hnd.
        exact (NoDup_names_before _ _ _ _ Hnd Hp0 (eq_sym Hn)). }
      destruct (find_cb_graph _ _ _ _ _ Hc) as (_ & Hother & _).
      right. exists (done ++ [pkg]). split; [|split].
      + rewrite Hl, <- app_assoc. reflexivity.
      + rewrite (find_cb_tags _ _ _ _ _ Hc Hfresh), Hsum, tag_total_snoc.
        reflexivity.
      + intros k info Hg Ht.
        destruct (eq_dec k (Some (pv_name pkg))) as [->|Hne].
        * exists pkg. split; [apply in_or_app; right; left|]; reflexivity.
        * rewrite Hother in Hg by assumption.
          destruct (Hown _ _ Hg Ht) as (pkg0 & Hp0 & Heq).
          exists pkg0. split; [apply in_or_app; left; exact Hp0|exact Heq].
    - intros. exact Logic.I.
    - intros todo t s0 _ Hi.
      destruct Hi as [Hab|(done & Hl & Hsum & Hown)].
      + left. pose proof (find_task_step (registry w) t s0) as Hs.
        unfold signal_aborted in *.
        destruct (reason (dproc s0)) eqn:Hr0; [|discriminate].
        rewrite (fetch_step_reason _ _ Hs) by congruence. rewrite Hr0.
        reflexivity.
      + right. exists done. split; [exact Hl|].
        destruct (find_task_tags (registry w) t s0) as [Hs Hk].
        split; [rewrite Hs; exact Hsum|].
        intros k info Hg Ht. destruct (Hk _ _ Hg Ht) as (i0 & Hg0 & Ht0).
        eapply Hown; eassumption.
    - intros. exact Logic.I.
    - intros todo s0 _ Ha. left. exact Ha.
    - right. exists []. split; [reflexivity|]. split; [reflexivity|].
      intros k info Hg. discriminate.
    - exact Hr. }
  destruct Hfin as [Hab|(done & Hl & Hsum & _)].
  - unfold signal_aborted in Hab. rewrite Hre in Hab. discriminate.
  - rewrite app_nil_r in Hl. subst done. exact Hsum.
Qed.

(** The lines of the report carry the counts of the graph it is given. *)
Lemma logRegistryStats_exact :
  forall tgs m p r p',
    logRegistryStats tgs m p = (r, p') -> emits (stat_of m) p p'.
Proof.
  intros tgs m p r p' Hs. unfold logRegistryStats in Hs.
  destruct (_ && _);
    [inversion Hs; subst;
     repeat first [apply emits_refl
                  |apply emits_step; [|first [reflexivity|exact Logic.I]]]|].
  destruct (_ || _); inversion Hs; subst;
    repeat first [apply emits_refl
                 |apply emits_step; [|first [reflexivity|exact Logic.I]]].
Qed.

Lemma fetch_event_not_stat : forall ev, fetch_event ev -> not_stat ev.
Proof. intros ev H. destruct ev; try destruct H; exact Logic.I. Qed.

Lemma loop_event_not_stat : forall ev, loop_event ev -> not_stat ev.
Proof. intros ev H. destruct ev; try destruct H; exact Logic.I. Qed.

(** Every count in the trace of a delete or report command is a count of
    the graph that reconciliation returned. *)
Lemma stat_in_trace :
  forall tgs o w ev,
    In ev (trace (main (DeleteCmd tgs o) w)) ->
    not_stat ev
    \/ exists g p1,
         findOrphanOrTaggedPackageVersions tgs w proc0 = (Returns g, p1)
         /\ stat_of g ev.
Proof.
  intros tgs o w ev Hin.
  destruct (runCmd (DeleteCmd tgs o) w proc0) as [r p] eqn:Hr.
  assert (Hp : In ev (trace p) \/ not_stat ev).
  { destruct (main_appends (fun e => match e with
                                     | LogAbortReason _ => True
                                     | _ => False
                                     end) _ _ _ _ (fun _ => Logic.I) Hr)
      as (t & Et & Ft).
    rewrite Et in Hin. apply in_app_iff in Hin.
    destruct Hin as [Hin|Hin]; [left; exact Hin|right].
    rewrite Forall_forall in Ft. specialize (Ft _ Hin).
    destruct ev; try destruct Ft; exact Logic.I. }
  destruct Hp as [Hp|Hp]; [|left; exact Hp]. clear Hin.
  simpl in Hr. unfold deletePackageVersions in Hr.
  destruct (findOrphanOrTaggedPackageVersions tgs w proc0)
    as [[g|e|] p1] eqn:Hf.
  2, 3: inversion Hr; subst; left; apply fetch_event_not_stat;
    pose proof (appends_from_proc0 _ _ (find_appends _ _ _ _ _ Hf)) as F;
    rewrite Forall_forall in F; apply F; exact Hp.
  - pose proof (appends_from_proc0 _ _ (find_appends _ _ _ _ _ Hf)) as F1.
    rewrite Forall_forall in F1.
    assert (Hstat : forall p2 x,
              logRegistryStats tgs g p1 = (x, p2) ->
              In ev (trace p2) ->
              not_stat ev \/ stat_of g ev).
    { intros p2 x Hs H2.
      destruct (logRegistryStats_exact _ _ _ _ _ Hs) as (ts & -> & Fs).
      simpl in H2. apply in_app_iff in H2. destruct H2 as [H2|H2].
      - left. apply fetch_event_not_stat. apply F1. exact H2.
      - right. rewrite Forall_forall in Fs. apply Fs. exact H2. }
    assert (Hfin : not_stat ev \/ stat_of g ev).
    { destruct (logRegistryStats tgs g p1) as [[e|] p2] eqn:Hs.
      - inversion Hr; subst. exact (Hstat _ _ eq_refl Hp).
      - destruct (delete_loop (deleteApi w) o g p2) as [rl st] eqn:Hl.
        unfold delete_loop in Hl.
        destruct (loop_rounds_emits _ _ _ _ _ _ _ Hl) as (tl & El & Fl).
        simpl in El. rewrite Forall_forall in Fl.
        assert (Hloop : In ev (trace (loproc st)) ->
                  not_stat ev \/ stat_of g ev).
        { intros H3. rewrite El in H3. simpl in H3.
          apply in_app_iff in H3. destruct H3 as [H3|H3].
          - exact (Hstat _ _ eq_refl H3).
          - left. apply loop_event_not_stat. apply Fl. exact H3. }
        destruct rl as [e|]; inversion Hr; subst; [apply Hloop; exact Hp|].
        simpl in Hp. apply in_app_iff in Hp.
        destruct Hp as [Hp|[<-|[]]];
          [apply Hloop; exact Hp|left; exact Logic.I]. }
    destruct Hfin as [H|H]; [left; exact H|].
    right. exists g, p1. split; [reflexivity|exact H].
Qed.

(** X12. The counts a delete or report command logs are exact.  The
    count of package versions is the number of distinct digests of the
    ledger; the count of distinct digests is the number of digests that
    are the digest of a ledger record or are referenced by an index; the
    count of orphans is the number of digests of ledger records that no
    index references; and, when the digests of the ledger are distinct,
    the count of tags is the number of non-empty tags of its records.
    (The report command is the delete command without tags and without
    [deleteOrphans].) *)
Theorem report_counts_exact :
  forall (tgs : list Tag) (deleteOrphans : bool) (w : World),
    (forall (n : nat) (L : list (option Digest)),
        In (StatVersions n) (trace (main (DeleteCmd tgs deleteOrphans) w)) ->
        NoDup L -> (forall k, In k L <-> ledger_digest w k) ->
        n = length L)
    /\ (forall (n : nat) (L : list (option Digest)),
          In (StatDistinctDigests n)
             (trace (main (DeleteCmd tgs deleteOrphans) w)) ->
          NoDup L ->
          (forall k, In k L <-> ledger_digest w k \/ referenced w k) ->
          n = length L)
    /\ (forall (n : nat) (L : list (option Digest)),
          In (StatOrphans n) (trace (main (DeleteCmd tgs deleteOrphans) w)) ->
          NoDup L ->
          (forall k, In k L <-> ledger_digest w k /\ ~ referenced w k) ->
          n = length L)
    /\ (forall n : nat,
          In (StatTags n) (trace (main (DeleteCmd tgs deleteOrphans) w)) ->
          NoDup (map pv_name (ledger w)) ->
          n = tag_total (ledger w)).
Proof.
  intros tgs o w.
  assert (Hg : forall ev,
            In ev (trace (main (DeleteCmd tgs o) w)) -> ~ not_stat ev ->
            exists g p1,
              findOrphanOrTaggedPackageVersions tgs w proc0 = (Returns g, p1)
              /\ stat_of g ev).
  { intros ev Hin Hn. destruct (stat_in_trace _ _ _ _ Hin) as [H|H];
      [contradiction|exact H]. }
  assert (Hfacts : forall g p1,
            findOrphanOrTaggedPackageVersions tgs w proc0 = (Returns g, p1) ->
            NoDup (map fst g)
            /\ (forall k info, In (k, info) g ->
                  ledger_digest w k \/ referenced w k)
            /\ (forall k info i, In (k, info) g -> pi_id info = Some i ->
                  ledger_digest w k)
            /\ (forall k, ledger_digest w k ->
                  exists info i, In (k, info) g /\ pi_id info = Some i)
            /\ (forall k info, In (k, info) g ->
                  (isOrphan info = false <-> referenced w k))
            /\ (forall k, referenced w k -> exists info, In (k, info) g)).
  { intros g p1 Hf.
    pose proof (reconciled_graph_keys _ _ _ _ _ Hf) as Hnd.
    pose proof (reconciled_graph_key_src _ _ _ _ _ Hf) as Fk.
    pose proof (reconciled_graph_node_ok _ _ _ _ _ Hf) as Fn.
    rewrite Forall_forall in Fk, Fn.
    split; [exact Hnd|]. split; [intros k info Hin; exact (Fk _ Hin)|].
    split.
    { intros k info i Hin Hi. destruct (Fn _ Hin) as (Hid & _).
      destruct (Hid i Hi) as (pkg & Hp & _ & Hk). exists pkg. auto. }
    split.
    { intros k (pkg & Hp & ->).
      destruct (reconciled_graph_ids _ _ _ _ Hf pkg Hp) as (info & i & Hg0 & Hi).
      exists info, i. split; [apply get_In; exact Hg0|exact Hi]. }
    split.
    { intros k info Hin. split.
      - intros Ho. destruct (Fn _ Hin) as (_ & Href & _). apply Href. exact Ho.
      - intros Href.
        destruct (resolved_inv_final _ _ _ _ Hf k Href) as (info' & Hg0 & Ho).
        rewrite (get_of_In _ _ _ Hnd Hin) in Hg0. inversion Hg0; subst.
        exact Ho. }
    intros k Href.
    destruct (resolved_inv_final _ _ _ _ Hf k Href) as (info' & Hg0 & _).
    exists info'. apply get_In. exact Hg0. }
  split; [|split; [|split]].
  - intros n L Hin HL Hiff.
    destruct (Hg _ Hin (fun H => H)) as (g & p1 & Hf & ->).
    destruct (Hfacts _ _ Hf) as (Hnd & _ & Hid & Hled & _).
    apply count_if_keys; [exact Hnd|exact HL|].
    intros k. rewrite Hiff. split.
    + intros Hk. destruct (Hled k Hk) as (info & i & Hi & Hp).
      exists info. split; [exact Hi|]. simpl. rewrite Hp. reflexivity.
    + intros (info & Hi & Hp). simpl in Hp.
      destruct (pi_id info) as [i|] eqn:Hpi; [|discriminate].
      eapply Hid; eassumption.
  - intros n L Hin HL Hiff.
    destruct (Hg _ Hin (fun H => H)) as (g & p1 & Hf & ->).
    destruct (Hfacts _ _ Hf) as (Hnd & Hsrc & _ & Hled & _ & Href).
    unfold JsMap.size.
    rewrite <- (count_if_keys (fun _ => true) g L Hnd HL).
    + unfold count_if. clear. induction g as [|e g IH]; simpl; congruence.
    + intros k. rewrite Hiff. split.
      * intros [Hk|Hk].
        -- destruct (Hled k Hk) as (info & _ & Hi & _). exists info. auto.
        -- destruct (Href k Hk) as (info & Hi). exists info. auto.
      * intros (info & Hi & _). eapply Hsrc; eassumption.
  - intros n L Hin HL Hiff.
    destruct (Hg _ Hin (fun H => H)) as (g & p1 & Hf & ->).
    destruct (Hfacts _ _ Hf) as (Hnd & Hsrc & _ & Hled & Horph & _).
    apply count_if_keys; [exact Hnd|exact HL|].
    intros k. rewrite Hiff. split.
    + intros [Hk Hnr]. destruct (Hled k Hk) as (info & _ & Hi & _).
      exists info. split; [exact Hi|]. simpl.
      destruct (isOrphan info) eqn:Ho; [reflexivity|].
      exfalso. apply Hnr. apply (Horph _ _ Hi). exact Ho.
    + intros (info & Hi & Ho). simpl in Ho.
      assert (Hnr : ~ referenced w k).
      { intros Hr. apply (Horph _ _ Hi) in Hr. congruence. }
      split; [|exact Hnr].
      destruct (Hsrc _ _ Hi) as [H|H]; [exact H|contradiction].
  - intros n Hin Hnd.
    destruct (Hg _ Hin (fun H => H)) as (g & p1 & Hf & ->).
    eapply reconciled_graph_tags; eassumption.
Qed.

(** A witness for X12: the report on Scenario A counts four package
    versions. *)
Lemma report_counts_exact_witness :
  4%nat = length [Some D0; Some D1; Some D2; Some D9].
Proof.
  destruct (report_counts_exact [] false worldA) as [H _].
  apply (H 4%nat [Some D0; Some D1; Some D2; Some D9]).
  - vm_compute. auto.
  - repeat constructor; simpl; intuition discriminate.
  - intros k. split.
    + intros [<-|[<-|[<-|[<-|[]]]]];
        [exists pkgD0|exists pkgD1|exists pkgD2|exists pkgD9];
        simpl; auto 6.
    + intros (pkg & Hp & ->). simpl in Hp.
      destruct Hp as [<-|[<-|[<-|[<-|[]]]]]; simpl; auto 6.
Defined.

(** ** What a completed loop has reported *)

Lemma visit_logs :
  forall api o dg info st st',
    visit api o (Some dg, info) st = (None, st') ->
    (isOrphan info = true ->
       In (WarnOrphan (pi_id info) (trunc8 dg) o) (trace (loproc st')))
    /\ (pi_id info = None ->
          exists a b,
            In (WarnMissingImage (trunc8 dg) a b) (trace (loproc st'))).
Proof.
  intros api o dg info st st' Hv.
  visit_cases; inversion Hv; subst; simpl; split; intros H;
    try discriminate; try congruence; try (do 2 eexists);
    repeat rewrite in_app_iff; simpl; eauto 10.
Qed.

Lemma emits_In :
  forall Q p p' ev, emits Q p p' -> In ev (trace p) -> In ev (trace p').
Proof.
  intros Q p p' ev (t & -> & _) Hin. simpl. apply in_or_app. left. exact Hin.
Qed.

Lemma loop_entries_logs :
  forall api o todo st st' dg info,
    loop_entries api o todo st = (None, st') ->
    In (Some dg, info) todo ->
    (isOrphan info = true ->
       In (WarnOrphan (pi_id info) (trunc8 dg) o) (trace (loproc st')))
    /\ (pi_id info = None ->
          exists a b,
            In (WarnMissingImage (trunc8 dg) a b) (trace (loproc st'))).
Proof.
  intros api o todo. induction todo as [|e todo IH];
    intros st st' dg info Hl Hin; simpl in Hl; [destruct Hin|].
  destruct (visit api o e st) as [[x|] st1] eqn:Hv; [discriminate|].
  destruct Hin as [->|Hin]; [|eapply IH; eassumption].
  destruct (visit_logs _ _ _ _ _ _ Hv) as [H1 H2].
  pose proof (loop_entries_emits _ _ _ _ _ _ Hl) as He.
  split.
  - intros Ho. eapply emits_In; [exact He|apply H1; exact Ho].
  - intros Hi. destruct (H2 Hi) as (a & b & Hab). exists a, b.
    eapply emits_In; eassumption.
Qed.

Lemma delete_loop_logs :
  forall api o g p st dg info,
    delete_loop api o g p = (None, st) ->
    In (Some dg, info) g ->
    (isOrphan info = true ->
       In (WarnOrphan (pi_id info) (trunc8 dg) o) (trace (loproc st)))
    /\ (pi_id info = None ->
          exists a b,
            In (WarnMissingImage (trunc8 dg) a b) (trace (loproc st))).
Proof.
  intros api o g p st dg info Hl Hin. unfold delete_loop in Hl.
  cbn [loop_rounds] in Hl.
  destruct (loop_entries api o g _) as [[x|] st1] eqn:He; [discriminate|].
  change (loop_rounds 2 api o (skipn (length (lmap
            {| lmap := g; deletedCount := 0; loproc := p |})) (lmap st1)) st1
          = (None, st)) in Hl.
  pose proof (loop_rounds_emits _ _ _ _ _ _ _ Hl) as Hm.
  destruct (loop_entries_logs _ _ _ _ _ _ _ He Hin) as [H1 H2].
  split.
  - intros Ho. eapply emits_In; [exact Hm|apply H1; exact Ho].
  - intros Hi. destruct (H2 Hi) as (a & b & Hab). exists a, b.
    eapply emits_In; eassumption.
Qed.

(** A delete or report command that ends not aborted has run its loop to
    the end on the reconciled graph. *)
Lemma delete_success_loop :
  forall tgs o w,
    reason (main (DeleteCmd tgs o) w) = None ->
    exists g p1 p2 st,
      findOrphanOrTaggedPackageVersions tgs w proc0 = (Returns g, p1)
      /\ delete_loop (deleteApi w) o g p2 = (None, st)
      /\ forall ev, In ev (trace (loproc st)) ->
           In ev (trace (main (DeleteCmd tgs o) w)).
Proof.
  intros tgs o w Hm.
  destruct (runCmd (DeleteCmd tgs o) w proc0) as [[[]|e|] p] eqn:Hr.
  2: { exfalso. revert Hm. unfold main. rewrite Hr. unfold controller_abort.
       destruct (reason (exitCode_or_1 p)) eqn:Hre; [congruence|].
       simpl. discriminate. }
  2: { exfalso. rewrite (main_never _ _ _ Hr) in Hm.
       exact (runCmd_never _ _ _ Hr Hm). }
  unfold main in Hm |- *. rewrite Hr in Hm |- *.
  - simpl in Hr.
    destruct (delete_cmd_trace _ _ _ _ _ Hr)
      as [[Hne _]|(_ & g & p1 & p2 & st & tl & Hf & Hs & Hl & Hr2 & F2 & Fl
                   & Hrp & El & Et)]; [congruence|].
    exists g, p1, p2, st. split; [exact Hf|]. split; [exact Hl|].
    intros ev Hin. rewrite Et. rewrite El in Hin.
    rewrite app_assoc. apply in_or_app. left. exact Hin.
Qed.

(** X13. A delete or report command that ends not aborted has reported
    every orphan and every missing image: it has warned of an orphan
    package version for every ledger record whose digest no index
    references, and of a missing image for every digest that an index
    references and that is the digest of no ledger record. *)
Theorem report_findings_complete :
  forall (tgs : list Tag) (deleteOrphans : bool) (w : World),
    reason (main (DeleteCmd tgs deleteOrphans) w) = None ->
    (forall pkg : PackageVersion,
        In pkg (ledger w) -> ~ referenced w (Some (pv_name pkg)) ->
        exists i : Z,
          In (WarnOrphan (Some i) (trunc8 (pv_name pkg)) deleteOrphans)
             (trace (main (DeleteCmd tgs deleteOrphans) w)))
    /\ (forall dg : Digest,
          referenced w (Some dg) -> ~ ledger_digest w (Some dg) ->
          exists (indexShortDg : string) (indexTags : list Tag),
            In (WarnMissingImage (trunc8 dg) indexShortDg indexTags)
               (trace (main (DeleteCmd tgs deleteOrphans) w))).
Proof.
  intros tgs o w Hm.
  destruct (delete_success_loop _ _ _ Hm) as (g & p1 & p2 & st & Hf & Hl & Hin).
  pose proof (reconciled_graph_node_ok _ _ _ _ _ Hf) as Fn.
  rewrite Forall_forall in Fn. split.
  - intros pkg Hp Hnr.
    destruct (reconciled_graph_ids _ _ _ _ Hf pkg Hp) as (info & i & Hg & Hi).
    pose proof (get_In _ _ _ Hg) as Hgi.
    assert (Ho : isOrphan info = true).
    { destruct (isOrphan info) eqn:Ho; [reflexivity|].
      exfalso. apply Hnr. destruct (Fn _ Hgi) as (_ & Href & _).
      apply Href. exact Ho. }
    destruct (delete_loop_logs _ _ _ _ _ _ _ Hl Hgi) as [H1 _].
    exists i. apply Hin. rewrite <- Hi. apply H1. exact Ho.
  - intros dg Href Hnl.
    destruct (resolved_inv_final _ _ _ _ Hf _ Href) as (info & Hg & _).
    pose proof (get_In _ _ _ Hg) as Hgi.
    assert (Hi : pi_id info = None).
    { destruct (pi_id info) as [i|] eqn:Hi; [|reflexivity].
      exfalso. apply Hnl. destruct (Fn _ Hgi) as (Hid & _).
      destruct (Hid i Hi) as (pkg & Hp & _ & Hk). exists pkg. auto. }
    destruct (delete_loop_logs _ _ _ _ _ _ _ Hl Hgi) as [_ H2].
    destruct (H2 Hi) as (a & b & Hab). exists a, b. apply Hin. exact Hab.
Qed.

(** A witness for X13: the report on Scenario A warns of the orphan
    [D9]. *)
Lemma report_findings_complete_witness :
  exists i : Z,
    In (WarnOrphan (Some i) (trunc8 D9) false)
       (trace (main (DeleteCmd [] false) worldA)).
Proof.
  destruct (report_findings_complete [] false worldA) as [H _].
  - vm_compute. reflexivity.
  - apply (H pkgD9).
    + simpl. auto.
    + intros (q & Hq & Hqi & Hl). simpl in Hq.
      destruct Hq as [<-|[<-|[<-|[<-|[]]]]]; try discriminate Hqi.
      destruct Hl as [Hl|Hl]; [discriminate|].
      vm_compute in Hl. intuition discriminate.
Defined.

(** ** No package version is requested twice *)

Lemma visit_deletions_one :
  forall api o e st r st',
    visit api o e st = (r, st') ->
    exists ds,
      deletions (trace (loproc st')) = deletions (trace (loproc st)) ++ ds
      /\ (ds = [] \/ ds = eligible_ids o [e] /\ length ds = 1%nat).
Proof.
  intros api o [d info] st r st' Hv.
  visit_cases; inversion Hv; subst; simpl;
    repeat rewrite deletions_app; simpl; repeat rewrite app_nil_r.
  all: first
         [ exists []; split; [rewrite app_nil_r; reflexivity|left; reflexivity]
         | exists [z]; split;
             [unfold deletions; simpl; rewrite ?app_nil_r; reflexivity
             |right; split; [|reflexivity];
              unfold eligible_ids, eligible; simpl;
              repeat match goal with
                     | H : pi_id _ = _ |- _ => rewrite H
                     | H : isOrphan _ = _ |- _ => rewrite H
                     | H : _ || _ = _ |- _ => rewrite H
                     end; reflexivity] ].
Qed.

Lemma NoDup_app_disjoint :
  forall {A} (l1 l2 : list A) a,
    NoDup (l1 ++ l2) -> In a l1 -> In a l2 -> False.
Proof.
  intros A l1. induction l1 as [|x l1 IH]; intros l2 a Hnd H1 H2;
    [destruct H1|].
  simpl in Hnd. inversion Hnd as [|? ? Hn Hnd']; subst.
  destruct H1 as [->|H1].
  - apply Hn. apply in_or_app. right. exact H2.
  - eapply IH; eassumption.
Qed.

Lemma NoDup_map_inj :
  forall {A B} (f : A -> B) (l : list A) a b,
    NoDup (map f l) -> In a l -> In b l -> f a = f b -> a = b.
Proof.
  intros A B f l. induction l as [|x l IH]; intros a b Hnd Ha Hb Hf;
    [destruct Ha|].
  simpl in Hnd. inversion Hnd as [|? ? Hn Hnd']; subst.
  destruct Ha as [->|Ha]; destruct Hb as [->|Hb].
  - reflexivity.
  - exfalso. apply Hn. rewrite Hf. apply in_map. exact Hb.
  - exfalso. apply Hn. rewrite <- Hf. apply in_map. exact Ha.
  - eapply IH; eassumption.
Qed.

Lemma loop_entries_deletions_nodup :
  forall api o todo st r st',
    loop_entries api o todo st = (r, st') ->
    NoDup (eligible_ids o todo) ->
    exists ds,
      deletions (trace (loproc st')) = deletions (trace (loproc st)) ++ ds
      /\ NoDup ds
      /\ forall i, In i ds -> In i (eligible_ids o todo).
Proof.
  intros api o todo. induction todo as [|e todo IH]; intros st r st' Hl Hnd;
    simpl in Hl.
  - inversion Hl; subst. exists []. rewrite app_nil_r.
    split; [reflexivity|]. split; [constructor|intros i []].
  - change (e :: todo) with ([e] ++ todo) in Hnd |- *.
    rewrite eligible_ids_app in Hnd.
    destruct (visit api o e st) as [[x|] st1] eqn:Hv.
    + inversion Hl; subst.
      destruct (visit_deletions_one _ _ _ _ _ _ Hv) as (ds & Hd & Hds).
      exists ds. split; [exact Hd|]. destruct Hds as [->|[-> _]].
      * split; [constructor|intros i []].
      * split; [eapply NoDup_app_remove_r; exact Hnd|].
        intros i Hi. rewrite eligible_ids_app. apply in_or_app. left. exact Hi.
    + destruct (visit_deletions_one _ _ _ _ _ _ Hv) as (ds1 & Hd1 & Hds1).
      destruct (IH _ _ _ Hl (NoDup_app_remove_l _ _ Hnd))
        as (ds2 & Hd2 & Hn2 & Hin2).
      exists (ds1 ++ ds2).
      split; [rewrite Hd2, Hd1, app_assoc; reflexivity|].
      destruct Hds1 as [->|[-> _]].
      * split; [exact Hn2|].
        intros i Hi. rewrite eligible_ids_app. apply in_or_app. right. auto.
      * split.
        -- apply NoDup_app;
             [eapply NoDup_app_remove_r; exact Hnd|exact Hn2|].
           intros a Ha Hb.
           exact (NoDup_app_disjoint _ _ a Hnd Ha (Hin2 a Hb)).
        -- intros i Hi. rewrite eligible_ids_app. apply in_app_iff in Hi.
           apply in_or_app. destruct Hi; [left|right]; auto.
Qed.

Lemma loop_rounds_deletions_nodup :
  forall n api o todo st r st',
    loop_rounds n api o todo st = (r, st') ->
    NoDup (eligible_ids o todo) ->
    exists ds,
      deletions (trace (loproc st')) = deletions (trace (loproc st)) ++ ds
      /\ NoDup ds
      /\ forall i, In i ds -> In i (eligible_ids o todo).
Proof.
  induction n as [|n IH]; intros api o todo st r st' Hl Hnd; simpl in Hl.
  - inversion Hl; subst. exists []. rewrite app_nil_r.
    split; [reflexivity|]. split; [constructor|intros i []].
  - destruct (loop_entries api o todo st) as [[x|] st1] eqn:He.
    + inversion Hl; subst. eapply loop_entries_deletions_nodup; eassumption.
    + destruct (loop_entries_deletions_nodup _ _ _ _ _ _ He Hnd)
        as (ds1 & Hd1 & Hn1 & Hin1).
      destruct (loop_entries_frame _ _ _ _ _ _ He) as [_ (ex & E1 & F1)].
      rewrite E1, skipn_appended in Hl.
      pose proof (eligible_ids_default o _ F1) as Hex.
      destruct (IH _ _ _ _ _ _ Hl) as (ds2 & Hd2 & _ & Hin2);
        [rewrite Hex; constructor|].
      assert (E2 : ds2 = []).
      { destruct ds2 as [|z l]; [reflexivity|].
        exfalso. specialize (Hin2 z (or_introl eq_refl)).
        rewrite Hex in Hin2. destruct Hin2. }
      subst ds2. rewrite app_nil_r in Hd2.
      exists ds1. split; [rewrite Hd2; exact Hd1|]. split; assumption.
Qed.

(** The nodes of a reconciled graph that satisfy the deletion predicate
    have distinct ids when the ids of the ledger are distinct. *)
Lemma eligible_ids_NoDup :
  forall tgs w o (g : PkgMap),
    NoDup (map fst g) -> Forall (node_ok tgs w) g ->
    NoDup (map pv_id (ledger w)) ->
    NoDup (eligible_ids o g).
Proof.
  intros tgs w o g. induction g as [|[k info] g IH]; intros Hk F Hid;
    [constructor|].
  change ((k, info) :: g) with ([(k, info)] ++ g).
  rewrite eligible_ids_app.
  simpl in Hk. inversion Hk as [|? ? Hn Hk']; subst.
  inversion F as [|? ? Hok F']; subst.
  apply NoDup_app; [|apply IH; assumption|].
  - unfold eligible_ids. simpl.
    destruct (pi_id info); [destruct (eligible o info)|]; simpl;
      repeat constructor; intros [].
  - intros a Ha Hb. unfold eligible_ids in Ha, Hb. simpl in Ha.
    destruct (pi_id info) as [i|] eqn:Hi; [|destruct Ha].
    destruct (eligible o info); [|destruct Ha].
    simpl in Ha. destruct Ha as [<-|[]].
    apply in_flat_map in Hb. destruct Hb as ([k' info'] & Hin' & Hb).
    simpl in Hb.
    destruct (pi_id info') as [i'|] eqn:Hi'; [|destruct Hb].
    destruct (eligible o info'); [|destruct Hb].
    destruct Hb as [->|[]].
    destruct Hok as (Hp & _). destruct (Hp i Hi) as (pkg & Hl & Hpi & Hkn).
    rewrite Forall_forall in F'. destruct (F' _ Hin') as (Hp' & _).
    destruct (Hp' i Hi') as (pkg' & Hl' & Hpi' & Hkn').
    simpl in Hkn, Hkn'.
    assert (Heq : pkg = pkg')
      by (apply (NoDup_map_inj pv_id (ledger w)); congruence).
    subst pkg'. apply Hn. rewrite Hkn, <- Hkn'.
    apply (in_map fst) in Hin'. exact Hin'.
Qed.

(** X14. A delete command requests the deletion of no package version
    twice, whether it completes or fails on the way, when the ids of the
    ledger's records are distinct. *)
Theorem no_version_deleted_twice :
  forall (tgs : list Tag) (deleteOrphans : bool) (w : World),
    NoDup (map pv_id (ledger w)) ->
    NoDup (deletions (trace (main (DeleteCmd tgs deleteOrphans) w))).
Proof.
  intros tgs o w Hid.
  destruct (runCmd (DeleteCmd tgs o) w proc0) as [r p] eqn:Hr.
  rewrite (main_deletions _ _ _ _ Hr). simpl in Hr.
  destruct (delete_cmd_structure _ _ _ _ _ _ Hr)
    as [(_ & Ha & _)|(g & p1 & p2 & rl & st & Hf & Hr1 & Hs & Ha & Hl & -> & ->)].
  - rewrite (deletions_none _ (appends_from_proc0 _ _ Ha)). constructor.
  - unfold delete_loop in Hl.
    destruct (loop_rounds_deletions_nodup _ _ _ _ _ _ _ Hl) as (ds & Hd & Hn & _).
    + eapply eligible_ids_NoDup;
        [eapply reconciled_graph_keys; exact Hf
        |eapply reconciled_graph_node_ok; exact Hf|exact Hid].
    + simpl in Hd.
      rewrite (deletions_none _ (appends_from_proc0 _ _ Ha)) in Hd.
      simpl in Hd.
      destruct rl; simpl; [rewrite Hd; exact Hn|].
      rewrite deletions_app, Hd.
      change (deletions [InfoDeletedCount (deletedCount st)]) with (@nil Z).
      rewrite app_nil_r. exact Hn.
Qed.

(** A witness for X14: Scenario A. *)
Lemma no_version_deleted_twice_witness :
  NoDup (deletions (trace (main (DeleteCmd ["v1"] false) worldA))).
Proof.
  apply (no_version_deleted_twice ["v1"] false worldA).
  simpl. repeat constructor; simpl; intuition discriminate.
Defined.
